(** * MEGA SDK transfer engine: a shallow embedding of [transferslot.cpp]
    and of the [LocalNode] cache record of [node.cpp].

    Part I holds the definitions, one module per component; Part II holds
    the lemmas and theorems about them.

    Conventions.  Machine integers are [Z] with their wrap-around written
    out ([to_u64], [to_i64], ...); byte strings are [list byte]; a C++
    [std::string] used as a URL is a [list ascii]; a nullable pointer is an
    [option].  [assert] is compiled out (the release build): the condition
    of an assertion a theorem talks about is given a definition of its
    own. *)

From Stdlib Require Import Ascii String.
From Stdlib Require Import ZArith List Lia Bool.
From Stdlib Require Import Strings.Byte.
From Stdlib Require Import Permutation.
Import ListNotations.
Local Open Scope Z_scope.

(* ===================================================================== *)
(** * Part I: definitions                                                 *)
(* ===================================================================== *)

(** ** Bytes and fixed-width integers *)
Module Bytes.

Definition bytes := list byte.

Definition Z_of_byte (b : byte) : Z := Z.of_N (Byte.to_N b).

Definition byte_of_Z (z : Z) : byte :=
  match Byte.of_N (Z.to_N (z mod 256)) with
  | Some b => b
  | None => x00
  end.

(** Casts to the unsigned and signed machine types of the source. *)
Definition to_u16 (z : Z) : Z := z mod 2 ^ 16.
Definition to_u32 (z : Z) : Z := z mod 2 ^ 32.
Definition to_u64 (z : Z) : Z := z mod 2 ^ 64.
Definition to_i32 (z : Z) : Z := (z + 2 ^ 31) mod 2 ^ 32 - 2 ^ 31.
Definition to_i64 (z : Z) : Z := (z + 2 ^ 63) mod 2 ^ 64 - 2 ^ 63.

(** [n] bytes of [v], least significant first (the in-memory image of an
    integer on the little-endian hosts the cache format is written on). *)
Fixpoint le_encode (n : nat) (v : Z) : bytes :=
  match n with
  | O => []
  | S k => byte_of_Z v :: le_encode k (v / 256)
  end.

Fixpoint le_decode (l : bytes) : Z :=
  match l with
  | [] => 0
  | b :: t => Z_of_byte b + 256 * le_decode t
  end.

Definition is_zero_byte (b : byte) : bool := Byte.eqb b x00.

End Bytes.

(** ** The cache record writer and reader ([CacheableWriter],
    [CacheableReader]) *)
Module Cacheable.
Import Bytes.

(** Modelled from the spec: [CacheableWriter] (mega/utils.h) is not among
    the source files.  The writer appends to the destination string; the
    field layouts are those of the transfer-record serialization of the
    spec, section 6: [size] (i64), [fsid] (u64), [parent-dbid] (u32),
    [node-handle] (6 bytes), a u16-length string, raw binary, a
    variable-length 64-bit integer, a byte, a 1-byte expansion-flag
    header, and an optional string (a u16 length, zero when absent). *)
Definition serializei64 (dest : bytes) (field : Z) : bytes :=
  dest ++ le_encode 8 field.

Definition serializehandle (dest : bytes) (field : Z) : bytes :=
  dest ++ le_encode 8 field.

Definition serializeu32 (dest : bytes) (field : Z) : bytes :=
  dest ++ le_encode 4 field.

Definition NODEHANDLE : nat := 6.

Definition serializenodehandle (dest : bytes) (field : Z) : bytes :=
  dest ++ le_encode NODEHANDLE field.

(** The length is cast to [unsigned short]; that many bytes follow. *)
Definition serializestring (dest : bytes) (field : bytes) : bytes :=
  let ll := to_u16 (Z.of_nat (length field)) in
  dest ++ le_encode 2 ll ++ firstn (Z.to_nat ll) field.

Definition serializebinary (dest : bytes) (data : bytes) (len : nat) : bytes :=
  dest ++ firstn len data.

(** [Serialize64::serialize]: the bytes of [v] up to its most significant
    non-zero byte, least significant first. *)
Fixpoint serialize64_digits (fuel : nat) (v : Z) : bytes :=
  match fuel with
  | O => []
  | S k => if v =? 0 then [] else byte_of_Z v :: serialize64_digits k (v / 256)
  end.

(** A count byte, then that many bytes. *)
Definition Serialize64_serialize (v : Z) : bytes :=
  let digits := serialize64_digits 8 (to_u64 v) in
  byte_of_Z (Z.of_nat (length digits)) :: digits.

Definition serializecompressed64 (dest : bytes) (field : Z) : bytes :=
  dest ++ Serialize64_serialize field.

Definition serializebyte (dest : bytes) (field : byte) : bytes :=
  dest ++ [field].

Definition byte_of_bool (b : bool) : byte := if b then x01 else x00.

Definition serializeexpansionflags (dest : bytes) (b0 : bool) : bytes :=
  dest ++ [byte_of_bool b0].

Definition serializepstr (dest : bytes) (field : option bytes) : bytes :=
  match field with
  | None => dest ++ le_encode 2 0
  | Some s =>
      let ll := to_u16 (Z.of_nat (length s)) in
      dest ++ le_encode 2 ll ++ firstn (Z.to_nat ll) s
  end.

(** Modelled from the spec: [CacheableReader] (mega/utils.h) is not among
    the source files.  The reader holds the bytes between its read pointer
    and the end of the input; every [unserialize*] either fails, leaving
    the caller to give up, or returns the field and the advanced reader.
    It mirrors the writer above field by field ("Reader must reject short
    inputs"). *)
Definition reader := bytes.

Definition read (A : Type) := reader -> option (A * reader).

Definition ret {A} (a : A) : read A := fun r => Some (a, r).

Definition bind {A B} (m : read A) (k : A -> read B) : read B :=
  fun r => match m r with
           | None => None
           | Some (a, r') => k a r'
           end.

Definition take (n : nat) : read bytes :=
  fun r => if (length r <? n)%nat then None else Some (firstn n r, skipn n r).

Definition hasdataleft (r : reader) : bool := negb (length r =? 0)%nat.

Definition unserializei64 : read Z :=
  bind (take 8) (fun b => ret (to_i64 (le_decode b))).

Definition unserializehandle : read Z :=
  bind (take 8) (fun b => ret (le_decode b)).

Definition unserializeu32 : read Z :=
  bind (take 4) (fun b => ret (le_decode b)).

Definition unserializenodehandle : read Z :=
  bind (take NODEHANDLE) (fun b => ret (le_decode b)).

Definition unserializestring : read bytes :=
  bind (take 2) (fun l => take (Z.to_nat (le_decode l))).

Definition unserializebinary (len : nat) : read bytes := take len.

(** [Serialize64::unserialize]: the count byte must not exceed 8 and the
    counted bytes must be present. *)
Definition unserializecompressed64 : read Z :=
  bind (take 1) (fun c =>
    let p := le_decode c in
    if 8 <? p then (fun _ => None)
    else bind (take (Z.to_nat p)) (fun b => ret (le_decode b))).

Definition unserializebyte : read byte :=
  bind (take 1) (fun b => ret (nth 0 b x00)).

(** [usedFlagCount] flags may be set; a set flag beyond them is a record
    of a later version and is refused. *)
Definition unserializeexpansionflags (usedFlagCount : nat) : read byte :=
  bind (take 1) (fun b =>
    let f := nth 0 b x00 in
    if (usedFlagCount =? 0)%nat && negb (is_zero_byte f)
    then (fun _ => None) else ret f).

Definition unserializecstr (removeNull : bool) : read bytes :=
  bind (take 2) (fun l =>
    let len := Z.to_nat (le_decode l) in
    bind (take len) (fun s =>
      ret (if (len =? 0)%nat then []
           else firstn (len - (if removeNull then 1 else 0)) s))).

End Cacheable.

(** ** The [LocalNode] cache record ([node.cpp]) *)
Module LocalNodes.
Import Bytes Cacheable.

(** [nodetype_t] is an enumeration whose underlying integer the record
    stores ([type ? -type : size]); its declaration (mega/types.h) is not
    among the source files, the enumerators below are the ones
    [LocalNode::serialize] and [LocalNode::unserialize] name. *)
Definition nodetype_t := Z.
Definition TYPE_UNKNOWN : nodetype_t := -1.
Definition FILENODE : nodetype_t := 0.
Definition FOLDERNODE : nodetype_t := 1.

(** [UNDEF] is [~(handle)0]. *)
Definition UNDEF : Z := 2 ^ 64 - 1.

Record FileFingerprint := mkFileFingerprint {
  size : Z;            (* m_off_t *)
  mtime : Z;           (* m_time_t *)
  crc : bytes;         (* std::array<int32_t, 4>, as its 16 bytes *)
  isvalid : bool
}.

(** [sizeof(syncedFingerprint.crc)] *)
Definition sizeof_crc : nat := 16.

(** The function-local [static FileFingerprint zeroFingerprint] of
    [serialize]; only its [crc] and [mtime] are read. *)
Definition zeroFingerprint : FileFingerprint :=
  {| size := 0; mtime := 0; crc := repeat x00 sizeof_crc; isvalid := false |}.

(** The members of [LocalNode] that [serialize] reads or [unserialize]
    writes.  [parent] is the parent node's [dbid] when the parent pointer
    is not null; a [LocalPath] is its platform-encoded string. *)
Record LocalNode := mkLocalNode {
  type : nodetype_t;
  syncedFingerprint : FileFingerprint;
  scannedFingerprint : FileFingerprint;
  fsid_lastSynced : Z;           (* handle *)
  fsid_asScanned : Z;            (* handle *)
  parent : option Z;             (* parent->dbid *)
  parent_dbid : Z;               (* uint32_t *)
  syncedCloudNodeHandle : Z;     (* NodeHandle, as8byte() / set6byte() *)
  localname : bytes;
  slocalname : option bytes;     (* unique_ptr<LocalPath> *)
  slocalname_in_db : bool;
  mSyncable : bool
}.

(** The assertions at the head of [serialize]. *)
Definition serialize_asserts (l : LocalNode) : bool :=
  negb (type l =? TYPE_UNKNOWN)
  && (negb (type l =? FILENODE)
      || isvalid (syncedFingerprint l) || isvalid (scannedFingerprint l)).

(** [bool LocalNode::serialize(string* d)]: appends the record to [d]. *)
Definition serialize (l : LocalNode) (d : bytes) : bool * bytes :=
  let size0 := if isvalid (syncedFingerprint l)
               then size (syncedFingerprint l)
               else size (scannedFingerprint l) in
  let size1 := if size0 <? 0 then 0 else size0 in
  let w := d in
  let w := serializei64 w (if type l =? 0 then size1 else - type l) in
  let w := serializehandle w (fsid_lastSynced l) in
  let w := serializeu32 w (match parent l with Some dbid => dbid | None => 0 end) in
  let w := serializenodehandle w (syncedCloudNodeHandle l) in
  let w := serializestring w (localname l) in
  let w :=
    if type l =? FILENODE then
      if isvalid (syncedFingerprint l) then
        let w := serializebinary w (crc (syncedFingerprint l)) sizeof_crc in
        serializecompressed64 w (mtime (syncedFingerprint l))
      else
        let w := serializebinary w (crc zeroFingerprint) sizeof_crc in
        serializecompressed64 w (mtime zeroFingerprint)
    else w in
  let w := serializebyte w (byte_of_bool (mSyncable l)) in
  let w := serializeexpansionflags w true in
  let w := serializepstr w (slocalname l) in
  (true, w).

(** The fields [unserialize] parses after the type/size combo, in the
    order of its [||] chain; each optional field keeps the initial value of
    its local variable when it is not read. *)
Record fields := mkFields {
  f_fsid : Z;
  f_parent_dbid : Z;
  f_h : Z;
  f_localname : bytes;
  f_crc : bytes;
  f_mtime : Z;
  f_syncable : byte;
  f_expansionflags0 : byte;
  f_shortname : bytes
}.

Definition unserialize_fields (type : nodetype_t) : read fields :=
  bind unserializehandle (fun fsid =>
  bind unserializeu32 (fun parent_dbid =>
  bind unserializenodehandle (fun h =>
  bind unserializestring (fun localname =>
  bind (if type =? FILENODE then unserializebinary sizeof_crc
        else ret (repeat x00 sizeof_crc)) (fun crc =>
  bind (if type =? FILENODE then unserializecompressed64 else ret 0) (fun mtime =>
  bind (fun r => if hasdataleft r then unserializebyte r else ret x01 r)
       (fun syncable =>
  bind (fun r => if hasdataleft r then unserializeexpansionflags 1 r
                 else ret x00 r) (fun expansionflags0 =>
  bind (if negb (is_zero_byte expansionflags0) then unserializecstr false
        else ret []) (fun shortname =>
  ret (mkFields fsid parent_dbid h localname crc mtime syncable
                expansionflags0 shortname)))))))))).

(** The shortest input [unserialize] looks at: type/size combo, fsid,
    parent dbid, handle, localname length. *)
Definition min_record_size : nat := 8 + 8 + 4 + NODEHANDLE + 2.

(** [LocalNode::unserialize] up to and including the construction of the
    node, together with the reader as it stands at [assert(!r.hasdataleft())].
    [fresh] is the default-constructed [new LocalNode()]; the [Sync*] and
    the iterators into its maps are not part of the record. *)
Definition unserialize_run (fresh : LocalNode) (d : bytes)
  : option (LocalNode * reader) :=
  if (length d <? min_record_size)%nat then None
  else
    match unserializei64 d with
    | None => None
    | Some (size0, r) =>
        let '(type1, size1) :=
          if (size0 <? 0) && (- FOLDERNODE <=? size0)
          then (- size0, 0) else (FILENODE, size0) in
        match unserialize_fields type1 r with
        | None => None
        | Some (f, r') =>
            let shortname := f_shortname f in
            Some ({| type := type1;
                     syncedFingerprint :=
                       {| size := size1;
                          mtime := to_i64 (f_mtime f);
                          crc := f_crc f;
                          isvalid := negb (f_mtime f =? 0) |};
                     scannedFingerprint := scannedFingerprint fresh;
                     fsid_lastSynced := f_fsid f;
                     fsid_asScanned := UNDEF;
                     parent := None;
                     parent_dbid := f_parent_dbid f;
                     syncedCloudNodeHandle := f_h f;
                     localname := f_localname f;
                     slocalname :=
                       match shortname with [] => None | _ => Some shortname end;
                     slocalname_in_db := negb (is_zero_byte (f_expansionflags0 f));
                     mSyncable := Byte.eqb (f_syncable f) x01 |}, r')
        end
    end.

(** [unique_ptr<LocalNode> LocalNode::unserialize(Sync*, const string* d)];
    [None] is the null pointer. *)
Definition unserialize (fresh : LocalNode) (d : bytes) : option LocalNode :=
  option_map fst (unserialize_run fresh d).

(** The condition of [assert(!r.hasdataleft())], evaluated where the
    source evaluates it (after a successful parse). *)
Definition unserialize_trailing_data (fresh : LocalNode) (d : bytes) : bool :=
  match unserialize_run fresh d with
  | Some (_, r) => hasdataleft r
  | None => false
  end.

(** Every member holds a value of its C++ type: [nodetype_t] is an
    [int] enumeration, [m_off_t] and [m_time_t] are 64-bit signed, the
    crc is 16 bytes, [handle] is 64-bit unsigned, a [dbid] 32-bit
    unsigned.  Nothing is asked of the node type, of the fingerprints or
    of the names: the assertions of [serialize] are
    [serialize_asserts]. *)
Definition well_typed (l : LocalNode) : Prop :=
  - 2 ^ 31 <= type l < 2 ^ 31
  /\ - 2 ^ 63 <= size (syncedFingerprint l) < 2 ^ 63
  /\ - 2 ^ 63 <= size (scannedFingerprint l) < 2 ^ 63
  /\ - 2 ^ 63 <= mtime (syncedFingerprint l) < 2 ^ 63
  /\ length (crc (syncedFingerprint l)) = sizeof_crc
  /\ 0 <= fsid_lastSynced l < 2 ^ 64
  /\ match parent l with
     | Some dbid => 0 <= dbid < 2 ^ 32
     | None => True
     end
  /\ 0 <= syncedCloudNodeHandle l < 2 ^ 64.

(** Equality of two nodes in the fields the record stores: node type,
    size, fsid, parent dbid, cloud node handle, local name, fingerprint crc
    and mtime, syncable flag, short name.  The parent is a pointer in the
    node that is written and a [parent_dbid] in the node that is read. *)
Definition same_fields (l l' : LocalNode) : Prop :=
  type l' = type l
  /\ size (syncedFingerprint l') = size (syncedFingerprint l)
  /\ fsid_lastSynced l' = fsid_lastSynced l
  /\ parent_dbid l' = match parent l with Some dbid => dbid | None => 0 end
  /\ syncedCloudNodeHandle l' = syncedCloudNodeHandle l
  /\ localname l' = localname l
  /\ crc (syncedFingerprint l') = crc (syncedFingerprint l)
  /\ mtime (syncedFingerprint l') = mtime (syncedFingerprint l)
  /\ mSyncable l' = mSyncable l
  /\ slocalname l' = slocalname l.

(** What the record keeps of a node.  The size is that of the synced
    fingerprint when it is valid and that of the scanned fingerprint
    otherwise, 0 when negative, and no size is kept of a node that is not
    a file. *)
Definition stored_size (l : LocalNode) : Z :=
  if type l =? FILENODE then
    Z.max 0 (if isvalid (syncedFingerprint l)
             then size (syncedFingerprint l)
             else size (scannedFingerprint l))
  else 0.

(** The crc and the mtime are kept of a file whose synced fingerprint is
    valid; otherwise they are zero. *)
Definition stored_crc (l : LocalNode) : bytes :=
  if (type l =? FILENODE) && isvalid (syncedFingerprint l)
  then crc (syncedFingerprint l) else repeat x00 sizeof_crc.

Definition stored_mtime (l : LocalNode) : Z :=
  if (type l =? FILENODE) && isvalid (syncedFingerprint l)
  then mtime (syncedFingerprint l) else 0.

(** The six low bytes of the cloud node handle are kept; the undefined
    handle, all ones, comes back as six bytes of ones. *)
Definition stored_handle (l : LocalNode) : Z :=
  syncedCloudNodeHandle l mod 2 ^ 48.

(** Of a name the record keeps as many bytes as its length says when
    cast to [unsigned short]: all of a name shorter than 65536 bytes. *)
Definition u16_prefix (name : bytes) : bytes :=
  firstn (Z.to_nat (to_u16 (Z.of_nat (length name)))) name.

(** A short name of which nothing is kept, an empty one for a start,
    comes back as none. *)
Definition stored_shortname (l : LocalNode) : option bytes :=
  match slocalname l with
  | Some s => match u16_prefix s with
              | [] => None
              | kept => Some kept
              end
  | None => None
  end.

(** The node [l'] holds what the record keeps of [l]. *)
Definition stored_fields (l l' : LocalNode) : Prop :=
  type l' = type l
  /\ size (syncedFingerprint l') = stored_size l
  /\ fsid_lastSynced l' = fsid_lastSynced l
  /\ parent_dbid l' = match parent l with Some dbid => dbid | None => 0 end
  /\ syncedCloudNodeHandle l' = stored_handle l
  /\ localname l' = u16_prefix (localname l)
  /\ crc (syncedFingerprint l') = stored_crc l
  /\ mtime (syncedFingerprint l') = stored_mtime l
  /\ isvalid (syncedFingerprint l') = negb (stored_mtime l =? 0)
  /\ mSyncable l' = mSyncable l
  /\ slocalname l' = stored_shortname l.

(** The record keeps the node as it is, in the fields of [same_fields]. *)
Definition stored_as_is (l : LocalNode) : Prop :=
  size (syncedFingerprint l) = stored_size l
  /\ syncedCloudNodeHandle l = stored_handle l
  /\ localname l = u16_prefix (localname l)
  /\ crc (syncedFingerprint l) = stored_crc l
  /\ mtime (syncedFingerprint l) = stored_mtime l
  /\ slocalname l = stored_shortname l.

(** The type/size combo. *)
Definition record_combo (l : LocalNode) : Z :=
  if type l =? 0
  then (let size0 := if isvalid (syncedFingerprint l)
                     then size (syncedFingerprint l)
                     else size (scannedFingerprint l) in
        if size0 <? 0 then 0 else size0)
  else - type l.

(** The bytes [serialize] appends, written as one concatenation. *)
Definition record_tail (l : LocalNode) : bytes :=
  le_encode 8 (fsid_lastSynced l)
  ++ le_encode 4 (match parent l with Some dbid => dbid | None => 0 end)
  ++ le_encode NODEHANDLE (syncedCloudNodeHandle l)
  ++ (le_encode 2 (to_u16 (Z.of_nat (length (localname l))))
      ++ firstn (Z.to_nat (to_u16 (Z.of_nat (length (localname l))))) (localname l))
  ++ (if type l =? FILENODE then
        if isvalid (syncedFingerprint l) then
          firstn sizeof_crc (crc (syncedFingerprint l))
          ++ Serialize64_serialize (mtime (syncedFingerprint l))
        else
          firstn sizeof_crc (crc zeroFingerprint)
          ++ Serialize64_serialize (mtime zeroFingerprint)
      else [])
  ++ [byte_of_bool (mSyncable l)]
  ++ [x01]
  ++ match slocalname l with
     | None => le_encode 2 0
     | Some s => le_encode 2 (to_u16 (Z.of_nat (length s)))
                 ++ firstn (Z.to_nat (to_u16 (Z.of_nat (length s)))) s
     end.

(** The default-constructed node [unserialize] starts from matters only
    for members the record does not store. *)
Definition fresh_LocalNode : LocalNode :=
  {| type := TYPE_UNKNOWN;
     syncedFingerprint := zeroFingerprint;
     scannedFingerprint := zeroFingerprint;
     fsid_lastSynced := UNDEF; fsid_asScanned := UNDEF;
     parent := None; parent_dbid := 0;
     syncedCloudNodeHandle := 0;
     localname := []; slocalname := None;
     slocalname_in_db := false; mSyncable := true |}.

(** A file node with a short name, for the round trip. *)
Definition sample_file_node : LocalNode :=
  {| type := FILENODE;
     syncedFingerprint :=
       {| size := 70000; mtime := 1700000000;
          crc := [x01; x02; x03; x04; x05; x06; x07; x08;
                  x09; x0a; x0b; x0c; x0d; x0e; x0f; x10];
          isvalid := true |};
     scannedFingerprint := zeroFingerprint;
     fsid_lastSynced := 4660; fsid_asScanned := UNDEF;
     parent := Some 7; parent_dbid := 0;
     syncedCloudNodeHandle := 81985529216486;
     localname := [x61; x2e; x74; x78; x74];
     slocalname := Some [x41; x7e; x31];
     slocalname_in_db := false; mSyncable := true |}.

(** A file that was scanned and not synced yet: its synced fingerprint
    is not valid (size -1, no mtime, no crc), its scanned fingerprint
    is. *)
Definition sample_scanned_file : LocalNode :=
  {| type := FILENODE;
     syncedFingerprint :=
       {| size := -1; mtime := 0; crc := repeat x00 sizeof_crc;
          isvalid := false |};
     scannedFingerprint :=
       {| size := 700; mtime := 1700000000;
          crc := [x01; x02; x03; x04; x05; x06; x07; x08;
                  x09; x0a; x0b; x0c; x0d; x0e; x0f; x10];
          isvalid := true |};
     fsid_lastSynced := UNDEF; fsid_asScanned := 4660;
     parent := Some 7; parent_dbid := 0;
     syncedCloudNodeHandle := UNDEF;
     localname := [x61; x2e; x74; x78; x74];
     slocalname := None;
     slocalname_in_db := false; mSyncable := true |}.

(** A folder record (type/size combo -1, fsid, parent dbid 2, node handle,
    empty name, syncable byte, expansion flags all clear) followed by
    bytes no field accounts for. *)
Definition folder_record_with_trailing_data : bytes :=
  [xff; xff; xff; xff; xff; xff; xff; xff]
  ++ [x34; x12; x00; x00; x00; x00; x00; x00]
  ++ [x02; x00; x00; x00]
  ++ [x66; x55; x44; x33; x22; x11]
  ++ [x00; x00]
  ++ [x01]
  ++ [x00]
  ++ [x00; x00; x00; x00; x00; x00; x00; x00].

End LocalNodes.

(** ** URLs and the alternative port ([TransferSlot::toggleport]) *)
Module Urls.

Definition url := list ascii.

(** [std::string::npos] is the absent index. *)
Fixpoint index_of (c : ascii) (s : url) : option nat :=
  match s with
  | [] => None
  | a :: t => if Ascii.eqb a c then Some O else option_map S (index_of c t)
  end.

(** [s.find(c, pos)] for a one-character needle: the first index at or
    after [pos] that holds [c]. *)
Definition find (c : ascii) (pos : nat) (s : url) : option nat :=
  option_map (Nat.add pos) (index_of c (skipn pos s)).

(** [s.insert(pos, t)], for [pos <= s.size()]. *)
Definition insert (pos : nat) (t : url) (s : url) : url :=
  firstn pos s ++ t ++ skipn pos s.

(** [s.erase(pos, n)], for [pos <= s.size()]: removes
    [min(n, s.size() - pos)] characters.  [n] is a [size_t]. *)
Definition erase (pos : nat) (n : Z) (s : url) : url :=
  let count := Z.min n (Z.of_nat (length s) - Z.of_nat pos) in
  firstn pos s ++ skipn (pos + Z.to_nat count) s.

(** [!memcmp(s.c_str(), "http:", 5)] *)
Definition is_http (s : url) : bool :=
  match s with
  | "h" :: "t" :: "t" :: "p" :: ":" :: _ => true
  | _ => false
  end%char.

Definition alt_port : url := [":"; "8"; "0"; "8"; "0"]%char.

(** [TransferSlot::toggleport(HttpReqXfer *req)], as the function it
    applies to [req->posturl], the only member it touches. *)
Definition toggleport (posturl : url) : url :=
  if is_http posturl then
    let portendindex := find "/"%char 8 posturl in
    let portstartindex := find ":"%char 8 posturl in
    match portendindex with
    | Some pe =>
        match portstartindex with
        | None => insert pe alt_port posturl
        | Some ps =>
            erase ps (Bytes.to_u64 (Z.of_nat pe - Z.of_nat ps)) posturl
        end
    | None => posturl
    end
  else posturl.

End Urls.

(** ** The chunk MAC map *)
Module ChunkMacs.
Import Bytes.

Record ChunkMAC := mkChunkMAC {
  mac : bytes;          (* byte mac[SymmCipher::BLOCKSIZE] *)
  finished : bool
}.

(** An ordered map from chunk offset to [ChunkMAC]: the entries in
    ascending offset order, one per offset. *)
Definition chunkmac_map := list (Z * ChunkMAC).

Definition BLOCKSIZE : nat := 16.
Definition KEYLENGTH : nat := 16.

Definition xor_byte (a b : byte) : byte :=
  byte_of_Z (Z.lxor (Z_of_byte a) (Z_of_byte b)).

(** Modelled from the spec: [SymmCipher::xorblock(src, dst)] is not among
    the source files.  It XORs the block [src] into [dst] (section 4.2:
    "XOR the chunk's MAC into the accumulator"); the result is the new
    content of [dst].  The source block comes first, as in the body kept
    in comments in [TransferSlot::updateMacInKey], which reads the MAC
    from the second half [k2] of a stored key and calls
    [xorblock(k2, k1)] before and after it replaces that MAC. *)
Fixpoint xorblock (src dst : bytes) : bytes :=
  match dst, src with
  | d :: dst', s :: src' => xor_byte d s :: xorblock src' dst'
  | _, _ => dst
  end.

(** [operator[](pos) = c] on the ordered map. *)
Fixpoint set_entry (pos : Z) (c : ChunkMAC) (m : chunkmac_map) : chunkmac_map :=
  match m with
  | [] => [(pos, c)]
  | (q, d) :: rest =>
      if pos <? q then (pos, c) :: (q, d) :: rest
      else if pos =? q then (pos, c) :: rest
      else (q, d) :: set_entry pos c rest
  end.

(** Modelled from the spec: [chunkmac_map::finishedUploadChunks(other)]
    "merges completed uploader-local MACs in": every entry of [other]
    becomes an entry of the map, marked finished. *)
Definition finishedUploadChunks (m other : chunkmac_map) : chunkmac_map :=
  fold_left (fun acc e => set_entry (fst e) (mkChunkMAC (mac (snd e)) true) acc)
            other m.

End ChunkMacs.

(** ** The transfer *)
Module Transfers.
Import Bytes ChunkMacs.

Inductive direction_t := GET | PUT.

Definition direction_eqb (a b : direction_t) : bool :=
  match a, b with
  | GET, GET | PUT, PUT => true
  | _, _ => false
  end.

(** Modelled from the spec: the error kinds of section 7.  [error] is an
    enumeration over [int] (mega/types.h is not among the source files);
    the codes are those of the MEGA API, and [DAEMON_EFAILED] is the -4
    that the comment in [doio] names. *)
Definition error := Z.
Definition API_OK : error := 0.
Definition API_EINTERNAL : error := -1.
Definition API_EAGAIN : error := -3.
Definition DAEMON_EFAILED : error := -4.
Definition API_EFAILED : error := -5.
Definition API_EKEY : error := -14.
Definition API_EOVERQUOTA : error := -17.
Definition API_EWRITE : error := -20.
Definition API_EREAD : error := -21.

(** The members of [Transfer] the slot reads or writes in the code
    embedded below. *)
Record Transfer := mkTransfer {
  type : direction_t;   (* GET or PUT *)
  size : Z;   (* m_off_t *)
  progresscompleted : Z;   (* m_off_t *)
  metamac : Z;   (* int64_t *)
  currentmetamac : Z;   (* int64_t *)
  hascurrentmetamac : bool;
  chunkmacs : chunkmac_map;
  transferkey : bytes;   (* std::array<byte, SymmCipher::KEYLENGTH> *)
  ctriv : Z;   (* int64_t *)
  filekey : bytes;   (* byte filekey[FILENODEKEYLENGTH] *)
  ultoken : option bytes;   (* unique_ptr<byte[]> *)
  failcount : Z
}.

Definition set_progresscompleted (v : Z) (t : Transfer) : Transfer :=
  {| type := type t; size := size t; progresscompleted := v;
     metamac := metamac t; currentmetamac := currentmetamac t;
     hascurrentmetamac := hascurrentmetamac t; chunkmacs := chunkmacs t;
     transferkey := transferkey t; ctriv := ctriv t; filekey := filekey t;
     ultoken := ultoken t; failcount := failcount t |}.

Definition set_metamac (v : Z) (t : Transfer) : Transfer :=
  {| type := type t; size := size t;
     progresscompleted := progresscompleted t; metamac := v;
     currentmetamac := currentmetamac t;
     hascurrentmetamac := hascurrentmetamac t; chunkmacs := chunkmacs t;
     transferkey := transferkey t; ctriv := ctriv t; filekey := filekey t;
     ultoken := ultoken t; failcount := failcount t |}.

Definition set_currentmetamac (v : Z) (t : Transfer) : Transfer :=
  {| type := type t; size := size t;
     progresscompleted := progresscompleted t; metamac := metamac t;
     currentmetamac := v; hascurrentmetamac := hascurrentmetamac t;
     chunkmacs := chunkmacs t; transferkey := transferkey t;
     ctriv := ctriv t; filekey := filekey t; ultoken := ultoken t;
     failcount := failcount t |}.

Definition set_hascurrentmetamac (v : bool) (t : Transfer) : Transfer :=
  {| type := type t; size := size t;
     progresscompleted := progresscompleted t; metamac := metamac t;
     currentmetamac := currentmetamac t; hascurrentmetamac := v;
     chunkmacs := chunkmacs t; transferkey := transferkey t;
     ctriv := ctriv t; filekey := filekey t; ultoken := ultoken t;
     failcount := failcount t |}.

Definition set_chunkmacs (v : chunkmac_map) (t : Transfer) : Transfer :=
  {| type := type t; size := size t;
     progresscompleted := progresscompleted t; metamac := metamac t;
     currentmetamac := currentmetamac t;
     hascurrentmetamac := hascurrentmetamac t; chunkmacs := v;
     transferkey := transferkey t; ctriv := ctriv t; filekey := filekey t;
     ultoken := ultoken t; failcount := failcount t |}.

Definition set_filekey (v : bytes) (t : Transfer) : Transfer :=
  {| type := type t; size := size t;
     progresscompleted := progresscompleted t; metamac := metamac t;
     currentmetamac := currentmetamac t;
     hascurrentmetamac := hascurrentmetamac t; chunkmacs := chunkmacs t;
     transferkey := transferkey t; ctriv := ctriv t; filekey := v;
     ultoken := ultoken t; failcount := failcount t |}.

Definition set_ultoken (v : option bytes) (t : Transfer) : Transfer :=
  {| type := type t; size := size t;
     progresscompleted := progresscompleted t; metamac := metamac t;
     currentmetamac := currentmetamac t;
     hascurrentmetamac := hascurrentmetamac t; chunkmacs := chunkmacs t;
     transferkey := transferkey t; ctriv := ctriv t; filekey := filekey t;
     ultoken := v; failcount := failcount t |}.

Definition set_failcount (v : Z) (t : Transfer) : Transfer :=
  {| type := type t; size := size t;
     progresscompleted := progresscompleted t; metamac := metamac t;
     currentmetamac := currentmetamac t;
     hascurrentmetamac := hascurrentmetamac t; chunkmacs := chunkmacs t;
     transferkey := transferkey t; ctriv := ctriv t; filekey := filekey t;
     ultoken := ultoken t; failcount := v |}.
End Transfers.

(** ** Requests *)
Module Requests.
Import Bytes Urls ChunkMacs.

Inductive reqstatus_t :=
  | REQ_READY | REQ_PREPARED | REQ_ENCRYPTING | REQ_DECRYPTING | REQ_DECRYPTED
  | REQ_INFLIGHT | REQ_SUCCESS | REQ_FAILURE | REQ_DONE | REQ_ASYNCIO.

Definition reqstatus_eqb (a b : reqstatus_t) : bool :=
  match a, b with
  | REQ_READY, REQ_READY | REQ_PREPARED, REQ_PREPARED
  | REQ_ENCRYPTING, REQ_ENCRYPTING | REQ_DECRYPTING, REQ_DECRYPTING
  | REQ_DECRYPTED, REQ_DECRYPTED | REQ_INFLIGHT, REQ_INFLIGHT
  | REQ_SUCCESS, REQ_SUCCESS | REQ_FAILURE, REQ_FAILURE
  | REQ_DONE, REQ_DONE | REQ_ASYNCIO, REQ_ASYNCIO => true
  | _, _ => false
  end.

(** The members of [HttpReqXfer] (and of its upload variant [HttpReqUL])
    that [doio] reads or writes in the code embedded below. *)
Record HttpReqXfer := mkHttpReqXfer {
  status : reqstatus_t;
  httpstatus : Z;   (* int *)
  in_ : bytes;   (* the response body, [in] *)
  size : Z;
  contenttype : url;
  posturl : url;
  timeleft : Z;   (* m_time_t *)
  pos : Z;   (* m_off_t *)
  mChunkmacs : chunkmac_map   (* HttpReqUL::mChunkmacs *)
}.

Definition set_status (v : reqstatus_t) (r : HttpReqXfer) : HttpReqXfer :=
  {| status := v; httpstatus := httpstatus r; in_ := in_ r; size := size r;
     contenttype := contenttype r; posturl := posturl r;
     timeleft := timeleft r; pos := pos r; mChunkmacs := mChunkmacs r |}.

Definition set_posturl (v : url) (r : HttpReqXfer) : HttpReqXfer :=
  {| status := status r; httpstatus := httpstatus r; in_ := in_ r;
     size := size r; contenttype := contenttype r; posturl := v;
     timeleft := timeleft r; pos := pos r; mChunkmacs := mChunkmacs r |}.

Definition set_pos (v : Z) (r : HttpReqXfer) : HttpReqXfer :=
  {| status := status r; httpstatus := httpstatus r; in_ := in_ r;
     size := size r; contenttype := contenttype r; posturl := posturl r;
     timeleft := timeleft r; pos := v; mChunkmacs := mChunkmacs r |}.
End Requests.

(** ** Asynchronous filesystem operations and output pieces *)
Module AsyncIO.

(** What an [AsyncIOContext] exposes when polled. *)
Record AsyncIOContext := mkAsyncIOContext {
  finished : bool;
  failed : bool;
  retry : bool;
  pos : Z;
  len : Z
}.

End AsyncIO.

Module Pieces.
Import Bytes.

(** [TransferBufferManager::FilePiece]: [{pos, buf}]. *)
Record FilePiece := mkFilePiece {
  pos : Z;
  buf : bytes
}.

End Pieces.

(** ** Collaborators whose code is not among the source files *)
Module Collaborators.
Import Bytes Urls ChunkMacs Transfers.

(** [dstime]: a time in deciseconds. *)
Definition dstime := Z.

(** What the transfer slot asks of the cipher, the Base64 decoder, the
    filesystem and the transfer buffer manager.  None of them is among the
    source files; each is a parameter of the embedding, and every theorem
    holds for every instance.
    - [ecb_encrypt key block] is [SymmCipher::ecb_encrypt] under the
      transfer key; [mac64] condenses the 16-byte accumulator of the
      mac-of-macs to the [int64_t] that [macsmac] returns;
    - [Base64_atob a blen] is the decoded output of [Base64::atob] (its
      length is the function's result);
    - [FileAccess] with [asyncavailable], [fwrite] (its result and the
      file access after it), [fa_retry] (the [retry] member) and
      [asyncfwrite];
    - [TransferBufferManager] with [isRaid], [tempUrlVector], [tempURL],
      [tryRaidHttpGetErrorRecovery], [getAsyncOutputBufferPointer] and
      [bufferWriteCompleted], which works on the transfer it belongs to;
    - [dstime_of] is the conversion to [dstime], and
      [DEFAULT_BW_OVERQUOTA_BACKOFF_SECS] the client's default. *)
Class Env := {
  ecb_encrypt : bytes -> bytes -> bytes;
  mac64 : bytes -> Z;
  Base64_atob : bytes -> Z -> bytes;
  FileAccess : Type;
  asyncavailable : FileAccess -> bool;
  fwrite : Pieces.FilePiece -> FileAccess -> bool * FileAccess;
  fa_retry : FileAccess -> bool;
  asyncfwrite : Pieces.FilePiece -> FileAccess -> AsyncIO.AsyncIOContext;
  TransferBufferManager : Type;
  isRaid : TransferBufferManager -> bool;
  tempUrlVector : TransferBufferManager -> list url;
  tempURL : TransferBufferManager -> Z -> url;
  tryRaidHttpGetErrorRecovery :
    Z -> TransferBufferManager -> bool * TransferBufferManager;
  getAsyncOutputBufferPointer :
    Z -> TransferBufferManager -> option Pieces.FilePiece;
  bufferWriteCompleted :
    Z -> bool -> TransferBufferManager -> Transfer
    -> TransferBufferManager * Transfer;
  dstime_of : Z -> dstime;
  DEFAULT_BW_OVERQUOTA_BACKOFF_SECS : Z
}.

End Collaborators.

(** ** The mac-of-macs *)
Module MacOfMacs.
Import Bytes ChunkMacs Collaborators.

(** Modelled from the spec: [chunkmac_map::macsmac_gaps] is not among the
    source files.  Section 4.2: "initial 16-byte zero block; for each
    entry in offset order, XOR the chunk's MAC into the accumulator and
    encrypt the accumulator with the transfer key; final accumulator is
    the file MAC.  The [_gaps] variant skips entries" in the two ranges;
    the ranges count entries, as the caller passes positions between 0
    and [size()]. *)
Fixpoint macs_fold {E : Env} (key : bytes) (skip : Z -> bool) (n : Z)
    (m : chunkmac_map) (acc : bytes) : bytes :=
  match m with
  | [] => acc
  | (_, c) :: rest =>
      macs_fold key skip (n + 1) rest
        (if skip n then acc else ecb_encrypt key (xorblock (mac c) acc))
  end.

Definition in_gaps (g1 g2 g3 g4 : Z) (n : Z) : bool :=
  ((g1 <=? n) && (n <? g2)) || ((g3 <=? n) && (n <? g4)).

Definition chunkmac_map_macsmac_gaps {E : Env} (key : bytes) (m : chunkmac_map)
    (g1 g2 g3 g4 : Z) : Z :=
  mac64 (macs_fold key (in_gaps g1 g2 g3 g4) 0 m (repeat x00 BLOCKSIZE)).

(** Modelled from the spec: [chunkmac_map::macsmac], the same fold with
    nothing skipped. *)
Definition chunkmac_map_macsmac {E : Env} (key : bytes) (m : chunkmac_map) : Z :=
  mac64 (macs_fold key (fun _ => false) 0 m (repeat x00 BLOCKSIZE)).

End MacOfMacs.

(** ** The client *)
Module Clients.
Import Transfers.

(** The members of [MegaClient] that the code embedded below reads or
    writes. *)
Record MegaClient := mkMegaClient {
  usehttps : bool;
  usealtdownport : bool;
  usealtupport : bool;
  autodownport : bool;
  autoupport : bool;
  orderdownloadedchunks : bool;
  connections : direction_t -> Z   (* unsigned char connections[2] *)
}.

Definition set_usehttps (v : bool) (c : MegaClient) : MegaClient :=
  {| usehttps := v; usealtdownport := usealtdownport c;
     usealtupport := usealtupport c; autodownport := autodownport c;
     autoupport := autoupport c;
     orderdownloadedchunks := orderdownloadedchunks c;
     connections := connections c |}.

Definition set_usealtdownport (v : bool) (c : MegaClient) : MegaClient :=
  {| usehttps := usehttps c; usealtdownport := v;
     usealtupport := usealtupport c; autodownport := autodownport c;
     autoupport := autoupport c;
     orderdownloadedchunks := orderdownloadedchunks c;
     connections := connections c |}.

Definition set_usealtupport (v : bool) (c : MegaClient) : MegaClient :=
  {| usehttps := usehttps c; usealtdownport := usealtdownport c;
     usealtupport := v; autodownport := autodownport c;
     autoupport := autoupport c;
     orderdownloadedchunks := orderdownloadedchunks c;
     connections := connections c |}.
End Clients.

(** ** The transfer slot ([transferslot.cpp]) *)
Module Slot.
Import Bytes Urls ChunkMacs Requests Clients Collaborators MacOfMacs Transfers.

Section WithEnv.
Context {E : Env}.

(** [NewNode::UPLOADTOKENLEN], [NewNode::OLDUPLOADTOKENLEN] and [RAIDPARTS]
    are declared in headers that are not among the source files; the spec
    gives 36, 27 and 6. *)
Definition UPLOADTOKENLEN : Z := 36.
Definition OLDUPLOADTOKENLEN : Z := 27.
Definition RAIDPARTS : Z := 6.

(** The calls [doio] makes on the transfer, the client and the
    application, none of which is among the source files, and the two
    calls on the slot itself whose effect this state does not carry:
    [progress()] notifies the application, [updatecontiguousprogress()]
    advances [progresscontiguous]. *)
Inductive action :=
  | transfer_complete                                 (* transfer->complete(committer) *)
  | transfer_failed (e : error) (timeleft : dstime)   (* transfer->failed(e, committer, timeleft) *)
  | sendevent (code : Z)
  | transfercacheadd
  | progress
  | updatecontiguousprogress
  | retrybt_backoff (ds : dstime)
  | retrybt_reset
  | notify_change_to_https
  | app_transfer_failed (e : error)
  | setchunkfailed (posturl : url)
  | transferTempErrors_increment
  | asyncqueue_prepare (i : nat) (finaltempurl : url) (pos npos : Z).

(** The slot with its transfer and client.  [transfer->state],
    [transfer->lastaccesstime] and the counters of the speed controller
    are written but never read by the code embedded here and are left
    out. *)
Record TransferSlot := mkTransferSlot {
  transfer : Transfer;
  client : MegaClient;   (* transfer->client *)
  fa : option FileAccess;   (* null when the file is closed *)
  transferbuf : TransferBufferManager;
  errorcount : Z;
  lasterror : error;
  failure : bool;
  retrying : bool;
  connections : Z;   (* int *)
  reqs : list (option HttpReqXfer);   (* vector<shared_ptr<HttpReqXfer>> *)
  asyncIO : option (list (option AsyncIO.AsyncIOContext));   (* AsyncIOContext** *)
  progressreported : Z;   (* m_off_t *)
  lastdata : dstime;
  trace : list action   (* calls on collaborators, latest first *)
}.

Definition set_transfer (v : Transfer) (s : TransferSlot) : TransferSlot :=
  {| transfer := v; client := client s; fa := fa s;
     transferbuf := transferbuf s; errorcount := errorcount s;
     lasterror := lasterror s; failure := failure s; retrying := retrying s;
     connections := connections s; reqs := reqs s; asyncIO := asyncIO s;
     progressreported := progressreported s; lastdata := lastdata s;
     trace := trace s |}.

Definition set_client (v : MegaClient) (s : TransferSlot) : TransferSlot :=
  {| transfer := transfer s; client := v; fa := fa s;
     transferbuf := transferbuf s; errorcount := errorcount s;
     lasterror := lasterror s; failure := failure s; retrying := retrying s;
     connections := connections s; reqs := reqs s; asyncIO := asyncIO s;
     progressreported := progressreported s; lastdata := lastdata s;
     trace := trace s |}.

Definition set_fa (v : option FileAccess) (s : TransferSlot) : TransferSlot :=
  {| transfer := transfer s; client := client s; fa := v;
     transferbuf := transferbuf s; errorcount := errorcount s;
     lasterror := lasterror s; failure := failure s; retrying := retrying s;
     connections := connections s; reqs := reqs s; asyncIO := asyncIO s;
     progressreported := progressreported s; lastdata := lastdata s;
     trace := trace s |}.

Definition set_transferbuf (v : TransferBufferManager) (s : TransferSlot) : TransferSlot :=
  {| transfer := transfer s; client := client s; fa := fa s;
     transferbuf := v; errorcount := errorcount s; lasterror := lasterror s;
     failure := failure s; retrying := retrying s;
     connections := connections s; reqs := reqs s; asyncIO := asyncIO s;
     progressreported := progressreported s; lastdata := lastdata s;
     trace := trace s |}.

Definition set_errorcount (v : Z) (s : TransferSlot) : TransferSlot :=
  {| transfer := transfer s; client := client s; fa := fa s;
     transferbuf := transferbuf s; errorcount := v; lasterror := lasterror s;
     failure := failure s; retrying := retrying s;
     connections := connections s; reqs := reqs s; asyncIO := asyncIO s;
     progressreported := progressreported s; lastdata := lastdata s;
     trace := trace s |}.

Definition set_lasterror (v : error) (s : TransferSlot) : TransferSlot :=
  {| transfer := transfer s; client := client s; fa := fa s;
     transferbuf := transferbuf s; errorcount := errorcount s;
     lasterror := v; failure := failure s; retrying := retrying s;
     connections := connections s; reqs := reqs s; asyncIO := asyncIO s;
     progressreported := progressreported s; lastdata := lastdata s;
     trace := trace s |}.

Definition set_failure (v : bool) (s : TransferSlot) : TransferSlot :=
  {| transfer := transfer s; client := client s; fa := fa s;
     transferbuf := transferbuf s; errorcount := errorcount s;
     lasterror := lasterror s; failure := v; retrying := retrying s;
     connections := connections s; reqs := reqs s; asyncIO := asyncIO s;
     progressreported := progressreported s; lastdata := lastdata s;
     trace := trace s |}.

Definition set_retrying (v : bool) (s : TransferSlot) : TransferSlot :=
  {| transfer := transfer s; client := client s; fa := fa s;
     transferbuf := transferbuf s; errorcount := errorcount s;
     lasterror := lasterror s; failure := failure s; retrying := v;
     connections := connections s; reqs := reqs s; asyncIO := asyncIO s;
     progressreported := progressreported s; lastdata := lastdata s;
     trace := trace s |}.

Definition set_connections (v : Z) (s : TransferSlot) : TransferSlot :=
  {| transfer := transfer s; client := client s; fa := fa s;
     transferbuf := transferbuf s; errorcount := errorcount s;
     lasterror := lasterror s; failure := failure s; retrying := retrying s;
     connections := v; reqs := reqs s; asyncIO := asyncIO s;
     progressreported := progressreported s; lastdata := lastdata s;
     trace := trace s |}.

Definition set_reqs (v : list (option HttpReqXfer)) (s : TransferSlot) : TransferSlot :=
  {| transfer := transfer s; client := client s; fa := fa s;
     transferbuf := transferbuf s; errorcount := errorcount s;
     lasterror := lasterror s; failure := failure s; retrying := retrying s;
     connections := connections s; reqs := v; asyncIO := asyncIO s;
     progressreported := progressreported s; lastdata := lastdata s;
     trace := trace s |}.

Definition set_asyncIO (v : option (list (option AsyncIO.AsyncIOContext))) (s : TransferSlot) : TransferSlot :=
  {| transfer := transfer s; client := client s; fa := fa s;
     transferbuf := transferbuf s; errorcount := errorcount s;
     lasterror := lasterror s; failure := failure s; retrying := retrying s;
     connections := connections s; reqs := reqs s; asyncIO := v;
     progressreported := progressreported s; lastdata := lastdata s;
     trace := trace s |}.

Definition set_progressreported (v : Z) (s : TransferSlot) : TransferSlot :=
  {| transfer := transfer s; client := client s; fa := fa s;
     transferbuf := transferbuf s; errorcount := errorcount s;
     lasterror := lasterror s; failure := failure s; retrying := retrying s;
     connections := connections s; reqs := reqs s; asyncIO := asyncIO s;
     progressreported := v; lastdata := lastdata s; trace := trace s |}.

Definition set_lastdata (v : dstime) (s : TransferSlot) : TransferSlot :=
  {| transfer := transfer s; client := client s; fa := fa s;
     transferbuf := transferbuf s; errorcount := errorcount s;
     lasterror := lasterror s; failure := failure s; retrying := retrying s;
     connections := connections s; reqs := reqs s; asyncIO := asyncIO s;
     progressreported := progressreported s; lastdata := v;
     trace := trace s |}.

Definition set_trace (v : list action) (s : TransferSlot) : TransferSlot :=
  {| transfer := transfer s; client := client s; fa := fa s;
     transferbuf := transferbuf s; errorcount := errorcount s;
     lasterror := lasterror s; failure := failure s; retrying := retrying s;
     connections := connections s; reqs := reqs s; asyncIO := asyncIO s;
     progressreported := progressreported s; lastdata := lastdata s;
     trace := v |}.
(** [Waiter::ds], the clock, is an argument [ds] of the functions that
    read it. *)

Definition log (a : action) (s : TransferSlot) : TransferSlot :=
  set_trace (a :: trace s) s.

(** [v[i] = x] for [i] in range. *)
Fixpoint list_set {A} (i : nat) (x : A) (l : list A) : list A :=
  match l, i with
  | [], _ => []
  | _ :: t, O => x :: t
  | y :: t, S k => y :: list_set k x t
  end.

Definition req_at (i : nat) (s : TransferSlot) : option HttpReqXfer :=
  match nth_error (reqs s) i with
  | Some (Some r) => Some r
  | _ => None
  end.

Definition set_req (i : nat) (r : HttpReqXfer) (s : TransferSlot) : TransferSlot :=
  set_reqs (list_set i (Some r) (reqs s)) s.

Definition asyncIO_at (i : nat) (s : TransferSlot) : option AsyncIO.AsyncIOContext :=
  match asyncIO s with
  | Some l => match nth_error l i with Some (Some a) => Some a | _ => None end
  | None => None
  end.

Definition set_asyncIO_at (i : nat) (a : option AsyncIO.AsyncIOContext)
    (s : TransferSlot) : TransferSlot :=
  set_asyncIO (option_map (list_set i a) (asyncIO s)) s.

(** [bool TransferSlot::createconnectionsonce()] *)
Definition createconnectionsonce (s : TransferSlot) : bool * TransferSlot :=
  if negb (negb (connections s =? 0)
           || negb (length (reqs s) =? 0)%nat
           || match asyncIO s with Some _ => true | None => false end)
  then
    match tempUrlVector (transferbuf s) with
    | [] => (false, s)
    | _ :: _ =>
        let c :=
          if isRaid (transferbuf s) then RAIDPARTS
          else if size (transfer s) >? 131072
               then Clients.connections (client s) (type (transfer s))
               else 1 in
        (true,
         set_asyncIO (Some (repeat None (Z.to_nat c)))
           (set_reqs (repeat None (Z.to_nat c)) (set_connections c s)))
    end
  else (true, s).

(** [int64_t TransferSlot::macsmac(chunkmac_map* m)] and
    [TransferSlot::macsmac_gaps]: the map's functions under
    [transfer->transfercipher()], the cipher keyed with the transfer key. *)
Definition macsmac (s : TransferSlot) (m : chunkmac_map) : Z :=
  chunkmac_map_macsmac (transferkey (transfer s)) m.

Definition macsmac_gaps (s : TransferSlot) (m : chunkmac_map)
    (g1 g2 g3 g4 : Z) : Z :=
  chunkmac_map_macsmac_gaps (transferkey (transfer s)) m g1 g2 g3 g4.

(** [for (i = i0; cond(i); ++i) { if (body(i)) return true; }]: whether
    the loop returns.  Every loop of [checkMetaMacWithMissingLateEntries]
    is bounded, and [fuel] is its bound. *)
Fixpoint for_loop (fuel : nat) (i : Z) (cond body : Z -> bool) : bool :=
  match fuel with
  | O => false
  | S k =>
      if cond i then (if body i then true else for_loop k (i + 1) cond body)
      else false
  end.

(** [void TransferSlot::updateMacInKey(int64_t)]: its body is commented
    out. *)
Definition updateMacInKey (correctMac : Z) (s : TransferSlot) : TransferSlot := s.

(** The statements both loops run on a match. *)
Definition adopt_correct_mac (s : TransferSlot) : TransferSlot :=
  let correctMac := macsmac s (chunkmacs (transfer s)) in
  let t := set_currentmetamac correctMac (transfer s) in
  let t := set_metamac correctMac t in
  updateMacInKey correctMac (set_transfer t s).

(** The first loop nest of [checkMetaMacWithMissingLateEntries]: a
    single gap.  [std::min<int>] compares as [int]; the result is stored
    in a [size_t], and [end - countBack] is [size_t] arithmetic. *)
Definition single_gap_scan (s : TransferSlot) : bool :=
  let t := transfer s in
  let m := chunkmacs t in
  let end_ := Z.of_nat (length m) in
  let finalN := to_u64 (Z.min (32 * 3) (to_i32 end_)) in
  for_loop (Z.to_nat finalN) 1 (fun countBack => countBack <=? finalN)
    (fun countBack =>
       let start1 := to_u64 (end_ - countBack) in
       for_loop 64 1 (fun len1 => (len1 <=? 64) && (start1 + len1 <=? end_))
         (fun len1 =>
            metamac t =? macsmac_gaps s m start1 (start1 + len1) end_ end_)).

(** The second loop nest: two separate gaps. *)
Definition two_gap_scan (s : TransferSlot) : bool :=
  let t := transfer s in
  let m := chunkmacs t in
  let end_ := Z.of_nat (length m) in
  let finalN := to_u64 (Z.min (16 * 2 + 8) (to_i32 end_)) in
  for_loop (Z.to_nat finalN) (to_u64 (end_ - finalN))
    (fun start1 => start1 <? end_)
    (fun start1 =>
       for_loop 16 1 (fun len1 => (len1 <=? 16) && (start1 + len1 <=? end_))
         (fun len1 =>
            for_loop (length m) (start1 + len1 + 1)
              (fun start2 => start2 <? end_)
              (fun start2 =>
                 for_loop 16 1
                   (fun len2 => (len2 <=? 16) && (start2 + len2 <=? end_))
                   (fun len2 =>
                      metamac t =?
                      macsmac_gaps s m start1 (start1 + len1)
                                   start2 (start2 + len2))))).

(** [bool TransferSlot::checkMetaMacWithMissingLateEntries()] *)
Definition checkMetaMacWithMissingLateEntries (s : TransferSlot)
  : bool * TransferSlot :=
  if single_gap_scan s then (true, adopt_correct_mac s)
  else if two_gap_scan s then (true, adopt_correct_mac s)
  else (false, s).

(** [bool TransferSlot::checkDownloadTransferFinished(committer, client)] *)
Definition checkDownloadTransferFinished (ds : dstime) (s : TransferSlot)
  : bool * TransferSlot :=
  if progresscompleted (transfer s) =? size (transfer s) then
    let s :=
      if negb (progresscompleted (transfer s) =? 0) then
        let t := set_currentmetamac (macsmac s (chunkmacs (transfer s)))
                   (transfer s) in
        set_transfer (set_hascurrentmetamac true t) s
      else s in
    let '(verified, s) :=
      if size (transfer s) =? 0 then (true, s)
      else if currentmetamac (transfer s) =? metamac (transfer s) then (true, s)
      else checkMetaMacWithMissingLateEntries s in
    if verified then
      let s := log transfercacheadd s in
      let s :=
        if negb (progresscompleted (transfer s) =? progressreported s) then
          let s := set_progressreported (progresscompleted (transfer s)) s in
          log progress (set_lastdata ds s)
        else s in
      (true, log transfer_complete s)
    else
      let s := log (sendevent 99431) s in
      let s := set_transfer (set_chunkmacs [] (transfer s)) s in
      (true, log (transfer_failed API_EKEY 0) s)
  else (false, s).

(** How control leaves a part of [doio]: on to the statement after it
    ([break], or the end of a [case]), back to the head of the loop over
    the connections ([i = connections; continue]), or out of [doio]
    ([return]). *)
Inductive flow (A : Type) :=
  | Next (a : A)
  | Restart (a : A)
  | Return (a : A).
Arguments Next {A} a.
Arguments Restart {A} a.
Arguments Return {A} a.

(** The start of [doio], up to the loop over the connections (lines 479
    to 534): pending completion, creation of the connections, and the
    error count. *)
Definition doio_entry (s : TransferSlot) : flow TransferSlot :=
  let t := transfer s in
  let has_ultoken := match ultoken t with Some _ => true | None => false end in
  let has_fa := match fa s with Some _ => true | None => false end in
  if negb has_fa
     || (negb (size t =? 0) && (progresscompleted t =? size t))
     || (direction_eqb (type t) PUT && has_ultoken)
  then
    if direction_eqb (type t) GET || has_ultoken then
      if has_fa && direction_eqb (type t) GET then
        let t := set_currentmetamac (macsmac s (chunkmacs t)) t in
        let t := set_hascurrentmetamac true t in
        let s := set_transfer t s in
        if currentmetamac t =? metamac t then
          Return (log transfer_complete s)
        else
          let s := log (sendevent 99432) s in
          let s := set_transfer (set_chunkmacs [] (transfer s)) s in
          Return (log (transfer_failed API_EKEY 0) s)
      else
        let s := log (retrybt_backoff 2) s in
        let s := set_retrying true s in
        Return (log transfer_complete s)
    else
      let s := log (sendevent 99410) s in
      Return (log (transfer_failed API_EINTERNAL 0) s)
  else
    let s := set_retrying false s in
    let s := log retrybt_reset s in
    let '(created, s) := createconnectionsonce s in
    if negb created then Return s
    else if errorcount s >? 4 then
      Return (log (transfer_failed (lasterror s) 0) s)
    else Next s.

(** The locals of [doio] that the cases of its [switch] update. *)
Record locals := mkLocals {
  backoff : dstime;
  p : Z
}.

(** [atoi] of the C library on a byte string: leading white space, an
    optional sign, decimal digits; the value is an [int]. *)
Definition isspace (b : byte) : bool :=
  let z := Z_of_byte b in (z =? 32) || ((9 <=? z) && (z <=? 13)).

Fixpoint skip_spaces (a : bytes) : bytes :=
  match a with
  | b :: t => if isspace b then skip_spaces t else a
  | [] => []
  end.

Fixpoint atoi_digits (a : bytes) (acc : Z) : Z :=
  match a with
  | b :: t =>
      let z := Z_of_byte b in
      if (48 <=? z) && (z <=? 57) then atoi_digits t (10 * acc + (z - 48))
      else acc
  | [] => acc
  end.

Definition atoi (a : bytes) : Z :=
  match skip_spaces a with
  | b :: t =>
      if Byte.eqb b x2d then to_i32 (- atoi_digits t 0)
      else if Byte.eqb b x2b then to_i32 (atoi_digits t 0)
      else to_i32 (atoi_digits (b :: t) 0)
  | [] => 0
  end.

(** [s.find(needle) != string::npos] *)
Fixpoint is_prefix (needle s : url) : bool :=
  match needle, s with
  | [], _ => true
  | a :: n', b :: s' => Ascii.eqb a b && is_prefix n' s'
  | _ :: _, [] => false
  end.

Fixpoint contains (needle s : url) : bool :=
  is_prefix needle s
  || match s with
     | [] => false
     | _ :: t => contains needle t
     end.

Definition text_html : url := list_ascii_of_string "text/html".

(** [memcpy(dst + off, src, src.size())], inside [dst]. *)
Definition store_at (off : nat) (src dst : bytes) : bytes :=
  firstn off dst ++ src ++ skipn (off + length src) dst.

(** Lines 666 to 669: the file key of a completed upload. *)
Definition assemble_filekey (t : Transfer) (mac_of_macs : Z) : bytes :=
  let k := store_at 0 (firstn KEYLENGTH (transferkey t)) (filekey t) in
  let k := store_at 16 (le_encode 8 (ctriv t)) k in
  let k := store_at 24 (le_encode 8 mac_of_macs) k in
  store_at 0 (xorblock (firstn BLOCKSIZE (skipn KEYLENGTH k))
                       (firstn BLOCKSIZE k)) k.

Definition unprocessed (r : HttpReqXfer) : bool :=
  match status r with
  | REQ_INFLIGHT | REQ_SUCCESS | REQ_FAILURE => true
  | _ => false
  end.

(** Lines 649 to 657: the body of the loop over the other connections. *)
Definition include_connection (i : nat) (s : TransferSlot) (j : nat)
  : TransferSlot :=
  if (j =? i)%nat then s
  else match req_at j s with
       | Some rj =>
           if unprocessed rj then
             let t := transfer s in
             let t := set_progresscompleted
                        (progresscompleted t + Requests.size rj) t in
             let t := set_chunkmacs
                        (finishedUploadChunks (chunkmacs t) (mChunkmacs rj)) t in
             set_transfer t s
           else s
       | None => s
       end.

(** Lines 647 to 658: [for (int j = connections; j--; )]. *)
Definition include_unprocessed (i : nat) (s : TransferSlot) : TransferSlot :=
  fold_left (include_connection i) (rev (seq 0 (Z.to_nat (connections s)))) s.

(** Lines 640 to 681: the upload token is good. *)
Definition doio_upload_complete (ds : dstime) (i : nat) (r : HttpReqXfer)
    (s : TransferSlot) : TransferSlot :=
  let s := set_errorcount 0 s in
  let s := set_transfer (set_failcount 0 (transfer s)) s in
  let s := include_unprocessed i s in
  let t := transfer s in
  let t := set_chunkmacs (finishedUploadChunks (chunkmacs t) (mChunkmacs r)) t in
  let t := set_progresscompleted (progresscompleted t + Requests.size r) t in
  let s := log updatecontiguousprogress (set_transfer t s) in
  let t := set_filekey (assemble_filekey t (macsmac s (chunkmacs t))) t in
  let s := log transfercacheadd (set_transfer t s) in
  let s :=
    if negb (progresscompleted t =? progressreported s) then
      let s := set_progressreported (progresscompleted t) s in
      log progress (set_lastdata ds s)
    else s in
  log transfer_complete s.

(** Lines 689 to 722: the body is not a good token, it is parsed as an
    error. *)
Definition doio_upload_error (i : nat) (r : HttpReqXfer) (s : TransferSlot)
  : flow TransferSlot :=
  let e := atoi (in_ r) in
  if e =? API_EKEY then
    let s := log (sendevent 99429) s in
    let s := set_lasterror e s in
    let s := set_errorcount (errorcount s + 1) s in
    Next (set_req i (set_status REQ_PREPARED r) s)
  else if (e =? DAEMON_EFAILED)
          || (contains text_html (contenttype r) && is_http (posturl r))
  then
    let s := set_client (set_usehttps true (client s)) s in
    let s := log notify_change_to_https s in
    let s := if e =? DAEMON_EFAILED then log (sendevent 99440) s else s in
    let s := log (sendevent 99436) s in
    Return (log (transfer_failed API_EAGAIN 0) s)
  else Return (log (transfer_failed e 0) s).

(** [case REQ_SUCCESS] of a [PUT] transfer (lines 599 to 741), for the
    request [r] that [reqs[i]] points to. *)
Definition doio_REQ_SUCCESS_PUT (ds : dstime) (i : nat) (r : HttpReqXfer)
    (s : TransferSlot) : flow TransferSlot :=
  let s := set_lastdata ds s in
  if negb (length (in_ r) =? 0)%nat then
    if Z.of_nat (length (in_ r)) =? UPLOADTOKENLEN then
      let buffer :=
        match ultoken (transfer s) with
        | Some u => u
        | None => repeat x00 (Z.to_nat UPLOADTOKENLEN)
        end in
      let '(tokenOK, buffer) :=
        if Byte.eqb (nth (Z.to_nat (UPLOADTOKENLEN - 1)) (in_ r) x00) x01 then
          (true, store_at 0 (firstn (Z.to_nat UPLOADTOKENLEN) (in_ r)) buffer)
        else
          let decoded := Base64_atob (in_ r) UPLOADTOKENLEN in
          (Z.of_nat (length decoded) =? OLDUPLOADTOKENLEN,
           store_at 0 decoded buffer) in
      if tokenOK then
        let s := set_transfer (set_ultoken (Some buffer) (transfer s)) s in
        Return (doio_upload_complete ds i r s)
      else
        let s := set_transfer (set_ultoken None (transfer s)) s in
        doio_upload_error i r s
    else doio_upload_error i r s
  else
    let t := transfer s in
    let t := set_chunkmacs (finishedUploadChunks (chunkmacs t) (mChunkmacs r)) t in
    let t := set_progresscompleted (progresscompleted t + Requests.size r) t in
    let s := log updatecontiguousprogress (set_transfer t s) in
    if progresscompleted t =? size t then
      let s := log (sendevent 99409) s in
      Return (log (transfer_failed API_EINTERNAL 0) s)
    else
      let s := set_errorcount 0 s in
      let s := set_transfer (set_failcount 0 (transfer s)) s in
      let s := log transfercacheadd s in
      Next (set_req i (set_status REQ_READY r) s).

(** [case REQ_DECRYPTED] (lines 814 to 868).  The output piece and the
    file access are dereferenced without a check: the result is [None]
    when either is null. *)
Definition doio_REQ_DECRYPTED (ds : dstime) (i : nat) (r : HttpReqXfer)
    (s : TransferSlot) (l : locals) : option (flow (TransferSlot * locals)) :=
  match getAsyncOutputBufferPointer (Z.of_nat i) (transferbuf s), fa s with
  | Some outputPiece, Some f =>
      if asyncavailable f then
        let s := match asyncIO_at i s with
                 | Some _ => set_asyncIO_at i None s
                 | None => s
                 end in
        let l := mkLocals (backoff l)
                   (p l + Z.of_nat (length (Pieces.buf outputPiece))) in
        let s := set_asyncIO_at i (Some (asyncfwrite outputPiece f)) s in
        Some (Next (set_req i (set_status REQ_ASYNCIO r) s, l))
      else
        let '(written, f') := fwrite outputPiece f in
        let s := set_fa (Some f') s in
        if written then
          let '(tb, t) := bufferWriteCompleted (Z.of_nat i) true
                            (transferbuf s) (transfer s) in
          let s := set_transfer t (set_transferbuf tb s) in
          let s := set_errorcount 0 s in
          let s := set_transfer (set_failcount 0 (transfer s)) s in
          let s := log updatecontiguousprogress s in
          let '(done, s) := checkDownloadTransferFinished ds s in
          if done then Some (Return (s, l))
          else
            let s := log transfercacheadd s in
            Some (Next (set_req i (set_status REQ_READY r) s, l))
        else if negb (fa_retry f') then
          let '(tb, t) := bufferWriteCompleted (Z.of_nat i) false
                            (transferbuf s) (transfer s) in
          let s := set_transfer t (set_transferbuf tb s) in
          Some (Return (log (transfer_failed API_EWRITE 0) s, l))
        else
          let s := set_lasterror API_EWRITE s in
          Some (Next (s, mkLocals 2 (p l)))
  | _, _ => None
  end.

(** The URL an upload request is prepared with (lines 880 to 888). *)
Definition finaltempurl_for_upload (i : nat) (s : TransferSlot) : url :=
  let finaltempurl := tempURL (transferbuf s) (Z.of_nat i) in
  if usealtupport (client s) && is_http finaltempurl then
    match find "/"%char 8 finaltempurl, find ":"%char 8 finaltempurl with
    | Some index, None => insert index alt_port finaltempurl
    | _, _ => finaltempurl
    end
  else finaltempurl.

(** [case REQ_ASYNCIO] (lines 870 to 962); [None] when [asyncIO[i]] is
    null. *)
Definition doio_REQ_ASYNCIO (ds : dstime) (i : nat) (r : HttpReqXfer)
    (s : TransferSlot) (l : locals) : option (flow (TransferSlot * locals)) :=
  match asyncIO_at i s with
  | None => None
  | Some a =>
      if AsyncIO.finished a then
        if negb (AsyncIO.failed a) then
          if direction_eqb (type (transfer s)) PUT then
            let npos := AsyncIO.pos a + AsyncIO.len a in
            let finaltempurl := finaltempurl_for_upload i s in
            let r := set_status REQ_ENCRYPTING (Requests.set_pos (AsyncIO.pos a) r) in
            let s := set_req i r s in
            let s := log (asyncqueue_prepare i finaltempurl (AsyncIO.pos a) npos) s in
            Some (Next (set_asyncIO_at i None s, l))
          else
            let '(tb, t) := bufferWriteCompleted (Z.of_nat i) true
                              (transferbuf s) (transfer s) in
            let s := set_transfer t (set_transferbuf tb s) in
            let s := set_errorcount 0 s in
            let s := set_transfer (set_failcount 0 (transfer s)) s in
            let s := log updatecontiguousprogress s in
            let '(done, s) := checkDownloadTransferFinished ds s in
            if done then Some (Return (s, l))
            else
              let s := log transfercacheadd s in
              let s := set_req i (set_status REQ_READY r) s in
              let s := set_asyncIO_at i None s in
              if orderdownloadedchunks (client s) && negb (isRaid (transferbuf s))
              then Some (Restart (s, l))
              else Some (Next (s, l))
        else if negb (AsyncIO.retry a) then
          let '(tb, t) := bufferWriteCompleted (Z.of_nat i) false
                            (transferbuf s) (transfer s) in
          let s := set_transfer t (set_transferbuf tb s) in
          let s := set_asyncIO_at i None s in
          Some (Return
                  (log (transfer_failed
                          (if direction_eqb (type (transfer s)) PUT
                           then API_EREAD else API_EWRITE) 0) s, l))
        else
          let s :=
            if direction_eqb (type (transfer s)) PUT then
              set_req i (set_status REQ_READY r) (set_lasterror API_EREAD s)
            else
              set_req i (set_status REQ_SUCCESS r) (set_lasterror API_EWRITE s) in
          Some (Next (s, mkLocals 2 (p l)))
      else if direction_eqb (type (transfer s)) GET then
        Some (Next (s, mkLocals (backoff l) (p l + AsyncIO.len a)))
      else Some (Next (s, l))
  end.

(** [bool TransferSlot::tryRaidRecoveryFromHttpGetError(unsigned)] *)
Definition tryRaidRecoveryFromHttpGetError (connectionNum : nat)
    (s : TransferSlot) : bool * TransferSlot :=
  if isRaid (transferbuf s) then
    let '(recovered, tb) :=
      tryRaidHttpGetErrorRecovery (Z.of_nat connectionNum) (transferbuf s) in
    let s := set_transferbuf tb s in
    if recovered then
      let s := match req_at connectionNum s with
               | Some r => set_req connectionNum (set_status REQ_READY r) s
               | None => s
               end in
      let s :=
        fold_left
          (fun s j =>
             match req_at j s with
             | Some rj =>
                 if reqstatus_eqb (status rj) REQ_DONE
                 then set_req j (set_status REQ_READY rj) s else s
             | None => s
             end)
          (rev (seq 0 (Z.to_nat (connections s)))) s in
      (true, s)
    else (false, s)
  else (false, s).

(** The test that opens [case REQ_FAILURE]: an HTTP reply of type
    text/html to a request on an http: URL. *)
Definition html_reply_on_http (r : HttpReqXfer) : bool :=
  negb (httpstatus r =? 0)
  && contains text_html (contenttype r)
  && is_http (posturl r).

(** The last [else] of [case REQ_FAILURE] (lines 1026 to 1055). *)
Definition doio_chunk_failed (i : nat) (r : HttpReqXfer) (s : TransferSlot)
  : TransferSlot * HttpReqXfer :=
  let '(s, r) :=
    if negb (failure s) then
      let s := set_failure true s in
      let tempurl_is_http := is_http (tempURL (transferbuf s) (Z.of_nat i)) in
      let '(s, changeport) :=
        if direction_eqb (type (transfer s)) GET
           && autodownport (client s) && tempurl_is_http
        then (set_client (set_usealtdownport
                            (negb (usealtdownport (client s))) (client s)) s,
              true)
        else if direction_eqb (type (transfer s)) PUT
                && autoupport (client s) && tempurl_is_http
        then (set_client (set_usealtupport
                            (negb (usealtupport (client s))) (client s)) s,
              true)
        else (s, false) in
      let s := log (app_transfer_failed API_EFAILED) s in
      let s := log (setchunkfailed (posturl r)) s in
      let s := log transferTempErrors_increment s in
      (s, if changeport then set_posturl (toggleport (posturl r)) r else r)
    else (s, r) in
  (s, set_status REQ_PREPARED r).

(** [case REQ_FAILURE] (lines 964 to 1055), for the request [r] that
    [reqs[i]] points to. *)
Definition doio_REQ_FAILURE (i : nat) (r : HttpReqXfer) (s : TransferSlot)
    (l : locals) : flow (TransferSlot * locals) :=
  if html_reply_on_http r then
    let s := set_client (set_usehttps true (client s)) s in
    let s := log notify_change_to_https s in
    let s := log (sendevent 99436) s in
    Return (log (transfer_failed API_EAGAIN 0) s, l)
  else if httpstatus r =? 509 then
    let s := if timeleft r <? 0 then log (sendevent 99408) s else s in
    let b := if timeleft r >? 0 then dstime_of (timeleft r * 10)
             else dstime_of (DEFAULT_BW_OVERQUOTA_BACKOFF_SECS * 10) in
    Return (log (transfer_failed API_EOVERQUOTA b) s, mkLocals b (p l))
  else if httpstatus r =? 429 then
    Next (set_req i (set_status REQ_PREPARED r) s, mkLocals 5 (p l))
  else if (httpstatus r =? 503) && negb (isRaid (transferbuf s)) then
    Next (set_req i (set_status REQ_PREPARED r) s, mkLocals 50 (p l))
  else if (httpstatus r =? 403) || (httpstatus r =? 404)
          || ((httpstatus r =? 503) && isRaid (transferbuf s)) then
    let '(recovered, s) := tryRaidRecoveryFromHttpGetError i s in
    if negb recovered then Return (log (transfer_failed API_EAGAIN 0) s, l)
    else Next (s, l)
  else
    let '(recovered, s) :=
      if httpstatus r =? 0 then tryRaidRecoveryFromHttpGetError i s
      else (false, s) in
    if recovered then Next (s, l)
    else
      let r := match req_at i s with Some r' => r' | None => r end in
      let '(s, r) := doio_chunk_failed i r s in
      Next (set_req i r s, l).

End WithEnv.

Arguments Next {A} a.
Arguments Restart {A} a.
Arguments Return {A} a.

End Slot.

(** ** Properties the theorems of Part II speak about *)
Module SlotProperties.
Import Bytes Urls ChunkMacs Requests Clients Collaborators MacOfMacs Transfers.
Import Slot.

Section WithEnv.
Context {E : Env}.

(** What it means for the calls recorded by a part of [doio] to end in
    the completion or in the failure of the transfer. *)
Definition completes (s : TransferSlot) : Prop :=
  hd_error (trace s) = Some transfer_complete.

Definition fails_with (e : error) (s : TransferSlot) : Prop :=
  exists timeleft, hd_error (trace s) = Some (transfer_failed e timeleft).

(** The state a part of [doio] leaves behind, however control leaves it. *)
Definition flow_state {A} (f : flow A) : A :=
  match f with
  | Next a | Restart a | Return a => a
  end.

(** The candidates of the claim: one gap that starts in the last
    [min(96, N)] entries and has 1 to 64 entries, or two gaps that start
    in the last [min(40, N)] entries and have 1 to 16 entries each, such
    that the mac-of-macs without them is the transfer's [metamac]. *)
Definition single_gap (s : TransferSlot) : Prop :=
  let m := chunkmacs (transfer s) in
  let N := Z.of_nat (length m) in
  exists start1 len1,
    N - Z.min 96 N <= start1 < N /\ 1 <= len1 <= 64
    /\ macsmac_gaps s m start1 (start1 + len1) N N = metamac (transfer s).

Definition two_gaps (s : TransferSlot) : Prop :=
  let m := chunkmacs (transfer s) in
  let N := Z.of_nat (length m) in
  exists start1 len1 start2 len2,
    N - Z.min 40 N <= start1 < N /\ 1 <= len1 <= 16
    /\ N - Z.min 40 N <= start2 < N /\ 1 <= len2 <= 16
    /\ macsmac_gaps s m start1 (start1 + len1) start2 (start2 + len2)
       = metamac (transfer s).

(** The same candidates, read narrowly: every gap ends inside the map, and
    the second gap starts after the end of the first. *)
Definition single_gap_within (s : TransferSlot) : Prop :=
  let m := chunkmacs (transfer s) in
  let N := Z.of_nat (length m) in
  exists start1 len1,
    N - Z.min 96 N <= start1 < N /\ 1 <= len1 <= 64 /\ start1 + len1 <= N
    /\ macsmac_gaps s m start1 (start1 + len1) N N = metamac (transfer s).

Definition two_gaps_within (s : TransferSlot) : Prop :=
  let m := chunkmacs (transfer s) in
  let N := Z.of_nat (length m) in
  exists start1 len1 start2 len2,
    N - Z.min 40 N <= start1 < N /\ 1 <= len1 <= 16 /\ start1 + len1 <= N
    /\ start1 + len1 < start2 < N /\ 1 <= len2 <= 16 /\ start2 + len2 <= N
    /\ macsmac_gaps s m start1 (start1 + len1) start2 (start2 + len2)
       = metamac (transfer s).

(** The three ways the meta MAC of a finished download is accepted. *)
Definition mac_verified (s : TransferSlot) : Prop :=
  size (transfer s) = 0
  \/ macsmac s (chunkmacs (transfer s)) = metamac (transfer s)
  \/ fst (checkMetaMacWithMissingLateEntries s) = true.

(** The requests the loop over the other connections takes from index [j]. *)
Definition others_in (i : nat) (s0 : TransferSlot) (j : nat) : list HttpReqXfer :=
  if (j =? i)%nat then []
  else match req_at j s0 with
       | Some rj => if unprocessed rj then [rj] else []
       | None => []
       end.

(** The other connections whose chunk MACs a completing upload takes
    over: those of [reqs[j]], [j] from [connections - 1] down to 0 and
    different from [i], that are not null and are in state INFLIGHT,
    SUCCESS or FAILURE. *)
Definition other_unprocessed (i : nat) (s : TransferSlot) : list HttpReqXfer :=
  flat_map
    (fun j =>
       if (j =? i)%nat then []
       else match req_at j s with
            | Some rj => if unprocessed rj then [rj] else []
            | None => []
            end)
    (rev (seq 0 (Z.to_nat (connections s)))).

(** The chunk MACs of a completed upload: those of the transfer, with the
    ones of the other unprocessed connections and then the ones of the
    connection that got the token merged in. *)
Definition merged_chunkmacs (i : nat) (r : HttpReqXfer) (s : TransferSlot)
  : chunkmac_map :=
  finishedUploadChunks
    (fold_left (fun m rj => finishedUploadChunks m (mChunkmacs rj))
               (other_unprocessed i s) (chunkmacs (transfer s)))
    (mChunkmacs r).

Definition merged_progress (i : nat) (r : HttpReqXfer) (s : TransferSlot) : Z :=
  fold_left (fun n rj => n + Requests.size rj) (other_unprocessed i s)
            (progresscompleted (transfer s))
  + Requests.size r.

(** A response body that is an upload token: 36 bytes, the last of which
    is 1 (new style) or which decode from Base64 to 27 bytes. *)
Definition valid_token (body : bytes) : Prop :=
  Z.of_nat (length body) = UPLOADTOKENLEN
  /\ (nth 35 body x00 = x01
      \/ Z.of_nat (length (Base64_atob body UPLOADTOKENLEN)) = OLDUPLOADTOKENLEN).

End WithEnv.

End SlotProperties.

(** ** Concrete inputs for the closed examples of Part II *)
Module Samples.
Import Bytes Urls ChunkMacs Requests Clients Collaborators MacOfMacs Transfers.
Import Slot SlotProperties.

(** A filesystem and a buffer manager reduced to the answers they give. *)
Record SampleFile := mkSampleFile {
  file_async : bool;
  file_write_ok : bool;
  file_retry : bool
}.

Record SampleBuffers := mkSampleBuffers {
  buf_raid : bool;
  buf_urls : list url;
  buf_recovers : bool;
  buf_piece : option Pieces.FilePiece
}.

(** An environment for the closed examples.  Its cipher, decoder,
    filesystem and buffer manager are stand-ins (the theorems hold for
    every environment); the examples depend on none of their details. *)
Definition sample_env : Env :=
  {| ecb_encrypt := fun key block =>
       map (fun b => byte_of_Z (Z_of_byte b + 1)) (xorblock key block);
     mac64 := fun acc => to_i64 (le_decode (firstn 8 acc));
     Base64_atob := fun a blen => firstn (Z.to_nat (blen * 3 / 4)) a;
     FileAccess := SampleFile;
     asyncavailable := file_async;
     fwrite := fun _ f => (file_write_ok f, f);
     fa_retry := file_retry;
     asyncfwrite := fun piece _ =>
       AsyncIO.mkAsyncIOContext false false false (Pieces.pos piece)
         (Z.of_nat (length (Pieces.buf piece)));
     TransferBufferManager := SampleBuffers;
     isRaid := buf_raid;
     tempUrlVector := buf_urls;
     tempURL := fun tb i => nth (Z.to_nat i) (buf_urls tb) [];
     tryRaidHttpGetErrorRecovery := fun _ tb => (buf_recovers tb, tb);
     getAsyncOutputBufferPointer := fun _ tb => buf_piece tb;
     bufferWriteCompleted := fun _ ok tb t =>
       (mkSampleBuffers (buf_raid tb) (buf_urls tb) (buf_recovers tb) None,
        match buf_piece tb with
        | Some piece =>
            if ok then
              set_progresscompleted
                (progresscompleted t + Z.of_nat (length (Pieces.buf piece))) t
            else t
        | None => t
        end);
     dstime_of := to_u32;
     DEFAULT_BW_OVERQUOTA_BACKOFF_SECS := 3600 |}.

(** A temporary URL as the API hands it out, and a URL with a port of its
    own. *)
Definition sample_tempurl : url :=
  list_ascii_of_string "http://gfs270n221.userstorage.example/dl/abc".


Definition sample_key : bytes :=
  [x10; x11; x12; x13; x14; x15; x16; x17; x18; x19; x1a; x1b; x1c; x1d; x1e; x1f].

Definition sample_mac (b : byte) : ChunkMAC := mkChunkMAC (repeat b 16) true.

Definition sample_transfer (d : direction_t) (sz : Z) : Transfer :=
  {| type := d; size := sz; progresscompleted := 0;
     metamac := 0; currentmetamac := 0; hascurrentmetamac := false;
     chunkmacs := [];
     transferkey := sample_key; ctriv := 578437695752307201;
     filekey := repeat x00 32; ultoken := None; failcount := 0 |}.

Definition sample_client : MegaClient :=
  {| usehttps := false; usealtdownport := false; usealtupport := false;
     autodownport := true; autoupport := true; orderdownloadedchunks := false;
     Clients.connections := fun _ => 4 |}.

Definition sample_buffers : SampleBuffers :=
  mkSampleBuffers false [sample_tempurl] false None.

(** A slot before its first tick. *)
Definition sample_slot (d : direction_t) (sz : Z)
  : TransferSlot (E := sample_env) :=
  {| transfer := sample_transfer d sz;
     client := sample_client;
     fa := Some (mkSampleFile false true false : @FileAccess sample_env);
     transferbuf := (sample_buffers : @TransferBufferManager sample_env);
     errorcount := 0; lasterror := API_OK;
     failure := false; retrying := false;
     Slot.connections := 0; reqs := []; asyncIO := None;
     progressreported := 0; lastdata := 0; trace := [] |}.

Definition sample_req (st : reqstatus_t) (http : Z) (body : bytes)
    (ctype : string) (u : url) : HttpReqXfer :=
  {| status := st; httpstatus := http; in_ := body; Requests.size := 131072;
     contenttype := list_ascii_of_string ctype; posturl := u;
     timeleft := 0; Requests.pos := 0;
     mChunkmacs := [(0, mkChunkMAC (repeat x07 16) false)] |}.

(** An upload on four connections: connection 3 is in SUCCESS with the
    given body, connections 0 and 2 have not been processed, connection 1
    is idle. *)
Definition sample_upload (body : bytes) (ctype : string) (u : url)
  : TransferSlot (E := sample_env) :=
  let r0 := sample_req REQ_INFLIGHT 0 [] "" u in
  let r1 := sample_req REQ_READY 0 [] "" u in
  let r2 := sample_req REQ_SUCCESS 200 [] "" u in
  let r3 := sample_req REQ_SUCCESS 200 body ctype u in
  set_reqs [Some r0; Some r1; Some r2; Some r3]
    (set_connections 4 (sample_slot PUT 393216)).

(** A new-style upload token: 36 bytes, the last one is 1. *)
Definition sample_token : bytes := repeat x41 35 ++ [x01].

(** The body "-4" and the body "-9". *)
Definition body_minus_4 : bytes := [x2d; x34].
Definition body_minus_9 : bytes := [x2d; x39].

(** A download whose chunk MACs are complete but whose [metamac] was
    computed without the second of three entries. *)
Definition sample_gap_download : TransferSlot (E := sample_env) :=
  let m := [(0, sample_mac x01); (131072, sample_mac x02);
            (393216, sample_mac x03)] in
  let t := sample_transfer GET 500000 in
  let t := set_chunkmacs m (set_progresscompleted 500000 t) in
  let t := set_metamac
             (chunkmac_map_macsmac_gaps (E := sample_env) sample_key m 1 2 3 3) t in
  set_transfer t (sample_slot GET 500000).

(** The request of connection 3 of the sample upload. *)
Definition sample_put_req (body : bytes) (ctype : string) (u : url)
  : HttpReqXfer :=
  sample_req REQ_SUCCESS 200 body ctype u.

(** The state the sample upload is left in by its token. *)
Definition sample_upload_done : TransferSlot (E := sample_env) :=
  flow_state
    (doio_REQ_SUCCESS_PUT 0 3 (sample_put_req sample_token "" sample_tempurl)
       (sample_upload sample_token "" sample_tempurl)).


(** A slot whose file has been closed for the pending completion of its
    download, with five errors on record. *)
Definition sample_pending_completion : TransferSlot (E := sample_env) :=
  set_fa None
    (set_lasterror API_EREAD (set_errorcount 5 (sample_slot GET 500000))).

End Samples.

(** ** More concrete inputs *)
Module MoreSamples.
Import Bytes Urls ChunkMacs Requests Clients Collaborators MacOfMacs Transfers.
Import Slot SlotProperties Samples.

(** A download on one connection whose request failed with HTTP status
    500. *)
Definition sample_req_500 : HttpReqXfer :=
  sample_req REQ_FAILURE 500 [] "" sample_tempurl.

Definition sample_failed_download : TransferSlot (E := sample_env) :=
  set_reqs [Some sample_req_500] (set_connections 1 (sample_slot GET 500000)).

End MoreSamples.

(** ** Nodes linked by parent pointers ([node.cpp])

    [Node] and [LocalNode] objects point to their parent.  A store holds
    the nodes; a pointer is the index of a node in the store, the null
    pointer is [None]. *)
Module Forest.

Definition ptr := nat.

(** [*p = x], for [p] in the store. *)
Fixpoint update {A} (p : ptr) (x : A) (st : list A) : list A :=
  match st, p with
  | [], _ => []
  | _ :: t, O => x :: t
  | y :: t, S k => y :: update k x t
  end.

(** The node [p] points to is replaced by [f] of it. *)
Definition modify {A} (p : ptr) (f : A -> A) (st : list A) : list A :=
  match nth_error st p with
  | Some x => update p (f x) st
  | None => st
  end.

Section Parents.
Context {A : Type} (parent : A -> option ptr).

(** [for (auto p = start; p != NULL; p = p->parent) body(p);], for a
    body that assigns to members of [*p].  [fuel] bounds the number of
    rounds; the store has no more nodes than that on any path to a
    root. *)
Fixpoint for_each_up (fuel : nat) (body : A -> A) (p : option ptr)
    (st : list A) : list A :=
  match fuel, p with
  | S k, Some q =>
      match nth_error st q with
      | Some x =>
          let st := update q (body x) st in
          match nth_error st q with
          | Some x' => for_each_up k body (parent x') st
          | None => st
          end
      | None => st
      end
  | _, _ => st
  end.

(** The pointers [start, start->parent, start->parent->parent, ...] up to
    the null pointer. *)
Fixpoint chain (fuel : nat) (st : list A) (p : option ptr) : list ptr :=
  match fuel, p with
  | S k, Some q =>
      q :: match nth_error st q with
           | Some x => chain k st (parent x)
           | None => []
           end
  | _, _ => []
  end.

(** Parents are stored before their children: no node is its own
    ancestor, and every parent pointer points into the store. *)
Definition parents_first (st : list A) : Prop :=
  forall p x q, nth_error st p = Some x -> parent x = Some q -> (q < p)%nat.

End Parents.
End Forest.

(** ** The sync tree: flags of a [LocalNode] and of its ancestors
    ([node.cpp]) *)
Module SyncTree.
Import Bytes Forest.

(** The enumerators of [TreeState] and of [treestate_t] are declared in
    headers that are not among the source files.  [TreeState] is compared
    and maximised with a state built from two bits ([doHere] shifted left
    by one, or-ed with [doBelow]), which fixes the four values. *)
Definition TREE_RESOLVED : Z := 0.
Definition TREE_DESCENDANT_FLAGGED : Z := 1.
Definition TREE_ACTION_HERE : Z := 2.
Definition TREE_ACTION_SUBTREE : Z := 3.

Inductive treestate_t :=
  | TREESTATE_NONE | TREESTATE_SYNCED | TREESTATE_PENDING | TREESTATE_SYNCING.

Definition treestate_eqb (a b : treestate_t) : bool :=
  match a, b with
  | TREESTATE_NONE, TREESTATE_NONE | TREESTATE_SYNCED, TREESTATE_SYNCED
  | TREESTATE_PENDING, TREESTATE_PENDING
  | TREESTATE_SYNCING, TREESTATE_SYNCING => true
  | _, _ => false
  end.

(** The members of [LocalNode] that the functions embedded below read or
    write. *)
Record LocalNode := mkLocalNode {
  type : Z;   (* nodetype_t *)
  parent : option ptr;   (* LocalNode* parent *)
  children : list ptr;   (* localnode_map children: the child nodes, in key order *)
  scanAgain : Z;   (* unsigned, a TreeState *)
  checkMovesAgain : Z;   (* unsigned, a TreeState *)
  syncAgain : Z;   (* unsigned, a TreeState *)
  conflicts : Z;   (* unsigned, a TreeState *)
  parentSetScanAgain : bool;
  parentSetCheckMovesAgain : bool;
  parentSetSyncAgain : bool;
  parentSetContainsConflicts : bool;
  scanInProgress : bool;
  scanObsolete : bool;
  scanDelayUntil : Z;   (* dstime *)
  mLoadPending : bool;
  mExcluded : bool;
  mRecomputeExclusionState : bool;
  ts : treestate_t
}.

Definition set_scanAgain (v : Z) (n : LocalNode) : LocalNode :=
  {| type := type n; parent := parent n; children := children n;
     scanAgain := v; checkMovesAgain := checkMovesAgain n;
     syncAgain := syncAgain n; conflicts := conflicts n;
     parentSetScanAgain := parentSetScanAgain n;
     parentSetCheckMovesAgain := parentSetCheckMovesAgain n;
     parentSetSyncAgain := parentSetSyncAgain n;
     parentSetContainsConflicts := parentSetContainsConflicts n;
     scanInProgress := scanInProgress n; scanObsolete := scanObsolete n;
     scanDelayUntil := scanDelayUntil n; mLoadPending := mLoadPending n;
     mExcluded := mExcluded n;
     mRecomputeExclusionState := mRecomputeExclusionState n; ts := ts n |}.

Definition set_checkMovesAgain (v : Z) (n : LocalNode) : LocalNode :=
  {| type := type n; parent := parent n; children := children n;
     scanAgain := scanAgain n; checkMovesAgain := v;
     syncAgain := syncAgain n; conflicts := conflicts n;
     parentSetScanAgain := parentSetScanAgain n;
     parentSetCheckMovesAgain := parentSetCheckMovesAgain n;
     parentSetSyncAgain := parentSetSyncAgain n;
     parentSetContainsConflicts := parentSetContainsConflicts n;
     scanInProgress := scanInProgress n; scanObsolete := scanObsolete n;
     scanDelayUntil := scanDelayUntil n; mLoadPending := mLoadPending n;
     mExcluded := mExcluded n;
     mRecomputeExclusionState := mRecomputeExclusionState n; ts := ts n |}.

Definition set_syncAgain (v : Z) (n : LocalNode) : LocalNode :=
  {| type := type n; parent := parent n; children := children n;
     scanAgain := scanAgain n; checkMovesAgain := checkMovesAgain n;
     syncAgain := v; conflicts := conflicts n;
     parentSetScanAgain := parentSetScanAgain n;
     parentSetCheckMovesAgain := parentSetCheckMovesAgain n;
     parentSetSyncAgain := parentSetSyncAgain n;
     parentSetContainsConflicts := parentSetContainsConflicts n;
     scanInProgress := scanInProgress n; scanObsolete := scanObsolete n;
     scanDelayUntil := scanDelayUntil n; mLoadPending := mLoadPending n;
     mExcluded := mExcluded n;
     mRecomputeExclusionState := mRecomputeExclusionState n; ts := ts n |}.

Definition set_conflicts (v : Z) (n : LocalNode) : LocalNode :=
  {| type := type n; parent := parent n; children := children n;
     scanAgain := scanAgain n; checkMovesAgain := checkMovesAgain n;
     syncAgain := syncAgain n; conflicts := v;
     parentSetScanAgain := parentSetScanAgain n;
     parentSetCheckMovesAgain := parentSetCheckMovesAgain n;
     parentSetSyncAgain := parentSetSyncAgain n;
     parentSetContainsConflicts := parentSetContainsConflicts n;
     scanInProgress := scanInProgress n; scanObsolete := scanObsolete n;
     scanDelayUntil := scanDelayUntil n; mLoadPending := mLoadPending n;
     mExcluded := mExcluded n;
     mRecomputeExclusionState := mRecomputeExclusionState n; ts := ts n |}.

Definition set_parentSetScanAgain (v : bool) (n : LocalNode) : LocalNode :=
  {| type := type n; parent := parent n; children := children n;
     scanAgain := scanAgain n; checkMovesAgain := checkMovesAgain n;
     syncAgain := syncAgain n; conflicts := conflicts n;
     parentSetScanAgain := v;
     parentSetCheckMovesAgain := parentSetCheckMovesAgain n;
     parentSetSyncAgain := parentSetSyncAgain n;
     parentSetContainsConflicts := parentSetContainsConflicts n;
     scanInProgress := scanInProgress n; scanObsolete := scanObsolete n;
     scanDelayUntil := scanDelayUntil n; mLoadPending := mLoadPending n;
     mExcluded := mExcluded n;
     mRecomputeExclusionState := mRecomputeExclusionState n; ts := ts n |}.

Definition set_parentSetCheckMovesAgain (v : bool) (n : LocalNode) : LocalNode :=
  {| type := type n; parent := parent n; children := children n;
     scanAgain := scanAgain n; checkMovesAgain := checkMovesAgain n;
     syncAgain := syncAgain n; conflicts := conflicts n;
     parentSetScanAgain := parentSetScanAgain n;
     parentSetCheckMovesAgain := v;
     parentSetSyncAgain := parentSetSyncAgain n;
     parentSetContainsConflicts := parentSetContainsConflicts n;
     scanInProgress := scanInProgress n; scanObsolete := scanObsolete n;
     scanDelayUntil := scanDelayUntil n; mLoadPending := mLoadPending n;
     mExcluded := mExcluded n;
     mRecomputeExclusionState := mRecomputeExclusionState n; ts := ts n |}.

Definition set_parentSetSyncAgain (v : bool) (n : LocalNode) : LocalNode :=
  {| type := type n; parent := parent n; children := children n;
     scanAgain := scanAgain n; checkMovesAgain := checkMovesAgain n;
     syncAgain := syncAgain n; conflicts := conflicts n;
     parentSetScanAgain := parentSetScanAgain n;
     parentSetCheckMovesAgain := parentSetCheckMovesAgain n;
     parentSetSyncAgain := v;
     parentSetContainsConflicts := parentSetContainsConflicts n;
     scanInProgress := scanInProgress n; scanObsolete := scanObsolete n;
     scanDelayUntil := scanDelayUntil n; mLoadPending := mLoadPending n;
     mExcluded := mExcluded n;
     mRecomputeExclusionState := mRecomputeExclusionState n; ts := ts n |}.

Definition set_parentSetContainsConflicts (v : bool) (n : LocalNode) : LocalNode :=
  {| type := type n; parent := parent n; children := children n;
     scanAgain := scanAgain n; checkMovesAgain := checkMovesAgain n;
     syncAgain := syncAgain n; conflicts := conflicts n;
     parentSetScanAgain := parentSetScanAgain n;
     parentSetCheckMovesAgain := parentSetCheckMovesAgain n;
     parentSetSyncAgain := parentSetSyncAgain n;
     parentSetContainsConflicts := v; scanInProgress := scanInProgress n;
     scanObsolete := scanObsolete n; scanDelayUntil := scanDelayUntil n;
     mLoadPending := mLoadPending n; mExcluded := mExcluded n;
     mRecomputeExclusionState := mRecomputeExclusionState n; ts := ts n |}.

Definition set_scanObsolete (v : bool) (n : LocalNode) : LocalNode :=
  {| type := type n; parent := parent n; children := children n;
     scanAgain := scanAgain n; checkMovesAgain := checkMovesAgain n;
     syncAgain := syncAgain n; conflicts := conflicts n;
     parentSetScanAgain := parentSetScanAgain n;
     parentSetCheckMovesAgain := parentSetCheckMovesAgain n;
     parentSetSyncAgain := parentSetSyncAgain n;
     parentSetContainsConflicts := parentSetContainsConflicts n;
     scanInProgress := scanInProgress n; scanObsolete := v;
     scanDelayUntil := scanDelayUntil n; mLoadPending := mLoadPending n;
     mExcluded := mExcluded n;
     mRecomputeExclusionState := mRecomputeExclusionState n; ts := ts n |}.

Definition set_scanDelayUntil (v : Z) (n : LocalNode) : LocalNode :=
  {| type := type n; parent := parent n; children := children n;
     scanAgain := scanAgain n; checkMovesAgain := checkMovesAgain n;
     syncAgain := syncAgain n; conflicts := conflicts n;
     parentSetScanAgain := parentSetScanAgain n;
     parentSetCheckMovesAgain := parentSetCheckMovesAgain n;
     parentSetSyncAgain := parentSetSyncAgain n;
     parentSetContainsConflicts := parentSetContainsConflicts n;
     scanInProgress := scanInProgress n; scanObsolete := scanObsolete n;
     scanDelayUntil := v; mLoadPending := mLoadPending n;
     mExcluded := mExcluded n;
     mRecomputeExclusionState := mRecomputeExclusionState n; ts := ts n |}.

Definition set_mLoadPending (v : bool) (n : LocalNode) : LocalNode :=
  {| type := type n; parent := parent n; children := children n;
     scanAgain := scanAgain n; checkMovesAgain := checkMovesAgain n;
     syncAgain := syncAgain n; conflicts := conflicts n;
     parentSetScanAgain := parentSetScanAgain n;
     parentSetCheckMovesAgain := parentSetCheckMovesAgain n;
     parentSetSyncAgain := parentSetSyncAgain n;
     parentSetContainsConflicts := parentSetContainsConflicts n;
     scanInProgress := scanInProgress n; scanObsolete := scanObsolete n;
     scanDelayUntil := scanDelayUntil n; mLoadPending := v;
     mExcluded := mExcluded n;
     mRecomputeExclusionState := mRecomputeExclusionState n; ts := ts n |}.

Definition set_mExcluded (v : bool) (n : LocalNode) : LocalNode :=
  {| type := type n; parent := parent n; children := children n;
     scanAgain := scanAgain n; checkMovesAgain := checkMovesAgain n;
     syncAgain := syncAgain n; conflicts := conflicts n;
     parentSetScanAgain := parentSetScanAgain n;
     parentSetCheckMovesAgain := parentSetCheckMovesAgain n;
     parentSetSyncAgain := parentSetSyncAgain n;
     parentSetContainsConflicts := parentSetContainsConflicts n;
     scanInProgress := scanInProgress n; scanObsolete := scanObsolete n;
     scanDelayUntil := scanDelayUntil n; mLoadPending := mLoadPending n;
     mExcluded := v; mRecomputeExclusionState := mRecomputeExclusionState n;
     ts := ts n |}.

Definition set_mRecomputeExclusionState (v : bool) (n : LocalNode) : LocalNode :=
  {| type := type n; parent := parent n; children := children n;
     scanAgain := scanAgain n; checkMovesAgain := checkMovesAgain n;
     syncAgain := syncAgain n; conflicts := conflicts n;
     parentSetScanAgain := parentSetScanAgain n;
     parentSetCheckMovesAgain := parentSetCheckMovesAgain n;
     parentSetSyncAgain := parentSetSyncAgain n;
     parentSetContainsConflicts := parentSetContainsConflicts n;
     scanInProgress := scanInProgress n; scanObsolete := scanObsolete n;
     scanDelayUntil := scanDelayUntil n; mLoadPending := mLoadPending n;
     mExcluded := mExcluded n; mRecomputeExclusionState := v; ts := ts n |}.

Definition set_ts (v : treestate_t) (n : LocalNode) : LocalNode :=
  {| type := type n; parent := parent n; children := children n;
     scanAgain := scanAgain n; checkMovesAgain := checkMovesAgain n;
     syncAgain := syncAgain n; conflicts := conflicts n;
     parentSetScanAgain := parentSetScanAgain n;
     parentSetCheckMovesAgain := parentSetCheckMovesAgain n;
     parentSetSyncAgain := parentSetSyncAgain n;
     parentSetContainsConflicts := parentSetContainsConflicts n;
     scanInProgress := scanInProgress n; scanObsolete := scanObsolete n;
     scanDelayUntil := scanDelayUntil n; mLoadPending := mLoadPending n;
     mExcluded := mExcluded n;
     mRecomputeExclusionState := mRecomputeExclusionState n; ts := v |}.

Definition store := list LocalNode.

(** [(doHere?1u:0u) << 1 | (doBelow?1u:0u)] *)
Definition tree_state (doHere doBelow : bool) : Z :=
  Z.lor (Z.shiftl (if doHere then 1 else 0) 1) (if doBelow then 1 else 0).

(** [void LocalNode::setScanAgain(bool doParent, bool doHere, bool
    doBelow, dstime delayds)], called on [*this]; [ds] is [Waiter::ds].
    [dstime] is a 32-bit unsigned integer.  The two branches on
    [scanDelayUntil] are the same statement in the source. *)
Definition setScanAgain (ds : Z) (this : ptr)
    (doParent doHere doBelow : bool) (delayds : Z) (st : store) : store :=
  match nth_error st this with
  | None => st
  | Some n =>
      let n := if doHere && scanInProgress n then set_scanObsolete true n
               else n in
      let state := tree_state doHere doBelow in
      let n :=
        if (TREE_ACTION_HERE <=? state) && (0 <? delayds) then
          if to_u32 (ds + delayds + 10) <? scanDelayUntil n
          then set_scanDelayUntil
                 (Z.max (scanDelayUntil n) (to_u32 (ds + delayds))) n
          else set_scanDelayUntil
                 (Z.max (scanDelayUntil n) (to_u32 (ds + delayds))) n
        else n in
      let n := set_scanAgain (Z.max (scanAgain n) state) n in
      let st := update this n st in
      let st :=
        for_each_up parent (length st)
          (fun p => set_scanAgain
                      (Z.max (scanAgain p) TREE_DESCENDANT_FLAGGED) p)
          (parent n) st in
      match parent n with
      | Some q =>
          if doParent then
            let st := modify q
                        (fun p => set_scanAgain
                                    (Z.max (scanAgain p) TREE_ACTION_HERE) p)
                        st in
            let st := modify this (set_parentSetScanAgain false) st in
            modify this
              (fun n => set_parentSetScanAgain
                          (parentSetScanAgain n || false) n) st
          else
            modify this
              (fun n => set_parentSetScanAgain
                          (parentSetScanAgain n || doParent) n) st
      | None =>
          modify this
            (fun n => set_parentSetScanAgain
                        (parentSetScanAgain n || doParent) n) st
      end
  end.

(** [void LocalNode::setCheckMovesAgain(bool doParent, bool doHere, bool
    doBelow)] *)
Definition setCheckMovesAgain (this : ptr) (doParent doHere doBelow : bool)
    (st : store) : store :=
  match nth_error st this with
  | None => st
  | Some n =>
      let state := tree_state doHere doBelow in
      let st := update this
                  (set_checkMovesAgain (Z.max (checkMovesAgain n) state) n)
                  st in
      let st :=
        for_each_up parent (length st)
          (fun p => set_checkMovesAgain
                      (Z.max (checkMovesAgain p) TREE_DESCENDANT_FLAGGED) p)
          (parent n) st in
      modify this
        (fun n => set_parentSetCheckMovesAgain
                    (parentSetCheckMovesAgain n || doParent) n) st
  end.

(** [void LocalNode::setSyncAgain(bool doParent, bool doHere, bool
    doBelow)] *)
Definition setSyncAgain (this : ptr) (doParent doHere doBelow : bool)
    (st : store) : store :=
  match nth_error st this with
  | None => st
  | Some n =>
      let state := tree_state doHere doBelow in
      let st := update this (set_syncAgain (Z.max (syncAgain n) state) n) st in
      let st :=
        for_each_up parent (length st)
          (fun p => set_syncAgain
                      (Z.max (syncAgain p) TREE_DESCENDANT_FLAGGED) p)
          (parent n) st in
      modify this
        (fun n => set_parentSetSyncAgain (parentSetSyncAgain n || doParent) n)
        st
  end.

(** [void LocalNode::setContainsConflicts(bool doParent, bool doHere,
    bool doBelow)] *)
Definition setContainsConflicts (this : ptr) (doParent doHere doBelow : bool)
    (st : store) : store :=
  match nth_error st this with
  | None => st
  | Some n =>
      let state := tree_state doHere doBelow in
      let st := update this (set_conflicts (Z.max (conflicts n) state) n) st in
      let st :=
        for_each_up parent (length st)
          (fun p => set_conflicts
                      (Z.max (conflicts p) TREE_DESCENDANT_FLAGGED) p)
          (parent n) st in
      modify this
        (fun n => set_parentSetContainsConflicts
                    (parentSetContainsConflicts n || doParent) n) st
  end.

(** [scanRequired], [mightHaveMoves], [syncRequired] and
    [conflictsDetected] *)
Definition scanRequired (n : LocalNode) : bool :=
  negb (scanAgain n =? TREE_RESOLVED).

Definition mightHaveMoves (n : LocalNode) : bool :=
  negb (checkMovesAgain n =? TREE_RESOLVED).

Definition syncRequired (n : LocalNode) : bool :=
  negb (syncAgain n =? TREE_RESOLVED).

Definition conflictsDetected (n : LocalNode) : bool :=
  negb (conflicts n =? TREE_RESOLVED).

(** The loop of [LocalNode::isBelow]:
    [for (auto* node = start; node; node = node->parent)
       if (node == &other) return true;] *)
Fixpoint isBelow_loop (fuel : nat) (st : store) (node : option ptr)
    (other : ptr) : bool :=
  match fuel, node with
  | S k, Some q =>
      if (q =? other)%nat then true
      else match nth_error st q with
           | Some x => isBelow_loop k st (parent x) other
           | None => false
           end
  | _, _ => false
  end.

(** [bool LocalNode::isBelow(const LocalNode& other) const] *)
Definition isBelow (st : store) (this other : ptr) : bool :=
  match nth_error st this with
  | Some n => isBelow_loop (length st) st (parent n) other
  | None => false
  end.

(** [bool LocalNode::isAbove(const LocalNode& other) const] *)
Definition isAbove (st : store) (this other : ptr) : bool :=
  isBelow st other this.

(** The loop of [LocalNode::hasParentWithPendingLoad]. *)
Fixpoint pendingLoad_loop (fuel : nat) (st : store) (node : option ptr)
  : bool :=
  match fuel, node with
  | S k, Some q =>
      match nth_error st q with
      | Some x => if mLoadPending x then true
                  else pendingLoad_loop k st (parent x)
      | None => false
      end
  | _, _ => false
  end.

(** [bool LocalNode::hasParentWithPendingLoad() const] *)
Definition hasParentWithPendingLoad (st : store) (this : ptr) : bool :=
  match nth_error st this with
  | Some n => pendingLoad_loop (length st) st (parent n)
  | None => false
  end.

(** [bool LocalNode::hasPendingLoad() const] *)
Definition hasPendingLoad (st : store) (this : ptr) : bool :=
  match nth_error st this with
  | Some n => mLoadPending n || hasParentWithPendingLoad st this
  | None => false
  end.

(** The loop of [LocalNode::checkstate] over the children, from the
    state reached so far; a child in TREESTATE_SYNCING ends it. *)
Fixpoint checkstate_loop (st : store) (cs : list ptr) (state : treestate_t)
  : treestate_t :=
  match cs with
  | [] => state
  | c :: rest =>
      match nth_error st c with
      | Some x =>
          if treestate_eqb (ts x) TREESTATE_SYNCING then TREESTATE_SYNCING
          else checkstate_loop st rest
                 (if treestate_eqb (ts x) TREESTATE_PENDING
                     && treestate_eqb state TREESTATE_SYNCED
                  then TREESTATE_PENDING else state)
      | None => checkstate_loop st rest state
      end
  end.

(** [treestate_t LocalNode::checkstate()] *)
Definition checkstate (st : store) (this : ptr) : option treestate_t :=
  match nth_error st this with
  | Some n =>
      Some (if type n =? LocalNodes.FILENODE then ts n
            else checkstate_loop st (children n) TREESTATE_SYNCED)
  | None => None
  end.

(** [int LocalNode::isExcluded() const], the exclusion state of the node
    itself: 0 unknown, -1 excluded, 1 included. *)
Definition isExcluded (n : LocalNode) : Z :=
  if mRecomputeExclusionState n then 0
  else if mExcluded n then -1
  else 1.

End SyncTree.

(** ** Properties of the sync tree that Part II speaks about *)
Module SyncTreeProperties.
Import Bytes Forest SyncTree.

(** [setCheckMovesAgain], [setSyncAgain] and [setContainsConflicts] are
    the same function on three pairs of members: a flag and the boolean
    that records a request for the parent. *)
Definition flag_up (get : LocalNode -> Z) (set : Z -> LocalNode -> LocalNode)
    (getP : LocalNode -> bool) (setP : bool -> LocalNode -> LocalNode)
    (this : ptr) (doParent doHere doBelow : bool) (st : store) : store :=
  match nth_error st this with
  | None => st
  | Some n =>
      let state := tree_state doHere doBelow in
      let st := update this (set (Z.max (get n) state) n) st in
      let st :=
        for_each_up parent (length st)
          (fun p => set (Z.max (get p) TREE_DESCENDANT_FLAGGED) p)
          (parent n) st in
      modify this (fun n => setP (getP n || doParent) n) st
  end.

(** What it means for [F] to raise the flag [get] of a node and of its
    ancestors, in a store whose parents come first: the node gets the
    maximum of its flag and the requested state, every node it is below
    gets at least TREE_DESCENDANT_FLAGGED, and nothing else changes.  So
    the flag of every ancestor differs from TREE_RESOLVED afterwards, and
    no flag is lowered. *)
Definition raises_flag (get : LocalNode -> Z) (set : Z -> LocalNode -> LocalNode)
    (getP : LocalNode -> bool) (setP : bool -> LocalNode -> LocalNode)
    (F : ptr -> bool -> bool -> bool -> store -> store) : Prop :=
  forall (st : store) (this : ptr) (doParent doHere doBelow : bool),
    parents_first parent st -> (this < length st)%nat ->
    let st' := F this doParent doHere doBelow st in
    length st' = length st
    /\ (forall a b, isBelow st' a b = isBelow st a b)
    /\ (forall m x, nth_error st m = Some x ->
          nth_error st' m
          = Some (if (m =? this)%nat
                  then setP (getP x || doParent)
                         (set (Z.max (get x) (tree_state doHere doBelow)) x)
                  else if isBelow st this m
                       then set (Z.max (get x) TREE_DESCENDANT_FLAGGED) x
                       else x))
    /\ (forall a x', isBelow st this a = true -> nth_error st' a = Some x' ->
                     get x' <> TREE_RESOLVED)
    /\ (forall m x x', nth_error st m = Some x -> nth_error st' m = Some x' ->
                       get x <= get x').

(** A node as [LocalNode::init] leaves it, of the given type and under
    the given parent. *)
Definition fresh_node (t : Z) (p : option ptr) (cs : list ptr) : LocalNode :=
  {| type := t; parent := p; children := cs;
     scanAgain := TREE_RESOLVED; checkMovesAgain := TREE_RESOLVED;
     syncAgain := TREE_RESOLVED; conflicts := TREE_RESOLVED;
     parentSetScanAgain := false; parentSetCheckMovesAgain := false;
     parentSetSyncAgain := false; parentSetContainsConflicts := false;
     scanInProgress := false; scanObsolete := false; scanDelayUntil := 0;
     mLoadPending := false; mExcluded := false;
     mRecomputeExclusionState := false; ts := TREESTATE_NONE |}.

(** A sync root (0) with two folders (1 and 3) and a file (2) in the
    first of them. *)
Definition sample_tree : store :=
  [ fresh_node LocalNodes.FOLDERNODE None [1; 3]%nat;
    fresh_node LocalNodes.FOLDERNODE (Some 0%nat) [2%nat];
    fresh_node LocalNodes.FILENODE (Some 1%nat) [];
    fresh_node LocalNodes.FOLDERNODE (Some 0%nat) [] ].

(** Whether the child [c] is in the store with tree state [s]. *)
Definition child_has_state (st : store) (s : treestate_t) (c : ptr) : bool :=
  match nth_error st c with
  | Some x => treestate_eqb (ts x) s
  | None => false
  end.

(** The sample tree while its file is being synced. *)
Definition sample_tree_syncing : store :=
  modify 2%nat (set_ts TREESTATE_SYNCING) sample_tree.

End SyncTreeProperties.

(** ** The tree of cloud nodes ([Node], [node.cpp]) *)
Module CloudNodes.
Import Bytes Forest.

(** [nodetype_t] (mega/types.h, not among the source files): the
    enumerators [Node::displaypath] and [Node::subnodeCounts] name. *)
Definition TYPE_UNKNOWN : Z := -1.
Definition FILENODE : Z := 0.
Definition FOLDERNODE : Z := 1.
Definition ROOTNODE : Z := 2.
Definition INCOMINGNODE : Z := 3.
Definition RUBBISHNODE : Z := 4.

(** [attr_map], a [std::map<nameid, string>]: the entries in key order,
    one per key. *)
Definition nameid := Z.
Definition attr_map := list (nameid * list ascii).

(** [attrs.map.find(k)]: the value, or [None] for [end()]. *)
Fixpoint attr_find (k : nameid) (m : attr_map) : option (list ascii) :=
  match m with
  | [] => None
  | (k', v) :: rest => if k' =? k then Some v else attr_find k rest
  end.

(** The name id ['n']. *)
Definition nameid_n : nameid := 110.

(** [Share* inshare], reduced to what [displaypath] reads of it: the
    e-mail address of its user, when it has a user. *)
Record Share := mkShare {
  user_email : option (list ascii)
}.

(** The members of [Node] that the functions embedded below read or
    write.  [children] is the [node_list] in its order; [fingerprint_it]
    says whether the iterator into the client's fingerprint set is
    different from [end()]. *)
Record Node := mkNode {
  nodehandle : Z;
  type : Z;   (* nodetype_t *)
  size : Z;   (* m_off_t *)
  parent : option ptr;
  children : list ptr;
  attrstring : option (list ascii);   (* unique_ptr<string> *)
  attrs : attr_map;
  inshare : option Share;
  fingerprint_it : bool
}.

Definition set_fingerprint_it (v : bool) (n : Node) : Node :=
  {| nodehandle := nodehandle n; type := type n; size := size n;
     parent := parent n; children := children n;
     attrstring := attrstring n; attrs := attrs n; inshare := inshare n;
     fingerprint_it := v |}.

Definition store := list Node.

Definition string_eqb (a b : list ascii) : bool :=
  if list_eq_dec Ascii.ascii_dec a b then true else false.

(** [bool Node::hasName(const string& name) const] *)
Definition hasName (n : Node) (name : list ascii) : bool :=
  match attr_find nameid_n (attrs n) with
  | Some v => string_eqb v name
  | None => false
  end.

(** The loop of [Node::childbyname] and of [Node::hasChildWithName] over
    the children: the first child that has the name. *)
Fixpoint first_child_with_name (st : store) (cs : list ptr)
    (name : list ascii) : option ptr :=
  match cs with
  | [] => None
  | c :: rest =>
      match nth_error st c with
      | Some x => if hasName x name then Some c
                  else first_child_with_name st rest name
      | None => first_child_with_name st rest name
      end
  end.

(** [Node* Node::childbyname(const string& name)] *)
Definition childbyname (st : store) (this : Node) (name : list ascii)
  : option ptr :=
  first_child_with_name st (children this) name.

(** [bool Node::hasChildWithName(const string& name) const] *)
Fixpoint hasChildWithName_loop (st : store) (cs : list ptr)
    (name : list ascii) : bool :=
  match cs with
  | [] => false
  | c :: rest =>
      match nth_error st c with
      | Some x => if hasName x name then true
                  else hasChildWithName_loop st rest name
      | None => hasChildWithName_loop st rest name
      end
  end.

Definition hasChildWithName (st : store) (this : Node) (name : list ascii)
  : bool :=
  hasChildWithName_loop st (children this) name.

(** [s.c_str()] read as a C string: the characters before the first NUL. *)
Fixpoint c_str (s : list ascii) : list ascii :=
  match s with
  | [] => []
  | c :: rest => if Ascii.eqb c zero then [] else c :: c_str rest
  end.

(** [const char* Node::displayname() const], as the string it points
    to. *)
Definition displayname (n : Node) : list ascii :=
  match attrstring n with
  | Some _ => list_ascii_of_string "NO_KEY"
  | None =>
      match attr_find nameid_n (attrs n) with
      | None => list_ascii_of_string "CRYPTO_ERROR"
      | Some v =>
          match v with
          | [] => list_ascii_of_string "BLANK"
          | _ => c_str v
          end
      end
  end.

(** [string Node::displaypath() const]: the loop from [n] upwards, with
    the path built so far. *)
Fixpoint displaypath_loop (fuel : nat) (st : store) (n : option ptr)
    (path : list ascii) : list ascii :=
  match fuel, n with
  | S k, Some q =>
      match nth_error st q with
      | None => path
      | Some x =>
          let up := fun path =>
            displaypath_loop k st (parent x)
              (list_ascii_of_string "/" ++ path) in
          if type x =? FOLDERNODE then
            let path := displayname x ++ path in
            match inshare x with
            | Some sh =>
                let path := list_ascii_of_string ":" ++ path in
                match user_email sh with
                | Some email => email ++ path
                | None => list_ascii_of_string "UNKNOWN" ++ path
                end
            | None => up path
            end
          else if type x =? INCOMINGNODE then
            list_ascii_of_string "//in" ++ path
          else if type x =? ROOTNODE then
            match path with
            | [] => list_ascii_of_string "/"
            | _ => path
            end
          else if type x =? RUBBISHNODE then
            list_ascii_of_string "//bin" ++ path
          else if (type x =? TYPE_UNKNOWN) || (type x =? FILENODE) then
            up (displayname x ++ path)
          else up path
      end
  | _, _ => path
  end.

Definition displaypath (st : store) (this : ptr) : list ascii :=
  displaypath_loop (length st) st (Some this) [].

(** [const Node* Node::firstancestor() const] *)
Fixpoint firstancestor_loop (fuel : nat) (st : store) (n : ptr) : ptr :=
  match fuel with
  | S k =>
      match nth_error st n with
      | Some x =>
          match parent x with
          | Some p => firstancestor_loop k st p
          | None => n
          end
      | None => n
      end
  | O => n
  end.

Definition firstancestor (st : store) (this : ptr) : ptr :=
  firstancestor_loop (length st) st this.

(** [const Node* Node::latestFileVersion() const] *)
Fixpoint latestFileVersion_loop (fuel : nat) (st : store) (n : ptr) : ptr :=
  match fuel with
  | S k =>
      match nth_error st n with
      | Some x =>
          match parent x with
          | Some p =>
              match nth_error st p with
              | Some y => if type y =? FILENODE
                          then latestFileVersion_loop k st p else n
              | None => n
              end
          | None => n
          end
      | None => n
      end
  | O => n
  end.

Definition latestFileVersion (st : store) (this : ptr) : ptr :=
  match nth_error st this with
  | Some x => if type x =? FILENODE
              then latestFileVersion_loop (length st) st this else this
  | None => this
  end.

(** [bool Node::isbelow(Node* p) const]: the loop
    [for (;;) { if (!n) return false; if (n == p) return true;
                n = n->parent; }] *)
Fixpoint isbelow_loop (fuel : nat) (st : store) (n : option ptr)
    (p : option ptr) : bool :=
  match fuel, n with
  | S k, Some q =>
      if match p with Some p' => (q =? p')%nat | None => false end then true
      else match nth_error st q with
           | Some x => isbelow_loop k st (parent x) p
           | None => false
           end
  | _, _ => false
  end.

Definition isbelow (st : store) (this : ptr) (p : option ptr) : bool :=
  isbelow_loop (length st) st (Some this) p.

(** [bool Node::isbelow(NodeHandle p) const] *)
Fixpoint isbelow_handle_loop (fuel : nat) (st : store) (n : option ptr)
    (p : Z) : bool :=
  match fuel, n with
  | S k, Some q =>
      match nth_error st q with
      | Some x => if nodehandle x =? p then true
                  else isbelow_handle_loop k st (parent x) p
      | None => false
      end
  | _, _ => false
  end.

Definition isbelow_handle (st : store) (this : ptr) (p : Z) : bool :=
  isbelow_handle_loop (length st) st (Some this) p.

(** [NodeCounter] (declared in a header that is not among the source
    files): five counters, added member by member by [operator+=]. *)
Record NodeCounter := mkNodeCounter {
  files : Z;
  folders : Z;
  storage : Z;
  versions : Z;
  versionStorage : Z
}.

Definition NodeCounter_zero : NodeCounter := mkNodeCounter 0 0 0 0 0.

Definition NodeCounter_add (a b : NodeCounter) : NodeCounter :=
  mkNodeCounter (files a + files b) (folders a + folders b)
    (storage a + storage b) (versions a + versions b)
    (versionStorage a + versionStorage b).

(** [NodeCounter Node::subnodeCounts() const]; [fuel] bounds the depth of
    the recursion over the children. *)
Fixpoint subnodeCounts (fuel : nat) (st : store) (this : ptr) : NodeCounter :=
  match fuel with
  | O => NodeCounter_zero
  | S k =>
      match nth_error st this with
      | None => NodeCounter_zero
      | Some x =>
          let nc := fold_left
                      (fun nc child => NodeCounter_add nc (subnodeCounts k st child))
                      (children x) NodeCounter_zero in
          if type x =? FILENODE then
            let nc := mkNodeCounter (files nc + 1) (folders nc)
                        (storage nc + size x) (versions nc)
                        (versionStorage nc) in
            match parent x with
            | Some p =>
                match nth_error st p with
                | Some y =>
                    if type y =? FILENODE then
                      mkNodeCounter (files nc) (folders nc) (storage nc)
                        (versions nc + 1) (versionStorage nc + size x)
                    else nc
                | None => nc
                end
            | None => nc
            end
          else if type x =? FOLDERNODE then
            mkNodeCounter (files nc) (folders nc + 1) (storage nc)
              (versions nc) (versionStorage nc)
          else nc
      end
  end.

End CloudNodes.

(** ** The client's set of file fingerprints ([Fingerprints], [node.cpp]) *)
Module FingerprintSet.
Import Bytes Forest CloudNodes.

(** [mFingerprints] is a multiset of the file nodes, ordered by their
    fingerprints; what is kept of it is which nodes it holds, each as often
    as it was inserted.  [mSumSizes] is an [m_off_t]. *)
Record Fingerprints := mkFingerprints {
  mFingerprints : list ptr;
  mSumSizes : Z
}.

(** [mFingerprints.erase(n->fingerprint_it)]: the entry of [n] leaves. *)
Fixpoint erase (n : ptr) (l : list ptr) : list ptr :=
  match l with
  | [] => []
  | m :: rest => if (m =? n)%nat then rest else m :: erase n rest
  end.

(** [void Fingerprints::newnode(Node* n)] *)
Definition newnode (n : ptr) (st : store) : store :=
  match nth_error st n with
  | Some x => if type x =? FILENODE then update n (set_fingerprint_it false x) st
              else st
  | None => st
  end.

(** [void Fingerprints::add(Node* n)] *)
Definition add (n : ptr) (fs : Fingerprints * store) : Fingerprints * store :=
  let '(f, st) := fs in
  match nth_error st n with
  | Some x =>
      if type x =? FILENODE then
        (mkFingerprints (n :: mFingerprints f) (to_i64 (mSumSizes f + size x)),
         update n (set_fingerprint_it true x) st)
      else fs
  | None => fs
  end.

(** [void Fingerprints::remove(Node* n)] *)
Definition remove (n : ptr) (fs : Fingerprints * store) : Fingerprints * store :=
  let '(f, st) := fs in
  match nth_error st n with
  | Some x =>
      if (type x =? FILENODE) && fingerprint_it x then
        (mkFingerprints (erase n (mFingerprints f))
           (to_i64 (mSumSizes f - size x)),
         update n (set_fingerprint_it false x) st)
      else fs
  | None => fs
  end.

(** [void Fingerprints::clear()] *)
Definition clear (f : Fingerprints) : Fingerprints := mkFingerprints [] 0.

(** [m_off_t Fingerprints::getSumSizes()] *)
Definition getSumSizes (f : Fingerprints) : Z := mSumSizes f.

End FingerprintSet.

(** ** Properties of the cloud nodes that Part II speaks about *)
Module CloudNodeProperties.
Import Bytes Forest CloudNodes FingerprintSet.

(** The size of the node [p] points to. *)
Definition size_of (st : store) (p : ptr) : Z :=
  match nth_error st p with
  | Some x => size x
  | None => 0
  end.

Definition sum_sizes (st : store) (l : list ptr) : Z :=
  fold_right (fun p acc => size_of st p + acc) 0 l.

(** The fingerprint set and the nodes agree: the set holds, once each,
    the file nodes whose iterator is not [end()], and [mSumSizes] is the
    sum of their sizes (as an [m_off_t]). *)
Definition consistent (fs : Fingerprints * store) : Prop :=
  let '(f, st) := fs in
  mSumSizes f = to_i64 (sum_sizes st (mFingerprints f))
  /\ NoDup (mFingerprints f)
  /\ forall p, In p (mFingerprints f)
               <-> exists x, nth_error st p = Some x
                             /\ type x = FILENODE /\ fingerprint_it x = true.

(** A cloud drive: the root (0), a folder (1) in it, a file (2) in the
    folder, and an older version (3) of the file below it. *)
Definition plain_node (h t sz : Z) (p : option ptr) (cs : list ptr)
    (name : string) : Node :=
  {| nodehandle := h; type := t; size := sz; parent := p; children := cs;
     attrstring := None;
     attrs := [(nameid_n, list_ascii_of_string name)];
     inshare := None; fingerprint_it := false |}.

Definition sample_drive : store :=
  [ {| nodehandle := 100; type := ROOTNODE; size := 0; parent := None;
       children := [1%nat]; attrstring := None; attrs := [];
       inshare := None; fingerprint_it := false |};
    plain_node 101 FOLDERNODE 0 (Some 0%nat) [2%nat] "docs";
    plain_node 102 FILENODE 700 (Some 1%nat) [3%nat] "a.txt";
    plain_node 103 FILENODE 500 (Some 2%nat) [] "a.txt" ].

End CloudNodeProperties.

(** ** The end of a tick of the transfer slot ([transferslot.cpp]) *)
Module SlotTimeout.
Import Bytes Urls ChunkMacs Requests Clients Collaborators Transfers.
Import Slot SlotProperties.

Section WithEnv.
Context {E : Env}.

(** [const dstime TransferSlot::XFERTIMEOUT = 600] *)
Definition XFERTIMEOUT : dstime := 600.

(** [Waiter::ds - lastdata >= XFERTIMEOUT]; [dstime] (mega/types.h, not
    among the source files) is taken as the SDK declares it, an unsigned
    32-bit integer, so the difference wraps. *)
Definition timed_out (ds : dstime) (s : TransferSlot) : bool :=
  to_u32 (ds - lastdata s) >=? XFERTIMEOUT.

(** The body of the loop over the connections after a timeout, for the
    connection [i]: the slot, [chunkfailed], and the connections whose
    request was told to [disconnect()], latest first. *)
Definition timeout_request (changeport : bool)
    (acc : TransferSlot * bool * list nat) (i : nat)
  : TransferSlot * bool * list nat :=
  let '(s, chunkfailed, disconnected) := acc in
  match req_at i s with
  | Some r =>
      if reqstatus_eqb (status r) REQ_INFLIGHT then
        let s := log (setchunkfailed (posturl r)) s in
        let r := if changeport then set_posturl (toggleport (posturl r)) r
                 else r in
        (set_req i (set_status REQ_PREPARED r) s, true, i :: disconnected)
      else acc
  | None => acc
  end.

(** The automatic change of port after a timeout, with [changeport]. *)
Definition timeout_changeport (s : TransferSlot) : TransferSlot * bool :=
  let tempurl_is_http := is_http (tempURL (transferbuf s) 0) in
  if direction_eqb (type (transfer s)) GET
     && autodownport (client s) && tempurl_is_http
  then (set_client (set_usealtdownport
                      (negb (usealtdownport (client s))) (client s)) s,
        true)
  else if direction_eqb (type (transfer s)) PUT
          && autoupport (client s) && tempurl_is_http
  then (set_client (set_usealtupport
                      (negb (usealtupport (client s))) (client s)) s,
        true)
  else (s, false).

(** The timeout at the end of [doio] (lines 1228 to 1276), with the
    connections that were disconnected. *)
Definition doio_timeout (ds : dstime) (s : TransferSlot)
  : flow TransferSlot * list nat :=
  if timed_out ds s && negb (failure s) then
    let s := set_failure true s in
    let '(s, changeport) := timeout_changeport s in
    let '(s, chunkfailed, disconnected) :=
      fold_left (timeout_request changeport)
        (rev (seq 0 (Z.to_nat (connections s)))) (s, false, []) in
    if negb chunkfailed then
      (Return (log (transfer_failed API_EAGAIN 0) s), disconnected)
    else
      let s := log (app_transfer_failed API_EFAILED) s in
      (Next (log transferTempErrors_increment s), disconnected)
  else (Next s, []).

(** The last statement of [doio] (lines 1278 to 1282). *)
Definition doio_backoff (backoff : dstime) (s : TransferSlot) : TransferSlot :=
  if negb (failure s) && (backoff >? 0) then
    set_retrying true (log (retrybt_backoff backoff) s)
  else s.

(** The end of a tick: the timeout, and the backoff unless the timeout
    has left [doio]. *)
Definition doio_end (ds backoff : dstime) (s : TransferSlot)
  : flow TransferSlot * list nat :=
  match doio_timeout ds s with
  | (Next s, d) => (Next (doio_backoff backoff s), d)
  | other => other
  end.

End WithEnv.
End SlotTimeout.

(** ** Properties of the timeout that Part II speaks about *)
Module SlotTimeoutProperties.
Import Bytes Urls ChunkMacs Requests Clients Collaborators Transfers.
Import Slot SlotProperties SlotTimeout.

Section WithEnv.
Context {E : Env}.

(** The request of connection [j] is in flight. *)
Definition inflight (s : TransferSlot) (j : nat) : bool :=
  match req_at j s with
  | Some r => reqstatus_eqb (status r) REQ_INFLIGHT
  | None => false
  end.

(** The chunk that the timeout marks as failed for connection [j]: the
    one of its request, when that is in flight. *)
Definition failed_chunk (s : TransferSlot) (j : nat) : list action :=
  match req_at j s with
  | Some r => if reqstatus_eqb (status r) REQ_INFLIGHT
              then [setchunkfailed (posturl r)] else []
  | None => []
  end.

(** What the timeout makes of a request that is in flight. *)
Definition rearmed (changeport : bool) (r : HttpReqXfer) : HttpReqXfer :=
  set_status REQ_PREPARED
    (if changeport then set_posturl (toggleport (posturl r)) r else r).

(** Whether the timeout changes the port: the client allows it for the
    direction of the transfer and the first temporary URL is an http:
    URL. *)
Definition port_change (s : TransferSlot) : bool :=
  let http := is_http (tempURL (transferbuf s) 0) in
  (direction_eqb (type (transfer s)) GET && autodownport (client s) && http)
  || (direction_eqb (type (transfer s)) PUT && autoupport (client s) && http).

End WithEnv.
End SlotTimeoutProperties.

(** ** Sending nodes to a user once the public key is known
    ([pubkeyaction.cpp]) *)
Module PubKeyActions.
Import Bytes Forest Transfers.

(** [API_ENOENT], the MEGA API's code (mega/types.h is not among the
    source files). *)
Definition API_ENOENT : error := -9.

(** The member of [NewNode] that [PubKeyActionPutNodes::proc] reads and
    writes. *)
Record NewNode := mkNewNode {
  nodekey : bytes
}.

(** The members of [User] that it reads. *)
Record User := mkUser {
  pubk_isvalid : bool;   (* pubk.isvalid() *)
  uid : list ascii
}.

(** What [proc] does to the world: it calls [completion], or the
    application's [putnodes_result], or adds a [CommandPutNodes] to the
    client's requests, for the user [u->uid.c_str()]; [with_completion]
    says whether the command got a completion function that is not
    empty. *)
Inductive effect :=
  | completion_call (e : error) (nn : list NewNode) (tag : Z)
  | app_putnodes_result (e : error) (nn : list NewNode) (tag : Z)
  | reqs_add_CommandPutNodes (user : list ascii) (nn : list NewNode)
      (tag : Z) (with_completion : bool).

Section WithCipher.

(** [u->pubk.encrypt(client->rng, data, len, buf, sizeof buf)]: the
    random number generator after the call and, unless the result is 0,
    the bytes written to [buf], as many as the result says.  The cipher is
    not among the source files. *)
Variable PrnGen : Type.
Variable encrypt : User -> PrnGen -> bytes -> PrnGen * option bytes.

(** The loop [for (size_t i = nn.size(); i--;)], from [i] on: the
    generator, the nodes, and whether the loop ran to its end. *)
Fixpoint reencrypt (u : User) (i : nat) (rng : PrnGen) (nn : list NewNode)
  : PrnGen * list NewNode * bool :=
  match i with
  | O => (rng, nn, true)
  | S i' =>
      match nth_error nn i' with
      | Some x =>
          match encrypt u rng (nodekey x) with
          | (rng, None) => (rng, nn, false)
          | (rng, Some out) => reencrypt u i' rng (update i' (mkNewNode out) nn)
          end
      | None => (rng, nn, true)   (* not reached: [i] starts at [nn.size()] *)
      end
  end.

(** [void PubKeyActionPutNodes::proc(MegaClient* client, User* u)], for
    an action with the nodes [nn], the tag [tag] and a completion
    function that is empty or not. *)
Definition proc (has_completion : bool) (tag : Z) (nn : list NewNode)
    (u : option User) (rng : PrnGen) : PrnGen * list effect :=
  let report := fun e nn =>
    if has_completion then completion_call e nn tag
    else app_putnodes_result e nn tag in
  match u with
  | Some usr =>
      if pubk_isvalid usr then
        match reencrypt usr (length nn) rng nn with
        | (rng, nn, true) =>
            (rng, [reqs_add_CommandPutNodes (CloudNodes.c_str (uid usr)) nn
                     tag has_completion])
        | (rng, nn, false) => (rng, [report API_EINTERNAL nn])
        end
      else (rng, [report API_ENOENT nn])
  | None => (rng, [report API_ENOENT nn])
  end.

(** The key [k'] is an encryption of the key [k] to the user. *)
Definition encrypts (u : User) (k k' : bytes) : Prop :=
  exists rng, snd (encrypt u rng k) = Some k'.

(** The key [k] is one that the cipher refuses. *)
Definition refused (u : User) (k : bytes) : Prop :=
  exists rng, snd (encrypt u rng k) = None.

End WithCipher.
End PubKeyActions.

(** ** Recomputing the exclusion state of a subtree ([node.cpp]) *)
Module SyncTreeExclusion.
Import Bytes Forest SyncTree.

(** [mExcluded = false; mRecomputeExclusionState = true;] *)
Definition flag (x : LocalNode) : LocalNode :=
  set_mRecomputeExclusionState true (set_mExcluded false x).

(** The loop over the children of the node at the front of [pending]:
    a child that is not flagged yet is flagged, and is put at the back of
    [pending] when it is a folder. *)
Fixpoint flag_children (cs : list ptr) (acc : store * list ptr)
  : store * list ptr :=
  match cs with
  | [] => acc
  | c :: rest =>
      let '(st, pending) := acc in
      match nth_error st c with
      | Some child =>
          if mRecomputeExclusionState child then flag_children rest acc
          else
            flag_children rest
              (update c (flag child) st,
               if type child =? LocalNodes.FOLDERNODE then pending ++ [c]
               else pending)
      | None => flag_children rest acc
      end
  end.

(** [while (!pending.empty()) { ...; pending.pop_front(); }]; [fuel]
    bounds the number of rounds. *)
Fixpoint drain (fuel : nat) (st : store) (pending : list ptr) : store :=
  match fuel, pending with
  | S k, p :: _ =>
      match nth_error st p with
      | Some node =>
          let '(st, pending) := flag_children (children node) (st, pending) in
          drain k st (tl pending)
      | None => st
      end
  | _, _ => st
  end.

(** [void LocalNode::setRecomputeExclusionState()].  No node is put in
    [pending] twice, so one round more than there are nodes is enough. *)
Definition setRecomputeExclusionState (this : ptr) (st : store) : store :=
  match nth_error st this with
  | Some x =>
      if mRecomputeExclusionState x then st
      else
        let st := update this (flag x) st in
        if type x =? LocalNodes.FILENODE then st
        else drain (S (length st)) st [this]
  | None => st
  end.

(** [void LocalNode::setLoadPending(bool pending)] *)
Definition setLoadPending (pending : bool) (this : ptr) (st : store) : store :=
  match nth_error st this with
  | Some x =>
      let st :=
        if negb (mLoadPending x)
        then fold_left (fun st c => setRecomputeExclusionState c st)
               (children x) st
        else st in
      modify this (set_mLoadPending pending) st
  | None => st
  end.

End SyncTreeExclusion.

(** ** Properties of the exclusion state that Part II speaks about *)
Module SyncTreeExclusionProperties.
Import Bytes Forest SyncTree SyncTreeExclusion.

(** The node [p] points to has to recompute its exclusion state. *)
Definition flagged (st : store) (p : ptr) : Prop :=
  exists x, nth_error st p = Some x /\ mRecomputeExclusionState x = true.

(** Below a flagged folder everything is flagged: the children of every
    flagged folder are flagged. *)
Definition closed (st : store) : Prop :=
  forall p x c y,
    nth_error st p = Some x -> mRecomputeExclusionState x = true ->
    type x = LocalNodes.FOLDERNODE ->
    In c (children x) -> nth_error st c = Some y ->
    mRecomputeExclusionState y = true.

(** From [st] to [st'] nothing has changed but that nodes were flagged:
    a node is as it was, or it was not flagged and is now, with
    [mExcluded] reset. *)
Definition flags_only (st st' : store) : Prop :=
  length st' = length st
  /\ forall p x, nth_error st p = Some x ->
       exists x', nth_error st' p = Some x'
                  /\ (x' = x
                      \/ (mRecomputeExclusionState x = false /\ x' = flag x)).

(** The nodes that are not flagged. *)
Definition unflagged (st : store) : nat :=
  length (filter (fun x => negb (mRecomputeExclusionState x)) st).

(** [c] is a child of the folder [p]. *)
Definition folder_child (st : store) (p c : ptr) : Prop :=
  exists x, nth_error st p = Some x /\ type x = LocalNodes.FOLDERNODE
            /\ In c (children x).

(** The nodes that are reached from [top] through folders and their
    children. *)
Inductive below_folders (st : store) (top : ptr) : ptr -> Prop :=
  | below_top : below_folders st top top
  | below_child (p c : ptr) :
      below_folders st top p -> folder_child st p c ->
      below_folders st top c.

(** What holds at the head of the loop of [setRecomputeExclusionState]
    called for [this]: [this] and the nodes in [pending] are flagged, and
    the children of every flagged node that the loop descends into and
    that is not in [pending] are flagged. *)
Definition drain_inv (this : ptr) (st : store) (pending : list ptr) : Prop :=
  flagged st this
  /\ (forall p, In p pending -> flagged st p)
  /\ (forall p x c y,
        nth_error st p = Some x -> mRecomputeExclusionState x = true ->
        type x = LocalNodes.FOLDERNODE \/ p = this ->
        ~ In p pending ->
        In c (children x) -> nth_error st c = Some y ->
        mRecomputeExclusionState y = true).

End SyncTreeExclusionProperties.

(** ** Samples for the timeout and for the public key action *)
Module LateSamples.
Import Bytes Urls ChunkMacs Requests Clients Collaborators MacOfMacs Transfers.
Import Slot SlotProperties Samples PubKeyActions.

(** A download on two connections that has moved no data since time 0:
    the request of connection 0 is in flight, that of connection 1 is
    done. *)
Definition sample_stalled_download : TransferSlot (E := sample_env) :=
  set_reqs [Some (sample_req REQ_INFLIGHT 0 [] "" sample_tempurl);
            Some (sample_req REQ_DONE 200 [] "" sample_tempurl)]
    (set_connections 2 (sample_slot GET 500000)).

(** A cipher that refuses the empty key and appends the number drawn to
    every other. *)
Definition sample_encrypt (u : User) (rng : nat) (k : bytes)
  : nat * option bytes :=
  (S rng,
   match k with
   | [] => None
   | _ => Some (k ++ [byte_of_Z (Z.of_nat rng)])
   end).

Definition sample_user : User :=
  mkUser true (list_ascii_of_string "u@example.com").

End LateSamples.

(* ===================================================================== *)
(** * Part II: lemmas and theorems                                        *)
(* ===================================================================== *)

(** ** Bytes *)
Section BytesFacts.
Import Bytes.

Lemma Z_of_byte_range (b : byte) : 0 <= Z_of_byte b < 256.
Proof.
  unfold Z_of_byte. pose proof (Byte.to_N_bounded b) as H.
  split; [apply N2Z.is_nonneg|].
  apply N2Z.inj_le in H. change (Z.of_N 255) with 255 in H. lia.
Qed.

Lemma byte_of_Z_of_byte (b : byte) : byte_of_Z (Z_of_byte b) = b.
Proof.
  unfold byte_of_Z. rewrite Z.mod_small by apply Z_of_byte_range.
  unfold Z_of_byte. rewrite N2Z.id, Byte.of_to_N. reflexivity.
Qed.

Lemma Z_of_byte_of_Z (z : Z) : Z_of_byte (byte_of_Z z) = z mod 256.
Proof.
  unfold byte_of_Z.
  assert (Hr : 0 <= z mod 256 < 256) by (apply Z.mod_pos_bound; lia).
  destruct (Byte.of_N (Z.to_N (z mod 256))) as [b|] eqn:E.
  - apply Byte.to_of_N in E. unfold Z_of_byte. rewrite E.
    rewrite Z2N.id; lia.
  - apply Byte.of_N_None_iff in E.
    apply N2Z.inj_lt in E. rewrite Z2N.id in E by lia.
    change (Z.of_N 255) with 255 in E. lia.
Qed.

Lemma le_encode_length (n : nat) (v : Z) : length (le_encode n v) = n.
Proof. revert v; induction n; intros; simpl; [|rewrite IHn]; reflexivity. Qed.

Lemma le_decode_encode (n : nat) (v : Z) :
  le_decode (le_encode n v) = v mod 2 ^ (8 * Z.of_nat n).
Proof.
  revert v; induction n as [|n IH]; intros v.
  - simpl. rewrite Z.mod_1_r. reflexivity.
  - cbn [le_encode le_decode]. rewrite Z_of_byte_of_Z, IH.
    replace (8 * Z.of_nat (S n)) with (8 + 8 * Z.of_nat n) by lia.
    rewrite Z.pow_add_r by lia. change (2 ^ 8) with 256.
    rewrite Z.rem_mul_r by lia. reflexivity.
Qed.

Lemma le_decode_encode_small (n : nat) (v : Z) :
  0 <= v < 2 ^ (8 * Z.of_nat n) -> le_decode (le_encode n v) = v.
Proof. intros H. rewrite le_decode_encode. apply Z.mod_small, H. Qed.

Lemma to_i64_to_u64 (v : Z) :
  - 2 ^ 63 <= v < 2 ^ 63 -> to_i64 (to_u64 v) = v.
Proof.
  intros H. unfold to_i64, to_u64.
  rewrite Zplus_mod_idemp_l. rewrite Z.mod_small; lia.
Qed.

Lemma to_i64_mod (v : Z) :
  - 2 ^ 63 <= v < 2 ^ 63 -> to_i64 (v mod 2 ^ 64) = v.
Proof. apply to_i64_to_u64. Qed.

End BytesFacts.

(** ** The reader inverts the writer, field by field *)
Section CacheableFacts.
Import Bytes Cacheable.

Lemma take_app (a rest : bytes) (n : nat) :
  length a = n -> take n (a ++ rest) = Some (a, rest).
Proof.
  intros <-. unfold take. rewrite length_app.
  replace (length a + length rest <? length a)%nat with false
    by (symmetry; apply Nat.ltb_ge; lia).
  rewrite firstn_app, skipn_app, firstn_all, skipn_all, Nat.sub_diag.
  simpl. rewrite app_nil_r. reflexivity.
Qed.

Lemma take_short (r : bytes) (n : nat) :
  (length r < n)%nat -> take n r = None.
Proof.
  intros H. unfold take.
  replace (length r <? n)%nat with true by (symmetry; apply Nat.ltb_lt; lia).
  reflexivity.
Qed.

Lemma take_le_encode {A} (n : nat) (v : Z) (rest : bytes) (k : bytes -> read A) :
  bind (take n) k (le_encode n v ++ rest) = k (le_encode n v) rest.
Proof. unfold bind. rewrite take_app by apply le_encode_length. reflexivity. Qed.

Lemma bind_step {A B} (m : read A) (k : A -> read B) (r r' : reader) (a : A) :
  m r = Some (a, r') -> bind m k r = k a r'.
Proof. intros H. unfold bind. rewrite H. reflexivity. Qed.

Lemma bind_fail {A B} (m : read A) (k : A -> read B) (r : reader) :
  m r = None -> bind m k r = None.
Proof. intros H. unfold bind. rewrite H. reflexivity. Qed.

Lemma unserializei64_encoded (v : Z) (rest : bytes) :
  unserializei64 (le_encode 8 v ++ rest) = Some (to_i64 (v mod 2 ^ 64), rest).
Proof.
  unfold unserializei64. rewrite take_le_encode, le_decode_encode. reflexivity.
Qed.

Lemma unserializehandle_encoded (v : Z) (rest : bytes) :
  0 <= v < 2 ^ 64 ->
  unserializehandle (le_encode 8 v ++ rest) = Some (v, rest).
Proof.
  intros H. unfold unserializehandle. rewrite take_le_encode.
  rewrite le_decode_encode_small by (change (8 * Z.of_nat 8) with 64; lia).
  reflexivity.
Qed.

Lemma unserializeu32_encoded (v : Z) (rest : bytes) :
  0 <= v < 2 ^ 32 ->
  unserializeu32 (le_encode 4 v ++ rest) = Some (v, rest).
Proof.
  intros H. unfold unserializeu32. rewrite take_le_encode.
  rewrite le_decode_encode_small by (change (8 * Z.of_nat 4) with 32; lia).
  reflexivity.
Qed.

Lemma unserializenodehandle_encoded (v : Z) (rest : bytes) :
  0 <= v < 2 ^ 48 ->
  unserializenodehandle (le_encode NODEHANDLE v ++ rest) = Some (v, rest).
Proof.
  intros H. unfold unserializenodehandle. rewrite take_le_encode.
  rewrite le_decode_encode_small
    by (change (8 * Z.of_nat NODEHANDLE) with 48; lia).
  reflexivity.
Qed.

Lemma u16_length (s : bytes) :
  (Z.of_nat (length s) < 2 ^ 16) ->
  to_u16 (Z.of_nat (length s)) = Z.of_nat (length s).
Proof. intros H. unfold to_u16. apply Z.mod_small. lia. Qed.

Lemma unserializestring_serialized (s rest : bytes) :
  Z.of_nat (length s) < 2 ^ 16 ->
  unserializestring
    (le_encode 2 (to_u16 (Z.of_nat (length s)))
       ++ firstn (Z.to_nat (to_u16 (Z.of_nat (length s)))) s ++ rest)
  = Some (s, rest).
Proof.
  intros H. rewrite u16_length by assumption. rewrite Nat2Z.id, firstn_all.
  unfold unserializestring. rewrite take_le_encode.
  rewrite le_decode_encode_small by (change (8 * Z.of_nat 2) with 16; lia).
  rewrite Nat2Z.id. apply take_app. reflexivity.
Qed.

Lemma serialize64_digits_spec (fuel : nat) (u : Z) :
  0 <= u < 2 ^ (8 * Z.of_nat fuel) ->
  le_decode (serialize64_digits fuel u) = u
  /\ (length (serialize64_digits fuel u) <= fuel)%nat.
Proof.
  revert u; induction fuel as [|fuel IH]; intros u H.
  - simpl in *. split; [lia|lia].
  - cbn [serialize64_digits]. destruct (u =? 0) eqn:E.
    + apply Z.eqb_eq in E. subst. simpl. split; lia.
    + cbn [le_decode length]. rewrite Z_of_byte_of_Z.
      replace (8 * Z.of_nat (S fuel)) with (8 + 8 * Z.of_nat fuel) in H by lia.
      rewrite Z.pow_add_r in H by lia. change (2 ^ 8) with 256 in H.
      destruct (IH (u / 256)) as [Hd Hl].
      { split; [apply Z.div_pos; lia|]. apply Z.div_lt_upper_bound; lia. }
      rewrite Hd. split; [|lia].
      pose proof (Z.div_mod u 256). lia.
Qed.

Lemma unserializecompressed64_serialized (v : Z) (rest : bytes) :
  unserializecompressed64 (Serialize64_serialize v ++ rest)
  = Some (to_u64 v, rest).
Proof.
  unfold Serialize64_serialize, unserializecompressed64.
  assert (Hu : 0 <= to_u64 v < 2 ^ (8 * Z.of_nat 8)).
  { unfold to_u64. change (8 * Z.of_nat 8) with 64. apply Z.mod_pos_bound. lia. }
  destruct (serialize64_digits_spec 8 (to_u64 v) Hu) as [Hd Hl].
  set (digits := serialize64_digits 8 (to_u64 v)) in *.
  unfold bind at 1.
  change ((byte_of_Z (Z.of_nat (length digits)) :: digits) ++ rest)
    with ([byte_of_Z (Z.of_nat (length digits))] ++ digits ++ rest).
  rewrite take_app by reflexivity.
  cbn [le_decode]. rewrite Z_of_byte_of_Z.
  rewrite Z.mod_small by lia. rewrite Z.mul_0_r, Z.add_0_r.
  replace (8 <? Z.of_nat (length digits)) with false
    by (symmetry; apply Z.ltb_ge; lia).
  unfold bind. rewrite Nat2Z.id. rewrite take_app by reflexivity.
  unfold ret. rewrite Hd. reflexivity.
Qed.

Lemma unserializecstr_serialized (s rest : bytes) :
  Z.of_nat (length s) < 2 ^ 16 ->
  unserializecstr false
    (le_encode 2 (to_u16 (Z.of_nat (length s)))
       ++ firstn (Z.to_nat (to_u16 (Z.of_nat (length s)))) s ++ rest)
  = Some (s, rest).
Proof.
  intros H. rewrite u16_length by assumption. rewrite Nat2Z.id, firstn_all.
  unfold unserializecstr. rewrite take_le_encode.
  rewrite le_decode_encode_small by (change (8 * Z.of_nat 2) with 16; lia).
  rewrite Nat2Z.id. unfold bind. rewrite take_app by reflexivity.
  unfold ret. rewrite Nat.sub_0_r, firstn_all.
  destruct s; reflexivity.
Qed.

End CacheableFacts.

(** ** The [LocalNode] record: round trip and rejected inputs *)
Section LocalNodeFacts.
Import Bytes Cacheable LocalNodes.

Lemma serialize_bytes (l : LocalNode) (d : bytes) :
  serialize l d = (true, d ++ le_encode 8 (record_combo l) ++ record_tail l).
Proof.
  unfold serialize, record_tail, record_combo.
  unfold serializei64, serializehandle, serializeu32, serializenodehandle,
    serializestring, serializebyte, serializeexpansionflags,
    serializecompressed64, serializebinary, serializepstr.
  f_equal.
  destruct (type l =? FILENODE), (isvalid (syncedFingerprint l)), (slocalname l);
    cbn [byte_of_bool]; repeat rewrite <- app_assoc; reflexivity.
Qed.

Lemma unserializenodehandle_low (v : Z) (rest : bytes) :
  unserializenodehandle (le_encode NODEHANDLE v ++ rest)
  = Some (v mod 2 ^ 48, rest).
Proof.
  unfold unserializenodehandle. rewrite take_le_encode, le_decode_encode.
  reflexivity.
Qed.

Lemma u16_prefix_length (name : bytes) :
  length (u16_prefix name)
  = Z.to_nat (to_u16 (Z.of_nat (length name))).
Proof.
  unfold u16_prefix. rewrite length_firstn. apply Nat.min_l.
  unfold to_u16.
  pose proof (Z.mod_le (Z.of_nat (length name)) (2 ^ 16)
                ltac:(lia) ltac:(lia)).
  lia.
Qed.

Lemma to_u16_range (z : Z) : 0 <= to_u16 z < 2 ^ (8 * Z.of_nat 2).
Proof. unfold to_u16. apply Z.mod_pos_bound. reflexivity. Qed.

Lemma unserializestring_prefix (name rest : bytes) :
  unserializestring
    (le_encode 2 (to_u16 (Z.of_nat (length name))) ++ u16_prefix name ++ rest)
  = Some (u16_prefix name, rest).
Proof.
  unfold unserializestring. rewrite take_le_encode.
  rewrite le_decode_encode_small by apply to_u16_range.
  apply take_app, u16_prefix_length.
Qed.

Lemma unserializecstr_prefix (name rest : bytes) :
  unserializecstr false
    (le_encode 2 (to_u16 (Z.of_nat (length name))) ++ u16_prefix name ++ rest)
  = Some (u16_prefix name, rest).
Proof.
  unfold unserializecstr. rewrite take_le_encode.
  rewrite le_decode_encode_small by apply to_u16_range.
  unfold bind. rewrite take_app by apply u16_prefix_length.
  unfold ret. rewrite Nat.sub_0_r, <- u16_prefix_length, firstn_all.
  destruct (u16_prefix name); reflexivity.
Qed.

Lemma unserialize_fields_record_tail (l : LocalNode) :
  well_typed l -> type l = FILENODE \/ type l = FOLDERNODE ->
  unserialize_fields (type l) (record_tail l) =
  Some ({| f_fsid := fsid_lastSynced l;
           f_parent_dbid := match parent l with Some dbid => dbid | None => 0 end;
           f_h := stored_handle l;
           f_localname := u16_prefix (localname l);
           f_crc := stored_crc l;
           f_mtime := to_u64 (stored_mtime l);
           f_syncable := byte_of_bool (mSyncable l);
           f_expansionflags0 := x01;
           f_shortname := match slocalname l with
                          | Some s => u16_prefix s
                          | None => []
                          end |},
        []).
Proof.
  intros (Htr & Hsz & Hsc & Hmt & Hcrc & Hfsid & Hpar & Hh) Hty.
  unfold unserialize_fields, record_tail.
  fold (u16_prefix (localname l)).
  rewrite (bind_step _ _ _ _ _ (unserializehandle_encoded _ _ Hfsid)).
  assert (Hdbid : 0 <= match parent l with Some dbid => dbid | None => 0 end
                  < 2 ^ 32) by (destruct (parent l); lia).
  rewrite (bind_step _ _ _ _ _ (unserializeu32_encoded _ _ Hdbid)).
  rewrite (bind_step _ _ _ _ _ (unserializenodehandle_low _ _)).
  fold (stored_handle l).
  rewrite <- app_assoc.
  rewrite (bind_step _ _ _ _ _ (unserializestring_prefix _ _)).
  assert (Hfp :
    forall rest (k : bytes -> Z -> read fields),
      bind (if type l =? FILENODE then unserializebinary sizeof_crc
            else ret (repeat x00 sizeof_crc))
           (fun c => bind (if type l =? FILENODE then unserializecompressed64
                           else ret 0) (k c))
        ((if type l =? FILENODE then
            if isvalid (syncedFingerprint l) then
              firstn sizeof_crc (crc (syncedFingerprint l))
              ++ Serialize64_serialize (mtime (syncedFingerprint l))
            else
              firstn sizeof_crc (crc zeroFingerprint)
              ++ Serialize64_serialize (mtime zeroFingerprint)
          else []) ++ rest)
      = k (stored_crc l) (to_u64 (stored_mtime l)) rest).
  { intros rest k. unfold stored_crc, stored_mtime.
    destruct Hty as [Hty|Hty]; rewrite Hty in *.
    - change (FILENODE =? FILENODE) with true. cbv iota. cbn [andb].
      destruct (isvalid (syncedFingerprint l)).
      + rewrite <- Hcrc at 2. rewrite firstn_all.
        rewrite <- app_assoc.
        rewrite (bind_step _ _ _ _ _ (take_app _ _ _ Hcrc)).
        rewrite (bind_step _ _ _ _ _ (unserializecompressed64_serialized _ _)).
        reflexivity.
      + change (firstn sizeof_crc (crc zeroFingerprint))
          with (repeat x00 sizeof_crc).
        rewrite <- app_assoc.
        rewrite (bind_step _ _ _ _ _
                   (take_app (repeat x00 sizeof_crc) _ sizeof_crc eq_refl)).
        rewrite (bind_step _ _ _ _ _ (unserializecompressed64_serialized _ _)).
        reflexivity.
    - change (FOLDERNODE =? FILENODE) with false. cbv iota. cbn [andb].
      reflexivity. }
  rewrite Hfp. clear Hfp.
  assert (Hb : forall (b : byte) rest,
             unserializebyte (b :: rest) = Some (b, rest)).
  { intros b rest. unfold unserializebyte.
    change (b :: rest) with ([b] ++ rest).
    rewrite (bind_step _ _ _ _ _ (take_app [b] rest 1%nat eq_refl)).
    reflexivity. }
  assert (Hf : forall rest, unserializeexpansionflags 1 (x01 :: rest)
                            = Some (x01, rest)).
  { intros rest. unfold unserializeexpansionflags.
    change (x01 :: rest) with ([x01] ++ rest).
    rewrite (bind_step _ _ _ _ _ (take_app [x01] rest 1%nat eq_refl)).
    reflexivity. }
  cbn [app].
  erewrite bind_step by (cbv beta; cbn [hasdataleft length Nat.eqb negb]; apply Hb).
  erewrite bind_step by (cbv beta; cbn [hasdataleft length Nat.eqb negb]; apply Hf).
  change (negb (is_zero_byte x01)) with true. cbv iota.
  destruct (slocalname l) as [s|].
  - fold (u16_prefix s). pose proof (unserializecstr_prefix s []) as Hend.
    rewrite app_nil_r in Hend. rewrite (bind_step _ _ _ _ _ Hend).
    reflexivity.
  - reflexivity.
Qed.

Lemma record_tail_length (l : LocalNode) :
  (8 + 4 + NODEHANDLE + 2 <= length (record_tail l))%nat.
Proof.
  unfold record_tail. repeat rewrite length_app.
  repeat rewrite le_encode_length. unfold NODEHANDLE. lia.
Qed.

Lemma stored_mtime_range (l : LocalNode) :
  well_typed l -> - 2 ^ 63 <= stored_mtime l < 2 ^ 63.
Proof.
  intros (_ & _ & _ & Hmt & _). unfold stored_mtime.
  destruct ((type l =? FILENODE) && isvalid (syncedFingerprint l)); lia.
Qed.

Lemma stored_size_range (l : LocalNode) :
  well_typed l -> 0 <= stored_size l < 2 ^ 63.
Proof.
  intros (_ & Hsz & Hsc & _). unfold stored_size.
  destruct (type l =? FILENODE); [|lia].
  destruct (isvalid (syncedFingerprint l)); lia.
Qed.

(** What [unserialize] makes of the record of a file or of a folder. *)
Lemma unserialize_run_serialized (fresh l : LocalNode) :
  well_typed l -> type l = FILENODE \/ type l = FOLDERNODE ->
  unserialize_run fresh (le_encode 8 (record_combo l) ++ record_tail l)
  = Some ({| type := type l;
             syncedFingerprint :=
               {| size := stored_size l;
                  mtime := stored_mtime l;
                  crc := stored_crc l;
                  isvalid := negb (to_u64 (stored_mtime l) =? 0) |};
             scannedFingerprint := scannedFingerprint fresh;
             fsid_lastSynced := fsid_lastSynced l;
             fsid_asScanned := UNDEF;
             parent := None;
             parent_dbid := match parent l with Some dbid => dbid | None => 0 end;
             syncedCloudNodeHandle := stored_handle l;
             localname := u16_prefix (localname l);
             slocalname := stored_shortname l;
             slocalname_in_db := true;
             mSyncable := mSyncable l |}, []).
Proof.
  intros Hwt Hty.
  pose proof (unserialize_fields_record_tail l Hwt Hty) as Hfields.
  pose proof (stored_mtime_range l Hwt) as Hmt.
  pose proof (stored_size_range l Hwt) as Hsz.
  unfold unserialize_run.
  pose proof (record_tail_length l) as Hlen.
  rewrite length_app, le_encode_length.
  replace (8 + length (record_tail l) <? min_record_size)%nat with false
    by (symmetry; apply Nat.ltb_ge; unfold min_record_size; lia).
  rewrite unserializei64_encoded.
  assert (Hshort : match match slocalname l with
                         | Some s => u16_prefix s
                         | None => []
                         end
                   with
                   | [] => None
                   | _ :: _ => Some match slocalname l with
                                    | Some s => u16_prefix s
                                    | None => []
                                    end
                   end = stored_shortname l)
    by (unfold stored_shortname; destruct (slocalname l) as [s|];
        [destruct (u16_prefix s)|]; reflexivity).
  destruct Hty as [Hty|Hty].
  - assert (Hcombo : record_combo l = stored_size l).
    { unfold record_combo, stored_size. rewrite Hty.
      change (FILENODE =? 0) with true.
      change (FILENODE =? FILENODE) with true. cbv iota zeta.
      destruct (isvalid (syncedFingerprint l));
        match goal with
        | |- context [?x <? 0] => destruct (Z.ltb_spec x 0); lia
        end. }
    rewrite Hcombo, to_i64_mod by lia.
    replace (stored_size l <? 0) with false
      by (symmetry; apply Z.ltb_ge; lia).
    cbn [andb]. rewrite Hty in Hfields. rewrite Hfields.
    cbn [f_shortname f_mtime f_crc f_fsid
      f_parent_dbid f_h f_localname f_syncable f_expansionflags0].
    rewrite to_i64_to_u64 by assumption. rewrite Hshort, Hty.
    do 2 f_equal. f_equal. destruct (mSyncable l); reflexivity.
  - assert (Hcombo : record_combo l = -1)
      by (unfold record_combo; rewrite Hty; reflexivity).
    assert (Hsize : stored_size l = 0)
      by (unfold stored_size; rewrite Hty; reflexivity).
    rewrite Hcombo.
    change (to_i64 (-1 mod 2 ^ 64)) with (-1).
    change ((-1 <? 0) && (- FOLDERNODE <=? -1)) with true. cbv iota.
    change (- -1) with FOLDERNODE. rewrite Hty in Hfields. rewrite Hfields.
    cbn [f_shortname f_mtime f_crc f_fsid
      f_parent_dbid f_h f_localname f_syncable f_expansionflags0].
    rewrite to_i64_to_u64 by assumption. rewrite Hshort, Hty, Hsize.
    do 2 f_equal. f_equal. destruct (mSyncable l); reflexivity.
Qed.

(** C9 (as amended).  The record of a file or of a folder is read back
    whole, as a node with the same type, fsid, parent dbid and syncable
    flag.  The size read back is that of the synced fingerprint when it
    is valid and that of the scanned fingerprint otherwise, 0 when
    negative, and 0 for a folder; crc and mtime are those of a file's
    valid synced fingerprint and zero otherwise, and the fingerprint read
    back is valid when the mtime is not 0; the cloud node handle comes
    back in its six low bytes; a name comes back in as many bytes as its
    length says as an [unsigned short], all of a name shorter than 65536
    bytes; a short name of which nothing is kept comes back as none.  So
    the round trip gives back the fields of the claim exactly when the
    record keeps them as they are ([stored_as_is]).  A node of another
    type is read back as a file, if at all. *)
Theorem unserialize_serialize_roundtrip (fresh l : LocalNode) :
  well_typed l ->
  fst (serialize l []) = true
  /\ (type l = FILENODE \/ type l = FOLDERNODE ->
      exists l', unserialize fresh (snd (serialize l [])) = Some l'
                 /\ stored_fields l l'
                 /\ unserialize_trailing_data fresh (snd (serialize l []))
                    = false
                 /\ (same_fields l l' <-> stored_as_is l))
  /\ (type l <> FILENODE -> type l <> FOLDERNODE ->
      forall l', unserialize fresh (snd (serialize l [])) = Some l' ->
                 type l' = FILENODE).
Proof.
  intros Hwt. rewrite serialize_bytes. cbn [fst snd]. rewrite app_nil_l.
  split; [reflexivity|]. split.
  - intros Hty.
    pose proof (unserialize_run_serialized fresh l Hwt Hty) as Hrun.
    pose proof (stored_mtime_range l Hwt) as Hmt.
    eexists. unfold unserialize, unserialize_trailing_data. rewrite Hrun.
    cbn [option_map fst]. split; [reflexivity|].
    assert (Hvalid : negb (to_u64 (stored_mtime l) =? 0)
                     = negb (stored_mtime l =? 0)).
    { f_equal. unfold to_u64.
      destruct (Z.eqb_spec (stored_mtime l) 0) as [->|Hne]; [reflexivity|].
      apply Z.eqb_neq. intros H0.
      apply Z.mod_divide in H0; [|lia]. destruct H0 as [q Hq]. lia. }
    split; [|split; [reflexivity|]].
    + unfold stored_fields. cbn. rewrite Hvalid. repeat split; reflexivity.
    + unfold same_fields, stored_as_is. cbn. split.
      * intros (_ & H1 & _ & _ & H2 & H3 & H4 & H5 & _ & H6). auto 6.
      * intros (H1 & H2 & H3 & H4 & H5 & H6). repeat split; auto.
  - intros Hnf Hnd l' Hl'.
    destruct Hwt as (Htr & _).
    unfold unserialize, unserialize_run in Hl'.
    pose proof (record_tail_length l) as Hlen.
    rewrite length_app, le_encode_length in Hl'.
    replace (8 + length (record_tail l) <? min_record_size)%nat with false
      in Hl' by (symmetry; apply Nat.ltb_ge; unfold min_record_size; lia).
    rewrite unserializei64_encoded in Hl'.
    assert (Hcombo : record_combo l = - type l).
    { unfold record_combo. destruct (Z.eqb_spec (type l) 0) as [H0|H0];
        [|reflexivity]. exfalso. apply Hnf. exact H0. }
    rewrite Hcombo, to_i64_mod in Hl' by lia.
    assert (Hnot : (- type l <? 0) && (- FOLDERNODE <=? - type l) = false).
    { apply andb_false_iff. unfold FILENODE, FOLDERNODE in *.
      destruct (Z_lt_le_dec (type l) 0) as [Hneg|Hpos].
      - left. apply Z.ltb_ge. lia.
      - right. apply Z.leb_gt. lia. }
    rewrite Hnot in Hl'.
    destruct (unserialize_fields FILENODE (record_tail l)) as [[f r']|];
      [|discriminate].
    cbn in Hl'. inversion Hl'. reflexivity.
Qed.

Lemma sample_file_node_well_typed : well_typed sample_file_node.
Proof.
  unfold well_typed, sample_file_node; cbn.
  repeat split; try lia; try reflexivity; try discriminate.
Defined.

Lemma unserialize_serialize_roundtrip_witness :
  well_typed sample_file_node
  /\ exists l', unserialize fresh_LocalNode
                  (snd (serialize sample_file_node [])) = Some l'
                /\ stored_fields sample_file_node l'
                /\ same_fields sample_file_node l'.
Proof.
  split; [exact sample_file_node_well_typed|].
  destruct (unserialize_serialize_roundtrip fresh_LocalNode sample_file_node
              sample_file_node_well_typed) as (_ & Hfile & _).
  destruct (Hfile (or_introl eq_refl)) as (l' & Hl' & Hstored & _ & Hsame).
  exists l'. split; [exact Hl'|]. split; [exact Hstored|].
  apply Hsame. unfold stored_as_is. cbn. repeat split; reflexivity.
Defined.

(** C9 (as stated) fails on a file that has been scanned and not synced,
    which the assertions of [serialize] admit: the record keeps the size
    of the scanned fingerprint, and [unserialize] makes it the size of the
    synced fingerprint, which was -1. *)
Lemma unserialize_serialize_roundtrip_counterexample :
  serialize_asserts sample_scanned_file = true
  /\ well_typed sample_scanned_file
  /\ fst (serialize sample_scanned_file []) = true
  /\ exists l', unserialize fresh_LocalNode
                  (snd (serialize sample_scanned_file [])) = Some l'
                /\ size (syncedFingerprint sample_scanned_file) = -1
                /\ size (syncedFingerprint l') = 700
                /\ ~ same_fields sample_scanned_file l'.
Proof.
  split; [reflexivity|].
  split; [unfold well_typed, sample_scanned_file, UNDEF; cbn;
          repeat split; try lia; discriminate|].
  split; [reflexivity|].
  eexists. split; [vm_compute; reflexivity|].
  split; [reflexivity|]. split; [reflexivity|].
  intros (_ & Hsize & _). cbn in Hsize. discriminate.
Qed.

(** Short inputs are rejected before anything is parsed. *)
Lemma unserialize_short_input (fresh : LocalNode) (d : bytes) :
  (length d < min_record_size)%nat -> unserialize fresh d = None.
Proof.
  intros H. unfold unserialize, unserialize_run.
  replace (length d <? min_record_size)%nat with true
    by (symmetry; apply Nat.ltb_lt; assumption).
  reflexivity.
Qed.

(** A field that fails to parse makes [unserialize] return null. *)
Lemma unserialize_field_failure (fresh : LocalNode) (d : bytes) :
  (unserializei64 d = None
   \/ exists size0 r,
        unserializei64 d = Some (size0, r)
        /\ unserialize_fields
             (if (size0 <? 0) && (- FOLDERNODE <=? size0)
              then - size0 else FILENODE) r = None) ->
  unserialize fresh d = None.
Proof.
  intros [H|(size0 & r & H & Hf)]; unfold unserialize, unserialize_run;
    destruct (length d <? min_record_size)%nat; try reflexivity; rewrite H.
  - reflexivity.
  - destruct ((size0 <? 0) && (- FOLDERNODE <=? size0)); rewrite Hf; reflexivity.
Qed.

(** [unserialize] returns a node exactly when the input is long enough
    and every field parses; what is left in the reader plays no part. *)
Lemma unserialize_some_iff (fresh : LocalNode) (d : bytes) :
  (exists l, unserialize fresh d = Some l) <->
  (min_record_size <= length d)%nat
  /\ exists size0 r f r',
       unserializei64 d = Some (size0, r)
       /\ unserialize_fields
            (if (size0 <? 0) && (- FOLDERNODE <=? size0)
             then - size0 else FILENODE) r = Some (f, r').
Proof.
  unfold unserialize, unserialize_run. split.
  - intros [l H]. destruct (length d <? min_record_size)%nat eqn:E;
      [discriminate|]. apply Nat.ltb_ge in E. split; [assumption|].
    destruct (unserializei64 d) as [[size0 r]|]; [|discriminate].
    exists size0, r.
    destruct ((size0 <? 0) && (- FOLDERNODE <=? size0));
      match type of H with
      | context [unserialize_fields ?t ?x] =>
          destruct (unserialize_fields t x) as [[f r']|] eqn:Ef;
            [exists f, r'; split; reflexivity | discriminate]
      end.
  - intros (Hlen & size0 & r & f & r' & Hi & Hf).
    replace (length d <? min_record_size)%nat with false
      by (symmetry; apply Nat.ltb_ge; assumption).
    rewrite Hi.
    destruct ((size0 <? 0) && (- FOLDERNODE <=? size0)); rewrite Hf;
      eexists; reflexivity.
Qed.

(** C8.  On a well-formed folder record followed by trailing bytes,
    [unserialize] does not fail: it returns the node, and the reader still
    has data left where the source asserts it has none. *)
Theorem unserialize_accepts_trailing_data (fresh : LocalNode) :
  (exists l, unserialize fresh folder_record_with_trailing_data = Some l
             /\ type l = FOLDERNODE /\ fsid_lastSynced l = 4660
             /\ parent_dbid l = 2 /\ slocalname l = None)
  /\ unserialize_trailing_data fresh folder_record_with_trailing_data = true.
Proof.
  split.
  - eexists. split; [vm_compute; reflexivity|]. cbn. repeat split.
  - vm_compute. reflexivity.
Qed.

End LocalNodeFacts.

(** ** The alternative port *)
Section UrlFacts.
Import Urls Samples.

Lemma firstn_app_exact {A} (l1 l2 : list A) : firstn (length l1) (l1 ++ l2) = l1.
Proof.
  rewrite firstn_app, firstn_all, Nat.sub_diag. simpl. apply app_nil_r.
Qed.

Lemma skipn_app_plus {A} (l1 l2 : list A) (n : nat) :
  skipn (length l1 + n) (l1 ++ l2) = skipn n l2.
Proof.
  rewrite skipn_app. rewrite skipn_all2 by lia.
  replace (length l1 + n - length l1)%nat with n by lia. reflexivity.
Qed.

Lemma skipn_app_exact {A} (l1 l2 : list A) : skipn (length l1) (l1 ++ l2) = l2.
Proof.
  rewrite <- (Nat.add_0_r (length l1)). rewrite skipn_app_plus. reflexivity.
Qed.


















(** A ":" in the path of a URL without port: the first call cuts the
    URL off there, the second inserts the port. *)
Example toggleport_colon_in_path :
  toggleport (list_ascii_of_string "http://h.example/x:y")
  = list_ascii_of_string "http://h.example/x"
  /\ toggleport (toggleport (list_ascii_of_string "http://h.example/x:y"))
     = list_ascii_of_string "http://h.example:8080/x".
Proof. split; reflexivity. Qed.


End UrlFacts.

(** ** The transfer slot *)
Section SlotFacts.
Import Bytes Urls ChunkMacs Requests Clients Collaborators MacOfMacs Transfers.
Import Slot SlotProperties.
Context {E : Env}.

Lemma completes_not_fails (e : error) (s : TransferSlot) :
  completes s -> ~ fails_with e s.
Proof. unfold completes, fails_with. intros H [tl H']. congruence. Qed.

(** *** The number of connections *)

(** C4 (as amended).  Once the temporary URLs are known and nothing has
    been created yet, [createconnectionsonce] succeeds and sets the
    connection count to 6 when the transfer uses RAID, otherwise to 1 when
    the size is at most 131072 bytes, otherwise to the client's count for
    the direction of the transfer; it creates that many empty requests.
    Without temporary URLs it returns false and changes nothing. *)
Theorem createconnectionsonce_count (s : TransferSlot) :
  connections s = 0 -> reqs s = [] -> asyncIO s = None ->
  (tempUrlVector (transferbuf s) = [] -> createconnectionsonce s = (false, s))
  /\ (tempUrlVector (transferbuf s) <> [] ->
      fst (createconnectionsonce s) = true
      /\ let s' := snd (createconnectionsonce s) in
         (isRaid (transferbuf s) = true -> connections s' = 6)
         /\ (isRaid (transferbuf s) = false -> size (transfer s) <= 131072 ->
             connections s' = 1)
         /\ (isRaid (transferbuf s) = false -> size (transfer s) = 131071 ->
             connections s' = 1)
         /\ (isRaid (transferbuf s) = false -> 131072 < size (transfer s) ->
             connections s' = Clients.connections (client s) (type (transfer s)))
         /\ length (reqs s') = Z.to_nat (connections s')
         /\ transfer s' = transfer s).
Proof.
  intros Hc Hr Ha. unfold createconnectionsonce. rewrite Hc, Hr, Ha. cbn.
  split.
  - intros ->. reflexivity.
  - intros Hne. destruct (tempUrlVector (transferbuf s)) as [|u us];
      [congruence|]. cbn. split; [reflexivity|].
    repeat split.
    + intros ->. reflexivity.
    + intros -> Hs. rewrite Z.gtb_ltb.
      replace (131072 <? size (transfer s)) with false
        by (symmetry; apply Z.ltb_ge; lia). reflexivity.
    + intros -> Hs. rewrite Hs. reflexivity.
    + intros -> Hs. rewrite Z.gtb_ltb.
      replace (131072 <? size (transfer s)) with true
        by (symmetry; apply Z.ltb_lt; lia). reflexivity.
    + apply repeat_length.
Qed.

(** *** The loops of the legacy MAC recovery *)

Lemma for_loop_spec (fuel : nat) (i : Z) (cond body : Z -> bool) :
  (forall j k, i <= k <= j -> cond j = true -> cond k = true) ->
  cond (i + Z.of_nat fuel) = false ->
  (for_loop fuel i cond body = true <->
   exists j, i <= j /\ cond j = true /\ body j = true).
Proof.
  revert i; induction fuel as [|fuel IH]; intros i Hdown Hfuel.
  - simpl. rewrite Z.add_0_r in Hfuel. split; [discriminate|].
    intros (j & Hij & Hc & _). rewrite (Hdown j i) in Hfuel by (auto; lia).
    discriminate.
  - cbn [for_loop]. destruct (cond i) eqn:Hci.
    + destruct (body i) eqn:Hbi.
      * split; [|reflexivity]. intros _. exists i. repeat split; auto; lia.
      * rewrite IH.
        -- split; intros (j & Hij & Hc & Hb).
           ++ exists j. repeat split; auto; lia.
           ++ exists j. repeat split; auto.
              destruct (Z.eq_dec i j) as [->|Hne]; [congruence|lia].
        -- intros j k Hk Hj. apply (Hdown j k); auto; lia.
        -- replace (i + 1 + Z.of_nat fuel) with (i + Z.of_nat (S fuel)) by lia.
           exact Hfuel.
    + split; [discriminate|]. intros (j & Hij & Hc & _).
      rewrite (Hdown j i) in Hci by (auto; lia). discriminate.
Qed.

(** The inner loops over a gap length: [len] from 1 while [len <= bound]
    and the gap stays inside the map. *)
Lemma len_loop_spec (bound : nat) (b start end_ : Z) (body : Z -> bool) :
  b = Z.of_nat bound ->
  (for_loop bound 1 (fun len => (len <=? b) && (start + len <=? end_)) body
   = true
   <-> exists len, 1 <= len <= b /\ start + len <= end_ /\ body len = true).
Proof.
  intros ->. rewrite for_loop_spec.
  - split; intros (len & H1 & H2 & H3).
    + apply andb_prop in H2. destruct H2 as [Ha Hb].
      apply Z.leb_le in Ha, Hb. exists len. repeat split; auto; lia.
    + exists len. split; [lia|]. split; [|assumption].
      apply andb_true_intro. split; apply Z.leb_le; lia.
  - intros j k Hk Hj. apply andb_prop in Hj. destruct Hj as [Ha Hb].
    apply Z.leb_le in Ha, Hb. apply andb_true_intro.
    split; apply Z.leb_le; lia.
  - apply andb_false_intro1. apply Z.leb_gt. lia.
Qed.

Lemma macs_fold_ext (key : bytes) (skip skip' : Z -> bool) (n : Z)
    (m : chunkmac_map) (acc : bytes) :
  (forall k, n <= k < n + Z.of_nat (length m) -> skip k = skip' k) ->
  macs_fold key skip n m acc = macs_fold key skip' n m acc.
Proof.
  revert n acc; induction m as [|[q c] rest IH]; intros n acc H.
  - reflexivity.
  - cbn [macs_fold]. rewrite (H n) by (cbn [length]; lia).
    apply IH. intros k Hk. apply H. cbn [length]. lia.
Qed.

Lemma macsmac_gaps_ext (s : TransferSlot) (m : chunkmac_map)
    (a b c d a' b' c' d' : Z) :
  (forall k, 0 <= k < Z.of_nat (length m) ->
             in_gaps a b c d k = in_gaps a' b' c' d' k) ->
  macsmac_gaps s m a b c d = macsmac_gaps s m a' b' c' d'.
Proof.
  intros H. unfold macsmac_gaps, chunkmac_map_macsmac_gaps. f_equal.
  apply macs_fold_ext. intros k Hk. apply H. lia.
Qed.

(** Skipping nothing is the mac-of-macs itself. *)
Lemma macsmac_gaps_empty (s : TransferSlot) (m : chunkmac_map) (a b : Z) :
  b <= a -> macsmac_gaps s m a b a b = macsmac s m.
Proof.
  intros H. unfold macsmac_gaps, macsmac, chunkmac_map_macsmac_gaps,
    chunkmac_map_macsmac. f_equal. apply macs_fold_ext. intros k _.
  unfold in_gaps.
  destruct (a <=? k) eqn:E1, (k <? b) eqn:E2; try reflexivity.
  apply Z.leb_le in E1. apply Z.ltb_lt in E2. lia.
Qed.

Lemma to_i32_small (z : Z) : 0 <= z < 2 ^ 31 -> to_i32 z = z.
Proof. intros H. unfold to_i32. rewrite Z.mod_small; lia. Qed.

Lemma to_u64_small (z : Z) : 0 <= z < 2 ^ 64 -> to_u64 z = z.
Proof. intros H. unfold to_u64. apply Z.mod_small. lia. Qed.

(** What the first loop nest finds. *)
Lemma single_gap_scan_spec (s : TransferSlot) :
  let m := chunkmacs (transfer s) in
  let N := Z.of_nat (length m) in
  N < 2 ^ 31 ->
  (single_gap_scan s = true <->
   exists start1 len1,
     N - Z.min 96 N <= start1 < N /\ 1 <= len1 <= 64 /\ start1 + len1 <= N
     /\ metamac (transfer s) = macsmac_gaps s m start1 (start1 + len1) N N).
Proof.
  intros m N HN. unfold single_gap_scan. fold m. fold N.
  assert (H0 : 0 <= N) by apply Nat2Z.is_nonneg.
  rewrite to_i32_small by lia. change (32 * 3) with 96.
  rewrite (to_u64_small (Z.min 96 N)) by lia.
  rewrite for_loop_spec.
  - split.
    + intros (cb & Hcb1 & Hcb2 & Hbody). apply Z.leb_le in Hcb2.
      rewrite to_u64_small in Hbody by lia.
      apply (len_loop_spec 64 64) in Hbody; [|reflexivity].
      destruct Hbody as (len1 & Hl & Hin & Heq). apply Z.eqb_eq in Heq.
      exists (N - cb), len1. repeat split; auto; lia.
    + intros (start1 & len1 & Hs & Hl & Hin & Heq).
      exists (N - start1). split; [lia|]. split; [apply Z.leb_le; lia|].
      rewrite to_u64_small by lia.
      apply (len_loop_spec 64 64); [reflexivity|].
      replace (N - (N - start1)) with start1 by lia.
      exists len1. split; [lia|]. split; [lia|]. apply Z.eqb_eq. assumption.
  - intros j k Hk Hj. apply Z.leb_le in Hj. apply Z.leb_le. lia.
  - apply Z.leb_gt. rewrite Z2Nat.id by lia. lia.
Qed.

(** What the second loop nest finds. *)
Lemma two_gap_scan_spec (s : TransferSlot) :
  let m := chunkmacs (transfer s) in
  let N := Z.of_nat (length m) in
  N < 2 ^ 31 ->
  (two_gap_scan s = true <->
   exists start1 len1 start2 len2,
     N - Z.min 40 N <= start1 < N /\ 1 <= len1 <= 16 /\ start1 + len1 <= N
     /\ start1 + len1 + 1 <= start2 < N /\ 1 <= len2 <= 16 /\ start2 + len2 <= N
     /\ metamac (transfer s)
        = macsmac_gaps s m start1 (start1 + len1) start2 (start2 + len2)).
Proof.
  intros m N HN. unfold two_gap_scan. fold m. fold N.
  assert (H0 : 0 <= N) by apply Nat2Z.is_nonneg.
  rewrite to_i32_small by lia. change (16 * 2 + 8) with 40.
  rewrite (to_u64_small (Z.min 40 N)) by lia.
  rewrite (to_u64_small (N - Z.min 40 N)) by lia.
  assert (Hstart2 : forall start body,
             0 <= start ->
             (for_loop (length m) start (fun start2 => start2 <? N) body = true
              <-> exists start2, start <= start2 < N /\ body start2 = true)).
  { intros start body Hst. rewrite for_loop_spec.
    - split.
      + intros (j & H1 & H2 & H3).
        apply Z.ltb_lt in H2. exists j. split; [lia|assumption].
      + intros (j & H1 & H3).
        exists j. split; [lia|]. split; [apply Z.ltb_lt; lia|assumption].
    - intros j k Hk Hj. apply Z.ltb_lt in Hj. apply Z.ltb_lt. lia.
    - apply Z.ltb_ge. fold N. lia. }
  rewrite for_loop_spec.
  - split.
    + intros (start1 & Hs1 & Hs1' & Hbody). apply Z.ltb_lt in Hs1'.
      apply (len_loop_spec 16 16) in Hbody; [|reflexivity].
      destruct Hbody as (len1 & Hl1 & Hin1 & Hbody).
      apply Hstart2 in Hbody; [|lia].
      destruct Hbody as (start2 & Hs2 & Hbody).
      apply (len_loop_spec 16 16) in Hbody; [|reflexivity].
      destruct Hbody as (len2 & Hl2 & Hin2 & Heq). apply Z.eqb_eq in Heq.
      exists start1, len1, start2, len2. repeat split; auto; lia.
    + intros (start1 & len1 & start2 & len2 & Hs1 & Hl1 & Hin1 & Hs2 & Hl2
              & Hin2 & Heq).
      exists start1. split; [lia|]. split; [apply Z.ltb_lt; lia|].
      apply (len_loop_spec 16 16); [reflexivity|].
      exists len1. split; [lia|]. split; [lia|].
      apply Hstart2; [lia|]. exists start2. split; [lia|].
      apply (len_loop_spec 16 16); [reflexivity|].
      exists len2. split; [lia|]. split; [lia|]. apply Z.eqb_eq. assumption.
  - intros j k Hk Hj. apply Z.ltb_lt in Hj. apply Z.ltb_lt. lia.
  - apply Z.ltb_ge. rewrite Z2Nat.id by lia. lia.
Qed.

(** *** The legacy MAC recovery *)

Ltac gaps_cases :=
  unfold in_gaps;
  repeat match goal with
         | |- context [?x <=? ?y] => destruct (Z.leb_spec x y)
         | |- context [?x <? ?y] => destruct (Z.ltb_spec x y)
         end;
  cbn [andb orb]; try reflexivity; lia.

(** Two gaps in the tail, the first starting no later than the second,
    are found by one of the two loop nests. *)
Lemma ordered_gaps_found (s : TransferSlot) (a la b lb : Z) :
  let m := chunkmacs (transfer s) in
  let N := Z.of_nat (length m) in
  N < 2 ^ 31 ->
  N - Z.min 40 N <= a < N -> 1 <= la <= 16 ->
  N - Z.min 40 N <= b < N -> 1 <= lb <= 16 ->
  a <= b ->
  macsmac_gaps s m a (a + la) b (b + lb) = metamac (transfer s) ->
  single_gap_scan s = true \/ two_gap_scan s = true.
Proof.
  intros m N HN Ha Hla Hb Hlb Hab Heq.
  pose (e1 := Z.min (a + la) N). pose (e2 := Z.min (b + lb) N).
  assert (He1 : a < e1 <= N /\ e1 <= a + la) by (unfold e1; lia).
  assert (He2 : b < e2 <= N /\ e2 <= b + lb) by (unfold e2; lia).
  assert (He1' : e1 = a + la \/ e1 = N) by (unfold e1; lia).
  assert (He2' : e2 = b + lb \/ e2 = N) by (unfold e2; lia).
  clearbody e1 e2.
  destruct (Z_le_gt_dec b e1) as [Hov|Hsep].
  - left. apply single_gap_scan_spec; [exact HN|].
    exists a, (Z.max e1 e2 - a). fold m. fold N.
    split; [lia|]. split; [lia|]. split; [lia|].
    rewrite <- Heq. apply macsmac_gaps_ext. fold N. intros k Hk.
    replace (a + (Z.max e1 e2 - a)) with (Z.max e1 e2) by lia.
    destruct (Z.max_spec e1 e2) as [[? ->]|[? ->]]; gaps_cases.
  - right. apply two_gap_scan_spec; [exact HN|].
    exists a, (e1 - a), b, (e2 - b). fold m. fold N.
    split; [lia|]. split; [lia|]. split; [lia|]. split; [lia|].
    split; [lia|]. split; [lia|].
    rewrite <- Heq. apply macsmac_gaps_ext. fold N. intros k Hk.
    replace (a + (e1 - a)) with e1 by lia.
    replace (b + (e2 - b)) with e2 by lia.
    gaps_cases.
Qed.

(** C5.  With fewer than 2^31 chunk MACs,
    [checkMetaMacWithMissingLateEntries] returns true exactly when a
    single gap (start in the last [min(96, N)] entries, 1 to 64 entries)
    or two gaps (starts in the last [min(40, N)] entries, 1 to 16 entries
    each) make [macsmac_gaps] equal to the transfer's [metamac], whether
    or not the gaps are required to end inside the map and to be disjoint;
    when it returns true it has set [metamac] and [currentmetamac] to the
    full [macsmac] of the chunk MACs, and when it returns false it has
    changed nothing. *)
Theorem checkMetaMacWithMissingLateEntries_spec (s : TransferSlot) :
  Z.of_nat (length (chunkmacs (transfer s))) < 2 ^ 31 ->
  (fst (checkMetaMacWithMissingLateEntries s) = true
   <-> single_gap s \/ two_gaps s)
  /\ (fst (checkMetaMacWithMissingLateEntries s) = true
      <-> single_gap_within s \/ two_gaps_within s)
  /\ (fst (checkMetaMacWithMissingLateEntries s) = true ->
      let s' := snd (checkMetaMacWithMissingLateEntries s) in
      metamac (transfer s') = macsmac s (chunkmacs (transfer s))
      /\ currentmetamac (transfer s') = macsmac s (chunkmacs (transfer s))
      /\ chunkmacs (transfer s') = chunkmacs (transfer s)
      /\ trace s' = trace s)
  /\ (fst (checkMetaMacWithMissingLateEntries s) = false ->
      snd (checkMetaMacWithMissingLateEntries s) = s).
Proof.
  intros HN.
  assert (Hfst : fst (checkMetaMacWithMissingLateEntries s)
                 = single_gap_scan s || two_gap_scan s).
  { unfold checkMetaMacWithMissingLateEntries.
    destruct (single_gap_scan s), (two_gap_scan s); reflexivity. }
  assert (Hwithin : fst (checkMetaMacWithMissingLateEntries s) = true
                    <-> single_gap_within s \/ two_gaps_within s).
  { rewrite Hfst. rewrite orb_true_iff.
    pose proof (single_gap_scan_spec s HN) as H1.
    pose proof (two_gap_scan_spec s HN) as H2.
    cbv zeta in H1, H2. rewrite H1, H2.
    unfold single_gap_within, two_gaps_within. split.
    - intros [(start1 & len1 & Hs & Hl & Hin & Heq)
             |(s1 & l1 & s2 & l2 & Hs1 & Hl1 & Hin1 & Hs2 & Hl2 & Hin2 & Heq)].
      + left. exists start1, len1. repeat split; try lia.
      + right. exists s1, l1, s2, l2. repeat split; try lia.
    - intros [(start1 & len1 & Hs & Hl & Hin & Heq)
             |(s1 & l1 & s2 & l2 & Hs1 & Hl1 & Hin1 & Hs2 & Hl2 & Hin2 & Heq)].
      + left. exists start1, len1. repeat split; try lia.
      + right. exists s1, l1, s2, l2. repeat split; try lia. }
  split; [|split; [exact Hwithin|split]].
  - split.
    + intros H. apply Hwithin in H.
      destruct H as [(start1 & len1 & Hs & Hl & _ & Heq)
                    |(s1 & l1 & s2 & l2 & Hs1 & Hl1 & _ & Hs2 & Hl2 & _ & Heq)].
      * left. exists start1, len1. split; [lia|]. split; [lia|]. exact Heq.
      * right. exists s1, l1, s2, l2. split; [lia|]. split; [lia|].
        split; [lia|]. split; [lia|]. exact Heq.
    + rewrite Hfst. rewrite orb_true_iff.
      intros [(start1 & len1 & Hs & Hl & Heq)
             |(s1 & l1 & s2 & l2 & Hs1 & Hl1 & Hs2 & Hl2 & Heq)].
      * left. apply single_gap_scan_spec; [exact HN|].
        exists start1, (Z.min len1 (Z.of_nat (length (chunkmacs (transfer s)))
                                    - start1)).
        split; [lia|]. split; [lia|]. split; [lia|].
        rewrite <- Heq. apply macsmac_gaps_ext. intros k Hk.
        destruct (Z.min_spec len1
                    (Z.of_nat (length (chunkmacs (transfer s))) - start1))
          as [[? ->]|[? ->]]; gaps_cases.
      * destruct (Z_le_gt_dec s1 s2) as [Hle|Hgt].
        -- apply (ordered_gaps_found s s1 l1 s2 l2); auto.
        -- apply (ordered_gaps_found s s2 l2 s1 l1); auto; try lia.
           rewrite <- Heq. apply macsmac_gaps_ext. intros k Hk. gaps_cases.
  - intros Htrue. unfold checkMetaMacWithMissingLateEntries in *.
    destruct (single_gap_scan s); [cbn; repeat split|].
    destruct (two_gap_scan s); [cbn; repeat split|discriminate Htrue].
  - intros Hfalse. unfold checkMetaMacWithMissingLateEntries in *.
    destruct (single_gap_scan s); [discriminate Hfalse|].
    destruct (two_gap_scan s); [discriminate Hfalse|reflexivity].
Qed.

(** *** Completion of a download *)

Lemma mac_verified_dec (s : TransferSlot) : mac_verified s \/ ~ mac_verified s.
Proof.
  unfold mac_verified.
  destruct (Z.eq_dec (size (transfer s)) 0) as [H1|H1]; [tauto|].
  destruct (Z.eq_dec (macsmac s (chunkmacs (transfer s))) (metamac (transfer s)))
    as [H2|H2]; [tauto|].
  destruct (fst (checkMetaMacWithMissingLateEntries s)); [tauto|].
  right. intros [H|[H|H]]; [tauto|tauto|discriminate].
Qed.

(** Setting [currentmetamac] and [hascurrentmetamac] does not change what
    the recovery finds. *)
Lemma checkMetaMac_currentmetamac (s : TransferSlot) (v : Z) (b : bool) :
  let s1 := set_transfer
              (set_hascurrentmetamac b (set_currentmetamac v (transfer s))) s in
  single_gap_scan s1 = single_gap_scan s /\ two_gap_scan s1 = two_gap_scan s.
Proof. split; reflexivity. Qed.

(** C1.  When [progresscompleted] equals [size],
    [checkDownloadTransferFinished] returns true, and the transfer
    completes exactly when the size is zero, or the mac-of-macs of the
    chunk MACs equals [metamac], or the legacy gap recovery succeeds; in
    every other case the chunk MACs are cleared and the transfer fails with
    [API_EKEY].  When [progresscompleted] differs from [size] it returns
    false and changes nothing. *)
Theorem checkDownloadTransferFinished_spec (ds : dstime) (s : TransferSlot) :
  (progresscompleted (transfer s) = size (transfer s) ->
   let r := checkDownloadTransferFinished ds s in
   fst r = true
   /\ (completes (snd r) <-> mac_verified s)
   /\ (~ mac_verified s ->
       chunkmacs (transfer (snd r)) = [] /\ fails_with API_EKEY (snd r)))
  /\ (progresscompleted (transfer s) <> size (transfer s) ->
      checkDownloadTransferFinished ds s = (false, s)).
Proof.
  split.
  - intros Hpc. cbv zeta.
    assert (Hcases :
      let r := checkDownloadTransferFinished ds s in
      fst r = true
      /\ ((mac_verified s /\ completes (snd r))
          \/ (~ mac_verified s /\ chunkmacs (transfer (snd r)) = []
              /\ fails_with API_EKEY (snd r)))).
    { cbv zeta. unfold checkDownloadTransferFinished. rewrite Hpc, Z.eqb_refl.
      match goal with
      | |- context [if negb (size (transfer s) =? 0) then ?a else ?b] =>
          set (s1 := if negb (size (transfer s) =? 0) then a else b)
      end.
      assert (Hs1 :
        size (transfer s1) = size (transfer s)
        /\ metamac (transfer s1) = metamac (transfer s)
        /\ single_gap_scan s1 = single_gap_scan s
        /\ two_gap_scan s1 = two_gap_scan s
        /\ (size (transfer s) <> 0 ->
            currentmetamac (transfer s1) = macsmac s (chunkmacs (transfer s)))).
      { unfold s1. destruct (size (transfer s) =? 0) eqn:Hsz; cbn [negb].
        - repeat split; try reflexivity. apply Z.eqb_eq in Hsz. tauto.
        - repeat split; reflexivity. }
      clearbody s1.
      destruct Hs1 as (Hsize & Hmeta & Hscan1 & Hscan2 & Hcur).
      assert (Hfst : fst (checkMetaMacWithMissingLateEntries s)
                     = single_gap_scan s || two_gap_scan s).
      { unfold checkMetaMacWithMissingLateEntries.
        destruct (single_gap_scan s), (two_gap_scan s); reflexivity. }
      assert (Hdone : forall s0 : TransferSlot,
                 completes
                   (log transfer_complete
                      (if negb (progresscompleted (transfer (log transfercacheadd s0))
                                =? progressreported (log transfercacheadd s0))
                       then log progress
                              (set_lastdata ds
                                 (set_progressreported
                                    (progresscompleted
                                       (transfer (log transfercacheadd s0)))
                                    (log transfercacheadd s0)))
                       else log transfercacheadd s0))).
      { intros s0. reflexivity. }
      rewrite Hsize.
      destruct (size (transfer s) =? 0) eqn:Hsz.
      - apply Z.eqb_eq in Hsz. cbn [fst snd]. split; [reflexivity|].
        left. split; [left; exact Hsz|apply Hdone].
      - apply Z.eqb_neq in Hsz. rewrite (Hcur Hsz), Hmeta.
        destruct (macsmac s (chunkmacs (transfer s)) =? metamac (transfer s))
          eqn:Hmac.
        + cbn [fst snd]. split; [reflexivity|].
          left. split; [right; left; apply Z.eqb_eq; exact Hmac|apply Hdone].
        + apply Z.eqb_neq in Hmac.
          assert (Hchk : checkMetaMacWithMissingLateEntries s1
                         = if single_gap_scan s || two_gap_scan s
                           then (true, adopt_correct_mac s1) else (false, s1)).
          { unfold checkMetaMacWithMissingLateEntries. rewrite Hscan1, Hscan2.
            destruct (single_gap_scan s), (two_gap_scan s); reflexivity. }
          rewrite Hchk. clear Hchk.
          destruct (single_gap_scan s) eqn:Hg1;
            [|destruct (two_gap_scan s) eqn:Hg2]; cbn [orb].
          * cbn [fst snd]. split; [reflexivity|].
            left. split; [right; right; rewrite Hfst; reflexivity|apply Hdone].
          * cbn [fst snd]. split; [reflexivity|].
            left. split; [right; right; rewrite Hfst; reflexivity|apply Hdone].
          * cbn [fst snd]. split; [reflexivity|]. right. split.
            -- unfold mac_verified. rewrite Hfst. cbn [orb].
               intros [H|[H|H]]; [tauto|tauto|discriminate].
            -- split; [reflexivity|]. exists 0. reflexivity. }
    cbv zeta in Hcases. destruct Hcases as [Hfst Hcases].
    split; [exact Hfst|]. split.
    + split.
      * intros Hc. destruct Hcases as [[Hv _]|[_ [_ Hf]]]; [exact Hv|].
        exfalso. exact (completes_not_fails _ _ Hc Hf).
      * intros Hv. destruct Hcases as [[_ Hc]|[Hn _]]; [exact Hc|tauto].
    + intros Hn. destruct Hcases as [[Hv _]|[_ H]]; [tauto|exact H].
  - intros Hne. unfold checkDownloadTransferFinished.
    apply Z.eqb_neq in Hne. rewrite Hne. reflexivity.
Qed.

(** *** Completion of an upload *)

Lemma fold_include_connection (i : nat) (s0 : TransferSlot) (l : list nat) :
  forall s', reqs s' = reqs s0 ->
    fold_left (include_connection i) l s' =
    set_transfer
      (set_chunkmacs
         (fold_left (fun m rj => finishedUploadChunks m (mChunkmacs rj))
                    (flat_map (others_in i s0) l) (chunkmacs (transfer s')))
         (set_progresscompleted
            (fold_left (fun n rj => n + Requests.size rj)
                       (flat_map (others_in i s0) l)
                       (progresscompleted (transfer s')))
            (transfer s'))) s'.
Proof.
  induction l as [|j l IH]; intros s' Hr.
  - destruct s' as [t ? ? ? ? ? ? ? ? ? ? ? ? ?]. destruct t. reflexivity.
  - cbn [fold_left flat_map].
    assert (Hreq : req_at j s' = req_at j s0)
      by (unfold req_at; rewrite Hr; reflexivity).
    unfold include_connection at 2. unfold others_in at 1 3. rewrite Hreq.
    destruct (j =? i)%nat; [apply IH; exact Hr|].
    destruct (req_at j s0) as [rj|]; [|apply IH; exact Hr].
    destruct (unprocessed rj); [|apply IH; exact Hr].
    rewrite IH by exact Hr. cbn [app fold_left].
    destruct s' as [t ? ? ? ? ? ? ? ? ? ? ? ? ?]. destruct t. reflexivity.
Qed.

Lemma include_unprocessed_eq (i : nat) (s : TransferSlot) :
  include_unprocessed i s =
  set_transfer
    (set_chunkmacs
       (fold_left (fun m rj => finishedUploadChunks m (mChunkmacs rj))
                  (other_unprocessed i s) (chunkmacs (transfer s)))
       (set_progresscompleted
          (fold_left (fun n rj => n + Requests.size rj)
                     (other_unprocessed i s) (progresscompleted (transfer s)))
          (transfer s))) s.
Proof.
  unfold include_unprocessed. rewrite (fold_include_connection i s) by reflexivity.
  reflexivity.
Qed.

(** The state in which an accepted upload token leaves the slot. *)
Lemma doio_upload_complete_spec (ds : dstime) (i : nat) (r : HttpReqXfer)
    (s : TransferSlot) :
  let s' := doio_upload_complete ds i r s in
  completes s'
  /\ errorcount s' = 0
  /\ chunkmacs (transfer s') = merged_chunkmacs i r s
  /\ progresscompleted (transfer s') = merged_progress i r s
  /\ filekey (transfer s')
     = assemble_filekey (transfer s) (macsmac s (merged_chunkmacs i r s))
  /\ ultoken (transfer s') = ultoken (transfer s)
  /\ transferkey (transfer s') = transferkey (transfer s)
  /\ ctriv (transfer s') = ctriv (transfer s)
  /\ client s' = client s.
Proof.
  cbv zeta. unfold doio_upload_complete. rewrite include_unprocessed_eq.
  unfold merged_chunkmacs, merged_progress.
  change (other_unprocessed i
            (set_transfer (set_failcount 0 (transfer (set_errorcount 0 s)))
               (set_errorcount 0 s)))
    with (other_unprocessed i s).
  cbn [transfer set_transfer set_errorcount set_failcount chunkmacs
       progresscompleted set_chunkmacs set_progresscompleted log set_trace
       progressreported set_filekey].
  match goal with
  | |- context [if ?c then _ else _] => destruct c
  end; repeat split; reflexivity.
Qed.

Lemma xorblock_length (src dst : bytes) : length (xorblock src dst) = length dst.
Proof.
  revert src; induction dst as [|d dst IH]; intros src;
    [destruct src; reflexivity|].
  destruct src; cbn; [reflexivity|]. rewrite IH. reflexivity.
Qed.

(** The file key: the transfer key with the counter IV and the MAC XORed
    into it, followed by the counter IV and the MAC themselves. *)
Lemma assemble_filekey_spec (t : Transfer) (mac_of_macs : Z) :
  length (transferkey t) = 16%nat -> length (filekey t) = 32%nat ->
  assemble_filekey t mac_of_macs =
  xorblock (le_encode 8 (ctriv t) ++ le_encode 8 mac_of_macs) (transferkey t)
  ++ le_encode 8 (ctriv t) ++ le_encode 8 mac_of_macs.
Proof.
  intros Hk Hf. unfold assemble_filekey.
  destruct (transferkey t) as [|k0 tk]; [discriminate|].
  do 15 (destruct tk as [|? tk]; [discriminate|]).
  destruct tk; [|discriminate].
  destruct (filekey t) as [|f0 fk]; [discriminate|].
  do 31 (destruct fk as [|? fk]; [discriminate|]).
  destruct fk; [|discriminate].
  reflexivity.
Qed.

(** A good token takes the completion path. *)
Lemma doio_REQ_SUCCESS_PUT_token (ds : dstime) (i : nat) (r : HttpReqXfer)
    (s : TransferSlot) :
  valid_token (in_ r) ->
  exists tok,
    doio_REQ_SUCCESS_PUT ds i r s =
    Return (doio_upload_complete ds i r
              (set_transfer (set_ultoken (Some tok) (transfer (set_lastdata ds s)))
                 (set_lastdata ds s))).
Proof.
  intros [Hlen Htok]. unfold doio_REQ_SUCCESS_PUT.
  assert (Hne : (length (in_ r) =? 0)%nat = false).
  { apply Nat.eqb_neq. unfold UPLOADTOKENLEN in Hlen. lia. }
  rewrite Hne. cbn [negb]. rewrite Hlen, Z.eqb_refl.
  change (Z.to_nat (UPLOADTOKENLEN - 1)) with 35%nat.
  destruct (Byte.eqb (nth 35 (in_ r) x00) x01) eqn:Hb.
  - eexists. reflexivity.
  - destruct Htok as [Htok|Htok].
    + rewrite Htok in Hb. discriminate Hb.
    + rewrite Htok, Z.eqb_refl. eexists. reflexivity.
Qed.

(** Any other body is handed to the error path, with the upload token
    dropped when one had been tried. *)
Lemma doio_REQ_SUCCESS_PUT_not_token (ds : dstime) (i : nat) (r : HttpReqXfer)
    (s : TransferSlot) :
  in_ r <> [] -> ~ valid_token (in_ r) ->
  exists s1,
    doio_REQ_SUCCESS_PUT ds i r s = doio_upload_error i r s1
    /\ errorcount s1 = errorcount s /\ client s1 = client s
    /\ trace s1 = trace s /\ reqs s1 = reqs s.
Proof.
  intros Hne Hnot. unfold doio_REQ_SUCCESS_PUT.
  assert (Hl : (length (in_ r) =? 0)%nat = false)
    by (apply Nat.eqb_neq; destruct (in_ r); [congruence|discriminate]).
  rewrite Hl. cbn [negb].
  destruct (Z.of_nat (length (in_ r)) =? UPLOADTOKENLEN) eqn:Hlen.
  - apply Z.eqb_eq in Hlen.
    change (Z.to_nat (UPLOADTOKENLEN - 1)) with 35%nat.
    destruct (Byte.eqb (nth 35 (in_ r) x00) x01) eqn:Hb.
    + exfalso. apply Hnot. split; [exact Hlen|]. left.
      apply Byte.byte_dec_bl. exact Hb.
    + destruct (Z.of_nat (length (Base64_atob (in_ r) UPLOADTOKENLEN))
                =? OLDUPLOADTOKENLEN) eqn:Hd.
      * exfalso. apply Hnot. split; [exact Hlen|]. right.
        apply Z.eqb_eq. exact Hd.
      * eexists. split; [reflexivity|]. repeat split.
  - eexists. split; [reflexivity|]. repeat split.
Qed.

(** The three outcomes of the error path. *)
Lemma doio_upload_error_spec (i : nat) (r : HttpReqXfer) (s : TransferSlot) :
  let e := atoi (in_ r) in
  let https_switch :=
    (e =? DAEMON_EFAILED)
    || (contains text_html (contenttype r) && is_http (posturl r)) in
  (e = API_EKEY ->
   exists s', doio_upload_error i r s = Next s'
              /\ errorcount s' = errorcount s + 1
              /\ lasterror s' = API_EKEY
              /\ reqs s' = list_set i (Some (set_status REQ_PREPARED r)) (reqs s)
              /\ trace s' = sendevent 99429 :: trace s)
  /\ (e <> API_EKEY -> https_switch = true ->
      exists s', doio_upload_error i r s = Return s'
                 /\ fails_with API_EAGAIN s'
                 /\ usehttps (client s') = true)
  /\ (e <> API_EKEY -> https_switch = false ->
      exists s', doio_upload_error i r s = Return s'
                 /\ fails_with e s' /\ client s' = client s).
Proof.
  cbv zeta. unfold doio_upload_error. split; [|split].
  - intros He. rewrite He. cbn [Z.eqb API_EKEY Pos.eqb].
    eexists. split; [reflexivity|]. repeat split.
  - intros He Hsw. apply Z.eqb_neq in He. rewrite He, Hsw.
    eexists. split; [reflexivity|]. split; [exists 0; reflexivity|].
    destruct (atoi (in_ r) =? DAEMON_EFAILED); reflexivity.
  - intros He Hsw. apply Z.eqb_neq in He. rewrite He, Hsw.
    eexists. split; [reflexivity|]. split; [exists 0; reflexivity|reflexivity].
Qed.

Lemma key_layout (X c m : bytes) :
  length X = 16%nat -> length c = 8%nat -> length m = 8%nat ->
  length (X ++ c ++ m) = 32%nat
  /\ firstn 8 (skipn 16 (X ++ c ++ m)) = c
  /\ skipn 24 (X ++ c ++ m) = m
  /\ firstn 16 (X ++ c ++ m) = X
  /\ skipn 16 (X ++ c ++ m) = c ++ m.
Proof.
  intros HX Hc Hm.
  assert (Hsk : skipn 16 (X ++ c ++ m) = c ++ m).
  { replace 16%nat with (length X) by lia. apply skipn_app_exact. }
  split; [repeat rewrite length_app; lia|].
  split; [rewrite Hsk; replace 8%nat with (length c) by lia;
          apply firstn_app_exact|].
  split.
  { replace 24%nat with (length X + length c)%nat by lia.
    rewrite skipn_app_plus. apply skipn_app_exact. }
  split; [|exact Hsk].
  replace 16%nat with (length X) by lia. apply firstn_app_exact.
Qed.

(** C2 (as amended).  When the upload token is accepted, the transfer
    completes with a 32-byte file key whose bytes 16 to 23 hold [ctriv],
    whose bytes 24 to 31 hold the mac-of-macs of the transfer's chunk
    MACs, and whose first 16 bytes are the transfer key XORed with that
    second half: it is the first half that is XORed, the second half stays
    as stored. *)
Theorem upload_filekey (ds : dstime) (i : nat) (r : HttpReqXfer)
    (s : TransferSlot) :
  valid_token (in_ r) ->
  length (transferkey (transfer s)) = 16%nat ->
  length (filekey (transfer s)) = 32%nat ->
  exists s',
    doio_REQ_SUCCESS_PUT ds i r s = Return s'
    /\ completes s'
    /\ let k := filekey (transfer s') in
       let mac_of_macs := macsmac s' (chunkmacs (transfer s')) in
       length k = 32%nat
       /\ firstn 8 (skipn 16 k) = le_encode 8 (ctriv (transfer s))
       /\ skipn 24 k = le_encode 8 mac_of_macs
       /\ firstn 16 k = xorblock (skipn 16 k) (transferkey (transfer s)).
Proof.
  intros Htok Hk Hf.
  destruct (doio_REQ_SUCCESS_PUT_token ds i r s Htok) as [tok Heq].
  eexists. split; [exact Heq|].
  match goal with
  | |- context [doio_upload_complete ds i r ?s1] =>
      destruct (doio_upload_complete_spec ds i r s1)
        as (Hc & _ & Hm & _ & Hkey & _ & Htk & _); set (s1' := s1) in *
  end.
  split; [exact Hc|]. cbv zeta.
  unfold macsmac at 1. rewrite Htk, Hm, Hkey.
  change (transferkey (transfer s1')) with (transferkey (transfer s)).
  fold (macsmac s1' (merged_chunkmacs i r s1')).
  rewrite assemble_filekey_spec by assumption.
  change (ctriv (transfer s1')) with (ctriv (transfer s)).
  change (transferkey (transfer s1')) with (transferkey (transfer s)).
  set (c := le_encode 8 (ctriv (transfer s))).
  set (m := le_encode 8 (macsmac s1' (merged_chunkmacs i r s1'))).
  assert (Hx : length (xorblock (c ++ m) (transferkey (transfer s))) = 16%nat)
    by (rewrite xorblock_length; exact Hk).
  assert (Hc8 : length c = 8%nat) by apply le_encode_length.
  assert (Hm8 : length m = 8%nat) by apply le_encode_length.
  set (X := xorblock (c ++ m) (transferkey (transfer s))) in *.
  destruct (key_layout X c m Hx Hc8 Hm8) as (H32 & Hiv & Hmac & Hfi & Hsk).
  rewrite Hsk, Hfi. repeat split; assumption.
Qed.

(** C3 (as amended).  For a PUT request in SUCCESS with a non-empty body:
    a body that is an upload token (36 bytes; last byte 1, or decoding from
    Base64 to 27 bytes) completes the transfer, after the chunk MACs of
    every other connection in INFLIGHT, SUCCESS or FAILURE and then its own
    have been merged and their sizes added to [progresscompleted], and the
    file key is computed from the merged MACs; any other body is parsed as
    a number [e]: [API_EKEY] counts an error and re-arms the request, -4
    ([DAEMON_EFAILED]) or a text/html reply on an http: URL switches to
    HTTPS and fails the transfer with [API_EAGAIN], everything else fails
    the transfer with [e]. *)
Theorem upload_response_body (ds : dstime) (i : nat) (r : HttpReqXfer)
    (s : TransferSlot) :
  in_ r <> [] ->
  (valid_token (in_ r) ->
   exists s',
     doio_REQ_SUCCESS_PUT ds i r s = Return s'
     /\ completes s'
     /\ chunkmacs (transfer s') = merged_chunkmacs i r s
     /\ progresscompleted (transfer s') = merged_progress i r s
     /\ filekey (transfer s')
        = assemble_filekey (transfer s) (macsmac s (merged_chunkmacs i r s)))
  /\ (~ valid_token (in_ r) ->
      let e := atoi (in_ r) in
      let https_switch :=
        (e =? DAEMON_EFAILED)
        || (contains text_html (contenttype r) && is_http (posturl r)) in
      (e = API_EKEY ->
       exists s',
         doio_REQ_SUCCESS_PUT ds i r s = Next s'
         /\ errorcount s' = errorcount s + 1
         /\ lasterror s' = API_EKEY
         /\ reqs s' = list_set i (Some (set_status REQ_PREPARED r)) (reqs s)
         /\ trace s' = sendevent 99429 :: trace s)
      /\ (e <> API_EKEY -> https_switch = true ->
          exists s',
            doio_REQ_SUCCESS_PUT ds i r s = Return s'
            /\ fails_with API_EAGAIN s' /\ usehttps (client s') = true)
      /\ (e <> API_EKEY -> https_switch = false ->
          exists s',
            doio_REQ_SUCCESS_PUT ds i r s = Return s' /\ fails_with e s')).
Proof.
  intros Hne. split.
  - intros Htok.
    destruct (doio_REQ_SUCCESS_PUT_token ds i r s Htok) as [tok Heq].
    eexists. split; [exact Heq|].
    match goal with
    | |- context [doio_upload_complete ds i r ?s1] =>
        destruct (doio_upload_complete_spec ds i r s1)
          as (Hc & _ & Hm & Hp & Hkey & _)
    end.
    split; [exact Hc|]. split; [exact Hm|]. split; [exact Hp|exact Hkey].
  - intros Hnot. cbv zeta.
    destruct (doio_REQ_SUCCESS_PUT_not_token ds i r s Hne Hnot)
      as (s1 & Heq & Herr & Hcl & Htr & Hrq).
    rewrite Heq.
    destruct (doio_upload_error_spec i r s1) as (H1 & H2 & H3).
    cbv zeta in H1, H2, H3. split; [|split].
    + intros He. destruct (H1 He) as (s' & Hs' & Ha & Hb & Hc & Hd).
      exists s'. rewrite <- Herr, <- Hrq, <- Htr. repeat split; assumption.
    + intros He Hsw. destruct (H2 He Hsw) as (s' & Hs' & Ha & Hb).
      exists s'. repeat split; assumption.
    + intros He Hsw. destruct (H3 He Hsw) as (s' & Hs' & Ha & _).
      exists s'. split; assumption.
Qed.

(** *** Failed requests *)


(** *** The error count *)

Lemma checkDownloadTransferFinished_errorcount (ds : dstime) (s : TransferSlot) :
  errorcount (snd (checkDownloadTransferFinished ds s)) = errorcount s.
Proof.
  unfold checkDownloadTransferFinished, checkMetaMacWithMissingLateEntries.
  repeat match goal with
         | |- context [if ?c then _ else _] => destruct c
         end; reflexivity.
Qed.

Lemma createconnectionsonce_after_reset (s : TransferSlot) :
  createconnectionsonce (log retrybt_reset (set_retrying false s))
  = (fst (createconnectionsonce s),
     log retrybt_reset (set_retrying false (snd (createconnectionsonce s)))).
Proof.
  unfold createconnectionsonce.
  cbn [connections reqs asyncIO transferbuf transfer client log set_trace
       set_retrying].
  destruct (negb (negb (connections s =? 0) || negb (length (reqs s) =? 0)%nat
                  || match asyncIO s with Some _ => true | None => false end));
    [|reflexivity].
  destruct (tempUrlVector (transferbuf s)); reflexivity.
Qed.

(** C7 (as amended).  A tick that is not a pending completion (the file is
    open, the transfer is not already complete, no upload token is held)
    and whose connections exist fails the transfer with the last recorded
    error when [errorcount] exceeds 4, and goes on to the connections
    otherwise; [errorcount] is reset to 0 by a successful synchronous
    write of a chunk, by a finished asynchronous write of a chunk, and by
    the receipt of an upload token. *)
Theorem errorcount_limit_and_reset :
  (forall s : TransferSlot,
     fa s <> None ->
     size (transfer s) = 0 \/ progresscompleted (transfer s) <> size (transfer s) ->
     type (transfer s) = GET \/ ultoken (transfer s) = None ->
     fst (createconnectionsonce s) = true ->
     (errorcount s > 4 ->
      exists s', doio_entry s = Return s' /\ fails_with (lasterror s) s')
     /\ (errorcount s <= 4 ->
         exists s', doio_entry s = Next s' /\ errorcount s' = errorcount s))
  /\ (forall ds i r (s : TransferSlot) l piece f f',
        getAsyncOutputBufferPointer (Z.of_nat i) (transferbuf s) = Some piece ->
        fa s = Some f -> asyncavailable f = false ->
        fwrite piece f = (true, f') ->
        exists fl, doio_REQ_DECRYPTED ds i r s l = Some fl
                   /\ errorcount (fst (flow_state fl)) = 0)
  /\ (forall ds i r (s : TransferSlot) l a,
        asyncIO_at i s = Some a ->
        AsyncIO.finished a = true -> AsyncIO.failed a = false ->
        type (transfer s) = GET ->
        exists fl, doio_REQ_ASYNCIO ds i r s l = Some fl
                   /\ errorcount (fst (flow_state fl)) = 0)
  /\ (forall ds i r (s : TransferSlot),
        valid_token (in_ r) ->
        exists s', doio_REQ_SUCCESS_PUT ds i r s = Return s'
                   /\ errorcount s' = 0).
Proof.
  split; [|split; [|split]].
  - intros s Hfa Hsize Htype Hcreated.
    assert (Hguard :
      negb (match fa s with Some _ => true | None => false end)
      || (negb (size (transfer s) =? 0)
          && (progresscompleted (transfer s) =? size (transfer s)))
      || (direction_eqb (type (transfer s)) PUT
          && match ultoken (transfer s) with Some _ => true | None => false end)
      = false).
    { destruct (fa s); [|congruence]. cbn [negb orb].
      assert (H1 : negb (size (transfer s) =? 0)
                   && (progresscompleted (transfer s) =? size (transfer s))
                   = false).
      { destruct Hsize as [H|H].
        - rewrite H. reflexivity.
        - apply Z.eqb_neq in H. rewrite H. apply andb_false_r. }
      rewrite H1. cbn [orb].
      destruct Htype as [H|H]; rewrite H; [reflexivity|apply andb_false_r]. }
    unfold doio_entry. rewrite Hguard.
    rewrite createconnectionsonce_after_reset.
    destruct (createconnectionsonce s) as [c s1] eqn:Hc.
    cbn [fst snd] in Hcreated |- *. subst c. cbn [negb].
    assert (Herr : errorcount s1 = errorcount s /\ lasterror s1 = lasterror s).
    { unfold createconnectionsonce in Hc.
      repeat match type of Hc with
             | context [if ?c then _ else _] => destruct c
             | context [match ?x with [] => _ | _ :: _ => _ end] => destruct x
             end; inversion Hc; subst; split; reflexivity. }
    destruct Herr as [He Hl].
    cbn [errorcount lasterror log set_trace set_retrying].
    rewrite He, Hl. split.
    + intros Hgt. rewrite Z.gtb_ltb.
      replace (4 <? errorcount s) with true by (symmetry; apply Z.ltb_lt; lia).
      eexists. split; [reflexivity|]. exists 0. reflexivity.
    + intros Hle. rewrite Z.gtb_ltb.
      replace (4 <? errorcount s) with false by (symmetry; apply Z.ltb_ge; lia).
      eexists. split; [reflexivity|]. exact He.
  - intros ds i r s l piece f f' Hpiece Hfa Hasync Hwrite.
    unfold doio_REQ_DECRYPTED. rewrite Hpiece, Hfa, Hasync, Hwrite.
    destruct (bufferWriteCompleted (Z.of_nat i) true
                (transferbuf (set_fa (Some f') s)) (transfer (set_fa (Some f') s)))
      as [tb t].
    match goal with
    | |- context [checkDownloadTransferFinished ds ?s0] =>
        pose proof (checkDownloadTransferFinished_errorcount ds s0) as Herr;
          destruct (checkDownloadTransferFinished ds s0) as [done s2]
    end.
    cbn [snd] in Herr. cbn in Herr.
    destruct done; eexists; (split; [reflexivity|]); cbn; exact Herr.
  - intros ds i r s l a Ha Hfin Hfail Htype.
    unfold doio_REQ_ASYNCIO. rewrite Ha, Hfin, Hfail, Htype.
    cbn [negb direction_eqb].
    destruct (bufferWriteCompleted (Z.of_nat i) true (transferbuf s) (transfer s))
      as [tb t].
    match goal with
    | |- context [checkDownloadTransferFinished ds ?s0] =>
        pose proof (checkDownloadTransferFinished_errorcount ds s0) as Herr;
          destruct (checkDownloadTransferFinished ds s0) as [done s2]
    end.
    cbn [snd] in Herr. cbn in Herr.
    destruct done.
    + eexists. split; [reflexivity|]. cbn. exact Herr.
    + match goal with
      | |- context [if ?c then _ else _] => destruct c
      end; eexists; (split; [reflexivity|]); cbn; exact Herr.
  - intros ds i r s Htok.
    destruct (doio_REQ_SUCCESS_PUT_token ds i r s Htok) as [tok Heq].
    eexists. split; [exact Heq|].
    match goal with
    | |- context [doio_upload_complete ds i r ?s1] =>
        destruct (doio_upload_complete_spec ds i r s1) as (_ & He & _)
    end.
    exact He.
Qed.

End SlotFacts.

(** ** Closed examples: every hypothesis above is met by a concrete slot,
    and the statements that had to be amended fail on one *)
Section Examples.
Import Bytes Urls ChunkMacs Requests Clients Collaborators MacOfMacs Transfers.
Import Slot SlotProperties Samples.

(** The gap recovery at work: the sample download is complete, its
    [metamac] misses one entry, and it completes. *)
Lemma checkDownloadTransferFinished_witness :
  progresscompleted (transfer sample_gap_download)
  = size (transfer sample_gap_download)
  /\ macsmac sample_gap_download (chunkmacs (transfer sample_gap_download))
     <> metamac (transfer sample_gap_download)
  /\ fst (checkDownloadTransferFinished 0 sample_gap_download) = true
  /\ completes (snd (checkDownloadTransferFinished 0 sample_gap_download)).
Proof.
  split; [reflexivity|]. split; [vm_compute; discriminate|].
  destruct (checkDownloadTransferFinished_spec (E := sample_env) 0
              sample_gap_download) as [H _].
  destruct (H eq_refl) as (Hfst & Hiff & _).
  split; [exact Hfst|]. apply Hiff. right. right. vm_compute. reflexivity.
Defined.

Lemma checkMetaMacWithMissingLateEntries_witness :
  Z.of_nat (length (chunkmacs (transfer sample_gap_download))) < 2 ^ 31
  /\ fst (checkMetaMacWithMissingLateEntries sample_gap_download) = true
  /\ (single_gap sample_gap_download \/ two_gaps sample_gap_download)
  /\ metamac (transfer (snd (checkMetaMacWithMissingLateEntries
                               sample_gap_download)))
     = macsmac sample_gap_download (chunkmacs (transfer sample_gap_download)).
Proof.
  assert (HN : Z.of_nat (length (chunkmacs (transfer sample_gap_download)))
               < 2 ^ 31) by (vm_compute; reflexivity).
  destruct (checkMetaMacWithMissingLateEntries_spec (E := sample_env)
              sample_gap_download HN) as (Hiff & _ & Hset & _).
  assert (Htrue : fst (checkMetaMacWithMissingLateEntries sample_gap_download)
                  = true) by (vm_compute; reflexivity).
  split; [exact HN|]. split; [exact Htrue|].
  split; [apply Hiff; exact Htrue|]. apply (Hset Htrue).
Defined.

Lemma sample_token_valid : valid_token (E := sample_env) sample_token.
Proof. split; [reflexivity|]. left. reflexivity. Defined.

Lemma upload_filekey_witness :
  valid_token (E := sample_env) sample_token
  /\ exists s',
       doio_REQ_SUCCESS_PUT 0 3 (sample_put_req sample_token "" sample_tempurl)
         (sample_upload sample_token "" sample_tempurl) = Return s'
       /\ completes s'
       /\ length (filekey (transfer s')) = 32%nat
       /\ firstn 8 (skipn 16 (filekey (transfer s')))
          = le_encode 8 578437695752307201
       /\ skipn 24 (filekey (transfer s'))
          = le_encode 8 (macsmac s' (chunkmacs (transfer s')))
       /\ firstn 16 (filekey (transfer s'))
          = xorblock (skipn 16 (filekey (transfer s'))) sample_key.
Proof.
  split; [exact sample_token_valid|].
  apply (upload_filekey (E := sample_env) 0 3
           (sample_put_req sample_token "" sample_tempurl)
           (sample_upload sample_token "" sample_tempurl)
           sample_token_valid eq_refl eq_refl).
Defined.

(** C2 (as stated) fails: after the upload completes, the second half of
    the file key is the counter IV and the MAC as stored, not XORed with
    the first half, and the first half is no longer the transfer key. *)
Lemma upload_filekey_counterexample :
  completes sample_upload_done
  /\ transferkey (transfer sample_upload_done) = sample_key
  /\ skipn 16 (filekey (transfer sample_upload_done))
     = le_encode 8 (ctriv (transfer sample_upload_done))
       ++ le_encode 8 (macsmac sample_upload_done
                         (chunkmacs (transfer sample_upload_done)))
  /\ skipn 16 (filekey (transfer sample_upload_done))
     <> xorblock sample_key
          (le_encode 8 (ctriv (transfer sample_upload_done))
           ++ le_encode 8 (macsmac sample_upload_done
                             (chunkmacs (transfer sample_upload_done))))
  /\ firstn 16 (filekey (transfer sample_upload_done)) <> sample_key.
Proof.
  split; [reflexivity|]. split; [reflexivity|].
  split; [vm_compute; reflexivity|].
  split; vm_compute; discriminate.
Qed.

Lemma upload_response_body_witness :
  in_ (sample_put_req sample_token "" sample_tempurl) <> []
  /\ exists s',
       doio_REQ_SUCCESS_PUT 0 3 (sample_put_req sample_token "" sample_tempurl)
         (sample_upload sample_token "" sample_tempurl) = Return s'
       /\ completes s'
       /\ chunkmacs (transfer s')
          = merged_chunkmacs 3 (sample_put_req sample_token "" sample_tempurl)
              (sample_upload sample_token "" sample_tempurl)
       /\ progresscompleted (transfer s') = 393216.
Proof.
  assert (Hne : in_ (sample_put_req sample_token "" sample_tempurl) <> [])
    by discriminate.
  split; [exact Hne|].
  destruct (upload_response_body (E := sample_env) 0 3
              (sample_put_req sample_token "" sample_tempurl)
              (sample_upload sample_token "" sample_tempurl) Hne) as [H _].
  destruct (H sample_token_valid) as (s' & Heq & Hc & Hm & Hp & _).
  exists s'. split; [exact Heq|]. split; [exact Hc|]. split; [exact Hm|].
  rewrite Hp. vm_compute. reflexivity.
Defined.

(** C3 (as stated) fails: the body "-4" is not a token and parses as -4,
    and the body "-9" in a text/html reply on an http: URL parses as -9,
    yet both transfers fail with [API_EAGAIN], not with the parsed
    error. *)
Lemma upload_response_body_counterexample :
  atoi body_minus_4 = -4
  /\ hd_error
       (trace (flow_state
                 (doio_REQ_SUCCESS_PUT 0 3
                    (sample_put_req body_minus_4 "application/octet-stream"
                       sample_tempurl)
                    (sample_upload body_minus_4 "application/octet-stream"
                       sample_tempurl))))
     = Some (transfer_failed API_EAGAIN 0)
  /\ atoi body_minus_9 = -9
  /\ hd_error
       (trace (flow_state
                 (doio_REQ_SUCCESS_PUT 0 3
                    (sample_put_req body_minus_9 "text/html" sample_tempurl)
                    (sample_upload body_minus_9 "text/html" sample_tempurl))))
     = Some (transfer_failed API_EAGAIN 0)
  /\ API_EAGAIN <> -4 /\ API_EAGAIN <> -9.
Proof.
  split; [reflexivity|]. split; [reflexivity|]. split; [reflexivity|].
  split; [reflexivity|]. split; discriminate.
Qed.

Lemma createconnectionsonce_count_witness :
  isRaid (transferbuf (sample_slot GET 131071)) = false
  /\ fst (createconnectionsonce (sample_slot GET 131071)) = true
  /\ Slot.connections (snd (createconnectionsonce (sample_slot GET 131071))) = 1
  /\ Slot.connections (snd (createconnectionsonce (sample_slot GET 131073))) = 4.
Proof.
  split; [reflexivity|].
  destruct (createconnectionsonce_count (E := sample_env)
              (sample_slot GET 131071) eq_refl eq_refl eq_refl) as [_ H].
  destruct H as (Hfst & _ & _ & H1 & _); [discriminate|].
  split; [exact Hfst|]. split; [apply H1; reflexivity|].
  destruct (createconnectionsonce_count (E := sample_env)
              (sample_slot GET 131073) eq_refl eq_refl eq_refl) as [_ H].
  destruct H as (_ & _ & _ & _ & H4 & _); [discriminate|].
  rewrite H4; [reflexivity|reflexivity|vm_compute; reflexivity].
Defined.

(** C4 (as stated) fails: a file of exactly 131072 bytes, not RAID, with
    4 connections configured, gets one connection although its size is not
    below 131072. *)
Lemma createconnectionsonce_count_counterexample :
  isRaid (transferbuf (sample_slot GET 131072)) = false
  /\ Clients.connections (client (sample_slot GET 131072)) GET = 4
  /\ size (transfer (sample_slot GET 131072)) = 131072
  /\ Slot.connections (snd (createconnectionsonce (sample_slot GET 131072))) = 1
  /\ (size (transfer (sample_slot GET 131072)) <? 131072) = false.
Proof. repeat split. Qed.



(** C7 (as stated) fails: on that tick [errorcount] exceeds 4 and the
    transfer completes instead of failing with the last error. *)
Lemma errorcount_limit_counterexample :
  errorcount sample_pending_completion = 5
  /\ lasterror sample_pending_completion = API_EREAD
  /\ hd_error (trace (flow_state (doio_entry sample_pending_completion)))
     = Some transfer_complete.
Proof. repeat split. Qed.

(** With the file open and the connections created, the same error count
    fails the transfer with the last error. *)
Lemma errorcount_limit_witness :
  exists s',
    doio_entry (set_lasterror API_EREAD
                  (set_errorcount 5 (sample_slot GET 500000))) = Return s'
    /\ fails_with API_EREAD s'.
Proof.
  destruct (errorcount_limit_and_reset (E := sample_env)) as [H _].
  destruct (H (set_lasterror API_EREAD
                 (set_errorcount 5 (sample_slot GET 500000)))) as [Hgt _].
  - discriminate.
  - right. discriminate.
  - left. reflexivity.
  - reflexivity.
  - apply Hgt. reflexivity.
Defined.

End Examples.

(** ** More of the transfer slot: what [doio] does besides *)
Section SlotMore.
Import Bytes Urls ChunkMacs Requests Clients Collaborators MacOfMacs Transfers.
Import Slot SlotProperties.
Context {E : Env}.

Lemma nth_error_list_set_same {A} (i : nat) (x : A) (l : list A) :
  nth_error (list_set i x l) i
  = if (i <? length l)%nat then Some x else None.
Proof.
  revert i. induction l as [|y t IH]; intros [|i]; try reflexivity.
  cbn [list_set nth_error length]. rewrite IH. reflexivity.
Qed.

Lemma nth_error_list_set_other {A} (i j : nat) (x : A) (l : list A) :
  i <> j -> nth_error (list_set i x l) j = nth_error l j.
Proof.
  revert i j. induction l as [|y t IH]; intros [|i] [|j] H;
    try reflexivity; try congruence.
  cbn [list_set nth_error]. apply IH. congruence.
Qed.

Lemma list_set_length {A} (i : nat) (x : A) (l : list A) :
  length (list_set i x l) = length l.
Proof.
  revert i. induction l as [|y t IH]; intros [|i]; try reflexivity.
  cbn [list_set length]. rewrite IH. reflexivity.
Qed.

Lemma asyncIO_at_cleared (i : nat) (s : TransferSlot) :
  asyncIO_at i (set_asyncIO_at i None s) = None.
Proof.
  unfold asyncIO_at, set_asyncIO_at. cbn [asyncIO set_asyncIO].
  destruct (asyncIO s) as [l|]; [|reflexivity]. cbn [option_map].
  rewrite nth_error_list_set_same. destruct (i <? length l)%nat; reflexivity.
Qed.

(** X1.  [createconnectionsonce] creates the connections once: when it
    returns false it has changed nothing, and that happens exactly when
    nothing has been created yet and no temporary URL is known; after it
    has returned true, a further call returns true and changes nothing. *)
Theorem createconnectionsonce_once (s : TransferSlot) :
  (fst (createconnectionsonce s) = false -> snd (createconnectionsonce s) = s)
  /\ (fst (createconnectionsonce s) = false <->
      connections s = 0 /\ reqs s = [] /\ asyncIO s = None
      /\ tempUrlVector (transferbuf s) = [])
  /\ (fst (createconnectionsonce s) = true ->
      createconnectionsonce (snd (createconnectionsonce s))
      = (true, snd (createconnectionsonce s))).
Proof.
  unfold createconnectionsonce.
  destruct (connections s =? 0) eqn:Hc; cbn [negb orb].
  2: { apply Z.eqb_neq in Hc. cbn [fst snd]. rewrite (proj2 (Z.eqb_neq _ _) Hc).
       cbn. repeat split; try discriminate; try reflexivity.
       intros (H & _). contradiction. }
  apply Z.eqb_eq in Hc.
  destruct (reqs s) as [|r0 rs] eqn:Hr; cbn [length Nat.eqb negb orb].
  2: { cbn [fst snd]. rewrite Hr, Hc. cbn.
       repeat split; try discriminate; try reflexivity.
       intros (_ & H & _). discriminate. }
  destruct (asyncIO s) as [a|] eqn:Ha; cbn [negb].
  { cbn [fst snd]. rewrite Hr, Hc, Ha. cbn.
    repeat split; try discriminate; try reflexivity.
    intros (_ & _ & H & _). discriminate. }
  destruct (tempUrlVector (transferbuf s)) as [|u us] eqn:Hu; cbn [fst snd].
  - rewrite Hc, Hr, Ha, Hu. cbn. repeat split; try discriminate; auto.
  - cbn [connections reqs asyncIO set_asyncIO set_reqs set_connections].
    split; [discriminate|]. split.
    + split; [discriminate|]. intros (_ & _ & _ & H). discriminate.
    + intros _. cbn [orb negb]. rewrite orb_true_r. reflexivity.
Qed.

(** X2.  A download that is already complete when [doio] starts (its
    file is open, its size is not zero and all of it has been written) is
    verified against the plain mac-of-macs only: it completes when that
    equals [metamac], and otherwise fails with [API_EKEY] with its chunk
    MACs cleared, whatever the legacy gap recovery would have found. *)
Theorem doio_cached_download (s : TransferSlot) (f : FileAccess) :
  type (transfer s) = GET -> fa s = Some f ->
  size (transfer s) <> 0 ->
  progresscompleted (transfer s) = size (transfer s) ->
  exists s',
    doio_entry s = Return s'
    /\ currentmetamac (transfer s') = macsmac s (chunkmacs (transfer s))
    /\ hascurrentmetamac (transfer s') = true
    /\ (macsmac s (chunkmacs (transfer s)) = metamac (transfer s) ->
        completes s' /\ chunkmacs (transfer s') = chunkmacs (transfer s))
    /\ (macsmac s (chunkmacs (transfer s)) <> metamac (transfer s) ->
        fails_with API_EKEY s' /\ chunkmacs (transfer s') = []).
Proof.
  intros Htype Hfa Hsize Hdone. unfold doio_entry.
  rewrite Hfa, Htype, Hdone. apply Z.eqb_neq in Hsize.
  rewrite Hsize, Z.eqb_refl.
  cbn [negb orb andb direction_eqb].
  cbn [currentmetamac metamac set_hascurrentmetamac set_currentmetamac].
  destruct (macsmac s (chunkmacs (transfer s)) =? metamac (transfer s)) eqn:Hm.
  - apply Z.eqb_eq in Hm. eexists. split; [reflexivity|]. cbn.
    split; [reflexivity|]. split; [reflexivity|]. split.
    + intros _. split; reflexivity.
    + intros Hne. contradiction.
  - apply Z.eqb_neq in Hm. eexists. split; [reflexivity|]. cbn.
    split; [reflexivity|]. split; [reflexivity|]. split.
    + intros Heq. contradiction.
    + intros _. split; [exists 0; reflexivity|reflexivity].
Qed.

(** X3.  Pending completion.  An upload that holds its upload token
    completes on the next tick, with the retry timer backed off by 2
    deciseconds, whether or not its file is still open; an upload whose
    file is closed and that holds no token fails with [API_EINTERNAL]; a
    download whose file is closed completes without its MAC being looked
    at again.  None of them touches the transfer's data. *)
Theorem doio_pending_completion (s : TransferSlot) :
  (type (transfer s) = PUT -> ultoken (transfer s) <> None ->
   exists s',
     doio_entry s = Return s' /\ completes s' /\ retrying s' = true
     /\ In (retrybt_backoff 2) (trace s') /\ transfer s' = transfer s)
  /\ (type (transfer s) = PUT -> ultoken (transfer s) = None -> fa s = None ->
      exists s',
        doio_entry s = Return s' /\ fails_with API_EINTERNAL s'
        /\ transfer s' = transfer s)
  /\ (type (transfer s) = GET -> fa s = None ->
      exists s',
        doio_entry s = Return s' /\ completes s' /\ retrying s' = true
        /\ In (retrybt_backoff 2) (trace s') /\ transfer s' = transfer s).
Proof.
  unfold doio_entry. split; [|split].
  - intros Ht Hu. rewrite Ht.
    destruct (ultoken (transfer s)) as [u|]; [|congruence].
    cbn [direction_eqb andb orb]. rewrite orb_true_r. rewrite andb_false_r.
    eexists. split; [reflexivity|]. cbn. unfold completes. cbn.
    split; [reflexivity|]. split; [reflexivity|]. split; [|reflexivity].
    right. left. reflexivity.
  - intros Ht Hu Hf. rewrite Ht, Hu, Hf. cbn.
    eexists. split; [reflexivity|]. split; [exists 0; reflexivity|reflexivity].
  - intros Ht Hf. rewrite Ht, Hf. cbn.
    eexists. split; [reflexivity|]. unfold completes. cbn.
    split; [reflexivity|]. split; [reflexivity|]. split; [|reflexivity].
    right. left. reflexivity.
Qed.

(** X4.  An upload chunk acknowledged with an empty body.  Its size is
    added to [progresscompleted] and its chunk MACs are merged; when that
    completes the file although no upload token has come, the transfer
    fails with [API_EINTERNAL]; otherwise the error counters are reset to
    0 and the request is ready for the next chunk. *)
Theorem upload_chunk_acknowledged (ds : dstime) (i : nat) (r : HttpReqXfer)
    (s : TransferSlot) :
  in_ r = [] ->
  let done := progresscompleted (transfer s) + Requests.size r in
  let macs := finishedUploadChunks (chunkmacs (transfer s)) (mChunkmacs r) in
  (done = size (transfer s) ->
   exists s',
     doio_REQ_SUCCESS_PUT ds i r s = Return s'
     /\ fails_with API_EINTERNAL s'
     /\ progresscompleted (transfer s') = done
     /\ chunkmacs (transfer s') = macs
     /\ errorcount s' = errorcount s)
  /\ (done <> size (transfer s) ->
      exists s',
        doio_REQ_SUCCESS_PUT ds i r s = Next s'
        /\ progresscompleted (transfer s') = done
        /\ chunkmacs (transfer s') = macs
        /\ errorcount s' = 0 /\ failcount (transfer s') = 0
        /\ reqs s' = list_set i (Some (set_status REQ_READY r)) (reqs s)
        /\ hd_error (trace s') = Some transfercacheadd).
Proof.
  intros Hin done macs. unfold doio_REQ_SUCCESS_PUT. rewrite Hin.
  cbn [length Nat.eqb negb].
  cbn [progresscompleted size set_progresscompleted set_chunkmacs transfer
       set_lastdata].
  fold done. split.
  - intros Hd. rewrite Hd, Z.eqb_refl.
    eexists. split; [reflexivity|]. cbn.
    split; [exists 0; reflexivity|]. auto.
  - intros Hd. apply Z.eqb_neq in Hd. rewrite Hd.
    eexists. split; [reflexivity|]. cbn. auto 10.
Qed.

(** X5.  A write to the file that fails, in [case REQ_DECRYPTED] and
    in [case REQ_ASYNCIO].  When the filesystem says the failure is
    permanent the transfer fails, with [API_EWRITE] for a download and
    [API_EREAD] for the read of an upload; when it says the operation may
    be retried the case leaves the transfer running: the error is recorded
    in [lasterror], the local variable [backoff] of the tick is set to 2
    deciseconds and [errorcount] is left as it was.  Whether the retry
    timer is armed with that backoff is decided at the end of the tick,
    which is not part of this statement: a later case of the same tick
    may assign [backoff] again, and no backoff is armed when [failure] is
    set. *)
Theorem write_failure_handling :
  (forall ds i r (s : TransferSlot) l piece f f',
     getAsyncOutputBufferPointer (Z.of_nat i) (transferbuf s) = Some piece ->
     fa s = Some f -> asyncavailable f = false ->
     fwrite piece f = (false, f') ->
     (fa_retry f' = false ->
      exists s',
        doio_REQ_DECRYPTED ds i r s l = Some (Return (s', l))
        /\ fails_with API_EWRITE s')
     /\ (fa_retry f' = true ->
         doio_REQ_DECRYPTED ds i r s l
         = Some (Next (set_lasterror API_EWRITE (set_fa (Some f') s),
                       mkLocals 2 (p l)))))
  /\ (forall ds i r (s : TransferSlot) l a,
        asyncIO_at i s = Some a ->
        AsyncIO.finished a = true -> AsyncIO.failed a = true ->
        (AsyncIO.retry a = false ->
         exists s',
           doio_REQ_ASYNCIO ds i r s l = Some (Return (s', l))
           /\ fails_with (match type (transfer s') with
                          | PUT => API_EREAD
                          | GET => API_EWRITE
                          end) s'
           /\ asyncIO_at i s' = None)
        /\ (AsyncIO.retry a = true ->
            exists s',
              doio_REQ_ASYNCIO ds i r s l = Some (Next (s', mkLocals 2 (p l)))
              /\ lasterror s' = match type (transfer s) with
                                | PUT => API_EREAD
                                | GET => API_EWRITE
                                end
              /\ reqs s' = list_set i
                             (Some (set_status
                                      (match type (transfer s) with
                                       | PUT => REQ_READY
                                       | GET => REQ_SUCCESS
                                       end) r)) (reqs s)
              /\ errorcount s' = errorcount s
              /\ asyncIO s' = asyncIO s
              /\ trace s' = trace s)).
Proof.
  split.
  - intros ds i r s l piece f f' Hp Hf Ha Hw. unfold doio_REQ_DECRYPTED.
    rewrite Hp, Hf, Ha, Hw. split.
    + intros Hr. rewrite Hr. cbn [negb].
      destruct (bufferWriteCompleted (Z.of_nat i) false
                  (transferbuf (set_fa (Some f') s))
                  (transfer (set_fa (Some f') s))) as [tb t].
      eexists. split; [reflexivity|]. exists 0. reflexivity.
    + intros Hr. rewrite Hr. reflexivity.
  - intros ds i r s l a Ha Hfin Hfail. unfold doio_REQ_ASYNCIO.
    rewrite Ha, Hfin, Hfail. cbn [negb]. split.
    + intros Hr. rewrite Hr. cbn [negb].
      destruct (bufferWriteCompleted (Z.of_nat i) false (transferbuf s)
                  (transfer s)) as [tb t] eqn:Hb.
      eexists. split; [reflexivity|]. split.
      * exists 0. cbn. destruct (type t); reflexivity.
      * apply (asyncIO_at_cleared i (set_transfer t (set_transferbuf tb s))).
    + intros Hr. rewrite Hr. cbn [negb].
      destruct (type (transfer s)); cbn [direction_eqb];
        eexists; (split; [reflexivity|]); cbn; auto 10.
Qed.

(** *** RAID recovery *)

Lemma req_at_set_req_same (j : nat) (r r0 : HttpReqXfer) (s : TransferSlot) :
  req_at j s = Some r0 -> req_at j (set_req j r s) = Some r.
Proof.
  unfold req_at, set_req. cbn [reqs set_reqs]. intros H.
  rewrite nth_error_list_set_same.
  destruct (j <? length (reqs s))%nat eqn:Hlt; [reflexivity|].
  apply Nat.ltb_ge in Hlt. apply nth_error_None in Hlt.
  rewrite Hlt in H. discriminate.
Qed.

Lemma req_at_set_req_other (j k : nat) (r : HttpReqXfer) (s : TransferSlot) :
  k <> j -> req_at j (set_req k r s) = req_at j s.
Proof.
  intros H. unfold req_at, set_req. cbn [reqs set_reqs].
  rewrite nth_error_list_set_other by exact H. reflexivity.
Qed.

(** What the loop of [tryRaidRecoveryFromHttpGetError] does to the
    request of one connection. *)
Lemma restart_done_requests (idx : list nat) (s : TransferSlot) (j : nat) :
  let restart := fun s j =>
    match req_at j s with
    | Some rj =>
        if reqstatus_eqb (status rj) REQ_DONE
        then set_req j (set_status REQ_READY rj) s else s
    | None => s
    end in
  let s' := fold_left restart idx s in
  req_at j s'
  = option_map
      (fun r => if existsb (Nat.eqb j) idx && reqstatus_eqb (status r) REQ_DONE
                then set_status REQ_READY r else r)
      (req_at j s)
  /\ transfer s' = transfer s /\ transferbuf s' = transferbuf s
  /\ trace s' = trace s /\ length (reqs s') = length (reqs s)
  /\ connections s' = connections s.
Proof.
  intros restart. revert s. induction idx as [|k idx IH]; intros s s'.
  - cbn. destruct (req_at j s); cbn; auto 10.
  - subst s'. cbn [fold_left].
    destruct (IH (restart s k)) as (Hreq & Ht & Hb & Htr & Hlen & Hc).
    assert (Hframe : transfer (restart s k) = transfer s
                     /\ transferbuf (restart s k) = transferbuf s
                     /\ trace (restart s k) = trace s
                     /\ length (reqs (restart s k)) = length (reqs s)
                     /\ connections (restart s k) = connections s).
    { unfold restart. destruct (req_at k s) as [rk|]; [|auto].
      destruct (reqstatus_eqb (status rk) REQ_DONE); [|auto].
      cbn. rewrite list_set_length. auto. }
    destruct Hframe as (Ft & Fb & Ftr & Flen & Fc).
    split; [|rewrite Ht, Hb, Htr, Hlen, Hc; auto].
    rewrite Hreq. cbn [existsb].
    destruct (Nat.eqb_spec j k) as [->|Hne].
    + cbn [orb]. unfold restart at 1.
      destruct (req_at k s) as [rk|] eqn:Hk; [|rewrite Hk; reflexivity].
      destruct (reqstatus_eqb (status rk) REQ_DONE) eqn:Hd.
      * rewrite (req_at_set_req_same k _ rk s Hk).
        cbn [option_map status set_status]. rewrite Hd.
        change (reqstatus_eqb REQ_READY REQ_DONE) with false.
        rewrite andb_false_r. reflexivity.
      * rewrite Hk. cbn [option_map]. rewrite Hd, !andb_false_r. reflexivity.
    + cbn [orb].
      assert (Hsame : req_at j (restart s k) = req_at j s).
      { unfold restart. destruct (req_at k s) as [rk|]; [|reflexivity].
        destruct (reqstatus_eqb (status rk) REQ_DONE); [|reflexivity].
        apply req_at_set_req_other. congruence. }
      rewrite Hsame. reflexivity.
Qed.

Lemma existsb_rev_seq (j n : nat) :
  existsb (Nat.eqb j) (rev (seq 0 n)) = (j <? n)%nat.
Proof.
  destruct (j <? n)%nat eqn:H.
  - apply Nat.ltb_lt in H. apply existsb_exists. exists j.
    split; [|apply Nat.eqb_refl]. apply in_rev. rewrite rev_involutive.
    apply in_seq. lia.
  - apply Nat.ltb_ge in H.
    destruct (existsb (Nat.eqb j) (rev (seq 0 n))) eqn:He; [|reflexivity].
    apply existsb_exists in He. destruct He as (x & Hin & Hx).
    apply Nat.eqb_eq in Hx. subst x.
    apply in_rev in Hin. apply in_seq in Hin. lia.
Qed.

(** X6.  [tryRaidRecoveryFromHttpGetError].  On a transfer that is not
    RAID it returns false and changes nothing; when it returns false it
    has changed no request.  When it returns true, the request of the
    failed connection is in REQ_READY, every request of a connection that
    was in REQ_DONE is in REQ_READY as well, every other request is as it
    was, and the transfer is not failed. *)
Theorem tryRaidRecoveryFromHttpGetError_spec (n : nat) (s : TransferSlot) :
  (isRaid (transferbuf s) = false ->
   tryRaidRecoveryFromHttpGetError n s = (false, s))
  /\ (fst (tryRaidRecoveryFromHttpGetError n s) = false ->
      reqs (snd (tryRaidRecoveryFromHttpGetError n s)) = reqs s)
  /\ (fst (tryRaidRecoveryFromHttpGetError n s) = true ->
      let s' := snd (tryRaidRecoveryFromHttpGetError n s) in
      isRaid (transferbuf s) = true
      /\ (forall j,
            req_at j s'
            = option_map
                (fun r =>
                   if (j =? n)%nat
                      || ((j <? Z.to_nat (connections s))%nat
                          && reqstatus_eqb (status r) REQ_DONE)
                   then set_status REQ_READY r else r)
                (req_at j s))
      /\ (forall j r, (j < Z.to_nat (connections s))%nat ->
            req_at j s' = Some r -> status r <> REQ_DONE)
      /\ transfer s' = transfer s /\ trace s' = trace s).
Proof.
  unfold tryRaidRecoveryFromHttpGetError.
  destruct (isRaid (transferbuf s)) eqn:Hraid.
  2: { cbn. split; [reflexivity|]. split; [reflexivity|discriminate]. }
  split; [discriminate|].
  destruct (tryRaidHttpGetErrorRecovery (Z.of_nat n) (transferbuf s))
    as [recovered tb] eqn:Hrec.
  destruct recovered; cbn [fst snd].
  2: { split; [reflexivity|discriminate]. }
  split; [discriminate|]. intros _.
  set (s1 := match req_at n (set_transferbuf tb s) with
             | Some r => set_req n (set_status REQ_READY r) (set_transferbuf tb s)
             | None => set_transferbuf tb s
             end).
  assert (H1 : (forall j, req_at j s1
                 = option_map (fun r => if (j =? n)%nat
                                        then set_status REQ_READY r else r)
                     (req_at j s))
               /\ transfer s1 = transfer s /\ trace s1 = trace s
               /\ connections s1 = connections s).
  { subst s1. change (req_at n (set_transferbuf tb s)) with (req_at n s).
    destruct (req_at n s) as [rn|] eqn:Hn.
    - split; [|cbn; auto]. intros j.
      destruct (Nat.eqb_spec j n) as [->|Hne].
      + rewrite (req_at_set_req_same n _ rn (set_transferbuf tb s) Hn), Hn.
        reflexivity.
      + rewrite req_at_set_req_other by congruence.
        change (req_at j (set_transferbuf tb s)) with (req_at j s).
        destruct (req_at j s); reflexivity.
    - split; [|cbn; auto]. intros j.
      change (req_at j (set_transferbuf tb s)) with (req_at j s).
      destruct (Nat.eqb_spec j n) as [->|Hne].
      + rewrite Hn. reflexivity.
      + destruct (req_at j s); reflexivity. }
  destruct H1 as (Hreq1 & Ht1 & Htr1 & Hc1).
  assert (Hall : forall j,
            req_at j (fold_left
                        (fun s j =>
                           match req_at j s with
                           | Some rj =>
                               if reqstatus_eqb (status rj) REQ_DONE
                               then set_req j (set_status REQ_READY rj) s else s
                           | None => s
                           end) (rev (seq 0 (Z.to_nat (connections s1)))) s1)
            = option_map
                (fun r =>
                   if (j =? n)%nat
                      || ((j <? Z.to_nat (connections s))%nat
                          && reqstatus_eqb (status r) REQ_DONE)
                   then set_status REQ_READY r else r)
                (req_at j s)).
  { intros j.
    destruct (restart_done_requests (rev (seq 0 (Z.to_nat (connections s1))))
                s1 j) as (Hreq & _).
    cbv zeta in Hreq. rewrite Hreq, Hreq1, existsb_rev_seq, Hc1.
    destruct (req_at j s) as [r|]; [|reflexivity]. cbn [option_map].
    destruct (j =? n)%nat; cbn [orb status set_status reqstatus_eqb].
    - rewrite andb_false_r. reflexivity.
    - reflexivity. }
  split; [reflexivity|]. split; [exact Hall|]. split.
  - intros j r Hj Hr. rewrite Hall in Hr.
    destruct (req_at j s) as [r0|]; [|discriminate].
    cbn [option_map] in Hr. apply Nat.ltb_lt in Hj. rewrite Hj in Hr.
    cbn [andb] in Hr.
    destruct (reqstatus_eqb (status r0) REQ_DONE) eqn:Hd.
    + rewrite orb_true_r in Hr. inversion Hr. cbn. discriminate.
    + destruct (j =? n)%nat; cbn [orb] in Hr; inversion Hr; subst.
      * cbn. discriminate.
      * intros Hdone. rewrite Hdone in Hd. discriminate.
  - destruct (restart_done_requests (rev (seq 0 (Z.to_nat (connections s1))))
                s1 0%nat) as (_ & Ht & _ & Htr & _).
    cbv zeta in Ht, Htr. rewrite Ht, Htr. auto.
Qed.

(** *** A failed chunk *)

(** X7.  What [doio] does with a failed chunk once the statuses it
    knows are excluded (the last [else] of [case REQ_FAILURE]).  The
    request is re-armed as PREPARED and the transfer is not failed.  The
    first such failure of a slot sets [failure], reports
    [API_EFAILED] to the application and marks the chunk as failed; when
    the automatic port change applies (the client allows it for the
    direction of the transfer and the temporary URL is an http: URL) it
    flips the client's port setting and toggles the port of the request's
    URL, both together.  A later failure, [failure] being set, changes
    nothing but the request's status. *)
Theorem doio_chunk_failed_spec (i : nat) (r : HttpReqXfer) (s : TransferSlot) :
  let s' := fst (doio_chunk_failed i r s) in
  let r' := snd (doio_chunk_failed i r s) in
  let http := is_http (tempURL (transferbuf s) (Z.of_nat i)) in
  let down := direction_eqb (type (transfer s)) GET
              && autodownport (client s) && http in
  let up := direction_eqb (type (transfer s)) PUT
            && autoupport (client s) && http in
  status r' = REQ_PREPARED /\ failure s' = true
  /\ transfer s' = transfer s /\ errorcount s' = errorcount s
  /\ (failure s = true -> s' = s /\ r' = set_status REQ_PREPARED r)
  /\ (failure s = false ->
      trace s' = transferTempErrors_increment :: setchunkfailed (posturl r)
                 :: app_transfer_failed API_EFAILED :: trace s
      /\ usealtdownport (client s') = xorb (usealtdownport (client s)) down
      /\ usealtupport (client s') = xorb (usealtupport (client s)) up
      /\ posturl r' = (if down || up then toggleport (posturl r)
                       else posturl r)).
Proof.
  unfold doio_chunk_failed.
  destruct (failure s) eqn:Hf; cbn [negb fst snd].
  - cbn. rewrite Hf. split; [reflexivity|]. split; [reflexivity|].
    split; [reflexivity|]. split; [reflexivity|].
    split; [auto|discriminate].
  - cbn [transfer client transferbuf set_failure].
    destruct (type (transfer s)); cbn [direction_eqb andb orb];
      destruct (autodownport (client s));
      destruct (autoupport (client s));
      destruct (is_http (tempURL (transferbuf s) (Z.of_nat i)));
      cbn; (split; [reflexivity|]); (split; [reflexivity|]);
      (split; [reflexivity|]); (split; [reflexivity|]);
      (split; [discriminate|]); intros _;
      (split; [reflexivity|]);
      (split; [destruct (usealtdownport (client s)); reflexivity|]);
      (split; [destruct (usealtupport (client s)); reflexivity|]);
      reflexivity.
Qed.

Lemma doio_chunk_failed_frame (i : nat) (r : HttpReqXfer) (s : TransferSlot) :
  let s' := fst (doio_chunk_failed i r s) in
  let r' := snd (doio_chunk_failed i r s) in
  status r' = REQ_PREPARED /\ failure s' = true
  /\ transfer s' = transfer s /\ reqs s' = reqs s
  /\ (forall e t, In (transfer_failed e t) (trace s') ->
                  In (transfer_failed e t) (trace s)).
Proof.
  unfold doio_chunk_failed.
  destruct (failure s) eqn:Hf; cbn [negb fst snd].
  - cbn. rewrite Hf. auto.
  - cbn [transfer client transferbuf set_failure].
    destruct (direction_eqb (type (transfer s)) GET && autodownport (client s)
              && is_http (tempURL (transferbuf s) (Z.of_nat i)));
      [|destruct (direction_eqb (type (transfer s)) PUT
                  && autoupport (client s)
                  && is_http (tempURL (transferbuf s) (Z.of_nat i)))];
      cbn; (split; [reflexivity|]); (split; [reflexivity|]);
      (split; [reflexivity|]); (split; [reflexivity|]);
      intros e t [H|[H|[H|H]]]; try discriminate; exact H.
Qed.

(** X8.  [case REQ_FAILURE] of the switch of [doio], for a request
    whose HTTP status is none of 509, 429, 503, 403, 404 and 0, and whose
    reply is not a text/html reply on an http: URL: the case never fails
    the transfer, it ends with the request re-armed as PREPARED and the
    slot's [failure] flag set, and the loop over the connections goes on.
    A request that [doio] has made a REQ_SUCCESS before the switch (a
    failed request of a RAID download with status 200 that had received
    data) does not come to this case and is not spoken of. *)
Theorem other_failure_is_retried (i : nat) (r : HttpReqXfer)
    (s : TransferSlot) (l : locals) :
  html_reply_on_http r = false ->
  httpstatus r <> 509 -> httpstatus r <> 429 -> httpstatus r <> 503 ->
  httpstatus r <> 403 -> httpstatus r <> 404 -> httpstatus r <> 0 ->
  req_at i s = Some r ->
  exists s' r',
    doio_REQ_FAILURE i r s l = Next (s', l)
    /\ req_at i s' = Some r' /\ status r' = REQ_PREPARED
    /\ failure s' = true
    /\ transfer s' = transfer s
    /\ (forall e t, In (transfer_failed e t) (trace s') ->
                    In (transfer_failed e t) (trace s)).
Proof.
  intros Hhtml H509 H429 H503 H403 H404 H0 Hreq.
  unfold doio_REQ_FAILURE. rewrite Hhtml.
  apply Z.eqb_neq in H509, H429, H503, H403, H404, H0.
  rewrite H509, H429, H503, H403, H404, H0. cbn [andb orb]. rewrite Hreq.
  pose proof (doio_chunk_failed_frame i r s) as Hspec. cbv zeta in Hspec.
  destruct (doio_chunk_failed i r s) as [s1 r1]. cbn [fst snd] in Hspec.
  destruct Hspec as (Hst & Hfail & Ht & Hreqs & Htrace).
  exists (set_req i r1 s1), r1. split; [reflexivity|].
  assert (Hreq1 : req_at i s1 = Some r).
  { unfold req_at. rewrite Hreqs. exact Hreq. }
  split; [exact (req_at_set_req_same i r1 r s1 Hreq1)|].
  split; [exact Hst|]. cbn. auto.
Qed.

End SlotMore.

(** ** Closed examples for the statements above *)
Section MoreExamples.
Import Bytes Urls ChunkMacs Requests Clients Collaborators MacOfMacs Transfers.
Import Slot SlotProperties Samples MoreSamples.

(** The sample download, which the gap recovery accepts when its last
    chunk is written, is refused when [doio] finds it complete. *)
Lemma doio_cached_download_witness :
  fst (checkMetaMacWithMissingLateEntries sample_gap_download) = true
  /\ exists s',
       doio_entry sample_gap_download = Return s'
       /\ fails_with API_EKEY s' /\ chunkmacs (transfer s') = [].
Proof.
  split; [vm_compute; reflexivity|].
  destruct (doio_cached_download (E := sample_env) sample_gap_download
              (mkSampleFile false true false) eq_refl eq_refl
              ltac:(vm_compute; discriminate) eq_refl)
    as (s' & Heq & _ & _ & _ & Hne).
  exists s'. split; [exact Heq|]. apply Hne. vm_compute. discriminate.
Defined.

(** The first of three chunks of the sample upload is acknowledged. *)
Lemma upload_chunk_acknowledged_witness :
  exists s',
    doio_REQ_SUCCESS_PUT 0 2 (sample_put_req [] "" sample_tempurl)
      (sample_upload [] "" sample_tempurl) = Next s'
    /\ progresscompleted (transfer s') = 131072
    /\ errorcount s' = 0.
Proof.
  destruct (upload_chunk_acknowledged (E := sample_env) 0 2
              (sample_put_req [] "" sample_tempurl)
              (sample_upload [] "" sample_tempurl) eq_refl) as [_ H].
  destruct (H ltac:(vm_compute; discriminate))
    as (s' & Heq & Hp & _ & He & _).
  exists s'. split; [exact Heq|]. split; [exact Hp|exact He].
Defined.

(** A status 500 on the sample download: the transfer goes on, the port
    setting of the client flips and the request is re-armed on the
    alternative port. *)
Lemma other_failure_is_retried_witness :
  exists s' r',
    doio_REQ_FAILURE 0 sample_req_500 sample_failed_download (mkLocals 0 0)
    = Next (s', mkLocals 0 0)
    /\ req_at 0 s' = Some r' /\ status r' = REQ_PREPARED
    /\ failure s' = true
    /\ transfer s' = transfer sample_failed_download
    /\ (forall e t, In (transfer_failed e t) (trace s') ->
                    In (transfer_failed e t) (trace sample_failed_download)).
Proof.
  apply (other_failure_is_retried (E := sample_env) 0 sample_req_500
           sample_failed_download (mkLocals 0 0) eq_refl);
    try discriminate; reflexivity.
Defined.

Lemma other_failure_flips_the_port :
  match doio_REQ_FAILURE 0 sample_req_500 sample_failed_download
          (mkLocals 0 0) with
  | Next (s', _) =>
      usealtdownport (client s') = true
      /\ option_map posturl (req_at 0 s')
         = Some (list_ascii_of_string
                   "http://gfs270n221.userstorage.example:8080/dl/abc")
  | _ => False
  end.
Proof. vm_compute. split; reflexivity. Qed.

End MoreExamples.

(** ** Nodes linked by parent pointers *)
Section ForestFacts.
Import Forest.
Context {A : Type} (parent : A -> option ptr).

Lemma update_length (p : ptr) (x : A) (st : list A) :
  length (update p x st) = length st.
Proof.
  revert p. induction st as [|y t IH]; intros [|p]; try reflexivity.
  cbn [update length]. rewrite IH. reflexivity.
Qed.

Lemma nth_error_update_same (p : ptr) (x : A) (st : list A) :
  (p < length st)%nat -> nth_error (update p x st) p = Some x.
Proof.
  revert p. induction st as [|y t IH]; intros [|p] H; cbn in H; try lia.
  - reflexivity.
  - cbn [update nth_error]. apply IH. lia.
Qed.

Lemma nth_error_update_other (p q : ptr) (x : A) (st : list A) :
  p <> q -> nth_error (update p x st) q = nth_error st q.
Proof.
  revert p q. induction st as [|y t IH]; intros [|p] [|q] H;
    try reflexivity; try congruence.
  cbn [update nth_error]. apply IH. congruence.
Qed.

Lemma nth_error_modify (p q : ptr) (f : A -> A) (st : list A) :
  nth_error (modify p f st) q
  = if (q =? p)%nat then option_map f (nth_error st q) else nth_error st q.
Proof.
  unfold modify. destruct (Nat.eqb_spec q p) as [->|Hne].
  - destruct (nth_error st p) as [x|] eqn:Hx.
    + cbn [option_map]. apply nth_error_update_same.
      apply nth_error_Some. congruence.
    + cbn [option_map]. exact Hx.
  - destruct (nth_error st p) as [x|]; [|reflexivity].
    apply nth_error_update_other. congruence.
Qed.

Lemma modify_length (p : ptr) (f : A -> A) (st : list A) :
  length (modify p f st) = length st.
Proof.
  unfold modify. destruct (nth_error st p); [apply update_length|reflexivity].
Qed.

(** Two stores with the same parent pointers have the same chains. *)
Lemma chain_ext (st st' : list A) :
  (forall m, option_map parent (nth_error st' m)
             = option_map parent (nth_error st m)) ->
  forall fuel p, chain parent fuel st' p = chain parent fuel st p.
Proof.
  intros H fuel. induction fuel as [|k IH]; intros p; [reflexivity|].
  destruct p as [q|]; [|reflexivity]. cbn [chain]. f_equal.
  specialize (H q).
  destruct (nth_error st' q) as [x'|], (nth_error st q) as [x|];
    cbn [option_map] in H; try discriminate; [|reflexivity].
  inversion H as [Hp]. rewrite Hp. apply IH.
Qed.

(** When parents are stored first, a chain goes down in the store. *)
Lemma chain_below (st : list A) :
  parents_first parent st ->
  forall fuel q m, In m (chain parent fuel st (Some q)) -> (m <= q)%nat.
Proof.
  intros Hwf fuel. induction fuel as [|k IH]; intros q m Hin; [destruct Hin|].
  cbn [chain] in Hin. destruct Hin as [<-|Hin]; [lia|].
  destruct (nth_error st q) as [x|] eqn:Hx; [|destruct Hin].
  destruct (parent x) as [q'|] eqn:Hp.
  - pose proof (Hwf q x q' Hx Hp). apply IH in Hin. lia.
  - destruct k; destruct Hin.
Qed.

(** Fuel beyond the index of the start changes nothing. *)
Lemma chain_fuel (st : list A) :
  parents_first parent st ->
  forall f1 f2 q, (q < f1)%nat -> (q < f2)%nat ->
    chain parent f1 st (Some q) = chain parent f2 st (Some q).
Proof.
  intros Hwf f1. induction f1 as [|k1 IH]; intros f2 q H1 H2; [lia|].
  destruct f2 as [|k2]; [lia|]. cbn [chain]. f_equal.
  destruct (nth_error st q) as [x|] eqn:Hx; [|reflexivity].
  destruct (parent x) as [q'|] eqn:Hp.
  - pose proof (Hwf q x q' Hx Hp). apply IH; lia.
  - destruct k1, k2; reflexivity.
Qed.

(** The chain of a node on a chain is part of that chain. *)
Lemma chain_transitive (st : list A) (b c : ptr) (xb : A) (L : nat) :
  parents_first parent st -> nth_error st b = Some xb ->
  In c (chain parent L st (parent xb)) ->
  forall f p, (f <= L)%nat -> (forall q, p = Some q -> (q < f)%nat) ->
    In b (chain parent f st p) -> In c (chain parent f st p).
Proof.
  intros Hwf Hb Hc f. induction f as [|k IH]; intros p HfL Hp Hin;
    [destruct Hin|].
  destruct p as [q|]; [|destruct Hin]. specialize (Hp q eq_refl) as Hq.
  cbn [chain] in Hin |- *. destruct Hin as [->|Hin].
  - right. rewrite Hb. destruct (parent xb) as [q'|] eqn:Hq'.
    + pose proof (Hwf b xb q' Hb Hq').
      assert (Hfuel : chain parent k st (Some q') = chain parent L st (Some q'))
        by (apply (chain_fuel st Hwf); lia).
      rewrite Hfuel. exact Hc.
    + destruct L; destruct Hc.
  - right. destruct (nth_error st q) as [x|] eqn:Hx; [|destruct Hin].
    apply IH; [lia| |exact Hin].
    intros q' Hq'. pose proof (Hwf q x q' Hx Hq'). lia.
Qed.

Lemma parents_first_update (st : list A) (q : ptr) (x y : A) :
  parents_first parent st -> nth_error st q = Some x ->
  parent y = parent x -> parents_first parent (update q y st).
Proof.
  intros Hwf Hx Hy p z r Hz Hr.
  destruct (Nat.eq_dec q p) as [->|Hne].
  - rewrite nth_error_update_same in Hz
      by (apply nth_error_Some; congruence).
    inversion Hz; subst z. rewrite Hy in Hr. exact (Hwf p x r Hx Hr).
  - rewrite nth_error_update_other in Hz by exact Hne.
    exact (Hwf p z r Hz Hr).
Qed.

(** What a loop over the ancestors leaves in the store: the body has run
    once on every node of the chain, and on no other node. *)
Lemma for_each_up_spec (body : A -> A) :
  (forall x, parent (body x) = parent x) ->
  forall fuel st p,
    parents_first parent st ->
    (forall q, p = Some q -> (q < fuel)%nat) ->
    forall m,
      nth_error (for_each_up parent fuel body p st) m
      = if existsb (Nat.eqb m) (chain parent fuel st p)
        then option_map body (nth_error st m)
        else nth_error st m.
Proof.
  intros Hbody fuel. induction fuel as [|k IH]; intros st p Hwf Hfuel m.
  - destruct p as [q|]; [specialize (Hfuel q eq_refl); lia|reflexivity].
  - destruct p as [q|]; [|reflexivity]. cbn [for_each_up chain existsb].
    destruct (nth_error st q) as [x|] eqn:Hx.
    2: { cbn [existsb]. rewrite orb_false_r.
         destruct (Nat.eqb_spec m q) as [->|Hne]; [|reflexivity].
         rewrite Hx. reflexivity. }
    assert (Hq : (q < length st)%nat) by (apply nth_error_Some; congruence).
    rewrite (nth_error_update_same q (body x) st Hq).
    assert (Hwf1 : parents_first parent (update q (body x) st))
      by (apply (parents_first_update st q x); auto).
    assert (Hparents : forall m0,
              option_map parent (nth_error (update q (body x) st) m0)
              = option_map parent (nth_error st m0)).
    { intros m0. destruct (Nat.eq_dec q m0) as [<-|Hne].
      - rewrite nth_error_update_same by exact Hq. rewrite Hx. cbn.
        rewrite Hbody. reflexivity.
      - rewrite nth_error_update_other by exact Hne. reflexivity. }
    rewrite IH.
    2: exact Hwf1.
    2: { intros q' Hq'. rewrite Hbody in Hq'.
         pose proof (Hwf q x q' Hx Hq'). specialize (Hfuel q eq_refl). lia. }
    rewrite (chain_ext st _ Hparents), Hbody.
    destruct (Nat.eqb_spec m q) as [->|Hne]; cbn [orb].
    + assert (Hnot : existsb (Nat.eqb q) (chain parent k st (parent x)) = false).
      { destruct (existsb (Nat.eqb q) (chain parent k st (parent x))) eqn:He;
          [|reflexivity].
        apply existsb_exists in He. destruct He as (m & Hin & Hm).
        apply Nat.eqb_eq in Hm. subst m.
        destruct (parent x) as [q'|] eqn:Hp.
        - pose proof (Hwf q x q' Hx Hp).
          apply (chain_below st Hwf) in Hin. lia.
        - destruct k; destruct Hin. }
      rewrite Hnot, Hx. apply nth_error_update_same. exact Hq.
    + rewrite nth_error_update_other by congruence. reflexivity.
Qed.

Lemma for_each_up_length (body : A -> A) (fuel : nat) (st : list A)
    (p : option ptr) :
  length (for_each_up parent fuel body p st) = length st.
Proof.
  revert st p. induction fuel as [|k IH]; intros st p; [reflexivity|].
  destruct p as [q|]; [|reflexivity]. cbn [for_each_up].
  destruct (nth_error st q) as [x|]; [|reflexivity].
  destruct (nth_error (update q (body x) st) q) as [x'|].
  - rewrite IH. apply update_length.
  - apply update_length.
Qed.

End ForestFacts.

(** ** The sync tree *)
Section SyncTreeFacts.
Import Bytes Forest SyncTree SyncTreeProperties.

Lemma isBelow_loop_chain (fuel : nat) (st : store) (p : option ptr)
    (other : ptr) :
  isBelow_loop fuel st p other
  = existsb (Nat.eqb other) (chain parent fuel st p).
Proof.
  revert p. induction fuel as [|k IH]; intros p; [reflexivity|].
  destruct p as [q|]; [|reflexivity]. cbn [isBelow_loop chain existsb].
  rewrite (Nat.eqb_sym other q).
  destruct (q =? other)%nat; [reflexivity|]. cbn [orb].
  destruct (nth_error st q) as [x|]; [apply IH|reflexivity].
Qed.

Lemma isBelow_ext (st st' : store) :
  length st' = length st ->
  (forall m, option_map parent (nth_error st' m)
             = option_map parent (nth_error st m)) ->
  forall a b, isBelow st' a b = isBelow st a b.
Proof.
  intros Hlen Hpar a b. unfold isBelow. specialize (Hpar a) as Ha.
  destruct (nth_error st' a) as [x'|], (nth_error st a) as [x|];
    cbn [option_map] in Ha; try discriminate; [|reflexivity].
  inversion Ha as [Hp]. rewrite Hp, !isBelow_loop_chain, Hlen.
  rewrite (chain_ext parent st st' Hpar). reflexivity.
Qed.

(** A node is not among its own ancestors. *)
Lemma isBelow_irrefl (st : store) (a : ptr) :
  parents_first parent st -> isBelow st a a = false.
Proof.
  intros Hwf. unfold isBelow.
  destruct (nth_error st a) as [x|] eqn:Hx; [|reflexivity].
  rewrite isBelow_loop_chain.
  destruct (existsb (Nat.eqb a) (chain parent (length st) st (parent x)))
    eqn:He; [|reflexivity].
  apply existsb_exists in He. destruct He as (m & Hin & Hm).
  apply Nat.eqb_eq in Hm. subst m.
  destruct (parent x) as [q|] eqn:Hp.
  - pose proof (Hwf a x q Hx Hp). apply (chain_below parent st Hwf) in Hin.
    lia.
  - destruct (length st); destruct Hin.
Qed.

Section FlagUp.
Variables (get : LocalNode -> Z) (set : Z -> LocalNode -> LocalNode).
Variables (getP : LocalNode -> bool) (setP : bool -> LocalNode -> LocalNode).
Hypothesis set_parent : forall v x, parent (set v x) = parent x.
Hypothesis setP_parent : forall b x, parent (setP b x) = parent x.
Hypothesis get_set : forall v x, get (set v x) = v.
Hypothesis getP_set : forall v x, getP (set v x) = getP x.
Hypothesis get_setP : forall b x, get (setP b x) = get x.

Lemma flag_up_raises : raises_flag get set getP setP (flag_up get set getP setP).
Proof.
  intros st this doParent doHere doBelow Hwf Hthis st'.
  subst st'. unfold flag_up.
  destruct (nth_error st this) as [n|] eqn:Hn;
    [|apply nth_error_None in Hn; lia].
  set (state := tree_state doHere doBelow).
  set (body := fun p => set (Z.max (get p) TREE_DESCENDANT_FLAGGED) p).
  set (st1 := update this (set (Z.max (get n) state) n) st).
  set (st2 := for_each_up parent (length st1) body (parent n) st1).
  set (st3 := modify this (fun n0 => setP (getP n0 || doParent) n0) st2).
  assert (Hlen1 : length st1 = length st) by apply update_length.
  assert (Hwf1 : parents_first parent st1)
    by (apply (parents_first_update parent st this n); auto).
  assert (Hpar1 : forall m, option_map parent (nth_error st1 m)
                            = option_map parent (nth_error st m)).
  { intros m. subst st1. destruct (Nat.eq_dec this m) as [<-|Hne].
    - rewrite nth_error_update_same by exact Hthis. rewrite Hn. cbn.
      rewrite set_parent. reflexivity.
    - rewrite nth_error_update_other by exact Hne. reflexivity. }
  assert (Hst2 : forall m,
            nth_error st2 m
            = if isBelow st this m then option_map body (nth_error st1 m)
              else nth_error st1 m).
  { intros m. subst st2. rewrite for_each_up_spec.
    - unfold isBelow. rewrite Hn, isBelow_loop_chain, Hlen1.
      rewrite (chain_ext parent st st1 Hpar1). reflexivity.
    - intros x. apply set_parent.
    - exact Hwf1.
    - intros q Hq. pose proof (Hwf this n q Hn Hq). lia. }
  assert (Hchar : forall m x, nth_error st m = Some x ->
            nth_error st3 m
            = Some (if (m =? this)%nat
                    then setP (getP x || doParent) (set (Z.max (get x) state) x)
                    else if isBelow st this m
                         then set (Z.max (get x) TREE_DESCENDANT_FLAGGED) x
                         else x)).
  { intros m x Hx. subst st3. rewrite nth_error_modify, Hst2.
    destruct (Nat.eqb_spec m this) as [->|Hne].
    - rewrite (isBelow_irrefl st this Hwf). subst st1.
      rewrite nth_error_update_same by exact Hthis.
      rewrite Hn in Hx. inversion Hx; subst x. cbn [option_map].
      rewrite getP_set. reflexivity.
    - subst st1. rewrite nth_error_update_other by congruence. rewrite Hx.
      destruct (isBelow st this m); reflexivity. }
  assert (Hlen3 : length st3 = length st).
  { subst st3 st2. rewrite modify_length, for_each_up_length. exact Hlen1. }
  split; [exact Hlen3|]. split; [|split; [exact Hchar|split]].
  - apply isBelow_ext; [exact Hlen3|]. intros m.
    destruct (nth_error st m) as [x|] eqn:Hx.
    + rewrite (Hchar m x Hx). cbn [option_map].
      destruct (m =? this)%nat; [rewrite setP_parent, set_parent; reflexivity|].
      destruct (isBelow st this m); [rewrite set_parent|]; reflexivity.
    + apply nth_error_None in Hx.
      assert (H3 : nth_error st3 m = None) by (apply nth_error_None; lia).
      rewrite H3. reflexivity.
  - intros a x' Ha Hx'.
    destruct (nth_error st a) as [x|] eqn:Hx.
    + rewrite (Hchar a x Hx) in Hx'.
      destruct (Nat.eqb_spec a this) as [->|Hne].
      * rewrite (isBelow_irrefl st this Hwf) in Ha. discriminate.
      * rewrite Ha in Hx'. inversion Hx'; subst x'. rewrite get_set.
        unfold TREE_DESCENDANT_FLAGGED, TREE_RESOLVED. lia.
    + apply nth_error_None in Hx.
      assert (H3 : nth_error st3 a = None) by (apply nth_error_None; lia).
      congruence.
  - intros m x x' Hx Hx'. rewrite (Hchar m x Hx) in Hx'.
    inversion Hx'; subst x'.
    destruct (m =? this)%nat; [rewrite get_setP, get_set; lia|].
    destruct (isBelow st this m); [rewrite get_set|]; lia.
Qed.

End FlagUp.

(** X9.  [setCheckMovesAgain], [setSyncAgain] and
    [setContainsConflicts], in a tree (a store whose parents come first),
    called on a node of it.  The node's flag becomes the maximum of what
    it was and of the requested state ([doHere] as bit 1, [doBelow] as bit
    0), and its request for the parent is or-ed with [doParent]; every
    ancestor's flag becomes at least TREE_DESCENDANT_FLAGGED, so that
    [mightHaveMoves], [syncRequired] and [conflictsDetected] hold for every
    ancestor afterwards; no other node changes, no flag is lowered, and
    the shape of the tree stays as it was. *)
Theorem flags_reach_the_root :
  raises_flag checkMovesAgain set_checkMovesAgain
    parentSetCheckMovesAgain set_parentSetCheckMovesAgain setCheckMovesAgain
  /\ raises_flag syncAgain set_syncAgain
       parentSetSyncAgain set_parentSetSyncAgain setSyncAgain
  /\ raises_flag conflicts set_conflicts
       parentSetContainsConflicts set_parentSetContainsConflicts
       setContainsConflicts.
Proof.
  split; [|split].
  - apply (flag_up_raises checkMovesAgain set_checkMovesAgain
             parentSetCheckMovesAgain set_parentSetCheckMovesAgain);
      intros; reflexivity.
  - apply (flag_up_raises syncAgain set_syncAgain
             parentSetSyncAgain set_parentSetSyncAgain); intros; reflexivity.
  - apply (flag_up_raises conflicts set_conflicts
             parentSetContainsConflicts set_parentSetContainsConflicts);
      intros; reflexivity.
Qed.

Lemma tree_state_cases (doHere doBelow : bool) :
  tree_state doHere doBelow
  = (if doHere then 2 else 0) + (if doBelow then 1 else 0).
Proof. destruct doHere, doBelow; reflexivity. Qed.

(** X10.  [setScanAgain], in a tree, called on a node of it.  Every
    ancestor needs scanning afterwards ([scanRequired]); with [doParent]
    the parent is flagged TREE_ACTION_HERE and the node's own request for
    its parent is cleared, and without a parent the request is recorded in
    the node; the node's flag becomes the maximum of what it was and of
    the requested state; its scan delay is raised to [ds + delayds] (in
    32 bits) when [doHere] and [delayds > 0], and an ongoing scan is marked
    obsolete when [doHere]; no flag and no delay is lowered; nodes that are
    neither the node nor above it are left alone. *)
Theorem setScanAgain_spec (ds : Z) (st : store) (this : ptr)
    (doParent doHere doBelow : bool) (delayds : Z) :
  parents_first parent st -> (this < length st)%nat ->
  let st' := setScanAgain ds this doParent doHere doBelow delayds st in
  length st' = length st
  /\ (forall a b, isBelow st' a b = isBelow st a b)
  /\ (forall a x', isBelow st this a = true -> nth_error st' a = Some x' ->
                   scanRequired x' = true)
  /\ (forall m x x', nth_error st m = Some x -> nth_error st' m = Some x' ->
                     scanAgain x <= scanAgain x'
                     /\ scanDelayUntil x <= scanDelayUntil x')
  /\ (forall m, m <> this -> isBelow st this m = false ->
                nth_error st' m = nth_error st m)
  /\ (forall x x', nth_error st this = Some x -> nth_error st' this = Some x' ->
        scanAgain x' = Z.max (scanAgain x) (tree_state doHere doBelow)
        /\ scanDelayUntil x'
           = (if doHere && (0 <? delayds)
              then Z.max (scanDelayUntil x) (to_u32 (ds + delayds))
              else scanDelayUntil x)
        /\ scanObsolete x' = (scanObsolete x || (doHere && scanInProgress x))
        /\ parentSetScanAgain x'
           = match parent x with
             | Some _ => if doParent then false else parentSetScanAgain x
             | None => parentSetScanAgain x || doParent
             end)
  /\ (forall x q p', nth_error st this = Some x -> parent x = Some q ->
        doParent = true -> nth_error st' q = Some p' ->
        TREE_ACTION_HERE <= scanAgain p').
Proof.
  intros Hwf Hthis st'. subst st'. unfold setScanAgain.
  destruct (nth_error st this) as [n0|] eqn:Hn;
    [|exfalso; apply nth_error_None in Hn; lia].
  set (state := tree_state doHere doBelow).
  set (body := fun p => set_scanAgain
                          (Z.max (scanAgain p) TREE_DESCENDANT_FLAGGED) p).
  match goal with
  | |- context [update this ?n st] => set (n3 := n)
  end.
  assert (Hp3 : parent n3 = parent n0).
  { subst n3. destruct (doHere && scanInProgress n0);
      destruct ((TREE_ACTION_HERE <=? state) && (0 <? delayds));
      try destruct (to_u32 (ds + delayds + 10) <? _); reflexivity. }
  set (st1 := update this n3 st).
  set (st2 := for_each_up parent (length st1) body (parent n3) st1).
  assert (Hlen1 : length st1 = length st) by apply update_length.
  assert (Hwf1 : parents_first parent st1)
    by (apply (parents_first_update parent st this n0); auto).
  assert (Hpar1 : forall m, option_map parent (nth_error st1 m)
                            = option_map parent (nth_error st m)).
  { intros m. subst st1. destruct (Nat.eq_dec this m) as [<-|Hne].
    - rewrite nth_error_update_same by exact Hthis. rewrite Hn.
      cbn [option_map]. rewrite Hp3. reflexivity.
    - rewrite nth_error_update_other by exact Hne. reflexivity. }
  assert (Hst2 : forall m,
            nth_error st2 m
            = if isBelow st this m then option_map body (nth_error st1 m)
              else nth_error st1 m).
  { intros m. subst st2. rewrite for_each_up_spec.
    - unfold isBelow. rewrite Hn, isBelow_loop_chain, Hlen1, Hp3.
      rewrite (chain_ext parent st st1 Hpar1). reflexivity.
    - intros x. reflexivity.
    - exact Hwf1.
    - intros q Hq. rewrite Hp3 in Hq. pose proof (Hwf this n0 q Hn Hq). lia. }
  assert (Hlen2 : length st2 = length st)
    by (subst st2; rewrite for_each_up_length; exact Hlen1).

  assert (Hn3 : scanAgain n3 = Z.max (scanAgain n0) state
                /\ scanDelayUntil n3
                   = (if doHere && (0 <? delayds)
                      then Z.max (scanDelayUntil n0) (to_u32 (ds + delayds))
                      else scanDelayUntil n0)
                /\ scanObsolete n3
                   = (scanObsolete n0 || (doHere && scanInProgress n0))
                /\ parentSetScanAgain n3 = parentSetScanAgain n0).
  { subst n3 state. destruct doHere, doBelow; cbn [tree_state andb];
      change (TREE_ACTION_HERE <=? Z.lor (Z.shiftl 1 1) 1) with true;
      change (TREE_ACTION_HERE <=? Z.lor (Z.shiftl 1 1) 0) with true;
      change (TREE_ACTION_HERE <=? Z.lor (Z.shiftl 0 1) 1) with false;
      change (TREE_ACTION_HERE <=? Z.lor (Z.shiftl 0 1) 0) with false;
      cbn [andb]; destruct (scanInProgress n0); destruct (0 <? delayds);
      try destruct (to_u32 (ds + delayds + 10) <? _);
      cbn; rewrite ?orb_true_r, ?orb_false_r; auto. }
  destruct Hn3 as (Hagain3 & Hdelay3 & Hobs3 & Hpset3). clearbody n3.
  assert (Hthis2 : nth_error st2 this = Some n3).
  { rewrite Hst2, (isBelow_irrefl st this Hwf). subst st1.
    apply nth_error_update_same. exact Hthis. }
  assert (Hother2 : forall m x, m <> this -> nth_error st m = Some x ->
            nth_error st2 m = Some (if isBelow st this m then body x else x)).
  { intros m x Hne Hx. rewrite Hst2. subst st1.
    rewrite nth_error_update_other by congruence. rewrite Hx.
    destruct (isBelow st this m); reflexivity. }
  set (st' := match parent n3 with
              | Some q =>
                  if doParent then _ else _
              | None => _
              end).
  assert (Hchar :
    (exists x', nth_error st' this = Some x'
        /\ parent x' = parent n0
        /\ scanAgain x' = scanAgain n3
        /\ scanDelayUntil x' = scanDelayUntil n3
        /\ scanObsolete x' = scanObsolete n3
        /\ parentSetScanAgain x'
           = match parent n0 with
             | Some _ => if doParent then false else parentSetScanAgain n0
             | None => parentSetScanAgain n0 || doParent
             end)
    /\ (forall m x, m <> this -> nth_error st m = Some x ->
          exists x', nth_error st' m = Some x'
            /\ parent x' = parent x
            /\ scanDelayUntil x' = scanDelayUntil x
            /\ scanAgain x <= scanAgain x'
            /\ (isBelow st this m = true ->
                TREE_DESCENDANT_FLAGGED <= scanAgain x')
            /\ (isBelow st this m = false -> x' = x)
            /\ (doParent = true -> parent n0 = Some m ->
                TREE_ACTION_HERE <= scanAgain x'))
    /\ length st' = length st).
  { subst st'. rewrite Hp3. destruct (parent n0) as [q|] eqn:Hq.
    - assert (Hqlt : (q < this)%nat) by exact (Hwf this n0 q Hn Hq).
      assert (Hqb : isBelow st this q = true).
      { unfold isBelow. rewrite Hn, Hq.
        destruct (length st) as [|k] eqn:Hl; [lia|].
        cbn [isBelow_loop]. rewrite Nat.eqb_refl. reflexivity. }
      destruct doParent.
      + split; [|split].
        * rewrite !nth_error_modify, Nat.eqb_refl.
          replace (this =? q)%nat with false
            by (symmetry; apply Nat.eqb_neq; lia).
          rewrite Hthis2. cbn [option_map]. eexists. split; [reflexivity|].
          cbn. rewrite ?Hp3, ?Hpset3, ?Hq, ?orb_false_r. auto 10.
        * intros m x Hne Hx. rewrite !nth_error_modify.
          replace (m =? this)%nat with false
            by (symmetry; apply Nat.eqb_neq; lia).
          rewrite (Hother2 m x Hne Hx).
          destruct (Nat.eqb_spec m q) as [->|Hmq].
          -- rewrite Hqb. cbn [option_map]. eexists. split; [reflexivity|].
             cbn. unfold TREE_DESCENDANT_FLAGGED, TREE_ACTION_HERE.
             split; [reflexivity|]. split; [reflexivity|].
             split; [lia|]. split; [lia|]. split; [discriminate|]. lia.
          -- destruct (isBelow st this m) eqn:Hb; eexists;
               (split; [reflexivity|]); cbn;
               unfold TREE_DESCENDANT_FLAGGED;
               (split; [reflexivity|]); (split; [reflexivity|]);
               (split; [lia|]); (split; [lia || discriminate|]);
               (split; [discriminate || reflexivity|]);
               intros _ Heq; congruence.
        * rewrite !modify_length. exact Hlen2.
      + split; [|split].
        * rewrite nth_error_modify, Nat.eqb_refl, Hthis2. cbn [option_map].
          eexists. split; [reflexivity|]. cbn.
          rewrite ?Hp3, ?Hpset3, ?Hq, ?orb_false_r. auto 10.
        * intros m x Hne Hx. rewrite nth_error_modify.
          replace (m =? this)%nat with false
            by (symmetry; apply Nat.eqb_neq; lia).
          rewrite (Hother2 m x Hne Hx).
          destruct (isBelow st this m) eqn:Hb; eexists;
            (split; [reflexivity|]); cbn;
            unfold TREE_DESCENDANT_FLAGGED;
            (split; [reflexivity|]); (split; [reflexivity|]);
            (split; [lia|]); (split; [lia || discriminate|]);
            (split; [discriminate || reflexivity|]);
            discriminate.
        * rewrite modify_length. exact Hlen2.
    - split; [|split].
      + rewrite nth_error_modify, Nat.eqb_refl, Hthis2. cbn [option_map].
        eexists. split; [reflexivity|]. cbn. rewrite ?Hp3, ?Hpset3, ?Hq, ?orb_false_r. auto 10.
      + intros m x Hne Hx. rewrite nth_error_modify.
        replace (m =? this)%nat with false
          by (symmetry; apply Nat.eqb_neq; lia).
        rewrite (Hother2 m x Hne Hx).
        destruct (isBelow st this m) eqn:Hb; eexists;
          (split; [reflexivity|]); cbn;
          unfold TREE_DESCENDANT_FLAGGED;
          (split; [reflexivity|]); (split; [reflexivity|]);
          (split; [lia|]); (split; [lia || discriminate|]);
          (split; [discriminate || reflexivity|]);
          discriminate.
      + rewrite modify_length. exact Hlen2. }
  clearbody st'. destruct Hchar as (Hc_this & Hc_other & Hc_len).
  destruct Hc_this as (xt & Hxt & Hpt & Hat & Hdt & Hot & Hpst).

  assert (Hnone : forall m, nth_error st m = None -> nth_error st' m = None).
  { intros m Hm. apply nth_error_None in Hm. apply nth_error_None. lia. }
  split; [exact Hc_len|]. split; [|split; [|split; [|split; [|split]]]].
  - apply isBelow_ext; [exact Hc_len|]. intros m.
    destruct (Nat.eq_dec m this) as [->|Hne].
    + rewrite Hxt, Hn. cbn [option_map]. rewrite Hpt. reflexivity.
    + destruct (nth_error st m) as [x|] eqn:Hx.
      * destruct (Hc_other m x Hne Hx) as (x' & Hx' & Hp' & _).
        rewrite Hx'. cbn [option_map]. rewrite Hp'. reflexivity.
      * rewrite (Hnone m Hx). reflexivity.
  - intros a x' Ha Hx'.
    assert (Hne : a <> this).
    { intros ->. rewrite (isBelow_irrefl st this Hwf) in Ha. discriminate. }
    destruct (nth_error st a) as [x|] eqn:Hx;
      [|rewrite (Hnone a Hx) in Hx'; discriminate].
    destruct (Hc_other a x Hne Hx) as (x'' & Hx'' & _ & _ & _ & Hflag & _).
    rewrite Hx'' in Hx'. inversion Hx'; subst x''.
    specialize (Hflag Ha). unfold scanRequired.
    apply negb_true_iff, Z.eqb_neq.
    unfold TREE_DESCENDANT_FLAGGED, TREE_RESOLVED in *. lia.
  - intros m x x' Hx Hx'. destruct (Nat.eq_dec m this) as [->|Hne].
    + rewrite Hxt in Hx'. inversion Hx'; subst x'.
      rewrite Hn in Hx. inversion Hx; subst x.
      rewrite Hat, Hdt, Hagain3, Hdelay3.
      destruct (doHere && (0 <? delayds)); lia.
    + destruct (Hc_other m x Hne Hx) as (x'' & Hx'' & _ & Hd & Hle & _).
      rewrite Hx'' in Hx'. inversion Hx'; subst x''. lia.
  - intros m Hne Hb. destruct (nth_error st m) as [x|] eqn:Hx.
    + destruct (Hc_other m x Hne Hx) as (x' & Hx' & _ & _ & _ & _ & Hsame & _).
      rewrite Hx', (Hsame Hb). reflexivity.
    + exact (Hnone m Hx).
  - intros x x' Hx Hx'. rewrite Hxt in Hx'. inversion Hx'; subst x'.
    inversion Hx; subst x.
    rewrite Hat, Hdt, Hot, Hpst, Hagain3, Hdelay3, Hobs3. auto.
  - intros x q p' Hx Hq Hdo Hp'. inversion Hx; subst x.
    assert (Hne : q <> this) by (pose proof (Hwf this n0 q Hn Hq); lia).
    destruct (nth_error st q) as [y|] eqn:Hy;
      [|rewrite (Hnone q Hy) in Hp'; discriminate].
    destruct (Hc_other q y Hne Hy) as (y' & Hy' & _ & _ & _ & _ & _ & Hhere).
    rewrite Hy' in Hp'. inversion Hp'; subst y'. exact (Hhere Hdo Hq).
Qed.

(** X11.  In a tree, [LocalNode::isBelow] is a strict order: no node is
    below itself, and a node below a node that is below a third one is
    below that one; a node is only below nodes that are in the store; and
    [isAbove] is the converse relation. *)
Theorem isBelow_strict_order (st : store) :
  parents_first parent st ->
  (forall a, isBelow st a a = false)
  /\ (forall a b c, isBelow st a b = true -> isBelow st b c = true ->
                    isBelow st a c = true)
  /\ (forall a b, isBelow st a b = true -> isBelow st b a = false)
  /\ (forall a b, isBelow st a b = true ->
                  (b < a)%nat /\ (a < length st)%nat)
  /\ (forall a b, isAbove st a b = isBelow st b a).
Proof.
  intros Hwf.
  assert (Hlt : forall a b, isBelow st a b = true ->
                            (b < a)%nat /\ (a < length st)%nat).
  { intros a b H. unfold isBelow in H.
    destruct (nth_error st a) as [x|] eqn:Hx; [|discriminate].
    assert (Ha : (a < length st)%nat) by (apply nth_error_Some; congruence).
    split; [|exact Ha]. rewrite isBelow_loop_chain in H.
    apply existsb_exists in H. destruct H as (m & Hin & Hm).
    apply Nat.eqb_eq in Hm. subst m.
    destruct (parent x) as [q|] eqn:Hq.
    - pose proof (Hwf a x q Hx Hq).
      apply (chain_below parent st Hwf) in Hin. lia.
    - destruct (length st); destruct Hin. }
  split; [intros a; apply isBelow_irrefl; exact Hwf|].
  split; [|split; [|split; [exact Hlt|reflexivity]]].
  - intros a b c Hab Hbc. destruct (Hlt a b Hab) as [Hba Ha].
    destruct (Hlt b c Hbc) as [Hcb Hb]. unfold isBelow in *.
    destruct (nth_error st a) as [xa|] eqn:Hxa; [|discriminate].
    destruct (nth_error st b) as [xb|] eqn:Hxb; [|discriminate].
    rewrite isBelow_loop_chain in *.
    apply existsb_exists in Hab. destruct Hab as (m & Hin & Hm).
    apply Nat.eqb_eq in Hm. subst m.
    apply existsb_exists in Hbc. destruct Hbc as (m & Hin' & Hm).
    apply Nat.eqb_eq in Hm. subst m.
    apply existsb_exists. exists c. split; [|apply Nat.eqb_refl].
    apply (chain_transitive parent st b c xb (length st) Hwf Hxb Hin');
      [lia| |exact Hin].
    intros q Hq. pose proof (Hwf a xa q Hxa Hq). lia.
  - intros a b Hab. destruct (isBelow st b a) eqn:Hba; [|reflexivity].
    destruct (Hlt a b Hab), (Hlt b a Hba). lia.
Qed.

Lemma pendingLoad_loop_chain (fuel : nat) (st : store) (p : option ptr) :
  pendingLoad_loop fuel st p = true
  <-> exists a x, In a (chain parent fuel st p)
                  /\ nth_error st a = Some x /\ mLoadPending x = true.
Proof.
  revert p. induction fuel as [|k IH]; intros p.
  - cbn. split; [discriminate|]. intros (a & x & [] & _).
  - destruct p as [q|].
    2: { cbn. split; [discriminate|]. intros (a & x & [] & _). }
    cbn [pendingLoad_loop chain].
    destruct (nth_error st q) as [x|] eqn:Hx.
    + destruct (mLoadPending x) eqn:Hm.
      * split; [|reflexivity]. intros _. exists q, x. cbn. auto.
      * rewrite IH. split.
        -- intros (a & y & Hin & Hy & Hl). exists a, y. cbn. auto.
        -- intros (a & y & [<-|Hin] & Hy & Hl).
           ++ rewrite Hx in Hy. inversion Hy; subst y. congruence.
           ++ exists a, y. auto.
    + split; [discriminate|]. intros (a & y & [<-|[]] & Hy & _). congruence.
Qed.

(** X12.  [hasPendingLoad] holds of a node exactly when the node itself
    or one of the nodes it is below has a load pending. *)
Theorem hasPendingLoad_spec (st : store) (this : ptr) :
  hasPendingLoad st this = true
  <-> exists a x,
        (a = this \/ isBelow st this a = true)
        /\ nth_error st a = Some x /\ mLoadPending x = true.
Proof.
  unfold hasPendingLoad, hasParentWithPendingLoad.
  destruct (nth_error st this) as [n|] eqn:Hn.
  - rewrite orb_true_iff, pendingLoad_loop_chain. split.
    + intros [Hl|(a & x & Hin & Hx & Hl)].
      * exists this, n. auto.
      * exists a, x. split; [|auto]. right. unfold isBelow.
        rewrite Hn, isBelow_loop_chain.
        apply existsb_exists. exists a. split; [exact Hin|apply Nat.eqb_refl].
    + intros (a & x & [->|Hb] & Hx & Hl).
      * left. congruence.
      * right. exists a, x. split; [|auto]. unfold isBelow in Hb.
        rewrite Hn in Hb.
        rewrite isBelow_loop_chain in Hb. apply existsb_exists in Hb.
        destruct Hb as (m & Hin & Hm). apply Nat.eqb_eq in Hm. subst m.
        exact Hin.
  - split; [discriminate|]. intros (a & x & [->|Hb] & Hx & _).
    + congruence.
    + unfold isBelow in Hb. rewrite Hn in Hb. discriminate.
Qed.

Lemma checkstate_loop_spec (st : store) (cs : list ptr) (state : treestate_t) :
  checkstate_loop st cs state
  = if existsb (child_has_state st TREESTATE_SYNCING) cs then TREESTATE_SYNCING
    else if existsb (child_has_state st TREESTATE_PENDING) cs
            && treestate_eqb state TREESTATE_SYNCED
         then TREESTATE_PENDING
         else state.
Proof.
  revert state. induction cs as [|c rest IH]; intros state; [reflexivity|].
  cbn [checkstate_loop existsb]. unfold child_has_state at 1 3.
  destruct (nth_error st c) as [x|]; [|cbn [orb]; apply IH].
  destruct (treestate_eqb (ts x) TREESTATE_SYNCING) eqn:Hs; [reflexivity|].
  cbn [orb]. rewrite IH.
  destruct (existsb (child_has_state st TREESTATE_SYNCING) rest);
    [reflexivity|].
  destruct (treestate_eqb (ts x) TREESTATE_PENDING),
    (existsb (child_has_state st TREESTATE_PENDING) rest), state; reflexivity.
Qed.

(** X13.  [checkstate] of a file is the file's own state.  Of a folder
    it is TREESTATE_SYNCING when some child is syncing, otherwise
    TREESTATE_PENDING when some child is pending, otherwise
    TREESTATE_SYNCED, in whatever order the children are visited; it is
    never TREESTATE_NONE for a folder. *)
Theorem checkstate_spec (st : store) (this : ptr) (n : LocalNode) :
  nth_error st this = Some n ->
  checkstate st this
  = Some (if type n =? LocalNodes.FILENODE then ts n
          else if existsb (child_has_state st TREESTATE_SYNCING) (children n)
               then TREESTATE_SYNCING
               else if existsb (child_has_state st TREESTATE_PENDING)
                         (children n)
                    then TREESTATE_PENDING
                    else TREESTATE_SYNCED)
  /\ (type n <> LocalNodes.FILENODE ->
      checkstate st this <> Some TREESTATE_NONE)
  /\ (forall cs', Permutation (children n) cs' ->
        checkstate_loop st cs' TREESTATE_SYNCED
        = checkstate_loop st (children n) TREESTATE_SYNCED).
Proof.
  intros Hn. unfold checkstate. rewrite Hn, checkstate_loop_spec.
  cbn [treestate_eqb]. rewrite andb_true_r. split; [reflexivity|]. split.
  - intros Ht. apply Z.eqb_neq in Ht. rewrite Ht.
    destruct (existsb (child_has_state st TREESTATE_SYNCING) (children n));
      [discriminate|].
    destruct (existsb (child_has_state st TREESTATE_PENDING) (children n));
      discriminate.
  - intros cs' Hperm. rewrite !checkstate_loop_spec.
    assert (Hex : forall f, existsb f cs' = existsb f (children n)).
    { intros f. induction Hperm as [|a l l' _ IH|a b l|l l' l'' _ IH1 _ IH2].
      - reflexivity.
      - cbn. rewrite IH. reflexivity.
      - cbn. destruct (f a), (f b); reflexivity.
      - congruence. }
    rewrite !Hex. cbn [treestate_eqb]. rewrite andb_true_r. reflexivity.
Qed.

(** *** The sample tree *)

Lemma sample_tree_parents_first : parents_first parent sample_tree.
Proof.
  intros p x q Hx Hq.
  do 4 (destruct p as [|p];
        [cbn in Hx; inversion Hx; subst x; cbn in Hq;
         try discriminate; inversion Hq; lia|]).
  destruct p; discriminate.
Qed.

(** Flagging the file of the sample tree for syncing: the file gets
    TREE_ACTION_HERE, its folder and the root TREE_DESCENDANT_FLAGGED, the
    other folder nothing. *)
Lemma flags_reach_the_root_witness :
  map syncAgain (setSyncAgain 2%nat false true false sample_tree) = [1; 1; 2; 0]
  /\ forall a x',
       isBelow sample_tree 2%nat a = true ->
       nth_error (setSyncAgain 2%nat false true false sample_tree) a = Some x' ->
       syncAgain x' <> TREE_RESOLVED.
Proof.
  split; [reflexivity|].
  destruct flags_reach_the_root as (_ & Hsync & _).
  destruct (Hsync sample_tree 2%nat false true false
              sample_tree_parents_first ltac:(cbn; lia))
    as (_ & _ & _ & Hup & _).
  exact Hup.
Defined.

Lemma setScanAgain_spec_witness :
  map scanAgain (setScanAgain 100 2%nat true true false 5 sample_tree)
  = [1; 2; 2; 0]
  /\ map scanDelayUntil (setScanAgain 100 2%nat true true false 5 sample_tree)
     = [0; 0; 105; 0]
  /\ forall a x',
       isBelow sample_tree 2%nat a = true ->
       nth_error (setScanAgain 100 2%nat true true false 5 sample_tree) a
       = Some x' ->
       scanRequired x' = true.
Proof.
  split; [reflexivity|]. split; [reflexivity|].
  destruct (setScanAgain_spec 100 sample_tree 2%nat true true false 5
              sample_tree_parents_first ltac:(cbn; lia))
    as (_ & _ & Hup & _).
  exact Hup.
Defined.

Lemma isBelow_strict_order_witness :
  isBelow sample_tree 2%nat 0%nat = true
  /\ isBelow sample_tree 2%nat 3%nat = false
  /\ forall a, isBelow sample_tree a a = false.
Proof.
  split; [reflexivity|]. split; [reflexivity|].
  destruct (isBelow_strict_order sample_tree sample_tree_parents_first)
    as (Hirr & _).
  exact Hirr.
Defined.

(** With the file of the sample tree syncing, its folder is syncing and
    the other folder, which is empty, is synced. *)
Lemma checkstate_spec_witness :
  checkstate sample_tree_syncing 1%nat = Some TREESTATE_SYNCING
  /\ checkstate sample_tree_syncing 3%nat = Some TREESTATE_SYNCED
  /\ checkstate sample_tree_syncing 2%nat = Some TREESTATE_SYNCING.
Proof.
  destruct (checkstate_spec sample_tree_syncing 1%nat
              (fresh_node LocalNodes.FOLDERNODE (Some 0%nat) [2%nat])
              eq_refl) as (H1 & _).
  destruct (checkstate_spec sample_tree_syncing 3%nat
              (fresh_node LocalNodes.FOLDERNODE (Some 0%nat) [])
              eq_refl) as (H3 & _).
  split; [exact H1|]. split; [exact H3|reflexivity].
Defined.

End SyncTreeFacts.

(** ** The tree of cloud nodes *)
Section CloudNodeFacts.
Import Bytes Forest CloudNodes.

(** *** Children by name *)

(** X14.  [childbyname] and [hasChildWithName] agree: the one finds a
    child exactly when the other says there is one.  The child
    [childbyname] returns is the first child, in the order of the list of
    children, that has the name; when it returns null, no child has the
    name. *)
Theorem childbyname_spec (st : store) (this : Node) (name : list ascii) :
  (hasChildWithName st this name = true
   <-> childbyname st this name <> None)
  /\ (forall c, childbyname st this name = Some c ->
        exists before after x,
          children this = before ++ c :: after
          /\ nth_error st c = Some x /\ hasName x name = true
          /\ forall b y, In b before -> nth_error st b = Some y ->
                         hasName y name = false)
  /\ (childbyname st this name = None ->
      forall c x, In c (children this) -> nth_error st c = Some x ->
                  hasName x name = false).
Proof.
  unfold hasChildWithName, childbyname.
  induction (children this) as [|c rest IH].
  - cbn. split; [split; [discriminate|congruence]|].
    split; [discriminate|]. intros _ c x [].
  - destruct IH as (IH1 & IH2 & IH3).
    cbn [hasChildWithName_loop first_child_with_name].
    destruct (nth_error st c) as [x|] eqn:Hx.
    + destruct (hasName x name) eqn:Hname.
      * split; [split; [discriminate|reflexivity]|].
        split; [|discriminate].
        intros c' Hc'. inversion Hc'; subst c'.
        exists [], rest, x. cbn. split; [reflexivity|].
        split; [exact Hx|]. split; [exact Hname|]. intros b y [].
      * split; [exact IH1|]. split.
        -- intros c' Hc'.
           destruct (IH2 c' Hc') as (before & after & x' & Heq & Hx' & Hn' & Hb).
           exists (c :: before), after, x'. rewrite Heq.
           split; [reflexivity|]. split; [exact Hx'|]. split; [exact Hn'|].
           intros b y [<-|Hin] Hy; [congruence|exact (Hb b y Hin Hy)].
        -- intros Hnone c' x' [<-|Hin] Hx'; [congruence|].
           exact (IH3 Hnone c' x' Hin Hx').
    + split; [exact IH1|]. split.
      * intros c' Hc'.
        destruct (IH2 c' Hc') as (before & after & x' & Heq & Hx' & Hn' & Hb).
        exists (c :: before), after, x'. rewrite Heq.
        split; [reflexivity|]. split; [exact Hx'|]. split; [exact Hn'|].
        intros b y [<-|Hin] Hy; [congruence|exact (Hb b y Hin Hy)].
      * intros Hnone c' x' [<-|Hin] Hx'; [congruence|].
        exact (IH3 Hnone c' x' Hin Hx').
Qed.

(** *** Ancestors *)

Lemma isbelow_loop_chain (fuel : nat) (st : store) (n : option ptr) (p : ptr) :
  isbelow_loop fuel st n (Some p)
  = existsb (Nat.eqb p) (chain parent fuel st n).
Proof.
  revert n. induction fuel as [|k IH]; intros n; [reflexivity|].
  destruct n as [q|]; [|reflexivity]. cbn [isbelow_loop chain existsb].
  rewrite (Nat.eqb_sym p q).
  destruct (q =? p)%nat; [reflexivity|]. cbn [orb].
  destruct (nth_error st q) as [x|]; [apply IH|reflexivity].
Qed.

Lemma isbelow_loop_null (fuel : nat) (st : store) (n : option ptr) :
  isbelow_loop fuel st n None = false.
Proof.
  revert n. induction fuel as [|k IH]; intros n; [reflexivity|].
  destruct n as [q|]; [|reflexivity]. cbn [isbelow_loop].
  destruct (nth_error st q) as [x|]; [apply IH|reflexivity].
Qed.

(** In a tree, [isbelow] unfolds as the loop does: the node is the one
    asked for, or its parent is below it. *)
Lemma isbelow_step (st : store) (a b : ptr) (x : Node) :
  parents_first parent st -> nth_error st a = Some x ->
  isbelow st a (Some b)
  = (a =? b)%nat
    || match parent x with
       | Some q => isbelow st q (Some b)
       | None => false
       end.
Proof.
  intros Hwf Hx. unfold isbelow. rewrite !isbelow_loop_chain.
  assert (Ha : (a < length st)%nat) by (apply nth_error_Some; congruence).
  destruct (length st) as [|k] eqn:Hl; [lia|].
  cbn [chain existsb]. rewrite Hx, (Nat.eqb_sym b a). f_equal.
  destruct (parent x) as [q|] eqn:Hq.
  - pose proof (Hwf a x q Hx Hq). rewrite isbelow_loop_chain.
    assert (Hfuel : chain parent k st (Some q) = chain parent (S k) st (Some q))
      by (apply (chain_fuel parent st Hwf); lia).
    rewrite Hfuel. reflexivity.
  - destruct k; reflexivity.
Qed.

Lemma isbelow_le (st : store) (a b : ptr) :
  parents_first parent st -> isbelow st a (Some b) = true -> (b <= a)%nat.
Proof.
  intros Hwf H. unfold isbelow in H. rewrite isbelow_loop_chain in H.
  apply existsb_exists in H. destruct H as (m & Hin & Hm).
  apply Nat.eqb_eq in Hm. subst m.
  exact (chain_below parent st Hwf _ _ _ Hin).
Qed.

Lemma isbelow_refl (st : store) (a : ptr) :
  st <> [] -> isbelow st a (Some a) = true.
Proof.
  intros Hne. unfold isbelow. destruct st as [|x0 t]; [congruence|].
  cbn [length isbelow_loop]. rewrite Nat.eqb_refl. reflexivity.
Qed.

Lemma isbelow_trans (st : store) (a b c : ptr) :
  parents_first parent st ->
  isbelow st a (Some b) = true -> isbelow st b (Some c) = true ->
  isbelow st a (Some c) = true.
Proof.
  intros Hwf. revert b c.
  induction a as [a IH] using lt_wf_ind. intros b c Hab Hbc.
  destruct (nth_error st a) as [x|] eqn:Hx.
  - rewrite (isbelow_step st a b x Hwf Hx) in Hab.
    rewrite (isbelow_step st a c x Hwf Hx).
    apply orb_true_iff in Hab. destruct Hab as [Hab|Hab].
    + apply Nat.eqb_eq in Hab. subst b.
      rewrite (isbelow_step st a c x Hwf Hx) in Hbc. exact Hbc.
    + destruct (parent x) as [q|] eqn:Hq; [|discriminate].
      pose proof (Hwf a x q Hx Hq).
      rewrite (IH q ltac:(lia) b c Hab Hbc). apply orb_true_r.
  - unfold isbelow in Hab. destruct (length st) as [|k] eqn:Hl;
      [discriminate|].
    cbn [isbelow_loop] in Hab. rewrite Hx in Hab.
    destruct (a =? b)%nat eqn:Heq; [|discriminate].
    apply Nat.eqb_eq in Heq. subst b. exact Hbc.
Qed.

Lemma isbelow_handle_loop_chain (fuel : nat) (st : store) (n : option ptr)
    (h : Z) :
  isbelow_handle_loop fuel st n h = true
  <-> exists b x, In b (chain parent fuel st n)
                  /\ nth_error st b = Some x /\ nodehandle x = h.
Proof.
  revert n. induction fuel as [|k IH]; intros n.
  - cbn. split; [discriminate|]. intros (b & x & [] & _).
  - destruct n as [q|].
    2: { cbn. split; [discriminate|]. intros (b & x & [] & _). }
    cbn [isbelow_handle_loop chain].
    destruct (nth_error st q) as [x|] eqn:Hx.
    + destruct (nodehandle x =? h) eqn:Hh.
      * apply Z.eqb_eq in Hh. split; [|reflexivity]. intros _.
        exists q, x. cbn. auto.
      * apply Z.eqb_neq in Hh. rewrite IH. split.
        -- intros (b & y & Hin & Hy & Hyh). exists b, y. cbn. auto.
        -- intros (b & y & [<-|Hin] & Hy & Hyh).
           ++ rewrite Hx in Hy. inversion Hy; subst y. contradiction.
           ++ exists b, y. auto.
    + split; [discriminate|]. intros (b & y & [<-|[]] & Hy & _). congruence.
Qed.

(** X15.  In a tree, [Node::isbelow] is a partial order that, unlike
    [LocalNode::isBelow], counts a node as below itself: it is reflexive,
    transitive and antisymmetric; nothing is below the null pointer; and
    the variant that takes a handle holds exactly when some node the node
    is below has that handle. *)
Theorem isbelow_partial_order (st : store) :
  parents_first parent st ->
  (forall a, (a < length st)%nat -> isbelow st a (Some a) = true)
  /\ (forall a, isbelow st a None = false)
  /\ (forall a b c, isbelow st a (Some b) = true ->
                    isbelow st b (Some c) = true ->
                    isbelow st a (Some c) = true)
  /\ (forall a b, isbelow st a (Some b) = true ->
                  isbelow st b (Some a) = true -> a = b)
  /\ (forall a h, isbelow_handle st a h = true
                  <-> exists b x, isbelow st a (Some b) = true
                                  /\ nth_error st b = Some x
                                  /\ nodehandle x = h).
Proof.
  intros Hwf. split; [|split; [|split; [|split]]].
  - intros a Ha. apply isbelow_refl. intros ->. cbn in Ha. lia.
  - intros a. apply isbelow_loop_null.
  - intros a b c. apply isbelow_trans. exact Hwf.
  - intros a b Hab Hba.
    pose proof (isbelow_le st a b Hwf Hab).
    pose proof (isbelow_le st b a Hwf Hba). lia.
  - intros a h. unfold isbelow_handle, isbelow.
    rewrite isbelow_handle_loop_chain. split.
    + intros (b & x & Hin & Hx & Hh). exists b, x. split; [|auto].
      rewrite isbelow_loop_chain. apply existsb_exists.
      exists b. split; [exact Hin|apply Nat.eqb_refl].
    + intros (b & x & Hb & Hx & Hh). exists b, x. split; [|auto].
      rewrite isbelow_loop_chain in Hb. apply existsb_exists in Hb.
      destruct Hb as (m & Hin & Hm). apply Nat.eqb_eq in Hm. subst m.
      exact Hin.
Qed.

Lemma firstancestor_loop_fuel (st : store) :
  parents_first parent st ->
  forall f1 f2 a, (a < f1)%nat -> (a < f2)%nat ->
    firstancestor_loop f1 st a = firstancestor_loop f2 st a.
Proof.
  intros Hwf f1. induction f1 as [|k1 IH]; intros f2 a H1 H2; [lia|].
  destruct f2 as [|k2]; [lia|]. cbn [firstancestor_loop].
  destruct (nth_error st a) as [x|] eqn:Hx; [|reflexivity].
  destruct (parent x) as [q|] eqn:Hq; [|reflexivity].
  pose proof (Hwf a x q Hx Hq). apply IH; lia.
Qed.

Lemma firstancestor_step (st : store) (a : ptr) (x : Node) :
  parents_first parent st -> nth_error st a = Some x ->
  firstancestor st a
  = match parent x with
    | Some q => firstancestor st q
    | None => a
    end.
Proof.
  intros Hwf Hx. unfold firstancestor.
  assert (Ha : (a < length st)%nat) by (apply nth_error_Some; congruence).
  destruct (length st) as [|k] eqn:Hl; [lia|].
  assert (Hstep : firstancestor_loop (S k) st a
                  = match parent x with
                    | Some q => firstancestor_loop k st q
                    | None => a
                    end)
    by (cbn [firstancestor_loop]; rewrite Hx; reflexivity).
  rewrite Hstep. destruct (parent x) as [q|] eqn:Hq; [|reflexivity].
  pose proof (Hwf a x q Hx Hq).
  apply (firstancestor_loop_fuel st Hwf); lia.
Qed.

(** X16.  [firstancestor], in a tree: the node it returns has no parent
    and the node it was asked for is below it; and every node that a node
    is below has the same first ancestor as the node. *)
Theorem firstancestor_spec (st : store) (a : ptr) :
  parents_first parent st -> (a < length st)%nat ->
  isbelow st a (Some (firstancestor st a)) = true
  /\ (exists r, nth_error st (firstancestor st a) = Some r
                /\ parent r = None)
  /\ (forall b, isbelow st a (Some b) = true ->
                firstancestor st b = firstancestor st a).
Proof.
  intros Hwf. induction a as [a IH] using lt_wf_ind. intros Ha.
  destruct (nth_error st a) as [x|] eqn:Hx;
    [|apply nth_error_None in Hx; lia].
  rewrite (firstancestor_step st a x Hwf Hx).
  destruct (parent x) as [q|] eqn:Hq.
  - pose proof (Hwf a x q Hx Hq) as Hlt.
    destruct (IH q Hlt ltac:(lia)) as (Hbelow & Hroot & Hsame).
    split; [|split; [exact Hroot|]].
    + rewrite (isbelow_step st a _ x Hwf Hx), Hq, Hbelow. apply orb_true_r.
    + intros b Hb. rewrite (isbelow_step st a b x Hwf Hx), Hq in Hb.
      apply orb_true_iff in Hb. destruct Hb as [Hb|Hb].
      * apply Nat.eqb_eq in Hb. subst b.
        rewrite (firstancestor_step st a x Hwf Hx), Hq. reflexivity.
      * exact (Hsame b Hb).
  - split; [|split].
    + apply isbelow_refl. intros ->. cbn in Ha. lia.
    + exists x. auto.
    + intros b Hb. rewrite (isbelow_step st a b x Hwf Hx), Hq in Hb.
      rewrite orb_false_r in Hb. apply Nat.eqb_eq in Hb. subst b.
      rewrite (firstancestor_step st a x Hwf Hx), Hq. reflexivity.
Qed.

(** *** File versions *)

Lemma latestFileVersion_loop_fuel (st : store) :
  parents_first parent st ->
  forall f1 f2 a, (a < f1)%nat -> (a < f2)%nat ->
    latestFileVersion_loop f1 st a = latestFileVersion_loop f2 st a.
Proof.
  intros Hwf f1. induction f1 as [|k1 IH]; intros f2 a H1 H2; [lia|].
  destruct f2 as [|k2]; [lia|]. cbn [latestFileVersion_loop].
  destruct (nth_error st a) as [x|] eqn:Hx; [|reflexivity].
  destruct (parent x) as [q|] eqn:Hq; [|reflexivity].
  destruct (nth_error st q) as [y|]; [|reflexivity].
  destruct (type y =? FILENODE); [|reflexivity].
  pose proof (Hwf a x q Hx Hq). apply IH; lia.
Qed.

Lemma latestFileVersion_loop_step (st : store) (a : ptr) (x : Node) :
  parents_first parent st -> nth_error st a = Some x ->
  latestFileVersion_loop (length st) st a
  = match parent x with
    | Some p =>
        match nth_error st p with
        | Some y => if type y =? FILENODE
                    then latestFileVersion_loop (length st) st p else a
        | None => a
        end
    | None => a
    end.
Proof.
  intros Hwf Hx.
  assert (Ha : (a < length st)%nat) by (apply nth_error_Some; congruence).
  destruct (length st) as [|k] eqn:Hl; [lia|].
  assert (Hstep : latestFileVersion_loop (S k) st a
                  = match parent x with
                    | Some p =>
                        match nth_error st p with
                        | Some y => if type y =? FILENODE
                                    then latestFileVersion_loop k st p else a
                        | None => a
                        end
                    | None => a
                    end)
    by (cbn [latestFileVersion_loop]; rewrite Hx; reflexivity).
  rewrite Hstep. destruct (parent x) as [q|] eqn:Hq; [|reflexivity].
  destruct (nth_error st q) as [y|]; [|reflexivity].
  destruct (type y =? FILENODE); [|reflexivity].
  pose proof (Hwf a x q Hx Hq).
  apply (latestFileVersion_loop_fuel st Hwf); lia.
Qed.

Lemma latestFileVersion_loop_spec (st : store) :
  parents_first parent st ->
  forall a x, nth_error st a = Some x -> type x = FILENODE ->
    let r := latestFileVersion_loop (length st) st a in
    isbelow st a (Some r) = true
    /\ (exists y, nth_error st r = Some y /\ type y = FILENODE
                  /\ forall p z, parent y = Some p ->
                                 nth_error st p = Some z ->
                                 type z <> FILENODE)
    /\ (forall b y, isbelow st a (Some b) = true ->
                    isbelow st b (Some r) = true ->
                    nth_error st b = Some y -> type y = FILENODE).
Proof.
  intros Hwf a. induction a as [a IH] using lt_wf_ind. intros x Hx Ht r.
  subst r. rewrite (latestFileVersion_loop_step st a x Hwf Hx).
  assert (Hne : st <> []) by (intros ->; destruct a; discriminate).
  assert (Hstay :
    (forall p z, parent x = Some p -> nth_error st p = Some z ->
                 type z <> FILENODE) ->
    isbelow st a (Some a) = true
    /\ (exists y, nth_error st a = Some y /\ type y = FILENODE
                  /\ forall p z, parent y = Some p ->
                                 nth_error st p = Some z ->
                                 type z <> FILENODE)
    /\ (forall b y, isbelow st a (Some b) = true ->
                    isbelow st b (Some a) = true ->
                    nth_error st b = Some y -> type y = FILENODE)).
  { intros Htop. split; [apply isbelow_refl; exact Hne|].
    split; [exists x; auto|].
    intros b y Hab Hba Hy.
    pose proof (isbelow_le st a b Hwf Hab).
    pose proof (isbelow_le st b a Hwf Hba).
    assert (b = a) by lia. subst b. congruence. }
  destruct (parent x) as [q|] eqn:Hq.
  - destruct (nth_error st q) as [y|] eqn:Hy.
    + destruct (type y =? FILENODE) eqn:Hty.
      * apply Z.eqb_eq in Hty. pose proof (Hwf a x q Hx Hq) as Hlt.
        destruct (IH q Hlt y Hy Hty) as (Hbelow & Htop & Hbetween).
        split; [|split; [exact Htop|]].
        -- rewrite (isbelow_step st a _ x Hwf Hx), Hq, Hbelow.
           apply orb_true_r.
        -- intros b z Hab Hbr Hz.
           rewrite (isbelow_step st a b x Hwf Hx), Hq in Hab.
           apply orb_true_iff in Hab. destruct Hab as [Hab|Hab].
           ++ apply Nat.eqb_eq in Hab. subst b. congruence.
           ++ exact (Hbetween b z Hab Hbr Hz).
      * apply Z.eqb_neq in Hty. apply Hstay.
        intros p z Hp Hz. inversion Hp; subst p. congruence.
    + apply Hstay. intros p z Hp Hz. inversion Hp; subst p. congruence.
  - apply Hstay. intros p z Hp. discriminate.
Qed.

(** X18.  [latestFileVersion], in a tree.  Of a node that is not a file
    it is the node itself.  Of a file it is a file that the node is
    below and whose parent is not a file, and every node between the two
    is a file: it is the top of the chain of versions the file is in. *)
Theorem latestFileVersion_spec (st : store) (a : ptr) (x : Node) :
  parents_first parent st -> nth_error st a = Some x ->
  (type x <> FILENODE -> latestFileVersion st a = a)
  /\ (type x = FILENODE ->
      isbelow st a (Some (latestFileVersion st a)) = true
      /\ (exists y, nth_error st (latestFileVersion st a) = Some y
                    /\ type y = FILENODE
                    /\ forall p z, parent y = Some p ->
                                   nth_error st p = Some z ->
                                   type z <> FILENODE)
      /\ (forall b y, isbelow st a (Some b) = true ->
                      isbelow st b (Some (latestFileVersion st a)) = true ->
                      nth_error st b = Some y -> type y = FILENODE)).
Proof.
  intros Hwf Hx. unfold latestFileVersion. rewrite Hx. split.
  - intros Ht. apply Z.eqb_neq in Ht. rewrite Ht. reflexivity.
  - intros Ht. rewrite Ht. cbn [Z.eqb FILENODE].
    exact (latestFileVersion_loop_spec st Hwf a x Hx Ht).
Qed.

(** *** Counters *)

Lemma NodeCounter_add_bounds (a b : NodeCounter) :
  0 <= versions a <= files a /\ 0 <= folders a
  /\ 0 <= versionStorage a <= storage a ->
  0 <= versions b <= files b /\ 0 <= folders b
  /\ 0 <= versionStorage b <= storage b ->
  let c := NodeCounter_add a b in
  0 <= versions c <= files c /\ 0 <= folders c
  /\ 0 <= versionStorage c <= storage c.
Proof. cbn. lia. Qed.

(** Whatever the depth the recursion is cut at, the counters are in
    these bounds. *)
Lemma subnodeCounts_bounds_at (fuel : nat) (st : store) (this : ptr) :
  (forall p x, nth_error st p = Some x -> 0 <= size x) ->
  0 <= versions (subnodeCounts fuel st this) <= files (subnodeCounts fuel st this)
  /\ 0 <= folders (subnodeCounts fuel st this)
  /\ 0 <= versionStorage (subnodeCounts fuel st this)
     <= storage (subnodeCounts fuel st this).
Proof.
  intros Hsize. revert this. induction fuel as [|k IH]; intros this.
  - cbn. lia.
  - cbn [subnodeCounts]. destruct (nth_error st this) as [x|] eqn:Hx;
      [|cbn; lia].
    pose proof (Hsize this x Hx) as Hx0.
    assert (Hfold : forall cs acc,
              0 <= versions acc <= files acc /\ 0 <= folders acc
              /\ 0 <= versionStorage acc <= storage acc ->
              let nc := fold_left
                          (fun nc child =>
                             NodeCounter_add nc (subnodeCounts k st child))
                          cs acc in
              0 <= versions nc <= files nc /\ 0 <= folders nc
              /\ 0 <= versionStorage nc <= storage nc).
    { induction cs as [|c cs IHcs]; intros acc Hacc; [exact Hacc|].
      cbn [fold_left]. apply IHcs.
      apply NodeCounter_add_bounds; [exact Hacc|apply IH]. }
    specialize (Hfold (children x) NodeCounter_zero ltac:(cbn; lia)).
    cbv zeta in Hfold.
    destruct (fold_left _ (children x) NodeCounter_zero) as [fi fo sto ve vs].
    cbn [files folders storage versions versionStorage] in Hfold.
    destruct (type x =? FILENODE).
    + destruct (parent x) as [p|]; [|cbn; lia].
      destruct (nth_error st p) as [y|]; [|cbn; lia].
      destruct (type y =? FILENODE); cbn; lia.
    + destruct (type x =? FOLDERNODE); cbn; lia.
Qed.

Lemma fold_counts_ext (f g : ptr -> NodeCounter) (l : list ptr) :
  (forall c, In c l -> f c = g c) ->
  forall acc,
    fold_left (fun nc child => NodeCounter_add nc (f child)) l acc
    = fold_left (fun nc child => NodeCounter_add nc (g child)) l acc.
Proof.
  induction l as [|c l IH]; intros Hfg acc; [reflexivity|].
  cbn [fold_left]. rewrite (Hfg c (or_introl eq_refl)).
  apply IH. intros c' Hc'. apply Hfg. right. exact Hc'.
Qed.

(** Where the children of a node come after it in the store, the
    recursion ends on its own: any depth that reaches past the end of the
    store gives the same counters. *)
Lemma subnodeCounts_fuel (st : store) :
  (forall p x c, nth_error st p = Some x -> In c (children x) ->
                 (p < c)%nat) ->
  forall f1 f2 this,
    (length st - this <= f1)%nat -> (length st - this <= f2)%nat ->
    subnodeCounts f1 st this = subnodeCounts f2 st this.
Proof.
  intros Hch f1. induction f1 as [|k1 IH]; intros f2 this H1 H2.
  - assert (Hnone : nth_error st this = None)
      by (apply nth_error_None; lia).
    destruct f2; cbn [subnodeCounts]; [reflexivity|].
    rewrite Hnone. reflexivity.
  - destruct f2 as [|k2].
    + assert (Hnone : nth_error st this = None)
        by (apply nth_error_None; lia).
      cbn [subnodeCounts]. rewrite Hnone. reflexivity.
    + cbn [subnodeCounts].
      destruct (nth_error st this) as [x|] eqn:Hx; [|reflexivity].
      rewrite (fold_counts_ext (subnodeCounts k1 st) (subnodeCounts k2 st));
        [reflexivity|].
      intros c Hc. pose proof (Hch this x c Hx Hc). apply IH; lia.
Qed.

(** X19.  [subnodeCounts], in a tree (the children of a node come after
    it in the store, so the recursion over the children ends) whose nodes
    have no negative size, and with counters that do not overflow: the
    recursion gives the same counters at every depth that reaches the end
    of the store, and they count no more versions than files and no more
    version storage than storage, none of them negative. *)
Theorem subnodeCounts_bounds (st : store) (this : ptr) :
  (forall p x c, nth_error st p = Some x -> In c (children x) ->
                 (p < c)%nat) ->
  (forall p x, nth_error st p = Some x -> 0 <= size x) ->
  (forall fuel, (length st <= fuel)%nat ->
     subnodeCounts fuel st this = subnodeCounts (length st) st this)
  /\ 0 <= versions (subnodeCounts (length st) st this)
       <= files (subnodeCounts (length st) st this)
  /\ 0 <= folders (subnodeCounts (length st) st this)
  /\ 0 <= versionStorage (subnodeCounts (length st) st this)
       <= storage (subnodeCounts (length st) st this).
Proof.
  intros Hch Hsize. split.
  - intros fuel Hfuel. apply (subnodeCounts_fuel st Hch); lia.
  - exact (subnodeCounts_bounds_at (length st) st this Hsize).
Qed.

(** *** Display paths *)

Lemma displaypath_loop_fuel (st : store) :
  parents_first parent st ->
  forall f1 f2 n path,
    (forall q, n = Some q -> (q < f1)%nat /\ (q < f2)%nat) ->
    displaypath_loop f1 st n path = displaypath_loop f2 st n path.
Proof.
  intros Hwf f1. induction f1 as [|k1 IH]; intros f2 n path Hn.
  - destruct n as [q|]; [destruct (Hn q eq_refl); lia|].
    destruct f2; reflexivity.
  - destruct n as [q|]; [|destruct f2; reflexivity].
    destruct (Hn q eq_refl) as [H1 H2].
    destruct f2 as [|k2]; [lia|]. cbn [displaypath_loop].
    destruct (nth_error st q) as [x|] eqn:Hx; [|reflexivity]. cbv zeta.
    assert (Hup : forall p, displaypath_loop k1 st (parent x) p
                            = displaypath_loop k2 st (parent x) p).
    { intros p. apply IH. intros q' Hq'.
      pose proof (Hwf q x q' Hx Hq'). lia. }
    rewrite !Hup. reflexivity.
Qed.

(** What the loop has put in front of the path stays in front of it:
    but for the root reached with an empty path, which gives [/]. *)
Lemma displaypath_loop_app (st : store) (fuel : nat) :
  forall n path s,
    (path <> []
     \/ forall q x, n = Some q -> nth_error st q = Some x ->
                    type x <> ROOTNODE) ->
    displaypath_loop fuel st n (path ++ s)
    = displaypath_loop fuel st n path ++ s.
Proof.
  induction fuel as [|k IH]; intros n path s H; [reflexivity|].
  destruct n as [q|]; [|reflexivity]. cbn [displaypath_loop].
  destruct (nth_error st q) as [x|] eqn:Hx; [|reflexivity]. cbv zeta.
  assert (Hup : forall p,
            displaypath_loop k st (parent x)
              (list_ascii_of_string "/" ++ p ++ s)
            = displaypath_loop k st (parent x)
                (list_ascii_of_string "/" ++ p) ++ s).
  { intros p. rewrite <- IH; [|left; cbn; discriminate].
    rewrite <- app_assoc. reflexivity. }
  destruct (type x =? FOLDERNODE).
  { destruct (inshare x) as [sh|].
    - destruct (user_email sh); rewrite <- !app_assoc; reflexivity.
    - rewrite <- Hup, <- app_assoc. reflexivity. }
  destruct (type x =? INCOMINGNODE); [rewrite <- app_assoc; reflexivity|].
  destruct (type x =? ROOTNODE) eqn:Hroot.
  { destruct path as [|c path]; [|reflexivity].
    apply Z.eqb_eq in Hroot.
    destruct H as [H|H]; [congruence|].
    exfalso. exact (H q x eq_refl Hx Hroot). }
  destruct (type x =? RUBBISHNODE); [rewrite <- app_assoc; reflexivity|].
  destruct ((type x =? TYPE_UNKNOWN) || (type x =? FILENODE)).
  - rewrite <- Hup, <- app_assoc. reflexivity.
  - apply Hup.
Qed.

(** X20.  [displaypath], in a tree, by the type of the node.  The root
    is [/], the inbox [//in], the rubbish bin [//bin]; a folder that is
    an incoming share is the e-mail address of the sharing user (or
    [UNKNOWN]), a colon and its name.  Any other folder, a file and a node
    of unknown type are the display path of the parent, a slash and the
    name of the node; the parent's path is left out when the parent is
    the root or when there is no parent, so a node in the root folder is
    [/name], with one slash. *)
Theorem displaypath_spec (st : store) (a : ptr) (x : Node) :
  parents_first parent st -> nth_error st a = Some x ->
  (type x = ROOTNODE -> displaypath st a = list_ascii_of_string "/")
  /\ (type x = INCOMINGNODE -> displaypath st a = list_ascii_of_string "//in")
  /\ (type x = RUBBISHNODE -> displaypath st a = list_ascii_of_string "//bin")
  /\ (forall sh, type x = FOLDERNODE -> inshare x = Some sh ->
        displaypath st a
        = match user_email sh with
          | Some email => email
          | None => list_ascii_of_string "UNKNOWN"
          end ++ list_ascii_of_string ":" ++ displayname x)
  /\ (type x = FILENODE \/ type x = TYPE_UNKNOWN
      \/ (type x = FOLDERNODE /\ inshare x = None) ->
      displaypath st a
      = match parent x with
        | Some p =>
            match nth_error st p with
            | Some y => if type y =? ROOTNODE then []
                        else displaypath st p
            | None => []
            end
        | None => []
        end ++ list_ascii_of_string "/" ++ displayname x).
Proof.
  intros Hwf Hx.
  assert (Ha : (a < length st)%nat) by (apply nth_error_Some; congruence).
  unfold displaypath at 1 2 3 4 5.
  destruct (length st) as [|k] eqn:Hl; [lia|].
  cbn [displaypath_loop]. rewrite Hx. cbv zeta.
  split; [intros ->; reflexivity|].
  split; [intros ->; reflexivity|].
  split; [intros ->; reflexivity|].
  split.
  { intros sh -> ->. cbn [Z.eqb FOLDERNODE Pos.eqb].
    rewrite app_nil_r. destruct (user_email sh); reflexivity. }
  intros Hty.
  assert (Hgo : displaypath_loop k st (parent x)
                  (list_ascii_of_string "/" ++ displayname x ++ [])
                = match parent x with
                  | Some p =>
                      match nth_error st p with
                      | Some y => if type y =? ROOTNODE then []
                                  else displaypath st p
                      | None => []
                      end
                  | None => []
                  end ++ list_ascii_of_string "/" ++ displayname x).
  { rewrite app_nil_r. destruct (parent x) as [p|] eqn:Hp.
    - pose proof (Hwf a x p Hx Hp) as Hlt.
      rewrite (displaypath_loop_fuel st Hwf k (S k) (Some p));
        [|intros q Hq; inversion Hq; subst q; lia].
      destruct (nth_error st p) as [y|] eqn:Hy.
      + destruct (type y =? ROOTNODE) eqn:Hroot.
        * cbn [displaypath_loop]. rewrite Hy. cbv zeta.
          apply Z.eqb_eq in Hroot. rewrite Hroot. reflexivity.
        * apply Z.eqb_neq in Hroot. unfold displaypath. rewrite Hl.
          rewrite <- (displaypath_loop_app st (S k) (Some p) []);
            [reflexivity|].
          right. intros q z Hq Hz. inversion Hq; subst q. congruence.
      + cbn [displaypath_loop]. rewrite Hy. reflexivity.
    - destruct k; reflexivity. }
  destruct Hty as [Hty|[Hty|[Hty Hin]]].
  - rewrite Hty. exact Hgo.
  - rewrite Hty. exact Hgo.
  - rewrite Hty, Hin. exact Hgo.
Qed.

End CloudNodeFacts.

(** ** The set of file fingerprints *)
Section FingerprintFacts.
Import Bytes Forest CloudNodes FingerprintSet CloudNodeProperties.

Lemma to_i64_add_l (a b : Z) : to_i64 (to_i64 a + b) = to_i64 (a + b).
Proof.
  unfold to_i64.
  replace ((a + 2 ^ 63) mod 2 ^ 64 - 2 ^ 63 + b + 2 ^ 63)
    with ((a + 2 ^ 63) mod 2 ^ 64 + b) by lia.
  rewrite Zplus_mod_idemp_l. f_equal. f_equal. lia.
Qed.

Lemma to_i64_idem (a : Z) : to_i64 (to_i64 a) = to_i64 a.
Proof.
  replace (to_i64 a) with (to_i64 a + 0) at 1 by lia.
  rewrite to_i64_add_l. f_equal. lia.
Qed.

Lemma size_of_update (st : store) (n : ptr) (x : Node) (b : bool) (p : ptr) :
  nth_error st n = Some x ->
  size_of (update n (set_fingerprint_it b x) st) p = size_of st p.
Proof.
  intros Hx. unfold size_of. destruct (Nat.eq_dec n p) as [<-|Hne].
  - rewrite nth_error_update_same by (apply nth_error_Some; congruence).
    rewrite Hx. reflexivity.
  - rewrite nth_error_update_other by exact Hne. reflexivity.
Qed.

Lemma sum_sizes_update (st : store) (n : ptr) (x : Node) (b : bool)
    (l : list ptr) :
  nth_error st n = Some x ->
  sum_sizes (update n (set_fingerprint_it b x) st) l = sum_sizes st l.
Proof.
  intros Hx. induction l as [|p l IH]; [reflexivity|].
  cbn [sum_sizes fold_right]. fold (sum_sizes st l).
  fold (sum_sizes (update n (set_fingerprint_it b x) st) l).
  rewrite IH, (size_of_update st n x b p Hx). reflexivity.
Qed.

Lemma erase_spec (n : ptr) (l : list ptr) :
  NoDup l ->
  NoDup (erase n l)
  /\ (forall p, In p (erase n l) <-> In p l /\ p <> n)
  /\ (forall st, In n l ->
        sum_sizes st (erase n l) = sum_sizes st l - size_of st n).
Proof.
  induction l as [|m l IH]; intros Hnd.
  - cbn. split; [constructor|]. split; [tauto|]. intros st [].
  - inversion Hnd as [|m' l' Hnotin Hnd']; subst. cbn [erase].
    destruct (Nat.eqb_spec m n) as [->|Hne].
    + split; [exact Hnd'|]. split.
      * intros p. cbn. split.
        -- intros Hin. split; [auto|]. intros ->. contradiction.
        -- intros [[<-|Hin] Hp]; [congruence|exact Hin].
      * intros st _. cbn [sum_sizes fold_right]. fold (sum_sizes st l). lia.
    + destruct (IH Hnd') as (IHnd & IHin & IHsum). split; [|split].
      * constructor; [|exact IHnd]. rewrite IHin. tauto.
      * intros p. cbn. rewrite IHin. split.
        -- intros [<-|[Hin Hp]]; [split; [auto|congruence]|tauto].
        -- intros [[<-|Hin] Hp]; [auto|tauto].
      * intros st [Heq|Hin]; [congruence|].
        cbn [sum_sizes fold_right]. fold (sum_sizes st l).
        fold (sum_sizes st (erase n l)). rewrite (IHsum st Hin). lia.
Qed.

(** X17.  The fingerprint set stays consistent with the nodes: when it
    holds, once each, exactly the file nodes whose iterator is set, and
    [mSumSizes] is the sum of their sizes, then the same is true after
    [add] of a node whose iterator is not set (what [add] asserts), after
    [remove] of any node, and after [newnode] of a node that is not a file
    or whose iterator is not set.  [add] and [remove] leave nodes that are
    not files alone, [remove] does nothing to a node that is not in the
    set, and [remove] after [add] gives back the set and the sum. *)
Theorem fingerprints_consistent (f : Fingerprints) (st : store) (n : ptr) :
  consistent (f, st) ->
  ((forall x, nth_error st n = Some x -> fingerprint_it x = false) ->
   consistent (add n (f, st)))
  /\ consistent (remove n (f, st))
  /\ ((forall x, nth_error st n = Some x ->
         type x <> FILENODE \/ fingerprint_it x = false) ->
      consistent (f, newnode n st))
  /\ ((forall x, nth_error st n = Some x ->
         type x <> FILENODE \/ fingerprint_it x = false) ->
      remove n (f, st) = (f, st))
  /\ ((forall x, nth_error st n = Some x -> fingerprint_it x = false) ->
      fst (remove n (add n (f, st))) = f).
Proof.
  intros (Hsum & Hnd & Hin).
  assert (Hadd : (forall x, nth_error st n = Some x -> fingerprint_it x = false)
                 -> consistent (add n (f, st))).
  { intros Hit. unfold add. destruct (nth_error st n) as [x|] eqn:Hx;
      [|exact (conj Hsum (conj Hnd Hin))].
    destruct (type x =? FILENODE) eqn:Ht;
      [|exact (conj Hsum (conj Hnd Hin))].
    apply Z.eqb_eq in Ht. specialize (Hit x eq_refl).
    assert (Hnotin : ~ In n (mFingerprints f)).
    { rewrite Hin. intros (y & Hy & _ & Hy'). congruence. }
    cbn [consistent mSumSizes mFingerprints]. split; [|split].
    - rewrite Hsum, to_i64_add_l. cbn [sum_sizes fold_right].
      fold (sum_sizes (update n (set_fingerprint_it true x) st)
              (mFingerprints f)).
      rewrite (sum_sizes_update st n x true _ Hx),
        (size_of_update st n x true n Hx).
      unfold size_of. rewrite Hx. f_equal; lia.
    - constructor; assumption.
    - intros p. cbn [In]. destruct (Nat.eq_dec n p) as [<-|Hne].
      + rewrite nth_error_update_same by (apply nth_error_Some; congruence).
        split; [|auto]. intros _. eexists. split; [reflexivity|]. cbn. auto.
      + rewrite nth_error_update_other by exact Hne. rewrite Hin.
        split; [intros [Heq|H]; [congruence|exact H]|auto]. }
  assert (Hnoop : (forall x, nth_error st n = Some x ->
                     type x <> FILENODE \/ fingerprint_it x = false) ->
                  remove n (f, st) = (f, st)).
  { intros Hcond. unfold remove. destruct (nth_error st n) as [x|]; [|reflexivity].
    destruct (Hcond x eq_refl) as [Ht|Hit].
    - apply Z.eqb_neq in Ht. rewrite Ht. reflexivity.
    - rewrite Hit, andb_false_r. reflexivity. }
  split; [exact Hadd|]. split; [|split; [|split; [exact Hnoop|]]].
  - unfold remove. destruct (nth_error st n) as [x|] eqn:Hx;
      [|exact (conj Hsum (conj Hnd Hin))].
    destruct ((type x =? FILENODE) && fingerprint_it x) eqn:Hc;
      [|exact (conj Hsum (conj Hnd Hin))].
    apply andb_true_iff in Hc. destruct Hc as [Ht Hit]. apply Z.eqb_eq in Ht.
    assert (Hnin : In n (mFingerprints f)) by (apply Hin; eauto).
    destruct (erase_spec n (mFingerprints f) Hnd) as (Hnd' & Hin' & Hsum').
    cbn [consistent mSumSizes mFingerprints]. split; [|split].
    + rewrite Hsum.
      replace (to_i64 (sum_sizes st (mFingerprints f)) - size x)
        with (to_i64 (sum_sizes st (mFingerprints f)) + - size x) by lia.
      rewrite to_i64_add_l, (sum_sizes_update st n x false _ Hx),
        (Hsum' st Hnin).
      unfold size_of. rewrite Hx. f_equal; lia.
    + exact Hnd'.
    + intros p. rewrite Hin'. destruct (Nat.eq_dec n p) as [<-|Hne].
      * rewrite nth_error_update_same by (apply nth_error_Some; congruence).
        split; [intros [_ H]; congruence|].
        intros (y & Hy & _ & Hy'). inversion Hy; subst y. discriminate.
      * rewrite nth_error_update_other by exact Hne. rewrite Hin.
        split; [tauto|]. intros H. split; [exact H|congruence].
  - intros Hcond. unfold newnode.
    destruct (nth_error st n) as [x|] eqn:Hx;
      [|exact (conj Hsum (conj Hnd Hin))].
    destruct (type x =? FILENODE) eqn:Ht;
      [|exact (conj Hsum (conj Hnd Hin))].
    apply Z.eqb_eq in Ht.
    destruct (Hcond x eq_refl) as [Hne|Hit]; [contradiction|].
    cbn [consistent]. split; [|split; [exact Hnd|]].
    + rewrite (sum_sizes_update st n x false _ Hx). exact Hsum.
    + intros p. rewrite Hin. destruct (Nat.eq_dec n p) as [<-|Hne].
      * rewrite nth_error_update_same by (apply nth_error_Some; congruence).
        split; intros (y & Hy & _ & Hy'); inversion Hy; subst; cbn in *;
          congruence.
      * rewrite nth_error_update_other by exact Hne. reflexivity.
  - intros Hit. unfold add. destruct (nth_error st n) as [x|] eqn:Hx.
    2: { unfold remove. rewrite Hx. reflexivity. }
    destruct (type x =? FILENODE) eqn:Ht.
    2: { unfold remove. rewrite Hx, Ht. reflexivity. }
    unfold remove.
    rewrite nth_error_update_same by (apply nth_error_Some; congruence).
    cbn [type set_fingerprint_it fingerprint_it size]. rewrite Ht.
    cbn [andb fst mFingerprints mSumSizes erase]. rewrite Nat.eqb_refl.
    destruct f as [l s]. cbn [mFingerprints mSumSizes] in *. f_equal.
    replace (to_i64 (s + size x) - size x)
      with (to_i64 (s + size x) + - size x) by lia.
    rewrite to_i64_add_l. replace (s + size x + - size x) with s by lia.
    rewrite Hsum. apply to_i64_idem.
Qed.

End FingerprintFacts.

(** ** The cloud drive of the examples *)
Section CloudExamples.
Import Bytes Forest CloudNodes FingerprintSet CloudNodeProperties.

Lemma sample_drive_parents_first : parents_first parent sample_drive.
Proof.
  intros p x q Hx Hq.
  do 4 (destruct p as [|p];
        [cbn in Hx; inversion Hx; subst x; cbn in Hq;
         try discriminate; inversion Hq; lia|]).
  destruct p; discriminate.
Qed.

Lemma sample_drive_children_after (p : ptr) (x : Node) (c : ptr) :
  nth_error sample_drive p = Some x -> In c (children x) -> (p < c)%nat.
Proof.
  intros Hx Hc.
  do 4 (destruct p as [|p];
        [cbn in Hx; inversion Hx; subst x; cbn in Hc;
         try contradiction; destruct Hc as [<-|[]]; lia|]).
  destruct p; discriminate.
Qed.

Lemma sample_drive_sizes (p : ptr) (x : Node) :
  nth_error sample_drive p = Some x -> 0 <= size x.
Proof.
  intros Hx.
  do 4 (destruct p as [|p];
        [cbn in Hx; inversion Hx; subst x; cbn; lia|]).
  destruct p; discriminate.
Qed.

Lemma sample_drive_consistent :
  consistent (mkFingerprints [] 0, sample_drive).
Proof.
  cbn [consistent mFingerprints mSumSizes sum_sizes fold_right].
  split; [reflexivity|]. split; [constructor|].
  intros p. split; [intros []|].
  intros (x & Hx & _ & Hit).
  do 4 (destruct p as [|p];
        [cbn in Hx; inversion Hx; subst x; discriminate|]).
  destruct p; discriminate.
Qed.

(** The older version (3) of the file is below the root (0). *)
Lemma isbelow_partial_order_witness :
  isbelow sample_drive 3%nat (Some 0%nat) = true
  /\ forall a b, isbelow sample_drive a (Some b) = true ->
                 isbelow sample_drive b (Some a) = true -> a = b.
Proof.
  split; [reflexivity|].
  destruct (isbelow_partial_order sample_drive sample_drive_parents_first)
    as (_ & _ & _ & Hanti & _).
  exact Hanti.
Defined.

Lemma firstancestor_spec_witness :
  firstancestor sample_drive 3%nat = 0%nat
  /\ forall b, isbelow sample_drive 3%nat (Some b) = true ->
               firstancestor sample_drive b = firstancestor sample_drive 3%nat.
Proof.
  split; [reflexivity|].
  destruct (firstancestor_spec sample_drive 3%nat sample_drive_parents_first
              ltac:(cbn; lia)) as (_ & _ & Hsame).
  exact Hsame.
Defined.

(** The latest version of the older version (3) is the file (2) in the
    folder. *)
Lemma latestFileVersion_spec_witness :
  latestFileVersion sample_drive 3%nat = 2%nat
  /\ isbelow sample_drive 3%nat
       (Some (latestFileVersion sample_drive 3%nat)) = true.
Proof.
  split; [reflexivity|].
  destruct (latestFileVersion_spec sample_drive 3%nat
              (plain_node 103 FILENODE 500 (Some 2%nat) [] "a.txt")
              sample_drive_parents_first eq_refl) as (_ & Hfile).
  destruct (Hfile eq_refl) as (Hbelow & _).
  exact Hbelow.
Defined.

(** The root holds two files, of which one is a version, and a folder. *)
Lemma subnodeCounts_bounds_witness :
  subnodeCounts (length sample_drive) sample_drive 0%nat
  = mkNodeCounter 2 1 1200 1 500
  /\ forall fuel, (length sample_drive <= fuel)%nat ->
       subnodeCounts fuel sample_drive 0%nat
       = subnodeCounts (length sample_drive) sample_drive 0%nat.
Proof.
  split; [reflexivity|].
  destruct (subnodeCounts_bounds sample_drive 0%nat
              sample_drive_children_after sample_drive_sizes) as (Hfuel & _).
  exact Hfuel.
Defined.

Lemma displaypath_spec_witness :
  displaypath sample_drive 2%nat = list_ascii_of_string "/docs/a.txt"
  /\ displaypath sample_drive 3%nat
     = displaypath sample_drive 2%nat
       ++ list_ascii_of_string "/" ++ list_ascii_of_string "a.txt".
Proof.
  split; [reflexivity|].
  destruct (displaypath_spec sample_drive 3%nat
              (plain_node 103 FILENODE 500 (Some 2%nat) [] "a.txt")
              sample_drive_parents_first eq_refl) as (_ & _ & _ & _ & Hfile).
  exact (Hfile (or_introl eq_refl)).
Defined.

(** Adding the file (2) to the empty set of fingerprints. *)
Lemma fingerprints_consistent_witness :
  getSumSizes (fst (add 2%nat (mkFingerprints [] 0, sample_drive))) = 700
  /\ consistent (add 2%nat (mkFingerprints [] 0, sample_drive)).
Proof.
  split; [reflexivity|].
  destruct (fingerprints_consistent (mkFingerprints [] 0) sample_drive 2%nat
              sample_drive_consistent) as (Hadd & _).
  apply Hadd. intros x Hx. inversion Hx. reflexivity.
Defined.

End CloudExamples.

(** ** The timeout at the end of a tick *)
Section SlotTimeoutFacts.
Import Bytes Urls ChunkMacs Requests Clients Collaborators Transfers.
Import Slot SlotProperties SlotTimeout SlotTimeoutProperties.
Context {E : Env}.

Lemma req_at_log (j : nat) (a : action) (s : TransferSlot) :
  req_at j (log a s) = req_at j s.
Proof. reflexivity. Qed.

(** One round of the loop. *)
Lemma timeout_request_step (cp : bool) (s : TransferSlot) (cf : bool)
    (d : list nat) (k : nat) :
  let res := timeout_request cp (s, cf, d) k in
  (forall j, req_at j (fst (fst res))
             = if (j =? k)%nat && inflight s k
               then option_map (rearmed cp) (req_at j s) else req_at j s)
  /\ snd (fst res) = cf || inflight s k
  /\ snd res = (if inflight s k then [k] else []) ++ d
  /\ trace (fst (fst res)) = failed_chunk s k ++ trace s
  /\ transfer (fst (fst res)) = transfer s
  /\ client (fst (fst res)) = client s
  /\ failure (fst (fst res)) = failure s
  /\ connections (fst (fst res)) = connections s.
Proof.
  unfold timeout_request, inflight, failed_chunk.
  destruct (req_at k s) as [rk|] eqn:Hk.
  - destruct (reqstatus_eqb (status rk) REQ_INFLIGHT) eqn:Hin.
    + cbn [fst snd]. split.
      * intros j. destruct (Nat.eqb_spec j k) as [->|Hne]; cbn [andb].
        -- rewrite (req_at_set_req_same k _ rk); [|exact Hk].
           rewrite Hk. reflexivity.
        -- rewrite req_at_set_req_other by congruence. reflexivity.
      * rewrite orb_true_r. cbn. auto 10.
    + cbn [fst snd]. split.
      * intros j. rewrite andb_false_r. reflexivity.
      * rewrite orb_false_r. cbn. auto 10.
  - cbn [fst snd]. split.
    + intros j. rewrite andb_false_r. reflexivity.
    + rewrite orb_false_r. cbn. auto 10.
Qed.

Lemma inflight_ext (s1 s2 : TransferSlot) (j : nat) :
  req_at j s1 = req_at j s2 -> inflight s1 j = inflight s2 j.
Proof. unfold inflight. intros ->. reflexivity. Qed.

Lemma failed_chunk_ext (s1 s2 : TransferSlot) (j : nat) :
  req_at j s1 = req_at j s2 -> failed_chunk s1 j = failed_chunk s2 j.
Proof. unfold failed_chunk. intros ->. reflexivity. Qed.

Lemma filter_ext_in' {A} (f g : A -> bool) (l : list A) :
  (forall a, In a l -> f a = g a) -> filter f l = filter g l.
Proof.
  induction l as [|a l IH]; intros H; [reflexivity|]. cbn [filter].
  rewrite (H a (or_introl eq_refl)), IH; [reflexivity|].
  intros b Hb. apply H. right. exact Hb.
Qed.

Lemma flat_map_ext_in' {A B} (f g : A -> list B) (l : list A) :
  (forall a, In a l -> f a = g a) -> flat_map f l = flat_map g l.
Proof.
  induction l as [|a l IH]; intros H; [reflexivity|]. cbn [flat_map].
  rewrite (H a (or_introl eq_refl)), IH; [reflexivity|].
  intros b Hb. apply H. right. exact Hb.
Qed.

Lemma existsb_ext_in' {A} (f g : A -> bool) (l : list A) :
  (forall a, In a l -> f a = g a) -> existsb f l = existsb g l.
Proof.
  induction l as [|a l IH]; intros H; [reflexivity|]. cbn [existsb].
  rewrite (H a (or_introl eq_refl)), IH; [reflexivity|].
  intros b Hb. apply H. right. exact Hb.
Qed.

(** The loop over the connections: each connection whose request is in
    flight is handled once. *)
Lemma timeout_requests_spec (cp : bool) (idx : list nat) :
  NoDup idx ->
  forall s cf d,
    let res := fold_left (timeout_request cp) idx (s, cf, d) in
    (forall j, req_at j (fst (fst res))
               = if existsb (Nat.eqb j) idx && inflight s j
                 then option_map (rearmed cp) (req_at j s) else req_at j s)
    /\ snd (fst res) = cf || existsb (inflight s) idx
    /\ snd res = filter (inflight s) (rev idx) ++ d
    /\ trace (fst (fst res)) = flat_map (failed_chunk s) (rev idx) ++ trace s
    /\ transfer (fst (fst res)) = transfer s
    /\ client (fst (fst res)) = client s
    /\ failure (fst (fst res)) = failure s
    /\ connections (fst (fst res)) = connections s.
Proof.
  induction idx as [|k idx IH]; intros Hnd s cf d.
  - cbn. rewrite orb_false_r. auto 10.
  - inversion Hnd as [|k' idx' Hk Hnd']; subst k' idx'.
    cbn [fold_left].
    pose proof (timeout_request_step cp s cf d k) as Hstep.
    cbv zeta in Hstep.
    destruct (timeout_request cp (s, cf, d) k) as [[s1 cf1] d1].
    cbn [fst snd] in Hstep.
    destruct Hstep as (Hreq1 & Hcf1 & Hd1 & Htr1 & Ht1 & Hc1 & Hf1 & Hn1).
    specialize (IH Hnd' s1 cf1 d1). cbv zeta in IH.
    destruct IH as (Hreq & Hcf & Hd & Htr & Ht & Hc & Hf & Hn).
    assert (Hsame : forall j, In j idx -> req_at j s1 = req_at j s).
    { intros j Hj. rewrite Hreq1.
      destruct (Nat.eqb_spec j k) as [->|Hne]; [contradiction|reflexivity]. }
    cbv zeta.
    split; [|split; [|split; [|split; [|rewrite Ht, Hc, Hf, Hn; auto]]]].
    + intros j. rewrite Hreq. cbn [existsb].
      destruct (Nat.eqb_spec j k) as [->|Hne].
      * assert (Hnot : existsb (Nat.eqb k) idx = false).
        { destruct (existsb (Nat.eqb k) idx) eqn:He; [|reflexivity].
          apply existsb_exists in He. destruct He as (x & Hx & Hxe).
          apply Nat.eqb_eq in Hxe. subst x. contradiction. }
        rewrite Hnot. cbn [andb orb]. rewrite Hreq1, Nat.eqb_refl.
        reflexivity.
      * cbn [orb]. rewrite (inflight_ext s1 s j), Hreq1.
        -- apply Nat.eqb_neq in Hne. rewrite Hne. reflexivity.
        -- rewrite Hreq1. apply Nat.eqb_neq in Hne. rewrite Hne. reflexivity.
    + rewrite Hcf, Hcf1. cbn [existsb]. rewrite <- orb_assoc. f_equal. f_equal.
      apply existsb_ext_in'. intros j Hj. apply inflight_ext, Hsame, Hj.
    + rewrite Hd, Hd1. cbn [rev]. rewrite filter_app. cbn [filter].
      rewrite <- app_assoc. f_equal.
      apply filter_ext_in'. intros j Hj. apply inflight_ext, Hsame.
      apply in_rev. exact Hj.
    + rewrite Htr, Htr1. cbn [rev]. rewrite flat_map_app. cbn [flat_map].
      rewrite app_nil_r, <- app_assoc. f_equal.
      apply flat_map_ext_in'. intros j Hj. apply failed_chunk_ext, Hsame.
      apply in_rev. exact Hj.
Qed.

Lemma existsb_rev' {A} (f : A -> bool) (l : list A) :
  existsb f (rev l) = existsb f l.
Proof.
  induction l as [|a l IH]; [reflexivity|]. cbn [rev existsb].
  rewrite existsb_app, IH. cbn [existsb]. rewrite orb_false_r.
  apply orb_comm.
Qed.

Lemma no_failed_chunk (s : TransferSlot) (l : list nat) :
  existsb (inflight s) l = false -> flat_map (failed_chunk s) l = [].
Proof.
  induction l as [|j l IH]; [reflexivity|]. cbn [existsb flat_map].
  intros H. apply orb_false_iff in H. destruct H as [Hj Hl].
  rewrite (IH Hl), app_nil_r. unfold inflight in Hj. unfold failed_chunk.
  destruct (req_at j s) as [r|]; [|reflexivity]. rewrite Hj. reflexivity.
Qed.

Lemma timeout_changeport_spec (s : TransferSlot) :
  let s' := fst (timeout_changeport s) in
  snd (timeout_changeport s) = port_change s
  /\ usealtdownport (client s')
     = xorb (usealtdownport (client s))
         (direction_eqb (type (transfer s)) GET && autodownport (client s)
          && is_http (tempURL (transferbuf s) 0))
  /\ usealtupport (client s')
     = xorb (usealtupport (client s))
         (direction_eqb (type (transfer s)) PUT && autoupport (client s)
          && is_http (tempURL (transferbuf s) 0))
  /\ reqs s' = reqs s /\ trace s' = trace s /\ transfer s' = transfer s
  /\ failure s' = failure s /\ connections s' = connections s.
Proof.
  unfold timeout_changeport, port_change.
  destruct (type (transfer s)); cbn [direction_eqb andb orb];
    destruct (autodownport (client s));
    destruct (autoupport (client s));
    destruct (is_http (tempURL (transferbuf s) 0));
    cbn; rewrite ?xorb_false_r, ?xorb_true_r; auto 10.
Qed.

(** X21.  The timeout at the end of a tick.  Unless no data has moved
    for [XFERTIMEOUT] and the slot has no failure yet, nothing happens
    but the backoff.  Otherwise [failure] is set, so that no backoff is
    scheduled, and every request that is in flight on one of the
    connections is disconnected, has its chunk marked as failed and is
    re-armed as PREPARED, its port toggled when the automatic port change
    applies (which flips the client's setting once); no other request
    changes, and none is left in flight.  When no request was in flight
    the transfer fails with [API_EAGAIN] and [doio] returns; when one
    was, the transfer is not failed: the application is told
    [API_EFAILED] once and the tick ends. *)
Theorem doio_timeout_spec (ds backoff : dstime) (s : TransferSlot) :
  let n := Z.to_nat (connections s) in
  let s' := flow_state (fst (doio_timeout ds s)) in
  (timed_out ds s && negb (failure s) = false ->
   doio_timeout ds s = (Next s, [])
   /\ doio_end ds backoff s = (Next (doio_backoff backoff s), []))
  /\ (timed_out ds s && negb (failure s) = true ->
      doio_end ds backoff s = doio_timeout ds s
      /\ failure s' = true /\ transfer s' = transfer s
      /\ snd (doio_timeout ds s) = filter (inflight s) (seq 0 n)
      /\ (forall j, req_at j s'
                    = if (j <? n)%nat && inflight s j
                      then option_map (rearmed (port_change s)) (req_at j s)
                      else req_at j s)
      /\ (forall j, (j < n)%nat -> inflight s' j = false)
      /\ usealtdownport (client s')
         = xorb (usealtdownport (client s))
             (direction_eqb (type (transfer s)) GET
              && autodownport (client s)
              && is_http (tempURL (transferbuf s) 0))
      /\ usealtupport (client s')
         = xorb (usealtupport (client s))
             (direction_eqb (type (transfer s)) PUT
              && autoupport (client s)
              && is_http (tempURL (transferbuf s) 0))
      /\ (existsb (inflight s) (seq 0 n) = false ->
          fst (doio_timeout ds s) = Return s'
          /\ trace s' = transfer_failed API_EAGAIN 0 :: trace s)
      /\ (existsb (inflight s) (seq 0 n) = true ->
          fst (doio_timeout ds s) = Next s'
          /\ trace s' = transferTempErrors_increment
                        :: app_transfer_failed API_EFAILED
                        :: flat_map (failed_chunk s) (seq 0 n) ++ trace s)).
Proof.
  intros n s'. subst s'. unfold doio_end, doio_timeout.
  destruct (timed_out ds s && negb (failure s)) eqn:Hcond.
  2: { split; [auto|discriminate]. }
  split; [discriminate|]. intros _.
  pose proof (timeout_changeport_spec (set_failure true s)) as Hport.
  cbv zeta in Hport.
  destruct (timeout_changeport (set_failure true s)) as [s1 cp].
  cbn [fst snd] in Hport.
  destruct Hport as (Hcp & Hdown & Hup & Hreqs1 & Htr1 & Ht1 & Hf1 & Hn1).
  cbn [set_failure client transfer transferbuf trace reqs failure
       connections] in Hdown, Hup, Hreqs1, Htr1, Ht1, Hf1, Hn1.
  change (port_change (set_failure true s)) with (port_change s) in Hcp.
  assert (Hnd : NoDup (rev (seq 0 n))).
  { apply NoDup_rev, seq_NoDup. }
  rewrite Hn1. fold n.
  pose proof (timeout_requests_spec cp (rev (seq 0 n)) Hnd s1 false [])
    as Hloop.
  cbv zeta in Hloop.
  destruct (fold_left (timeout_request cp) (rev (seq 0 n)) (s1, false, []))
    as [[s2 cf] d].
  cbn [fst snd] in Hloop.
  destruct Hloop as (Hreq & Hcf & Hd & Htr & Ht & Hc & Hf & Hn).
  rewrite rev_involutive, app_nil_r in Hd.
  rewrite rev_involutive in Htr.
  rewrite existsb_rev' in Hcf. cbn [orb] in Hcf.
  assert (Hreq1 : forall j, req_at j s1 = req_at j s).
  { intros j. unfold req_at. rewrite Hreqs1. reflexivity. }
  assert (Hin1 : forall j, inflight s1 j = inflight s j).
  { intros j. apply inflight_ext, Hreq1. }
  assert (Hreq' : forall j,
            req_at j s2
            = if (j <? n)%nat && inflight s j
              then option_map (rearmed (port_change s)) (req_at j s)
              else req_at j s).
  { intros j. rewrite Hreq, existsb_rev_seq, Hin1, Hreq1, Hcp.
    reflexivity. }
  assert (Hnone : forall j, (j < n)%nat -> inflight s2 j = false).
  { intros j Hj. unfold inflight at 1. rewrite Hreq'.
    apply Nat.ltb_lt in Hj. rewrite Hj. cbn [andb].
    destruct (inflight s j) eqn:Hi.
    - destruct (req_at j s) as [r|]; [|reflexivity]. reflexivity.
    - unfold inflight in Hi. exact Hi. }
  assert (Hchunks : flat_map (failed_chunk s1) (seq 0 n)
                    = flat_map (failed_chunk s) (seq 0 n)).
  { apply flat_map_ext_in'. intros j _. apply failed_chunk_ext, Hreq1. }
  assert (Hfilter : filter (inflight s1) (seq 0 n)
                    = filter (inflight s) (seq 0 n)).
  { apply filter_ext_in'. intros j _. apply Hin1. }
  assert (Hex : existsb (inflight s1) (seq 0 n)
                = existsb (inflight s) (seq 0 n)).
  { apply existsb_ext_in'. intros j _. apply Hin1. }
  rewrite Hchunks, Htr1 in Htr. rewrite Hfilter in Hd. rewrite Hex in Hcf.
  destruct cf; cbn [negb fst snd flow_state].
  - split; [unfold doio_backoff; cbn; rewrite Hf, Hf1; reflexivity|].
    split; [cbn; rewrite Hf, Hf1; reflexivity|].
    split; [cbn; rewrite Ht, Ht1; reflexivity|].
    split; [exact Hd|]. split; [exact Hreq'|]. split; [exact Hnone|].
    split; [cbn; rewrite Hc; exact Hdown|].
    split; [cbn; rewrite Hc; exact Hup|].
    split; [intros H; rewrite H in Hcf; discriminate|].
    intros _. split; [reflexivity|]. cbn. rewrite Htr. reflexivity.
  - split; [reflexivity|].
    split; [cbn; rewrite Hf, Hf1; reflexivity|].
    split; [cbn; rewrite Ht, Ht1; reflexivity|].
    split; [exact Hd|]. split; [exact Hreq'|]. split; [exact Hnone|].
    split; [cbn; rewrite Hc; exact Hdown|].
    split; [cbn; rewrite Hc; exact Hup|].
    split; [|intros H; rewrite H in Hcf; discriminate].
    intros Hno. split; [reflexivity|]. cbn. rewrite Htr.
    rewrite (no_failed_chunk s _ Hno). reflexivity.
Qed.

End SlotTimeoutFacts.

(** ** Sending nodes to a user *)
Section PubKeyActionFacts.
Import Bytes Forest Transfers PubKeyActions.
Variable PrnGen : Type.
Variable encrypt : User -> PrnGen -> bytes -> PrnGen * option bytes.

(** The loop from [i] on: the nodes from [i] on are not touched; when it
    runs to its end, every node before [i] has its key encrypted; when it
    stops, it stops at a node whose key the cipher refuses, and the nodes
    between that one and [i] have their keys encrypted. *)
Lemma reencrypt_spec (u : User) (i : nat) :
  forall rng nn, (i <= length nn)%nat ->
    let res := reencrypt PrnGen encrypt u i rng nn in
    let nn' := snd (fst res) in
    length nn' = length nn
    /\ (forall j, (i <= j)%nat -> nth_error nn' j = nth_error nn j)
    /\ (snd res = true ->
        forall j x, (j < i)%nat -> nth_error nn j = Some x ->
          exists x', nth_error nn' j = Some x'
                     /\ encrypts PrnGen encrypt u (nodekey x) (nodekey x'))
    /\ (snd res = false ->
        exists i0 x0, (i0 < i)%nat /\ nth_error nn i0 = Some x0
          /\ refused PrnGen encrypt u (nodekey x0)
          /\ (forall j, (j <= i0)%nat -> nth_error nn' j = nth_error nn j)
          /\ (forall j x, (i0 < j < i)%nat -> nth_error nn j = Some x ->
                exists x', nth_error nn' j = Some x'
                           /\ encrypts PrnGen encrypt u (nodekey x)
                                (nodekey x'))).
Proof.
  induction i as [|i IH]; intros rng nn Hi.
  - cbn. split; [reflexivity|]. split; [reflexivity|].
    split; [intros _ j x Hj; lia|discriminate].
  - cbn [reencrypt].
    destruct (nth_error nn i) as [x|] eqn:Hx;
      [|apply nth_error_None in Hx; lia].
    destruct (encrypt u rng (nodekey x)) as [rng1 [out|]] eqn:Henc.
    + assert (Hlen : length (update i (mkNewNode out) nn) = length nn)
        by apply update_length.
      specialize (IH rng1 (update i (mkNewNode out) nn) ltac:(lia)).
      cbv zeta in IH. destruct IH as (Hl & Hhigh & Hok & Hfail).
      cbv zeta. split; [congruence|]. split; [|split].
      * intros j Hj. rewrite Hhigh by lia.
        apply nth_error_update_other. lia.
      * intros Hres j y Hj Hy. destruct (Nat.eq_dec j i) as [->|Hne].
        -- exists (mkNewNode out). rewrite Hhigh by lia.
           rewrite nth_error_update_same by lia. split; [reflexivity|].
           exists rng. rewrite Hx in Hy. inversion Hy; subst y.
           rewrite Henc. reflexivity.
        -- apply (Hok Hres j y); [lia|].
           rewrite nth_error_update_other by lia. exact Hy.
      * intros Hres.
        destruct (Hfail Hres) as (i0 & x0 & Hi0 & Hx0 & Href & Hlow & Hmid).
        rewrite nth_error_update_other in Hx0 by lia.
        exists i0, x0. split; [lia|]. split; [exact Hx0|].
        split; [exact Href|]. split.
        -- intros j Hj. rewrite Hlow by exact Hj.
           apply nth_error_update_other. lia.
        -- intros j y Hj Hy. destruct (Nat.eq_dec j i) as [->|Hne].
           ++ exists (mkNewNode out). rewrite Hhigh by lia.
              rewrite nth_error_update_same by lia. split; [reflexivity|].
              exists rng. rewrite Hx in Hy. inversion Hy; subst y.
              rewrite Henc. reflexivity.
           ++ apply (Hmid j y); [lia|].
              rewrite nth_error_update_other by lia. exact Hy.
    + cbn [fst snd]. split; [reflexivity|]. split; [reflexivity|].
      split; [discriminate|]. intros _.
      exists i, x. split; [lia|]. split; [exact Hx|].
      split; [exists rng; rewrite Henc; reflexivity|].
      split; [reflexivity|]. intros j y Hj. lia.
Qed.

(** X22.  [PubKeyActionPutNodes::proc] does exactly one of three
    things.  Without a user, or with a user whose public key is not
    valid, it reports [API_ENOENT] with the nodes as they were (and draws
    no random number).  Otherwise it encrypts the node keys from the last
    node to the first.  When all are encrypted it adds one
    [CommandPutNodes] for the user with as many nodes, each with its key
    encrypted, and reports nothing.  When the cipher refuses the key of a
    node it adds no command and reports [API_EINTERNAL] with nodes that
    are changed in part: that node and the ones before it keep their
    keys, the ones after it have theirs encrypted already.  The report
    goes to the completion function when there is one, else to the
    application. *)
Theorem PubKeyActionPutNodes_proc_spec (has_completion : bool) (tag : Z)
    (nn : list NewNode) (u : option User) (rng : PrnGen) :
  let report := fun e nn =>
    if has_completion then completion_call e nn tag
    else app_putnodes_result e nn tag in
  let out := proc PrnGen encrypt has_completion tag nn u rng in
  (forall usr, u = Some usr -> pubk_isvalid usr = false ->
     out = (rng, [report API_ENOENT nn]))
  /\ (u = None -> out = (rng, [report API_ENOENT nn]))
  /\ (forall usr, u = Some usr -> pubk_isvalid usr = true ->
      (exists nn',
         snd out = [reqs_add_CommandPutNodes (CloudNodes.c_str (uid usr)) nn'
                      tag has_completion]
         /\ length nn' = length nn
         /\ forall j x, nth_error nn j = Some x ->
              exists x', nth_error nn' j = Some x'
                         /\ encrypts PrnGen encrypt usr (nodekey x)
                              (nodekey x'))
      \/ (exists nn' i0 x0,
            snd out = [report API_EINTERNAL nn']
            /\ length nn' = length nn
            /\ nth_error nn i0 = Some x0
            /\ refused PrnGen encrypt usr (nodekey x0)
            /\ (forall j, (j <= i0)%nat -> nth_error nn' j = nth_error nn j)
            /\ (forall j x, (i0 < j)%nat -> nth_error nn j = Some x ->
                  exists x', nth_error nn' j = Some x'
                             /\ encrypts PrnGen encrypt usr (nodekey x)
                                  (nodekey x')))).
Proof.
  intros report out. subst out. unfold proc. fold report.
  split; [intros usr -> ->; reflexivity|].
  split; [intros ->; reflexivity|].
  intros usr -> ->.
  pose proof (reencrypt_spec usr (length nn) rng nn (le_n _)) as H.
  cbv zeta in H.
  destruct (reencrypt PrnGen encrypt usr (length nn) rng nn)
    as [[rng' nn'] ok].
  cbn [fst snd] in H. destruct H as (Hlen & _ & Hok & Hfail).
  destruct ok.
  - left. exists nn'. split; [reflexivity|]. split; [exact Hlen|].
    intros j x Hx. apply (Hok eq_refl j x); [|exact Hx].
    apply nth_error_Some. congruence.
  - right. destruct (Hfail eq_refl) as (i0 & x0 & Hi0 & Hx0 & Href & Hlow & Hmid).
    exists nn', i0, x0. split; [reflexivity|]. split; [exact Hlen|].
    split; [exact Hx0|]. split; [exact Href|]. split; [exact Hlow|].
    intros j x Hj Hx. apply (Hmid j x); [|exact Hx].
    split; [exact Hj|]. apply nth_error_Some. congruence.
Qed.

End PubKeyActionFacts.

(** ** Recomputing the exclusion state *)
Section ExclusionFacts.
Import Bytes Forest SyncTree SyncTreeExclusion SyncTreeExclusionProperties.

Lemma flags_only_refl (st : store) : flags_only st st.
Proof. split; [reflexivity|]. intros p x Hx. exists x. auto. Qed.

Lemma flags_only_trans (st1 st2 st3 : store) :
  flags_only st1 st2 -> flags_only st2 st3 -> flags_only st1 st3.
Proof.
  intros [Hl12 H12] [Hl23 H23]. split; [congruence|].
  intros p x Hx. destruct (H12 p x Hx) as (x' & Hx' & Hc).
  destruct (H23 p x' Hx') as (x'' & Hx'' & Hc'). exists x''.
  split; [exact Hx''|].
  destruct Hc as [->|[Hu ->]]; [exact Hc'|].
  destruct Hc' as [->|[Hu' _]]; [auto|]. cbn in Hu'. discriminate.
Qed.

Lemma flags_only_update (st : store) (c : ptr) (child : LocalNode) :
  nth_error st c = Some child -> mRecomputeExclusionState child = false ->
  flags_only st (update c (flag child) st).
Proof.
  intros Hc Hu. split; [apply update_length|]. intros p x Hx.
  destruct (Nat.eq_dec c p) as [->|Hne].
  - exists (flag child).
    rewrite nth_error_update_same by (apply nth_error_Some; congruence).
    split; [reflexivity|]. right. rewrite Hc in Hx. inversion Hx; subst x.
    auto.
  - exists x. rewrite nth_error_update_other by exact Hne. auto.
Qed.

(** Flagged nodes stay as they are. *)
Lemma flags_only_flagged (st st' : store) (p : ptr) (x : LocalNode) :
  flags_only st st' -> nth_error st p = Some x ->
  mRecomputeExclusionState x = true -> nth_error st' p = Some x.
Proof.
  intros [_ H] Hx Hf. destruct (H p x Hx) as (x' & Hx' & [->|[Hu _]]);
    [exact Hx'|congruence].
Qed.

(** Nothing leaves or enters the store, and the tree keeps its shape. *)
Lemma flags_only_back (st st' : store) (p : ptr) (x' : LocalNode) :
  flags_only st st' -> nth_error st' p = Some x' ->
  exists x, nth_error st p = Some x /\ type x' = type x
            /\ children x' = children x
            /\ (mRecomputeExclusionState x = true -> x' = x)
            /\ (x' = x \/ (mRecomputeExclusionState x = false
                           /\ x' = flag x)).
Proof.
  intros [Hl H] Hx'.
  destruct (nth_error st p) as [x|] eqn:Hx.
  - destruct (H p x Hx) as (y & Hy & Hc). rewrite Hx' in Hy.
    inversion Hy; subst y. exists x. split; [reflexivity|].
    destruct Hc as [->|[Hu ->]]; cbn; auto 6.
    split; [reflexivity|]. split; [reflexivity|].
    split; [congruence|auto].
  - apply nth_error_None in Hx.
    assert (nth_error st' p = None) by (apply nth_error_None; lia).
    congruence.
Qed.

Lemma unflagged_le (st : store) : (unflagged st <= length st)%nat.
Proof. apply filter_length_le. Qed.

Lemma unflagged_update (st : store) (c : ptr) (child : LocalNode) :
  nth_error st c = Some child -> mRecomputeExclusionState child = false ->
  S (unflagged (update c (flag child) st)) = unflagged st.
Proof.
  unfold unflagged. revert c.
  induction st as [|y t IH]; intros [|c] Hc Hu; cbn in Hc; try discriminate.
  - inversion Hc; subst y. cbn [update filter]. rewrite Hu. reflexivity.
  - cbn [update filter].
    destruct (negb (mRecomputeExclusionState y)); cbn [length];
      rewrite <- (IH c Hc Hu); reflexivity.
Qed.

(** The loop over the children of one node. *)
Lemma flag_children_spec (cs : list ptr) :
  forall st pending,
    let st' := fst (flag_children cs (st, pending)) in
    let pending' := snd (flag_children cs (st, pending)) in
    flags_only st st'
    /\ (exists new,
          pending' = pending ++ new
          /\ (forall c, In c new -> flagged st' c)
          /\ (length new + unflagged st' <= unflagged st)%nat)
    /\ (forall c y', In c cs -> nth_error st' c = Some y' ->
                     mRecomputeExclusionState y' = true)
    /\ (forall c y y', nth_error st c = Some y ->
          mRecomputeExclusionState y = false ->
          type y = LocalNodes.FOLDERNODE ->
          nth_error st' c = Some y' ->
          mRecomputeExclusionState y' = true -> In c pending').
Proof.
  induction cs as [|c rest IH]; intros st pending.
  - cbn [flag_children fst snd]. split; [apply flags_only_refl|].
    split.
    { exists []. rewrite app_nil_r. split; [reflexivity|].
      split; [intros c []|]. cbn [length]. lia. }
    split; [intros c y' []|]. intros c y y' Hy Hu _ Hy' Hf. congruence.
  - cbn [flag_children].
    destruct (nth_error st c) as [child|] eqn:Hc.
    + destruct (mRecomputeExclusionState child) eqn:Hchild.
      * specialize (IH st pending). cbv zeta in IH.
        destruct IH as (Hfl & Hnew & Hall & Hq).
        cbv zeta. split; [exact Hfl|]. split; [exact Hnew|].
        split; [|exact Hq].
        intros c' y' [<-|Hin] Hy'; [|exact (Hall c' y' Hin Hy')].
        rewrite (flags_only_flagged _ _ _ _ Hfl Hc Hchild) in Hy'.
        congruence.
      * set (pending1 := if type child =? LocalNodes.FOLDERNODE
                         then pending ++ [c] else pending).
        specialize (IH (update c (flag child) st) pending1).
        cbv zeta in IH. destruct IH as (Hfl & Hnew & Hall & Hq).
        pose proof (flags_only_update st c child Hc Hchild) as Hfl1.
        assert (Hc1 : nth_error (update c (flag child) st) c
                      = Some (flag child))
          by (apply nth_error_update_same, nth_error_Some; congruence).
        assert (Hc' : nth_error
                        (fst (flag_children rest
                                (update c (flag child) st, pending1))) c
                      = Some (flag child))
          by (apply (flags_only_flagged _ _ _ _ Hfl Hc1); reflexivity).
        cbv zeta. split; [exact (flags_only_trans _ _ _ Hfl1 Hfl)|].
        split; [|split].
        -- destruct Hnew as (new & Hp & Hnewf & Hcount).
           pose proof (unflagged_update st c child Hc Hchild) as Hun.
           exists ((if type child =? LocalNodes.FOLDERNODE then [c] else [])
                   ++ new).
           split; [|split].
           ++ etransitivity; [exact Hp|]. subst pending1.
              destruct (type child =? LocalNodes.FOLDERNODE);
                [rewrite <- app_assoc|]; reflexivity.
           ++ intros c' Hin. apply in_app_or in Hin.
              destruct Hin as [Hin|Hin]; [|exact (Hnewf c' Hin)].
              destruct (type child =? LocalNodes.FOLDERNODE);
                [|contradiction].
              destruct Hin as [<-|[]]. exists (flag child).
              split; [exact Hc'|reflexivity].
           ++ rewrite length_app.
              unfold store in *.
              destruct (type child =? LocalNodes.FOLDERNODE); cbn [length];
                lia.
        -- intros c' y' [<-|Hin] Hy'; [|exact (Hall c' y' Hin Hy')].
           rewrite Hc' in Hy'. inversion Hy'. reflexivity.
        -- intros c' y y' Hy Hu Hty Hy' Hf.
           destruct (Nat.eq_dec c c') as [<-|Hne].
           ++ rewrite Hc in Hy. inversion Hy; subst y.
              destruct Hnew as (new & Hp & _). unfold store in *.
              rewrite Hp. subst pending1.
              apply Z.eqb_eq in Hty. rewrite Hty.
              apply in_or_app. left. apply in_or_app. right. left.
              reflexivity.
           ++ apply (Hq c' y y'); auto.
              rewrite nth_error_update_other by exact Hne. exact Hy.
    + specialize (IH st pending). cbv zeta in IH.
      destruct IH as (Hfl & Hnew & Hall & Hq).
      cbv zeta. split; [exact Hfl|]. split; [exact Hnew|].
      split; [|exact Hq].
      intros c' y' [<-|Hin] Hy'; [|exact (Hall c' y' Hin Hy')].
      destruct (flags_only_back _ _ _ _ Hfl Hy') as (x & Hx & _).
      congruence.
Qed.

Lemma flagged_mono (st st' : store) (p : ptr) :
  flags_only st st' -> flagged st p -> flagged st' p.
Proof.
  intros Hfl (x & Hx & Hf). exists x.
  split; [exact (flags_only_flagged _ _ _ _ Hfl Hx Hf)|exact Hf].
Qed.

(** The loop of [setRecomputeExclusionState]: with fuel for every node
    that is in [pending] or may still get there, it runs until [pending]
    is empty. *)
Lemma drain_spec (this : ptr) (fuel : nat) :
  forall st pending,
    drain_inv this st pending ->
    (length pending + unflagged st <= fuel)%nat ->
    flags_only st (drain fuel st pending)
    /\ drain_inv this (drain fuel st pending) [].
Proof.
  induction fuel as [|k IH]; intros st pending Hinv Hfuel.
  - destruct pending; [|cbn in Hfuel; lia].
    cbn. split; [apply flags_only_refl|exact Hinv].
  - destruct pending as [|p rest].
    { cbn. split; [apply flags_only_refl|exact Hinv]. }
    destruct Hinv as (Hthis & Hpend & Hclosed).
    destruct (Hpend p (or_introl eq_refl)) as (node & Hnode & Hnf).
    cbn [drain]. rewrite Hnode.
    pose proof (flag_children_spec (children node) st (p :: rest)) as Hfc.
    cbv zeta in Hfc.
    destruct (flag_children (children node) (st, p :: rest)) as [st1 pending1].
    cbn [fst snd] in Hfc.
    destruct Hfc as (Hfl & (new & Hp1 & Hnewf & Hcount) & Hall & Hq).
    subst pending1. cbn [app tl].
    assert (Hinv1 : drain_inv this st1 (rest ++ new)).
    { split; [exact (flagged_mono _ _ _ Hfl Hthis)|]. split.
      - intros q Hq'. apply in_app_or in Hq'. destruct Hq' as [Hq'|Hq'].
        + apply (flagged_mono _ _ _ Hfl). apply Hpend. right. exact Hq'.
        + exact (Hnewf q Hq').
      - intros q x1 c y Hx1 Hf1 Hdesc Hnotin Hc Hy.
        destruct (Nat.eq_dec q p) as [->|Hne].
        + rewrite (flags_only_flagged _ _ _ _ Hfl Hnode Hnf) in Hx1.
          inversion Hx1; subst x1. exact (Hall c y Hc Hy).
        + destruct (flags_only_back _ _ _ _ Hfl Hx1)
            as (x0 & Hx0 & Hty & Hch & Hsame & Hcase).
          destruct (mRecomputeExclusionState x0) eqn:Hf0.
          * destruct (flags_only_back _ _ _ _ Hfl Hy)
              as (y0 & Hy0 & _ & _ & Hysame & _).
            assert (Hy0f : mRecomputeExclusionState y0 = true).
            { apply (Hclosed q x0 c y0 Hx0 Hf0).
              - rewrite <- Hty. exact Hdesc.
              - intros [Heq|Hin]; [congruence|].
                apply Hnotin. apply in_or_app. left. exact Hin.
              - rewrite <- Hch. exact Hc.
              - exact Hy0. }
            rewrite (Hysame Hy0f). exact Hy0f.
          * exfalso. destruct Hdesc as [Hfolder|Heq].
            -- apply Hnotin.
               assert (Hin : In q ((p :: rest) ++ new)).
               { apply (Hq q x0 x1 Hx0 Hf0); [congruence|exact Hx1|exact Hf1]. }
               cbn [app] in Hin. destruct Hin as [Heq|Hin]; [congruence|].
               exact Hin.
            -- subst q. destruct Hthis as (t & Ht & Htf). congruence. }
    assert (Hfuel1 : (length (rest ++ new) + unflagged st1 <= k)%nat).
    { rewrite length_app. cbn [length] in Hfuel. lia. }
    destruct (IH st1 (rest ++ new) Hinv1 Hfuel1) as (Hfl' & Hinv').
    split; [exact (flags_only_trans _ _ _ Hfl Hfl')|exact Hinv'].
Qed.

(** More fuel than that changes nothing. *)
Lemma drain_fuel (f1 : nat) :
  forall f2 st pending,
    (forall p, In p pending -> flagged st p) ->
    (length pending + unflagged st <= f1)%nat ->
    (length pending + unflagged st <= f2)%nat ->
    drain f1 st pending = drain f2 st pending.
Proof.
  induction f1 as [|k1 IH]; intros f2 st pending Hpend H1 H2.
  - destruct pending; [|cbn in H1; lia]. destruct f2; reflexivity.
  - destruct pending as [|p rest]; [destruct f2; reflexivity|].
    destruct f2 as [|k2]; [cbn in H2; lia|].
    destruct (Hpend p (or_introl eq_refl)) as (node & Hnode & Hnf).
    cbn [drain]. rewrite Hnode.
    pose proof (flag_children_spec (children node) st (p :: rest)) as Hfc.
    cbv zeta in Hfc.
    destruct (flag_children (children node) (st, p :: rest)) as [st1 pending1].
    cbn [fst snd] in Hfc.
    destruct Hfc as (Hfl & (new & Hp1 & Hnewf & Hcount) & _ & _).
    subst pending1. cbn [app tl]. cbn [length] in H1, H2.
    apply IH.
    + intros q Hq'. apply in_app_or in Hq'. destruct Hq' as [Hq'|Hq'].
      * apply (flagged_mono _ _ _ Hfl). apply Hpend. right. exact Hq'.
      * exact (Hnewf q Hq').
    + rewrite length_app. lia.
    + rewrite length_app. lia.
Qed.

(** Where the children of flagged folders are flagged, everything below
    a flagged node, through folders, is flagged. *)
Lemma below_folders_flagged (st st' : store) (top : ptr) :
  flags_only st st' -> closed st' -> flagged st' top ->
  forall d, below_folders st top d ->
    forall y, nth_error st' d = Some y -> mRecomputeExclusionState y = true.
Proof.
  intros Hfl Hclosed (t & Ht & Htf) d Hd.
  induction Hd as [|p c Hp IH (x & Hx & Hty & Hc)]; intros y Hy.
  - congruence.
  - destruct Hfl as [Hl Hfw]. destruct (Hfw p x Hx) as (x' & Hx' & Hcase).
    assert (Hshape : type x' = type x /\ children x' = children x)
      by (destruct Hcase as [->|[_ ->]]; split; reflexivity).
    destruct Hshape as [Hty' Hch'].
    apply (Hclosed p x' c y Hx' (IH x' Hx')); [congruence| |exact Hy].
    rewrite Hch'. exact Hc.
Qed.

Lemma closed_after_flag (st : store) (this : ptr) (x : LocalNode) :
  nth_error st this = Some x -> mRecomputeExclusionState x = false ->
  closed st ->
  forall p x1 c y,
    nth_error (update this (flag x) st) p = Some x1 ->
    mRecomputeExclusionState x1 = true ->
    type x1 = LocalNodes.FOLDERNODE -> p <> this ->
    In c (children x1) ->
    nth_error (update this (flag x) st) c = Some y ->
    mRecomputeExclusionState y = true.
Proof.
  intros Hx Hu Hclosed p x1 c y Hx1 Hf1 Hty Hne Hc Hy.
  rewrite nth_error_update_other in Hx1 by congruence.
  destruct (Nat.eq_dec this c) as [<-|Hnc].
  - rewrite nth_error_update_same in Hy
      by (apply nth_error_Some; congruence).
    inversion Hy. reflexivity.
  - rewrite nth_error_update_other in Hy by exact Hnc.
    exact (Hclosed p x1 c y Hx1 Hf1 Hty Hc Hy).
Qed.

Lemma setRecomputeExclusionState_core (st : store) (this : ptr)
    (x : LocalNode) :
  nth_error st this = Some x -> closed st ->
  flags_only st (setRecomputeExclusionState this st)
  /\ flagged (setRecomputeExclusionState this st) this
  /\ closed (setRecomputeExclusionState this st)
  /\ (mRecomputeExclusionState x = false ->
      type x <> LocalNodes.FILENODE ->
      forall c y, In c (children x) ->
        nth_error (setRecomputeExclusionState this st) c = Some y ->
        mRecomputeExclusionState y = true).
Proof.
  intros Hx Hclosed. unfold setRecomputeExclusionState. rewrite Hx.
  destruct (mRecomputeExclusionState x) eqn:Hu.
  { split; [apply flags_only_refl|]. split; [exists x; auto|].
    split; [exact Hclosed|discriminate]. }
  pose proof (flags_only_update st this x Hx Hu) as Hfl1.
  assert (Hthis1 : nth_error (update this (flag x) st) this = Some (flag x))
    by (apply nth_error_update_same, nth_error_Some; congruence).
  destruct (type x =? LocalNodes.FILENODE) eqn:Hty.
  - apply Z.eqb_eq in Hty.
    split; [exact Hfl1|]. split; [exists (flag x); auto|].
    split; [|intros _ Hne; contradiction].
    intros p x1 c y Hx1 Hf1 Hty1 Hc Hy.
    destruct (Nat.eq_dec p this) as [->|Hne].
    + rewrite Hthis1 in Hx1. inversion Hx1; subst x1. cbn in Hty1.
      rewrite Hty in Hty1. discriminate.
    + exact (closed_after_flag st this x Hx Hu Hclosed p x1 c y
               Hx1 Hf1 Hty1 Hne Hc Hy).
  - assert (Hinv : drain_inv this (update this (flag x) st) [this]).
    { split; [exists (flag x); auto|]. split.
      - intros p [<-|[]]. exists (flag x). auto.
      - intros p x1 c y Hx1 Hf1 Hdesc Hnotin Hc Hy.
        assert (Hne : p <> this) by (intros ->; apply Hnotin; left; reflexivity).
        destruct Hdesc as [Hty1|Heq]; [|contradiction].
        exact (closed_after_flag st this x Hx Hu Hclosed p x1 c y
                 Hx1 Hf1 Hty1 Hne Hc Hy). }
    pose proof (unflagged_le (update this (flag x) st)) as Hle.
    destruct (drain_spec this (S (length (update this (flag x) st)))
                (update this (flag x) st) [this] Hinv
                ltac:(cbn [length]; lia))
      as (Hfl & Hthis' & _ & Hclosed').
    split; [exact (flags_only_trans _ _ _ Hfl1 Hfl)|].
    split; [exact Hthis'|]. split.
    + intros p x1 c y Hx1 Hf1 Hty1 Hc Hy.
      exact (Hclosed' p x1 c y Hx1 Hf1 (or_introl Hty1)
               (fun H => H) Hc Hy).
    + intros _ _ c y Hc Hy.
      pose proof (flags_only_flagged _ _ _ _ Hfl Hthis1 eq_refl) as Hx'.
      exact (Hclosed' this (flag x) c y Hx' eq_refl (or_intror eq_refl)
               (fun H => H) Hc Hy).
Qed.

(** X23.  [setRecomputeExclusionState] flags the whole subtree.  In a
    tree where the children of every flagged folder are flagged, the call
    leaves it so and flags the node; nothing changes but that nodes get
    flagged, their [mExcluded] reset; the children of the node are flagged
    unless it is a file, and every node that is reached from it through
    folders is flagged.  A node that is flagged already is left
    alone with its subtree.  The loop ends: no node enters [pending]
    twice, and one round more than there are nodes, or any number above,
    gives the same tree. *)
Theorem setRecomputeExclusionState_spec (st : store) (this : ptr)
    (x : LocalNode) :
  nth_error st this = Some x -> closed st ->
  flags_only st (setRecomputeExclusionState this st)
  /\ flagged (setRecomputeExclusionState this st) this
  /\ closed (setRecomputeExclusionState this st)
  /\ (mRecomputeExclusionState x = true ->
      setRecomputeExclusionState this st = st)
  /\ (mRecomputeExclusionState x = false ->
      type x <> LocalNodes.FILENODE ->
      (forall c y, In c (children x) ->
         nth_error (setRecomputeExclusionState this st) c = Some y ->
         mRecomputeExclusionState y = true)
      /\ (forall fuel, (S (length st) <= fuel)%nat ->
            drain fuel (update this (flag x) st) [this]
            = setRecomputeExclusionState this st))
  /\ (forall d y, below_folders st this d ->
        nth_error (setRecomputeExclusionState this st) d = Some y ->
        mRecomputeExclusionState y = true).
Proof.
  intros Hx Hclosed.
  destruct (setRecomputeExclusionState_core st this x Hx Hclosed)
    as (Hfl & Hthis & Hclosed' & Hchildren).
  split; [exact Hfl|]. split; [exact Hthis|]. split; [exact Hclosed'|].
  split; [|split].
  - intros Hf. unfold setRecomputeExclusionState. rewrite Hx, Hf.
    reflexivity.
  - intros Hu Hty. split; [exact (Hchildren Hu Hty)|].
    intros fuel Hfuel. unfold setRecomputeExclusionState.
    rewrite Hx, Hu. apply Z.eqb_neq in Hty. rewrite Hty.
    pose proof (unflagged_le (update this (flag x) st)) as Hle.
    rewrite update_length in *.
    apply drain_fuel.
    + intros p [<-|[]]. exists (flag x). split; [|reflexivity].
      apply nth_error_update_same, nth_error_Some. congruence.
    + cbn [length]. lia.
    + cbn [length]. lia.
  - intros d y Hd Hy.
    exact (below_folders_flagged st _ this Hfl Hclosed' Hthis d Hd y Hy).
Qed.

Lemma below_folders_dangling (st : store) (top d : ptr) :
  below_folders st top d -> nth_error st top = None -> d = top.
Proof.
  intros Hd Hnone. induction Hd as [|p c Hp IH (x & Hx & _)];
    [reflexivity|].
  subst p. congruence.
Qed.

(** The loop of [setLoadPending] over the children. *)
Lemma flag_subtrees (cs : list ptr) :
  forall st, closed st ->
    let st' := fold_left (fun st c => setRecomputeExclusionState c st) cs st in
    flags_only st st' /\ closed st'
    /\ forall c x, In c cs -> nth_error st c = Some x -> flagged st' c.
Proof.
  induction cs as [|c rest IH]; intros st Hclosed.
  - cbn. split; [apply flags_only_refl|]. split; [exact Hclosed|].
    intros c x [].
  - cbn [fold_left].
    assert (H1 : flags_only st (setRecomputeExclusionState c st)
                 /\ closed (setRecomputeExclusionState c st)
                 /\ forall x, nth_error st c = Some x ->
                      flagged (setRecomputeExclusionState c st) c).
    { destruct (nth_error st c) as [x|] eqn:Hx.
      - destruct (setRecomputeExclusionState_core st c x Hx Hclosed)
          as (Hfl & Hthis & Hclosed' & _). auto.
      - unfold setRecomputeExclusionState. rewrite Hx.
        split; [apply flags_only_refl|]. split; [exact Hclosed|].
        discriminate. }
    destruct H1 as (Hfl1 & Hclosed1 & Hc1).
    specialize (IH _ Hclosed1). cbv zeta in IH.
    destruct IH as (Hfl & Hclosed' & Hrest).
    cbv zeta. split; [exact (flags_only_trans _ _ _ Hfl1 Hfl)|].
    split; [exact Hclosed'|].
    intros c' x [<-|Hin] Hx.
    + exact (flagged_mono _ _ _ Hfl (Hc1 x Hx)).
    + destruct Hfl1 as [_ Hfw]. destruct (Hfw c' x Hx) as (x' & Hx' & _).
      exact (Hrest c' x' Hin Hx').
Qed.

(** X24.  [setLoadPending] sets [mLoadPending] and, unless a load was
    pending already, makes the whole subtree recompute its exclusion
    state: in a tree where the children of every flagged folder are
    flagged, that is so afterwards as well, and every child of the node,
    with every node that is reached from it through folders, is flagged.
    When a load was pending already, only [mLoadPending] is assigned. *)
Theorem setLoadPending_spec (pending : bool) (st : store) (this : ptr)
    (x : LocalNode) :
  nth_error st this = Some x -> closed st ->
  (exists x', nth_error (setLoadPending pending this st) this = Some x'
              /\ mLoadPending x' = pending)
  /\ closed (setLoadPending pending this st)
  /\ length (setLoadPending pending this st) = length st
  /\ (mLoadPending x = true ->
      setLoadPending pending this st
      = modify this (set_mLoadPending pending) st)
  /\ (mLoadPending x = false ->
      forall c d y, In c (children x) -> below_folders st c d ->
        nth_error (setLoadPending pending this st) d = Some y ->
        mRecomputeExclusionState y = true).
Proof.
  intros Hx Hclosed. unfold setLoadPending. rewrite Hx.
  set (st1 := if negb (mLoadPending x)
              then fold_left (fun st c => setRecomputeExclusionState c st)
                     (children x) st
              else st).
  assert (H1 : flags_only st st1 /\ closed st1
               /\ (mLoadPending x = false ->
                   forall c z, In c (children x) ->
                     nth_error st c = Some z -> flagged st1 c)).
  { subst st1. destruct (mLoadPending x); cbn [negb].
    - split; [apply flags_only_refl|]. split; [exact Hclosed|discriminate].
    - destruct (flag_subtrees (children x) st Hclosed) as (Hfl & Hc & Hall).
      auto. }
  destruct H1 as (Hfl & Hclosed1 & Hall).
  assert (Hback : forall p y,
            nth_error (modify this (set_mLoadPending pending) st1) p = Some y ->
            exists y1, nth_error st1 p = Some y1
                       /\ mRecomputeExclusionState y = mRecomputeExclusionState y1
                       /\ type y = type y1 /\ children y = children y1).
  { intros p y Hy. rewrite nth_error_modify in Hy.
    destruct (p =? this)%nat.
    - destruct (nth_error st1 p) as [y1|]; [|discriminate].
      inversion Hy. exists y1. auto.
    - exists y. auto. }
  split; [|split; [|split; [|split]]].
  - destruct Hfl as [_ Hfw]. destruct (Hfw this x Hx) as (x1 & Hx1 & _).
    exists (set_mLoadPending pending x1).
    rewrite nth_error_modify, Nat.eqb_refl, Hx1. auto.
  - intros p x' c y Hx' Hf Hty Hc Hy.
    destruct (Hback p x' Hx') as (x1 & Hx1 & Hf1 & Hty1 & Hch1).
    destruct (Hback c y Hy) as (y1 & Hy1 & Hfy & _).
    rewrite Hfy. apply (Hclosed1 p x1 c y1 Hx1); congruence.
  - rewrite modify_length. apply Hfl.
  - intros Hp. subst st1. rewrite Hp. reflexivity.
  - intros Hp c d y Hc Hd Hy.
    destruct (Hback d y Hy) as (y1 & Hy1 & Hfy & _). rewrite Hfy.
    destruct (nth_error st c) as [z|] eqn:Hz.
    + exact (below_folders_flagged st st1 c Hfl Hclosed1
               (Hall Hp c z Hc Hz) d Hd y1 Hy1).
    + pose proof (below_folders_dangling st c d Hd Hz) as ->.
      destruct (flags_only_back _ _ _ _ Hfl Hy1) as (z' & Hz' & _).
      congruence.
Qed.

Import SyncTreeProperties.

Lemma sample_tree_closed : closed sample_tree.
Proof.
  intros p x c y Hx Hf.
  do 4 (destruct p as [|p];
        [cbn in Hx; inversion Hx; subst x; discriminate|]).
  destruct p; discriminate.
Qed.

(** Flagging the root of the sample tree flags its four nodes. *)
Lemma setRecomputeExclusionState_spec_witness :
  map mRecomputeExclusionState (setRecomputeExclusionState 0%nat sample_tree)
  = [true; true; true; true]
  /\ closed (setRecomputeExclusionState 0%nat sample_tree).
Proof.
  split; [reflexivity|].
  destruct (setRecomputeExclusionState_spec sample_tree 0%nat
              (fresh_node LocalNodes.FOLDERNODE None [1; 3]%nat)
              eq_refl sample_tree_closed) as (_ & _ & Hclosed & _).
  exact Hclosed.
Defined.

(** A pending load of the folder 1 flags the file 2 in it, and nothing
    else. *)
Lemma setLoadPending_spec_witness :
  map mRecomputeExclusionState (setLoadPending true 1%nat sample_tree)
  = [false; false; true; false]
  /\ closed (setLoadPending true 1%nat sample_tree).
Proof.
  split; [reflexivity|].
  destruct (setLoadPending_spec true sample_tree 1%nat
              (fresh_node LocalNodes.FOLDERNODE (Some 0%nat) [2%nat])
              eq_refl sample_tree_closed) as (_ & Hclosed & _).
  exact Hclosed.
Defined.

End ExclusionFacts.

(** ** The timeout and the public key action on the samples *)
Section LateExamples.
Import Bytes Urls ChunkMacs Requests Clients Collaborators Transfers.
Import Slot SlotProperties Samples SlotTimeout SlotTimeoutProperties.
Import PubKeyActions LateSamples.

(** After 60 seconds without data the request in flight is re-armed on
    the other port and the transfer goes on; a tenth of a second earlier
    nothing happens. *)
Example doio_timeout_stalled_download :
  let out := doio_timeout 600 sample_stalled_download in
  let s' := flow_state (fst out) in
  snd out = [0%nat]
  /\ option_map status (req_at 0 s') = Some REQ_PREPARED
  /\ option_map posturl (req_at 0 s') = Some (toggleport sample_tempurl)
  /\ req_at 1 s' = req_at 1 sample_stalled_download
  /\ usealtdownport (client s') = true
  /\ trace s' = [transferTempErrors_increment;
                 app_transfer_failed API_EFAILED;
                 setchunkfailed sample_tempurl]
  /\ option_map status
       (req_at 0 (flow_state (fst (doio_timeout 599 sample_stalled_download))))
     = Some REQ_INFLIGHT
  /\ snd (doio_timeout 599 sample_stalled_download) = [].
Proof. vm_compute. repeat split. Qed.

(** The key of the second of three nodes is refused: the third node has
    its key encrypted already when the error is reported. *)
Example PubKeyActionPutNodes_proc_refused :
  proc nat sample_encrypt true 7
    [mkNewNode [x01]; mkNewNode []; mkNewNode [x03]] (Some sample_user) 0%nat
  = (2%nat,
     [completion_call API_EINTERNAL
        [mkNewNode [x01]; mkNewNode []; mkNewNode [x03; x00]] 7]).
Proof. reflexivity. Qed.

End LateExamples.
